(** * A shallow embedding of [mm.c]: a 64-bit explicit-free-list allocator
      with boundary-tag coalescing and footer-less allocated blocks.

    The heap is a byte-addressed memory; headers, footers and free-list
    links are 64-bit little-endian words read and written through
    [load64]/[store64].  [size_t] arithmetic wraps modulo 2^64; pointer
    arithmetic is plain address arithmetic. *)

From Stdlib Require Import ZArith List Lia Bool Permutation.
Import ListNotations.
Open Scope Z_scope.

(** ** Byte-addressed memory *)

Module Mem.

Definition mem := Z -> Z.

Definition byte_at (m : mem) (a : Z) : Z := m a mod 256.

Definition store8 (m : mem) (a v : Z) : mem :=
  fun x => if x =? a then v mod 256 else m x.

Fixpoint load_bytes (n : nat) (m : mem) (a : Z) : Z :=
  match n with
  | O => 0
  | S k => byte_at m a + 256 * load_bytes k m (a + 1)
  end.

Fixpoint store_bytes (n : nat) (m : mem) (a v : Z) : mem :=
  match n with
  | O => m
  | S k => store_bytes k (store8 m a v) (a + 1) (v / 256)
  end.

Definition load64 : mem -> Z -> Z := load_bytes 8.
Definition store64 : mem -> Z -> Z -> mem := store_bytes 8.

(** [memcpy] and [memset] of the C library, on non-overlapping regions. *)
Definition memcpy (m : mem) (dst src n : Z) : mem :=
  fun x => if (dst <=? x) && (x <? dst + n) then m (src + (x - dst)) else m x.

Definition memset (m : mem) (dst c n : Z) : mem :=
  fun x => if (dst <=? x) && (x <? dst + n) then c mod 256 else m x.

End Mem.
Import Mem.

(** ** Machine words and the constants of the allocator *)

Definition word_max : Z := 2 ^ 64.
Definition wrap (x : Z) : Z := x mod word_max.

Definition wsize : Z := 8.
Definition dsize : Z := 2 * 8.
Definition min_block_size : Z := 4 * 8.
Definition chunksize : Z := Z.shiftl 1 12.

Definition alloc_mask : Z := 1.
Definition prev_alloc_mask : Z := 2.
Definition size_mask : Z := word_max - 16.   (* ~(word_t)0xF *)

Definition NULL : Z := 0.

Definition max (x y : Z) : Z := if x >? y then x else y.

Definition round_up (size n : Z) : Z := wrap (n * (wrap (size + (n - 1)) / n)).

Definition pack (size : Z) (prev_alloc alloc : bool) : Z :=
  if negb prev_alloc then Z.lor size alloc_mask
  else if negb alloc then Z.lor size prev_alloc_mask
  else if alloc && prev_alloc then Z.lor (Z.lor size prev_alloc_mask) alloc_mask
  else size.

Definition extract_size (word : Z) : Z := Z.land word size_mask.
Definition extract_alloc (word : Z) : bool := negb (Z.land word alloc_mask =? 0).
Definition extract_prev_alloc (word : Z) : bool := negb (Z.land word prev_alloc_mask =? 0).

(** ** Allocator state

    [mem_brk] and [mem_max_addr] belong to the heap-growth primitive;
    [heap_start] and [freelist_start] are the two globals of [mm.c]. *)

Record state : Type := mkState {
  mem : Mem.mem;
  mem_brk : Z;
  mem_max_addr : Z;
  heap_start : Z;
  freelist_start : Z
}.

Definition set_mem (st : state) (m : Mem.mem) : state :=
  mkState m (mem_brk st) (mem_max_addr st) (heap_start st) (freelist_start st).
Definition set_brk (st : state) (b : Z) : state :=
  mkState (mem st) b (mem_max_addr st) (heap_start st) (freelist_start st).
Definition set_heap_start (st : state) (h : Z) : state :=
  mkState (mem st) (mem_brk st) (mem_max_addr st) h (freelist_start st).
Definition set_freelist_start (st : state) (f : Z) : state :=
  mkState (mem st) (mem_brk st) (mem_max_addr st) (heap_start st) f.

Definition load (st : state) (a : Z) : Z := load64 (mem st) a.
Definition store (st : state) (a v : Z) : state := set_mem st (store64 (mem st) a v).

(** Modelled from the spec: [mem_sbrk] of [memlib.h], the heap-growth
    collaborator.  It returns the old break, which immediately follows
    the previously returned region, or fails when the request does not
    fit below [mem_max_addr]. *)
Definition mem_sbrk (st : state) (incr : Z) : option (state * Z) :=
  if mem_brk st + incr <=? mem_max_addr st
  then Some (set_brk st (mem_brk st + incr), mem_brk st)
  else None.

(** ** Block accessors; [block->prev] is at offset 8, [block->next] at 16 *)

Definition get_size (st : state) (block : Z) : Z := extract_size (load st block).
Definition get_alloc (st : state) (block : Z) : bool := extract_alloc (load st block).
Definition get_prev_alloc (st : state) (block : Z) : bool :=
  extract_prev_alloc (load st block).

Definition get_payload_size (st : state) (block : Z) : Z :=
  let asize := get_size st block in
  if get_alloc st block then wrap (asize - wsize) else wrap (asize - dsize).

Definition get_prev (st : state) (block : Z) : Z := load st (block + 8).
Definition get_next (st : state) (block : Z) : Z := load st (block + 16).
Definition set_prev (st : state) (block v : Z) : state := store st (block + 8) v.
Definition set_next (st : state) (block v : Z) : state := store st (block + 16) v.

Definition write_header (st : state) (block size : Z) (prev_alloc alloc : bool) : state :=
  store st block (pack size prev_alloc alloc).

Definition write_footer (st : state) (block size : Z) (prev_alloc alloc : bool) : state :=
  let footerp := (block + 8) + get_size st block - dsize in
  store st footerp (pack size prev_alloc alloc).

Definition find_next (st : state) (block : Z) : Z := block + get_size st block.
Definition find_prev_footer (block : Z) : Z := block - 8.
Definition find_prev (st : state) (block : Z) : Z :=
  let size := extract_size (load st (find_prev_footer block)) in
  block - size.

Definition payload_to_header (bp : Z) : Z := bp - 8.
Definition header_to_payload (block : Z) : Z := block + 8.

Definition set_next_prev_alloc (st : state) (block : Z) (prev_alloc : bool) : state :=
  let block := find_next st block in
  let st1 := store st block (pack (get_size st block) prev_alloc (get_alloc st block)) in
  if negb (get_alloc st1 block)
  then write_footer st1 block (get_size st1 block) prev_alloc (get_alloc st1 block)
  else st1.

(** ** The explicit free list *)

Definition fl_remove (st : state) (block : Z) : state :=
  if (block =? NULL) || get_alloc st block then st
  else
    let nextptr := get_next st block in
    let prevptr := get_prev st block in
    let st1 := set_next st block NULL in
    let st2 := set_prev st1 block NULL in
    if (nextptr =? NULL) && (prevptr =? NULL) then set_freelist_start st2 NULL
    else if prevptr =? NULL then
      set_freelist_start (set_prev st2 nextptr NULL) nextptr
    else if nextptr =? NULL then set_next st2 prevptr NULL
    else set_prev (set_next st2 prevptr nextptr) nextptr prevptr.

Definition fl_insert (st : state) (block : Z) : state :=
  if block =? NULL then st
  else if freelist_start st =? NULL then set_freelist_start st block
  else
    let st1 := set_next st block (freelist_start st) in
    let st2 := set_prev st1 (freelist_start st1) block in
    set_freelist_start st2 block.

(** ** Coalescing, heap extension, placement, fit search *)

Definition coalesce (st : state) (block : Z) : state * Z :=
  let next_block := find_next st block in
  let next_alloc := get_alloc st next_block in
  let prev_alloc := get_prev_alloc st block in
  let size := get_size st block in
  if prev_alloc && next_alloc then
    let st1 := set_next_prev_alloc st block false in
    (fl_insert st1 block, block)
  else
    let '(st3, block) :=
      if prev_alloc && negb next_alloc then
        let st1 := fl_remove st next_block in
        let size := wrap (size + get_size st1 next_block) in
        let st2 := write_header st1 block size true false in
        (write_footer st2 block size true false, block)
      else if negb prev_alloc && next_alloc then
        let st1 := fl_remove st (find_prev st block) in
        let size := wrap (size + get_size st1 (find_prev st1 block)) in
        let st2 := write_footer st1 block size
                     (get_prev_alloc st1 (find_prev st1 block)) false in
        let st3 := write_header st2 (find_prev st2 block) size
                     (get_prev_alloc st2 (find_prev st2 block)) false in
        (st3, find_prev st3 block)
      else
        let st1 := fl_remove st next_block in
        let st2 := fl_remove st1 (find_prev st1 block) in
        let size := wrap (size + wrap (get_size st2 (find_prev st2 block)
                                       + get_size st2 next_block)) in
        let st3 := write_header st2 (find_prev st2 block) size
                     (get_prev_alloc st2 (find_prev st2 block)) false in
        let st4 := write_footer st3 next_block size
                     (get_prev_alloc st3 (find_prev st3 block)) false in
        (st4, find_prev st4 block)
    in
    let st4 := set_next_prev_alloc st3 block false in
    (fl_insert st4 block, block).

Definition extend_heap (st : state) (size : Z) : state * Z :=
  let size := round_up size dsize in
  match mem_sbrk st size with
  | None => (st, NULL)
  | Some (st0, bp) =>
      let block := payload_to_header bp in
      let st1 := write_header st0 block size (get_prev_alloc st0 block) false in
      let st2 := write_footer st1 block size (get_prev_alloc st1 block) false in
      let st3 := set_next st2 block NULL in
      let st4 := set_prev st3 block NULL in
      let block_next := find_next st4 block in
      let st5 := write_header st4 block_next 0 false true in
      coalesce st5 block
  end.

Definition place (st : state) (block asize : Z) : state :=
  let csize := get_size st block in
  let st1 := fl_remove st block in
  if wrap (csize - asize) >=? min_block_size then
    let st2 := write_header st1 block asize (get_prev_alloc st1 block) true in
    let block_next := find_next st2 block in
    let st3 := write_header st2 block_next (wrap (csize - asize)) true false in
    let st4 := write_footer st3 block_next (wrap (csize - asize)) true false in
    let st5 := set_prev st4 block_next 0 in
    let st6 := set_next st5 block_next 0 in
    fst (coalesce st6 block_next)
  else
    let st2 := write_header st1 block csize (get_prev_alloc st1 block) true in
    set_next_prev_alloc st2 block true.

(** The scan of [find_fit]; the free list lives in memory and need not be
    well formed, so the loop is driven by fuel ([None] = out of fuel). *)
Fixpoint find_fit_loop (fuel : nat) (st : state) (asize block best_fit i : Z)
  : option Z :=
  match fuel with
  | O => None
  | S fuel' =>
      if negb (block =? 0) && (i <? 50) then
        if asize =? get_size st block then Some block
        else if asize <? get_size st block then
          let best_fit :=
            if i =? 0 then block
            else if get_size st block <? get_size st best_fit then block
            else best_fit in
          find_fit_loop fuel' st asize (get_next st block) best_fit (i + 1)
        else find_fit_loop fuel' st asize (get_next st block) best_fit i
      else Some best_fit
  end.

Definition find_fit (fuel : nat) (st : state) (asize : Z) : option Z :=
  find_fit_loop fuel st asize (freelist_start st) NULL 0.

(** ** Public operations *)

Definition mm_init (st : state) : bool * state :=
  match mem_sbrk st (2 * wsize) with
  | None => (false, st)
  | Some (st0, start) =>
      let st1 := store st0 start (pack 0 true true) in
      let st2 := store st1 (start + 8) (pack 0 true true) in
      let st3 := set_heap_start st2 (start + 8) in
      let st4 := set_freelist_start st3 NULL in
      let '(st5, b) := extend_heap st4 chunksize in
      if b =? NULL then (false, st5) else (true, st5)
  end.

Definition adjust_size (size : Z) : Z :=
  let asize := round_up (wrap (size + wsize)) dsize in
  if asize <? min_block_size then min_block_size else asize.

Definition malloc (fuel : nat) (st : state) (size : Z) : option (state * Z) :=
  let st := if heap_start st =? NULL then snd (mm_init st) else st in
  if size =? 0 then Some (st, NULL)
  else
    let asize := adjust_size size in
    match find_fit fuel st asize with
    | None => None
    | Some block =>
        if block =? NULL then
          let extendsize := max asize chunksize in
          let '(st1, block) := extend_heap st extendsize in
          if block =? NULL then Some (st1, NULL)
          else Some (place st1 block asize, header_to_payload block)
        else Some (place st block asize, header_to_payload block)
    end.

(** The first half of [free]: the block is rewritten as free and its
    link fields cleared, before it is handed to [coalesce]. *)
Definition free_mark (st : state) (block : Z) : state :=
  let size := get_size st block in
  let st1 := write_header st block size (get_prev_alloc st block) false in
  let st2 := write_footer st1 block size (get_prev_alloc st1 block) false in
  let st3 := set_prev st2 block NULL in
  set_next st3 block NULL.

Definition free (st : state) (bp : Z) : state :=
  if bp =? NULL then st
  else
    let block := payload_to_header bp in
    fst (coalesce (free_mark st block) block).

Definition realloc (fuel : nat) (st : state) (ptr size : Z) : option (state * Z) :=
  let block := payload_to_header ptr in
  if size =? 0 then Some (free st ptr, NULL)
  else if ptr =? NULL then malloc fuel st size
  else
    match malloc fuel st size with
    | None => None
    | Some (st1, newptr) =>
        if newptr =? NULL then Some (st1, NULL)
        else
          let copysize := get_payload_size st1 block in
          let copysize := if size <? copysize then size else copysize in
          let st2 := set_mem st1 (memcpy (mem st1) newptr ptr copysize) in
          Some (free st2 ptr, newptr)
    end.

(** [calloc] divides by its first argument before anything else; a zero
    divisor is undefined behaviour in C. *)
Inductive outcome (A : Type) : Type :=
| Ok (a : A)
| OutOfFuel
| DivisionByZero.
Arguments Ok {A} a.
Arguments OutOfFuel {A}.
Arguments DivisionByZero {A}.

Definition calloc (fuel : nat) (st : state) (elements size : Z)
  : outcome (state * Z) :=
  let asize := wrap (elements * size) in
  if elements =? 0 then DivisionByZero
  else if negb (asize / elements =? size) then Ok (st, NULL)
  else
    match malloc fuel st asize with
    | None => OutOfFuel
    | Some (st1, bp) =>
        if bp =? NULL then Ok (st1, NULL)
        else Ok (set_mem st1 (memset (mem st1) bp 0 asize), bp)
    end.

(** ** The linked-list check of the heap validator *)

Fixpoint check_freelist_loop (fuel : nat) (st : state) (b : Z) : option bool :=
  match fuel with
  | O => None
  | S fuel' =>
      if negb (b =? 0) && negb (get_next st b =? 0) then
        let next := get_next st b in
        if negb ((get_next st b =? next) && (get_prev st next =? b)) then Some false
        else check_freelist_loop fuel' st (get_next st b)
      else Some true
  end.

Definition check_freelist_correctly_linked (fuel : nat) (st : state) : option bool :=
  check_freelist_loop fuel st (freelist_start st).

(** ** The other checks of the heap validator

    Each check walks the heap from [heap_start] through [find_next]
    until it reads a zero size; the loops are driven by fuel like the
    others ([None] = out of fuel).  The messages that [mm_checkheap]
    prints are not modelled. *)

Fixpoint check_freeblock_coalesce_loop (fuel : nat) (st : state) (block : Z)
  : option bool :=
  match fuel with
  | O => None
  | S fuel' =>
      if (get_size st block >? 0) && (get_size st (find_next st block) >? 0) then
        if negb (get_alloc st block) && negb (get_alloc st (find_next st block))
        then Some false
        else check_freeblock_coalesce_loop fuel' st (find_next st block)
      else Some true
  end.

Definition check_freeblock_coalesce (fuel : nat) (st : state) : option bool :=
  check_freeblock_coalesce_loop fuel st (heap_start st).

Fixpoint check_prev_alloc_loop (fuel : nat) (st : state) (block : Z) : option bool :=
  match fuel with
  | O => None
  | S fuel' =>
      if negb (get_size st block =? 0) then
        if get_size st (find_next st block) =? 0 then Some true
        else if negb (Bool.eqb (get_alloc st block)
                               (get_prev_alloc st (find_next st block)))
        then Some false
        else check_prev_alloc_loop fuel' st (find_next st block)
      else Some true
  end.

Definition check_prev_alloc (fuel : nat) (st : state) : option bool :=
  check_prev_alloc_loop fuel st (heap_start st).

(** The result of a check that counts with C [int]s: incrementing
    [INT_MAX] is undefined behaviour. *)
Inductive checked (A : Type) : Type :=
| Done (a : A)
| NoFuel
| IntOverflow.
Arguments Done {A} a.
Arguments NoFuel {A}.
Arguments IntOverflow {A}.

Definition INT_MAX : Z := 2 ^ 31 - 1.

(** The first loop of [check_all_freeblocks_in_freelist]. *)
Fixpoint count_free_blocks (fuel : nat) (st : state) (b i : Z) : checked Z :=
  match fuel with
  | O => NoFuel
  | S fuel' =>
      if negb (get_size st b =? 0) && negb (b =? 0) then
        if negb (get_alloc st b) then
          if i =? INT_MAX then IntOverflow
          else count_free_blocks fuel' st (find_next st b) (i + 1)
        else count_free_blocks fuel' st (find_next st b) i
      else Done i
  end.

(** Its second loop. *)
Fixpoint count_freelist (fuel : nat) (st : state) (b j : Z) : checked Z :=
  match fuel with
  | O => NoFuel
  | S fuel' =>
      if negb (b =? 0) && negb (get_size st b =? 0) then
        if j =? INT_MAX then IntOverflow
        else count_freelist fuel' st (get_next st b) (j + 1)
      else Done j
  end.

Definition check_all_freeblocks_in_freelist (fuel : nat) (st : state) : checked bool :=
  match count_free_blocks fuel st (heap_start st) 0 with
  | Done i =>
      match count_freelist fuel st (freelist_start st) 0 with
      | Done j => if negb (i =? j) then Done false else Done true
      | NoFuel => NoFuel
      | IntOverflow => IntOverflow
      end
  | NoFuel => NoFuel
  | IntOverflow => IntOverflow
  end.

Fixpoint check_minsize_loop (fuel : nat) (st : state) (block : Z) : option bool :=
  match fuel with
  | O => None
  | S fuel' =>
      if get_size st block >? 0 then
        if get_size st block <? min_block_size then Some false
        else check_minsize_loop fuel' st (find_next st block)
      else Some true
  end.

Definition check_if_size_smaller_than_minsize (fuel : nat) (st : state) : option bool :=
  check_minsize_loop fuel st (heap_start st).

Fixpoint check_overlap_loop (fuel : nat) (st : state) (block : Z) : option bool :=
  match fuel with
  | O => None
  | S fuel' =>
      if negb (get_size st block =? 0) && negb (find_next st block =? 0) then
        let next := block + get_size st block in
        if negb (next =? find_next st block) then Some false
        else check_overlap_loop fuel' st (find_next st block)
      else Some true
  end.

Definition check_alloc_block_overlap (fuel : nat) (st : state) : option bool :=
  check_overlap_loop fuel st (heap_start st).

(** The first test casts the header word itself to a pointer and
    compares it with NULL; [block->payload] is the address [block + 8]. *)
Fixpoint check_pointer_loop (fuel : nat) (st : state) (block : Z) : option bool :=
  match fuel with
  | O => None
  | S fuel' =>
      if get_size st block >? 0 then
        if load st block =? NULL then Some false
        else if header_to_payload block =? NULL then Some false
        else check_pointer_loop fuel' st (find_next st block)
      else Some true
  end.

Definition check_pointer_valid (fuel : nat) (st : state) : option bool :=
  check_pointer_loop fuel st (heap_start st).

(** The number of free blocks among the block addresses [l]. *)
Definition free_count (st : state) (l : list Z) : nat :=
  length (filter (fun x => negb (get_alloc st x)) l).





(** * Specification-level vocabulary *)

(** The encoding a header is meant to carry: size plus two flag bits. *)
Definition hdr (size : Z) (prev_alloc alloc : bool) : Z :=
  size + (if prev_alloc then 2 else 0) + (if alloc then 1 else 0).

(** The nodes visited by [for (b = p; b != 0; b = b->next)]. *)
Fixpoint fl_walk (st : state) (p : Z) (l : list Z) : Prop :=
  match l with
  | [] => p = NULL
  | a :: l' => p = a /\ a <> NULL /\ fl_walk st (get_next st a) l'
  end.

(** [a] is immediately followed by [b] in [l]. *)
Definition adjacent {A : Type} (a b : A) (l : list A) : Prop :=
  exists l1 l2, l = l1 ++ a :: b :: l2.

(** An untouched process image: zeroed memory, break at 16, one megabyte
    of room for the heap. *)
Definition fresh_state : state :=
  mkState (fun _ => 0) 16 (16 + 2 ^ 20) NULL NULL.

Definition SIZE_MAX : Z := word_max - 1.

(** A state whose only free-list field of interest is garbage: the block
    at 1000 carries a stale [prev] pointer and the list is empty. *)
Definition stale_prev_state : state :=
  set_prev fresh_state 1000 7.

(** A two-node list 1000 -> 2000 whose back link is wrong. *)
Definition bad_backlink_state : state :=
  set_freelist_start (set_prev (set_next fresh_state 1000 2000) 2000 5) 1000.

(** ** The fit search, seen on the list of free blocks *)

(** The blocks [find_fit] examines on the list [l]: it stops after an
    exact match, or once [budget] blocks strictly larger than the
    request have been examined. *)
Fixpoint scanned (st : state) (asize : Z) (l : list Z) (budget : nat) : list Z :=
  match l, budget with
  | [], _ => []
  | _, O => []
  | b :: l', S k =>
      if asize =? get_size st b then [b]
      else if asize <? get_size st b then b :: scanned st asize l' k
      else b :: scanned st asize l' (S k)
  end.

(** The loop of [find_fit] replayed on the list of free blocks. *)
Fixpoint scan_result (st : state) (asize : Z) (l : list Z) (best_fit i : Z) : Z :=
  match l with
  | [] => best_fit
  | b :: l' =>
      if i <? 50 then
        if asize =? get_size st b then b
        else if asize <? get_size st b then
          scan_result st asize l'
            (if i =? 0 then b
             else if get_size st b <? get_size st best_fit then b else best_fit)
            (i + 1)
        else scan_result st asize l' best_fit i
      else best_fit
  end.

Definition larger_than (st : state) (asize : Z) (b : Z) : bool :=
  asize <? get_size st b.

(** ** Sequences of public operations *)

Inductive op : Type :=
| Malloc (size : Z)
| Free (bp : Z).

(** [live] is the list of pointers handed out by [malloc] and not yet
    released; releasing anything else (other than NULL) breaks the
    caller's contract. *)
Inductive run_result : Type :=
| Finished (st : state) (live : list Z)
| TimedOut
| Misused.

Fixpoint run (fuel : nat) (st : state) (live : list Z) (ops : list op) : run_result :=
  match ops with
  | [] => Finished st live
  | Malloc size :: ops' =>
      if (0 <=? size) && (size <? word_max) then
        match malloc fuel st size with
        | None => TimedOut
        | Some (st', bp) =>
            run fuel st' (if bp =? NULL then live else bp :: live) ops'
        end
      else Misused
  | Free bp :: ops' =>
      if bp =? NULL then run fuel (free st bp) live ops'
      else if existsb (Z.eqb bp) live
      then run fuel (free st bp) (remove Z.eq_dec bp live) ops'
      else Misused
  end.

Definition final_state (r : run_result) (default : state) : state :=
  match r with Finished st _ => st | _ => default end.

(** The heap right after a successful [mm_init] on [fresh_state]. *)
Definition init_state : state := snd (mm_init fresh_state).

(** A fragmented heap: 102 blocks of 32 bytes are allocated and every
    other one is released, leaving 51 free blocks of 32 bytes in front
    of the 832-byte remainder on the free list. *)
Definition fragment_ops : list op :=
  repeat (Malloc 24) 102 ++ map (fun k => Free (32 + 64 * Z.of_nat k)) (seq 0 51).

Definition fragmented_state : state :=
  final_state (run 100 init_state [] fragment_ops) init_state.

Definition fragmented_free_list : list Z :=
  map (fun k => 3224 - 64 * Z.of_nat k) (seq 0 51) ++ [3288].

(** ** The heap as a list of blocks

    The representation relation ties the bytes of a state to an abstract
    list of blocks in address order and to the list of free-list nodes
    in link order. *)

Record block : Type := mkBlock { baddr : Z; bsize : Z; balloc : bool }.

(** The alloc state of the last block of [bs], or [pa] when [bs] is empty. *)
Definition last_alloc (pa : bool) (bs : list block) : bool :=
  last (map balloc bs) pa.

(** What memory holds for one block whose predecessor has alloc state
    [pa]: a header, and for a free block a footer too; a free block
    never follows a free block. *)
Definition blk_ok (st : state) (pa : bool) (b : block) : Prop :=
  min_block_size <= bsize b /\ bsize b mod 16 = 0 /\
  if balloc b then load st (baddr b) = hdr (bsize b) pa true
  else pa = true /\
       load st (baddr b) = hdr (bsize b) true false /\
       load st (baddr b + bsize b - 8) = hdr (bsize b) true false.

(** The blocks [bs] tile the addresses from [a] to [e]. *)
Fixpoint seg (st : state) (a : Z) (pa : bool) (bs : list block) (e : Z) : Prop :=
  match bs with
  | [] => a = e
  | b :: bs' =>
      baddr b = a /\ blk_ok st pa b /\ seg st (a + bsize b) (balloc b) bs' e
  end.

(** A doubly linked run of nodes from [p] to [q], the first one pointing
    back to [prev]. *)
Fixpoint dlseg (st : state) (prev p : Z) (l : list Z) (q : Z) : Prop :=
  match l with
  | [] => p = q
  | a :: l' =>
      p = a /\ a <> NULL /\ get_prev st a = prev /\
      dlseg st a (get_next st a) l' q
  end.

Definition dl (st : state) (l : list Z) : Prop :=
  dlseg st NULL (freelist_start st) l NULL.

Definition is_free (b : block) : bool := negb (balloc b).

Definition free_addrs (bs : list block) : list Z := map baddr (filter is_free bs).

(** Payload pointers of the allocated blocks. *)
Definition live_ptrs (bs : list block) : list Z :=
  map (fun b => header_to_payload (baddr b)) (filter balloc bs).

(** A heap with a gap: blocks [l1] up to [r], [S] bytes of unconstrained
    memory, then blocks [l2] up to the epilogue; the free list [fl]
    links exactly the free blocks of [l1] and [l2]. *)
Record hole (st : state) (l1 : list block) (r S : Z) (pa' : bool)
            (l2 : list block) (fl : list Z) : Prop := mkHole {
  ho_start : 8 <= heap_start st;
  ho_brk : mem_brk st <= mem_max_addr st < word_max;
  ho_prologue : load st (heap_start st - 8) = hdr 0 true true;
  ho_seg1 : seg st (heap_start st) true l1 r;
  ho_size : 0 <= S;
  ho_seg2 : seg st (r + S) pa' l2 (mem_brk st - 8);
  ho_epilogue : load st (mem_brk st - 8) = hdr 0 (last_alloc pa' l2) true;
  ho_dl : dl st fl;
  ho_perm : Permutation fl (free_addrs (l1 ++ l2))
}.

(** The representation invariant of a heap between public operations. *)
Record heap_rep (st : state) (bs : list block) (fl : list Z) : Prop := mkHeapRep {
  rep_start : 8 <= heap_start st;
  rep_brk : mem_brk st <= mem_max_addr st < word_max;
  rep_prologue : load st (heap_start st - 8) = hdr 0 true true;
  rep_seg : seg st (heap_start st) true bs (mem_brk st - 8);
  rep_epilogue : load st (mem_brk st - 8) = hdr 0 (last_alloc true bs) true;
  rep_dl : dl st fl;
  rep_perm : Permutation fl (free_addrs bs)
}.

(** The state [coalesce] is entered in: a hole of [s] bytes at [a] that
    already carries the header and footer of a free block and cleared
    link fields. *)
Record pre_coalesce (st : state) (l1 : list block) (a s : Z) (pa' : bool)
                    (l2 : list block) (fl : list Z) : Prop := mkPreCoalesce {
  pc_hole : hole st l1 a s pa' l2 fl;
  pc_size : min_block_size <= s /\ s mod 16 = 0;
  pc_header : load st a = pack s (last_alloc true l1) false;
  pc_footer : load st (a + s - 8) = pack s (last_alloc true l1) false;
  pc_prev : get_prev st a = NULL;
  pc_next : get_next st a = NULL
}.

(** The alloc state of the block that follows, the epilogue counting as
    allocated. *)
Definition head_alloc (l2 : list block) : bool :=
  match l2 with [] => true | n :: _ => balloc n end.

(** The size of the block that follows, the epilogue counting as 0. *)
Definition head_size (l2 : list block) : Z :=
  match l2 with [] => 0 | n :: _ => bsize n end.

(** ** The contents of allocated blocks *)

(** [x] is the address of a payload byte of an allocated block of [bs]. *)
Definition in_payload (bs : list block) (x : Z) : Prop :=
  exists c, In c bs /\ balloc c = true /\
            baddr c + 8 <= x < baddr c + bsize c.

(** The payload bytes of the allocated blocks of [bs] are in [st'] what
    they are in [st]. *)
Definition keeps (bs : list block) (st st' : state) : Prop :=
  forall x, in_payload bs x -> mem st' x = mem st x.

(** Every allocated block of [bs] is a block of [bs']. *)
Definition alloc_incl (bs bs' : list block) : Prop :=
  forall c, In c bs -> balloc c = true -> In c bs'.

(** ** The invariants, read off the bytes *)

(** The blocks visited by
    [for (b = heap_start; get_size(b) != 0; b = find_next(b))], and the
    address [e] of the zero-size header the loop stops at. *)
Fixpoint heap_walk (st : state) (b : Z) (l : list Z) (e : Z) : Prop :=
  match l with
  | [] => b = e /\ get_size st e = 0
  | a :: l' => b = a /\ get_size st a <> 0 /\ heap_walk st (find_next st a) l' e
  end.

Definition heap_invariants (st : state) : Prop :=
  exists hb e fl,
    heap_walk st (heap_start st) hb e /\
    fl_walk st (freelist_start st) fl /\
    (* no two physically adjacent blocks are both free *)
    (forall x y, adjacent x y hb ->
       ~ (get_alloc st x = false /\ get_alloc st y = false)) /\
    (* prev_alloc bits: from block to block, into the epilogue, and
       from the prologue footer into the first block *)
    (forall x y, adjacent x y (hb ++ [e]) ->
       get_prev_alloc st y = get_alloc st x) /\
    get_prev_alloc st (heap_start st) =
      extract_alloc (load st (find_prev_footer (heap_start st))) /\
    (* sizes *)
    (forall x, In x hb ->
       min_block_size <= get_size st x /\ get_size st x mod 16 = 0) /\
    (* the free list holds exactly the free blocks *)
    NoDup fl /\
    (forall x, In x fl <-> In x hb /\ get_alloc st x = false) /\
    length fl = length (filter (fun x => negb (get_alloc st x)) hb).

(** The bytes taken by the blocks at the addresses [l]. *)
Definition walk_bytes (st : state) (l : list Z) : Z :=
  fold_right Z.add 0 (map (get_size st) l).

(** The four cases of [coalesce], on the abstract lists: which
    neighbours are absorbed into the merged block [m] and leave the
    free list. *)
Definition merge_case (l1 : list block) (a s : Z) (l2 : list block) (fl : list Z)
    (l1' : list block) (m : block) (l2' : list block) (fl' : list Z) : Prop :=
  match last_alloc true l1, head_alloc l2 with
  | true, true =>
      l1' = l1 /\ m = mkBlock a s false /\ l2' = l2 /\ fl' = fl
  | true, false =>
      exists n la lb,
        l2 = n :: l2' /\ balloc n = false /\ l1' = l1 /\
        m = mkBlock a (s + bsize n) false /\
        fl = la ++ baddr n :: lb /\ fl' = la ++ lb
  | false, true =>
      exists p la lb,
        l1 = l1' ++ [p] /\ balloc p = false /\ l2' = l2 /\
        m = mkBlock (baddr p) (bsize p + s) false /\
        fl = la ++ baddr p :: lb /\ fl' = la ++ lb
  | false, false =>
      exists p n la lb la2 lb2,
        l1 = l1' ++ [p] /\ balloc p = false /\
        l2 = n :: l2' /\ balloc n = false /\
        m = mkBlock (baddr p) (bsize p + s + bsize n) false /\
        fl = la ++ baddr n :: lb /\ la ++ lb = la2 ++ baddr p :: lb2 /\
        fl' = la2 ++ lb2
  end.

(** The invariant carried along a sequence of operations: the heap is
    well formed and the live pointers are the payloads of its allocated
    blocks. *)
Definition run_inv (st : state) (live : list Z) : Prop :=
  exists bs fl, heap_rep st bs fl /\ Permutation live (live_ptrs bs).

(** ** Concrete heaps used as test inputs *)

(** Three blocks of 112 bytes are allocated at 24, 136 and 248; the
    first and the third are released again, the third merging with the
    remainder of the chunk. *)
Definition neighbours_ops : list op :=
  [Malloc 100; Malloc 100; Malloc 100; Free 32; Free 256].

Definition neighbours_state : state :=
  final_state (run 100 init_state [] neighbours_ops) init_state.

(** The state [free] hands to [coalesce] when the middle block, at 136,
    is released: both neighbours are free. *)
Definition both_free_state : state := free_mark neighbours_state 136.

(** One live block of 112 bytes at 24, payload at 32. *)
Definition one_block_state : state :=
  final_state (run 100 init_state [] [Malloc 100]) init_state.

(** A heap that cannot grow: the break limit is right behind the first
    chunk, and a block of 4096 bytes takes the whole of it. *)
Definition full_state : state :=
  final_state
    (run 100 (snd (mm_init (mkState (fun _ => 0) 16 (16 + 16 + 4096) NULL NULL)))
         [] [Malloc 4080])
    fresh_state.

(** Two live blocks of 112 bytes at 24 and 136, payloads at 32 and 144. *)
Definition two_block_state : state :=
  final_state (run 100 init_state [] [Malloc 100; Malloc 100]) init_state.

Definition result_state (r : option (state * Z)) (default : state) : state :=
  match r with Some (st, _) => st | None => default end.

(** The heap after the fresh allocation made by
    [realloc(32, 200)] on [one_block_state]. *)
Definition regrown_state : state :=
  result_state (malloc 100 one_block_state 200) one_block_state.

(** ** Sequences of operations of a client that uses its memory

    Between its calls the client writes into the blocks it holds: a
    [ClientWrite bp off v] stores the byte [v] at offset [off] of the
    payload of the live pointer [bp].  A write that is not inside the
    payload of a live block breaks the caller's contract, as does
    releasing a pointer that is not live. *)
Inductive client_op : Type :=
| ClientMalloc (size : Z)
| ClientFree (bp : Z)
| ClientWrite (bp off v : Z).

Fixpoint client_run (fuel : nat) (st : state) (live : list Z)
    (ops : list client_op) : run_result :=
  match ops with
  | [] => Finished st live
  | ClientMalloc size :: ops' =>
      if (0 <=? size) && (size <? word_max) then
        match malloc fuel st size with
        | None => TimedOut
        | Some (st', bp) =>
            client_run fuel st' (if bp =? NULL then live else bp :: live) ops'
        end
      else Misused
  | ClientFree bp :: ops' =>
      if bp =? NULL then client_run fuel (free st bp) live ops'
      else if existsb (Z.eqb bp) live
      then client_run fuel (free st bp) (remove Z.eq_dec bp live) ops'
      else Misused
  | ClientWrite bp off v :: ops' =>
      if existsb (Z.eqb bp) live && (0 <=? off) &&
         (off <? get_payload_size st (payload_to_header bp))
      then client_run fuel (set_mem st (store8 (mem st) (bp + off) v)) live ops'
      else Misused
  end.

(** The client fills the first [n] bytes of the payload at [bp] with
    the byte 0xFF. *)
Definition scribble (bp : Z) (n : nat) : list client_op :=
  map (fun k => ClientWrite bp (Z.of_nat k) 255) (seq 0 n).

(** Three blocks are allocated, each is filled with 0xFF over the words
    where a free block keeps its list links and beyond, and the blocks
    are released so that every case of [coalesce] is met; a last
    allocation reuses the merged memory. *)
Definition scribble_ops : list client_op :=
  [ClientMalloc 100; ClientMalloc 100; ClientMalloc 100] ++
  scribble 32 104 ++ scribble 144 104 ++ scribble 256 104 ++
  [ClientFree 32; ClientFree 256; ClientFree 144; ClientMalloc 24;
   ClientWrite 32 0 170].

(** [one_block_state] after the client has filled the 104 bytes of its
    block with 0xFF. *)
Definition filled_state : state :=
  set_mem one_block_state (memset (mem one_block_state) 32 255 104).

(** The heap after the fresh allocation made by
    [realloc(32, SIZE_MAX)] on [filled_state]. *)
Definition short_state : state :=
  result_state (malloc 100 filled_state SIZE_MAX) filled_state.

(** The heap [realloc(32, SIZE_MAX)] leaves behind on [filled_state]. *)
Definition overrun_state : state :=
  result_state (realloc 100 filled_state 32 SIZE_MAX) filled_state.
(** * Properties of the memory model *)

Module MemFacts.

Lemma byte_at_range m a : 0 <= byte_at m a < 256.
Proof. unfold byte_at. apply Z.mod_pos_bound. lia. Qed.

Lemma load_bytes_range n : forall m a,
  0 <= load_bytes n m a < 256 ^ Z.of_nat n.
Proof.
  induction n as [|n IH]; intros m a.
  - simpl. lia.
  - cbn [load_bytes]. rewrite Nat2Z.inj_succ, Z.pow_succ_r by lia.
    pose proof (byte_at_range m a). pose proof (IH m (a + 1)). nia.
Qed.

Lemma store_bytes_outside n : forall m a v x,
  x < a \/ a + Z.of_nat n <= x -> store_bytes n m a v x = m x.
Proof.
  induction n as [|n IH]; intros m a v x Hx; cbn [store_bytes].
  - reflexivity.
  - rewrite IH by lia. unfold store8.
    destruct (Z.eqb_spec x a); [lia | reflexivity].
Qed.

Lemma load_bytes_ext n : forall m m' a,
  (forall x, a <= x < a + Z.of_nat n -> m' x = m x) ->
  load_bytes n m' a = load_bytes n m a.
Proof.
  induction n as [|n IH]; intros m m' a H; cbn [load_bytes].
  - reflexivity.
  - unfold byte_at. rewrite H by lia. f_equal. f_equal.
    apply IH. intros x Hx. apply H. lia.
Qed.

Lemma load_store_bytes_same n : forall m a v,
  load_bytes n (store_bytes n m a v) a = v mod 256 ^ Z.of_nat n.
Proof.
  induction n as [|n IH]; intros m a v.
  - simpl. now rewrite Z.mod_1_r.
  - cbn [load_bytes store_bytes]. rewrite IH.
    unfold byte_at. rewrite store_bytes_outside by lia.
    unfold store8. rewrite Z.eqb_refl, Z.mod_mod by lia.
    rewrite Nat2Z.inj_succ, Z.pow_succ_r by lia.
    symmetry. apply Z.rem_mul_r; lia.
Qed.

Lemma load64_range m a : 0 <= load64 m a < word_max.
Proof. apply (load_bytes_range 8). Qed.

Lemma load64_store64_same m a v :
  0 <= v < word_max -> load64 (store64 m a v) a = v.
Proof.
  intros Hv. unfold load64, store64. rewrite load_store_bytes_same.
  apply Z.mod_small. exact Hv.
Qed.

Lemma load64_store64_other m a v b :
  a + 8 <= b \/ b + 8 <= a -> load64 (store64 m a v) b = load64 m b.
Proof.
  intros H. unfold load64, store64. apply load_bytes_ext.
  intros x Hx. apply store_bytes_outside. lia.
Qed.

Lemma store64_outside m a v x :
  x < a \/ a + 8 <= x -> store64 m a v x = m x.
Proof. intros H. apply (store_bytes_outside 8). lia. Qed.

Lemma load64_ext m m' a :
  (forall x, a <= x < a + 8 -> m' x = m x) -> load64 m' a = load64 m a.
Proof. intros H. apply (load_bytes_ext 8). exact H. Qed.

End MemFacts.
Import MemFacts.

#[global] Arguments load64 : simpl never.
#[global] Arguments store64 : simpl never.

(** * Properties of the block encoding *)

Lemma land_1 w : Z.land w 1 = w mod 2.
Proof. change 1 with (Z.ones 1). rewrite Z.land_ones by lia. reflexivity. Qed.

Lemma land_2 w : Z.land w 2 = 2 * ((w / 2) mod 2).
Proof.
  apply Z.bits_inj'. intros n Hn. rewrite Z.land_spec.
  destruct (Z.eq_dec n 0) as [->|Hn0].
  - rewrite Z.testbit_even_0. now rewrite andb_false_r.
  - replace n with (Z.succ (n - 1)) by lia.
    rewrite Z.testbit_even_succ by lia.
    change 2 with (2 * 1) at 1. rewrite Z.testbit_even_succ by lia.
    rewrite <- land_1, Z.land_spec, Z.div2_bits by lia.
    replace (Z.succ (n - 1)) with (n - 1 + 1) by lia.
    reflexivity.
Qed.

Lemma land_size_mask w : 0 <= w < word_max -> Z.land w size_mask = 16 * (w / 16).
Proof.
  intros Hw. apply Z.bits_inj'. intros n Hn.
  rewrite Z.land_spec.
  change size_mask with (Z.shiftl (Z.ones 60) 4).
  change 16 with (2 ^ 4). rewrite Z.mul_comm, <- Z.shiftl_mul_pow2 by lia.
  rewrite <- Z.shiftr_div_pow2 by lia.
  destruct (Z.ltb_spec n 4).
  - rewrite !Z.shiftl_spec_low by lia. apply andb_false_r.
  - rewrite !Z.shiftl_spec by lia. rewrite Z.shiftr_spec by lia.
    replace (n - 4 + 4) with n by lia.
    destruct (Z.ltb_spec n 64).
    + rewrite Z.ones_spec_low by lia. apply andb_true_r.
    + rewrite Z.ones_spec_high by lia. rewrite andb_false_r.
      symmetry. destruct (Z.eq_dec w 0) as [->|].
      * apply Z.bits_0.
      * apply Z.bits_above_log2; [lia|].
        apply Z.lt_le_trans with 64; [|lia].
        apply Z.log2_lt_pow2; unfold word_max in Hw; lia.
Qed.

Lemma land_low_zero s f : 0 <= s -> s mod 16 = 0 -> 0 <= f < 16 -> Z.land s f = 0.
Proof.
  intros Hs Hm Hf.
  apply Z.bits_inj'. intros n Hn. rewrite Z.land_spec, Z.bits_0.
  destruct (Z.ltb_spec n 4).
  - replace s with (Z.shiftl (s / 16) 4).
    + rewrite Z.shiftl_spec_low by lia. reflexivity.
    + rewrite Z.shiftl_mul_pow2 by lia. change (2 ^ 4) with 16.
      pose proof (Z.div_mod s 16). lia.
  - destruct (Z.eq_dec f 0) as [->|]; [rewrite Z.bits_0; apply andb_false_r|].
    rewrite (Z.bits_above_log2 f n); [apply andb_false_r|lia|].
    apply Z.lt_le_trans with 4; [|lia].
    apply Z.log2_lt_pow2; lia.
Qed.

Lemma lor_low s f : 0 <= s -> s mod 16 = 0 -> 0 <= f < 16 -> Z.lor s f = s + f.
Proof.
  intros Hs Hm Hf. pose proof (land_low_zero s f Hs Hm Hf) as H0.
  rewrite <- Z.lxor_lor by exact H0. symmetry. now apply Z.add_nocarry_lxor.
Qed.

Lemma word_max_val : word_max = 18446744073709551616.
Proof. reflexivity. Qed.

Lemma extract_alloc_spec w : extract_alloc w = negb (w mod 2 =? 0).
Proof. unfold extract_alloc, alloc_mask. now rewrite land_1. Qed.

Lemma extract_prev_alloc_spec w :
  extract_prev_alloc w = negb ((w / 2) mod 2 =? 0).
Proof.
  unfold extract_prev_alloc, prev_alloc_mask. rewrite land_2.
  destruct (Z.eqb_spec ((w / 2) mod 2) 0) as [->|H]; [reflexivity|].
  destruct (Z.eqb_spec (2 * ((w / 2) mod 2)) 0); [lia|reflexivity].
Qed.

Lemma extract_size_spec w : 0 <= w < word_max -> extract_size w = 16 * (w / 16).
Proof. apply land_size_mask. Qed.

(** [pack] sets the alloc bit whenever [prev_alloc] is false. *)
Lemma pack_hdr s pa al :
  0 <= s -> s mod 16 = 0 -> pack s pa al = hdr s pa (al || negb pa).
Proof.
  intros Hs Hm. unfold pack, hdr, alloc_mask, prev_alloc_mask.
  destruct pa, al; cbn [negb andb orb];
    rewrite <- ?Z.lor_assoc; cbn [Z.lor Pos.lor]; rewrite lor_low by lia; lia.
Qed.

Lemma extract_size_hdr s pa al :
  0 <= s -> s mod 16 = 0 -> s + 16 <= word_max ->
  extract_size (hdr s pa al) = s.
Proof.
  intros Hs Hm Hb. rewrite extract_size_spec.
  - unfold hdr. destruct pa, al; Z.div_mod_to_equations; lia.
  - unfold hdr. destruct pa, al; lia.
Qed.

Lemma extract_alloc_hdr s pa al :
  s mod 16 = 0 -> extract_alloc (hdr s pa al) = al.
Proof.
  intros Hm. rewrite extract_alloc_spec. unfold hdr.
  destruct pa, al;
    match goal with |- negb (?x =? 0) = _ => destruct (Z.eqb_spec x 0) as [E|E] end;
    cbn [negb]; try reflexivity; exfalso; Z.div_mod_to_equations; lia.
Qed.

Lemma extract_prev_alloc_hdr s pa al :
  s mod 16 = 0 -> extract_prev_alloc (hdr s pa al) = pa.
Proof.
  intros Hm. rewrite extract_prev_alloc_spec. unfold hdr.
  destruct pa, al;
    match goal with |- negb (?x =? 0) = _ => destruct (Z.eqb_spec x 0) as [E|E] end;
    cbn [negb]; try reflexivity; exfalso; Z.div_mod_to_equations; lia.
Qed.

Lemma hdr_range s pa al : 0 <= s -> s + 16 <= word_max -> 0 <= hdr s pa al < word_max.
Proof. intros. unfold hdr. destruct pa, al; lia. Qed.

(** * Block encoding: [pack] and its accessors *)

Lemma pack_range s pa al :
  0 <= s -> s mod 16 = 0 -> s + 16 <= word_max -> 0 <= pack s pa al < word_max.
Proof. intros. rewrite pack_hdr by assumption. now apply hdr_range. Qed.

Lemma extract_size_pack s pa al :
  0 <= s -> s mod 16 = 0 -> s + 16 <= word_max -> extract_size (pack s pa al) = s.
Proof. intros. rewrite pack_hdr by assumption. now apply extract_size_hdr. Qed.

Lemma extract_prev_alloc_pack s pa al :
  0 <= s -> s mod 16 = 0 -> extract_prev_alloc (pack s pa al) = pa.
Proof. intros. rewrite pack_hdr by assumption. now apply extract_prev_alloc_hdr. Qed.

Lemma extract_alloc_pack s pa al :
  0 <= s -> s mod 16 = 0 -> extract_alloc (pack s pa al) = al || negb pa.
Proof. intros. rewrite pack_hdr by assumption. now apply extract_alloc_hdr. Qed.

(** Round trip: whenever [prev_alloc] or [alloc] is set the triple is
    recovered exactly. *)
Lemma pack_roundtrip_unless_both_clear s pa al :
  0 <= s -> s mod 16 = 0 -> s + 16 <= word_max -> pa || al = true ->
  extract_size (pack s pa al) = s /\
  extract_alloc (pack s pa al) = al /\
  extract_prev_alloc (pack s pa al) = pa.
Proof.
  intros Hs Hm Hb Hf. rewrite extract_size_pack, extract_alloc_pack,
    extract_prev_alloc_pack by assumption.
  destruct pa, al; try discriminate; auto.
Qed.

(** C6: unpacking [pack(size, prev_alloc, alloc)] should give back
    [(size, alloc, prev_alloc)].  The code does not: with both flags
    clear, [pack] takes its first branch and sets the alloc bit, so the
    block reads back as allocated.  Evaluated here at [pack(32, false,
    false)], and shown for every aligned size. *)
Theorem pack_free_after_free_reads_allocated :
  (extract_size (pack 32 false false),
   extract_alloc (pack 32 false false),
   extract_prev_alloc (pack 32 false false)) = (32, true, false)
  /\ forall s, 0 <= s -> s mod 16 = 0 -> s + 16 <= word_max ->
       extract_alloc (pack s false false) = true.
Proof.
  split; [reflexivity|].
  intros s Hs Hm Hb. now rewrite extract_alloc_pack.
Qed.

(** * [calloc] *)

Lemma back_division_detects_overflow elements size :
  1 <= elements -> word_max <= elements * size ->
  wrap (elements * size) / elements <> size.
Proof.
  intros He Hov. unfold wrap.
  assert (Hlt : (elements * size) mod word_max < elements * size).
  { pose proof (Z.mod_pos_bound (elements * size) word_max). unfold word_max in *. lia. }
  assert ((elements * size) mod word_max / elements < size).
  { apply Z.div_lt_upper_bound; lia. }
  lia.
Qed.

(** C7: when [elements >= 1] and [elements * size] does not fit in a
    word, [calloc] returns NULL and the state (heap, break) is the one
    it was called in. *)
Theorem calloc_overflow_returns_null fuel st elements size :
  1 <= elements < word_max -> 0 <= size < word_max ->
  word_max <= elements * size ->
  calloc fuel st elements size = Ok (st, NULL).
Proof.
  intros He Hs Hov. unfold calloc.
  destruct (Z.eqb_spec elements 0); [lia|].
  pose proof (back_division_detects_overflow elements size ltac:(lia) Hov) as Hne.
  destruct (Z.eqb_spec (wrap (elements * size) / elements) size); [contradiction|].
  reflexivity.
Qed.

Lemma calloc_overflow_returns_null_witness :
  calloc 10 fresh_state SIZE_MAX 2 = Ok (fresh_state, NULL).
Proof.
  apply calloc_overflow_returns_null; unfold SIZE_MAX, word_max; lia.
Defined.

(** C10: [calloc] hits the division by zero exactly when its first
    argument is zero, whatever the size: with [elements = 0] the
    back-division is evaluated before any return or allocation; with
    [elements <> 0] the overflow check is defined. *)
Theorem calloc_division_by_zero_iff fuel st elements size :
  calloc fuel st elements size = DivisionByZero <-> elements = 0.
Proof.
  unfold calloc. destruct (Z.eqb_spec elements 0) as [->|Hne].
  - split; auto.
  - split; [|contradiction].
    destruct (negb _); [discriminate|].
    destruct (malloc fuel st _) as [[st1 bp]|]; [|discriminate].
    destruct (bp =? NULL); discriminate.
Qed.

(** * Loads and stores on states *)

Lemma load_range st a : 0 <= load st a < word_max.
Proof. apply load64_range. Qed.

Lemma load_store_same st a v : 0 <= v < word_max -> load (store st a v) a = v.
Proof. intros. unfold load, store. cbn. now apply load64_store64_same. Qed.

Lemma load_store_other st a v b :
  a + 8 <= b \/ b + 8 <= a -> load (store st a v) b = load st b.
Proof. intros. unfold load, store. cbn. now apply load64_store64_other. Qed.

Lemma load_set_freelist_start st f a : load (set_freelist_start st f) a = load st a.
Proof. reflexivity. Qed.

Lemma freelist_start_store st a v : freelist_start (store st a v) = freelist_start st.
Proof. reflexivity. Qed.

(** * The free list: [fl_insert] *)

(** C8 (as amended): for a non-null block whose [prev] field is already
    null on entry and whose link fields do not overlap the old head's
    [prev] field, [fl_insert] makes the block the head, leaves the new
    head's [prev] null, and when the list was non-empty links the old
    head back to the block and the block forward to the old head. *)
Theorem fl_insert_pushes_at_head st block :
  0 < block < word_max ->
  get_prev st block = NULL ->
  freelist_start st = NULL \/
    freelist_start st + 8 <= block \/ block + 16 <= freelist_start st ->
  let st' := fl_insert st block in
  freelist_start st' = block /\
  get_prev st' block = NULL /\
  (freelist_start st <> NULL ->
     get_prev st' (freelist_start st) = block /\
     get_next st' block = wrap (freelist_start st)).
Proof.
  intros Hb Hp Hsep. unfold fl_insert, NULL in *.
  destruct (Z.eqb_spec block 0); [lia|].
  destruct (Z.eqb_spec (freelist_start st) 0) as [E|E]; cbn zeta.
  - cbn. repeat split; auto; intros; contradiction.
  - destruct Hsep as [Hsep|Hsep]; [contradiction|].
    unfold set_prev, set_next, get_prev, get_next in *.
    rewrite load_set_freelist_start, freelist_start_store.
    cbn [freelist_start set_freelist_start].
    split; [reflexivity|]. split.
    + rewrite !load_store_other by lia. exact Hp.
    + intros _. rewrite !load_set_freelist_start. split.
      * apply load_store_same. lia.
      * rewrite load_store_other by lia.
        unfold load, store. cbn.
        unfold load64, store64. now rewrite load_store_bytes_same.
Qed.

Lemma fl_insert_pushes_at_head_witness :
  let st := set_freelist_start fresh_state 2000 in
  let st' := fl_insert st 1000 in
  freelist_start st' = 1000 /\
  get_prev st' 1000 = NULL /\
  (freelist_start st <> NULL ->
     get_prev st' (freelist_start st) = 1000 /\
     get_next st' 1000 = wrap (freelist_start st)).
Proof.
  apply (fl_insert_pushes_at_head (set_freelist_start fresh_state 2000) 1000).
  - unfold word_max; lia.
  - reflexivity.
  - right. right. cbn. lia.
Defined.

(** C8 fails as stated: [fl_insert] never writes the inserted block's
    [prev] field, so a block that enters with a stale [prev] becomes a
    head whose [prev] is not null. *)
Lemma fl_insert_keeps_stale_prev :
  let st' := fl_insert stale_prev_state 1000 in
  freelist_start st' = 1000 /\ get_prev st' 1000 <> NULL.
Proof. vm_compute. split; [reflexivity|discriminate]. Qed.

(** * The validator's linked-list check *)

Lemma adjacent_cons_iff {A} (x a b : A) l :
  adjacent a b (x :: l) <-> (exists l', l = b :: l' /\ a = x) \/ adjacent a b l.
Proof.
  split.
  - intros (l1 & l2 & E). destruct l1 as [|y l1]; cbn in E.
    + injection E as -> ->. left. eauto.
    + injection E as -> ->. right. exists l1, l2. reflexivity.
  - intros [(l' & -> & ->)|(l1 & l2 & ->)].
    + exists [], l'. reflexivity.
    + exists (x :: l1), l2. reflexivity.
Qed.

Lemma check_freelist_loop_spec st : forall fl fuel p,
  fl_walk st p fl -> (length fl < fuel)%nat ->
  exists r, check_freelist_loop fuel st p = Some r /\
            (r = true <-> forall a b, adjacent a b fl -> get_prev st b = a).
Proof.
  induction fl as [|a fl IH]; intros fuel p Hw Hf; (destruct fuel as [|fuel]; [cbn in Hf; lia|]).
  - cbn in Hw. subst p. cbn. exists true. split; [reflexivity|].
    split; auto. intros _ a b (l1 & l2 & E). destruct l1; discriminate.
  - cbn [fl_walk] in Hw. destruct Hw as (-> & Ha & Hw).
    cbn [check_freelist_loop]. unfold NULL in *.
    destruct (Z.eqb_spec a 0); [contradiction|]. cbn [negb andb].
    destruct fl as [|b fl].
    + cbn in Hw. rewrite Hw. cbn. exists true. split; [reflexivity|].
      split; auto. intros _ x y (l1 & l2 & E).
      destruct l1 as [|? [|]]; discriminate.
    + pose proof Hw as Hw'. cbn [fl_walk] in Hw'. destruct Hw' as (Hn & Hb & _).
      rewrite Hn. destruct (Z.eqb_spec b 0); [contradiction|]. cbn [negb].
      rewrite Z.eqb_refl. cbn [andb].
      destruct (Z.eqb_spec (get_prev st b) a) as [Hp|Hp]; cbn [negb].
      * destruct (IH fuel b) as (r & Hr & Hiff).
        { rewrite Hn in Hw. exact Hw. }
        { cbn in *. lia. }
        exists r. split; [exact Hr|]. rewrite Hiff. split.
        -- intros H x y Hadj. apply adjacent_cons_iff in Hadj.
           destruct Hadj as [(l' & E & ->)|Hadj]; [|auto].
           injection E as <- _. exact Hp.
        -- intros H x y Hadj. apply H. apply adjacent_cons_iff. now right.
      * exists false. split; [reflexivity|]. split; [discriminate|].
        intros H. exfalso. apply Hp. apply H. exists [], fl. reflexivity.
Qed.

(** C9 (as amended): the first conjunct of the check compares [b->next]
    with itself, but the second, [next->prev == b], is a real test: on a
    null-terminated list the check returns true exactly when every node
    that follows another points back to it. *)
Theorem check_freelist_correctly_linked_spec st fl fuel :
  fl_walk st (freelist_start st) fl -> (length fl < fuel)%nat ->
  exists r, check_freelist_correctly_linked fuel st = Some r /\
            (r = true <-> forall a b, adjacent a b fl -> get_prev st b = a).
Proof. apply check_freelist_loop_spec. Qed.

Lemma check_freelist_correctly_linked_spec_witness :
  exists r, check_freelist_correctly_linked 3 bad_backlink_state = Some r /\
            (r = true <->
             forall a b, adjacent a b [1000; 2000] -> get_prev bad_backlink_state b = a).
Proof.
  apply (check_freelist_correctly_linked_spec bad_backlink_state [1000; 2000] 3).
  - cbn [fl_walk]. repeat split; try discriminate; vm_compute; reflexivity.
  - cbn. lia.
Defined.

(** C9 fails as stated: on the list 1000 -> 2000 where the second node's
    [prev] is not the first, the check returns false. *)
Lemma check_freelist_rejects_bad_backlink :
  get_next bad_backlink_state (freelist_start bad_backlink_state) = 2000 /\
  get_prev bad_backlink_state 2000 <> freelist_start bad_backlink_state /\
  check_freelist_correctly_linked 3 bad_backlink_state = Some false.
Proof. vm_compute. repeat split; discriminate. Qed.

(** * The fit search *)

Lemma find_fit_loop_scan st asize : forall l fuel p best i,
  fl_walk st p l -> (length l < fuel)%nat ->
  find_fit_loop fuel st asize p best i = Some (scan_result st asize l best i).
Proof.
  induction l as [|b l IH]; intros fuel p best i Hw Hf;
    (destruct fuel as [|fuel]; [cbn in Hf; lia|]).
  - cbn in Hw. subst p. reflexivity.
  - cbn [fl_walk] in Hw. destruct Hw as (-> & Hb & Hw). unfold NULL in Hb.
    cbn [find_fit_loop scan_result].
    destruct (Z.eqb_spec b 0); [contradiction|]. cbn [negb andb].
    destruct (i <? 50); [|reflexivity].
    destruct (asize =? get_size st b); [reflexivity|].
    cbn in Hf.
    destruct (asize <? get_size st b); apply IH; auto; lia.
Qed.

Section Scan.

Variable st : state.
Variable asize : Z.

Let carried (best i : Z) : list Z := if i =? 0 then [] else [best].

Lemma scanned_prefix : forall l n, exists rest, l = scanned st asize l n ++ rest.
Proof.
  induction l as [|b l IH]; intros n.
  - exists []. destruct n; reflexivity.
  - destruct n as [|n]; [exists (b :: l); reflexivity|].
    cbn [scanned]. destruct (asize =? get_size st b).
    + exists l. reflexivity.
    + destruct (asize <? get_size st b).
      * destruct (IH n) as (rest & E). exists rest. cbn. now rewrite <- E.
      * destruct (IH (S n)) as (rest & E). exists rest. cbn. now rewrite <- E.
Qed.

Lemma scanned_budget : forall l n,
  (length (filter (larger_than st asize) (scanned st asize l n)) <= n)%nat.
Proof.
  induction l as [|b l IH]; intros n.
  - destruct n; cbn; lia.
  - destruct n as [|n]; [cbn; lia|].
    cbn [scanned]. destruct (Z.eqb_spec asize (get_size st b)) as [E|E].
    + cbn. unfold larger_than. rewrite <- E, Z.ltb_irrefl. cbn. lia.
    + destruct (asize <? get_size st b) eqn:El.
      * cbn. unfold larger_than at 1. rewrite El. cbn. specialize (IH n). lia.
      * cbn. unfold larger_than at 1. rewrite El. apply IH.
Qed.

(** The scan stops before the end of the list only on an exact match or
    on the last of [n] strictly larger blocks. *)
Lemma scanned_stop : forall l n, (0 < n)%nat ->
  scanned st asize l n = l \/
  exists pre b, scanned st asize l n = pre ++ [b] /\
    (get_size st b = asize \/
     (asize < get_size st b /\
      length (filter (larger_than st asize) (scanned st asize l n)) = n)).
Proof.
  induction l as [|b l IH]; intros n Hn.
  - left. destruct n; reflexivity.
  - destruct n as [|n]; [lia|].
    cbn [scanned]. destruct (Z.eqb_spec asize (get_size st b)) as [E|E].
    + right. exists [], b. split; [reflexivity|]. left. now symmetry.
    + destruct (Z.ltb_spec asize (get_size st b)) as [El|El].
      * destruct n as [|n].
        -- right. exists [], b. destruct l; cbn; (split; [reflexivity|]); right;
             (split; [exact El|]); unfold larger_than;
             destruct (Z.ltb_spec asize (get_size st b)); try lia; reflexivity.
        -- destruct (IH (S n) ltac:(lia)) as [E'|(pre & c & E' & Hc)].
           ++ left. now rewrite E'.
           ++ right. exists (b :: pre), c. split; [cbn; now rewrite E'|].
              destruct Hc as [Hc|[Hc1 Hc2]]; [now left|right].
              split; [exact Hc1|]. cbn. unfold larger_than at 1.
              destruct (Z.ltb_spec asize (get_size st b)); try lia;
                cbn; now rewrite Hc2.
      * destruct (IH (S n) ltac:(lia)) as [E'|(pre & c & E' & Hc)].
        -- left. now rewrite E'.
        -- right. exists (b :: pre), c. split; [cbn; now rewrite E'|].
           destruct Hc as [Hc|[Hc1 Hc2]]; [now left|right].
           split; [exact Hc1|]. cbn. unfold larger_than at 1.
           destruct (Z.ltb_spec asize (get_size st b)); try lia; try exact Hc2.
Qed.

Lemma scan_result_spec : forall l best i,
  0 <= i <= 50 -> (i <> 0 -> asize < get_size st best) ->
  let ex := scanned st asize l (Z.to_nat (50 - i)) in
  let r := scan_result st asize l best i in
  (forall b, In b ex -> get_size st b = asize -> r = b) /\
  ((forall b, In b (carried best i ++ ex) -> get_size st b < asize) -> r = best) /\
  ((exists b, In b (carried best i ++ ex) /\ asize <= get_size st b) ->
     In r (carried best i ++ ex) /\ asize <= get_size st r /\
     forall b, In b (carried best i ++ ex) -> asize <= get_size st b -> get_size st r <= get_size st b).
Proof.
  assert (Hbase : forall best i, (i <> 0 -> asize < get_size st best) ->
    (forall b, In b (@nil Z) -> get_size st b = asize -> best = b) /\
    ((forall b, In b (carried best i ++ []) -> get_size st b < asize) -> best = best) /\
    ((exists b, In b (carried best i ++ []) /\ asize <= get_size st b) ->
       In best (carried best i ++ []) /\ asize <= get_size st best /\
       forall b, In b (carried best i ++ []) -> asize <= get_size st b -> get_size st best <= get_size st b)).
  { intros best i Hbest. split; [intros b []|]. split; [reflexivity|].
    intros (b & Hb & _). unfold carried in *.
    destruct (Z.eqb_spec i 0); [destruct Hb|].
    cbn. split; [auto|]. split; [specialize (Hbest n); lia|].
    intros c [<-|[]] _. lia. }
  induction l as [|b l IH]; intros best i Hi Hbest.
  - cbn zeta. replace (scanned st asize [] _) with (@nil Z) by (destruct (Z.to_nat _); reflexivity).
    cbn [scan_result]. now apply Hbase.
  - cbn zeta. cbn [scan_result]. destruct (Z.ltb_spec i 50) as [Hlt|Hge].
    2:{ replace (Z.to_nat (50 - i)) with 0%nat by lia. cbn [scanned]. now apply Hbase. }
    replace (Z.to_nat (50 - i)) with (S (Z.to_nat (50 - (i + 1)))) by lia.
    cbn [scanned].
    destruct (Z.eqb_spec asize (get_size st b)) as [E|E].
    + split; [intros c [<-|[]] _; reflexivity|]. split.
      * intros H. specialize (H b). rewrite in_app_iff in H. cbn in H. lia.
      * intros _. split; [apply in_or_app; right; now left|].
        split; [lia|]. intros c _ Hc. lia.
    + destruct (Z.ltb_spec asize (get_size st b)) as [El|El].
      * set (best' := if i =? 0 then b
                      else if get_size st b <? get_size st best then b else best).
        assert (Hb' : asize < get_size st best' /\ get_size st best' <= get_size st b /\
                      (i <> 0 -> get_size st best' <= get_size st best) /\
                      (best' = b \/ (i <> 0 /\ best' = best))).
        { unfold best'. destruct (Z.eqb_spec i 0).
          - repeat split; auto; lia.
          - specialize (Hbest n). destruct (Z.ltb_spec (get_size st b) (get_size st best));
              repeat split; auto; lia. }
        destruct Hb' as (Hb1 & Hb2 & Hb3 & Hb4). clearbody best'.
        destruct (IH best' (i + 1) ltac:(lia) ltac:(intros; exact Hb1)) as (I1 & I2 & I3).
        cbn zeta in I1, I2, I3.
        assert (Hc' : carried best' (i + 1) = [best']).
        { unfold carried. destruct (Z.eqb_spec (i + 1) 0); [lia|reflexivity]. }
        rewrite Hc' in I2, I3.
        destruct I3 as (J1 & J2 & J3).
        { exists best'. split; [now left|lia]. }
        split; [|split].
        -- intros c [<-|Hc] Hcs; [lia|]. now apply I1.
        -- intros H. specialize (H b). rewrite in_app_iff in H. cbn in H. lia.
        -- intros _. split; [|split; [exact J2|]].
           ++ rewrite in_app_iff. cbn [In]. cbn [app In] in J1.
              destruct J1 as [J1|J1]; [|auto].
              destruct Hb4 as [Hb4|[Hb4 Hb5]]; [right; left; congruence|].
              left. unfold carried. destruct (Z.eqb_spec i 0); [lia|].
              left. congruence.
           ++ intros c Hc Hcs. rewrite in_app_iff in Hc. cbn [In] in Hc.
              destruct Hc as [Hc|[<-|Hc]].
              ** unfold carried in Hc. destruct (Z.eqb_spec i 0); [destruct Hc|].
                 destruct Hc as [<-|[]].
                 specialize (J3 best' ltac:(now left) ltac:(lia)).
                 specialize (Hb3 n). lia.
              ** specialize (J3 best' ltac:(now left) ltac:(lia)). lia.
              ** apply J3; [right; exact Hc|exact Hcs].
      * replace (S (Z.to_nat (50 - (i + 1)))) with (Z.to_nat (50 - i)) by lia.
        destruct (IH best i Hi Hbest) as (I1 & I2 & I3). cbn zeta in I1, I2, I3.
        split; [|split].
        -- intros c [<-|Hc] Hcs; [lia|]. now apply I1.
        -- intros H. apply I2. intros c Hc. apply H.
           rewrite in_app_iff in *. cbn [In]. tauto.
        -- intros (c & Hc & Hcs). rewrite in_app_iff in Hc. cbn [In] in Hc.
           destruct I3 as (J1 & J2 & J3).
           { exists c. split; [|exact Hcs]. rewrite in_app_iff.
             destruct Hc as [Hc|[<-|Hc]]; [now left|lia|now right]. }
           split; [|split; [exact J2|]].
           ++ rewrite in_app_iff in *. cbn [In]. tauto.
           ++ intros d Hd Hds. rewrite in_app_iff in Hd. cbn [In] in Hd.
              destruct Hd as [Hd|[<-|Hd]]; [|lia|]; apply J3; auto;
                rewrite in_app_iff; auto.
Qed.

End Scan.

(** C4 (as amended): on a null-terminated free list, and with enough
    fuel for its length, [find_fit] examines the prefix [ex] of the list
    that ends at the first exact match or at the 50th block strictly
    larger than the request: blocks that are too small are examined
    but do not count toward the limit of 50.  It returns an exact match
    as soon as it meets one; otherwise a smallest block of [ex] that is
    at least as large as the request, or NULL when [ex] has none. *)
Theorem find_fit_bounded_best_fit st fl fuel asize :
  fl_walk st (freelist_start st) fl -> (length fl < fuel)%nat ->
  let ex := scanned st asize fl 50 in
  exists r, find_fit fuel st asize = Some r /\
    (exists rest, fl = ex ++ rest) /\
    (length (filter (larger_than st asize) ex) <= 50)%nat /\
    (ex = fl \/
     exists pre b, ex = pre ++ [b] /\
       (get_size st b = asize \/
        (asize < get_size st b /\
         length (filter (larger_than st asize) ex) = 50%nat))) /\
    (forall b, In b ex -> get_size st b = asize -> r = b) /\
    ((forall b, In b ex -> get_size st b < asize) -> r = NULL) /\
    ((exists b, In b ex /\ asize <= get_size st b) ->
       In r ex /\ asize <= get_size st r /\
       forall b, In b ex -> asize <= get_size st b ->
                 get_size st r <= get_size st b).
Proof.
  intros Hw Hf ex. exists (scan_result st asize fl NULL 0).
  split; [now apply find_fit_loop_scan|].
  split; [apply scanned_prefix|].
  split; [apply scanned_budget|].
  split; [apply scanned_stop; lia|].
  destruct (scan_result_spec st asize fl NULL 0 ltac:(lia) ltac:(intros; lia))
    as (H1 & H2 & H3).
  cbn in H1, H2, H3. auto.
Qed.

Lemma find_fit_bounded_best_fit_witness :
  let st := fragmented_state in
  let ex := scanned st 48 fragmented_free_list 50 in
  exists r, find_fit 100 st 48 = Some r /\
    (exists rest, fragmented_free_list = ex ++ rest) /\
    (length (filter (larger_than st 48) ex) <= 50)%nat /\
    (ex = fragmented_free_list \/
     exists pre b, ex = pre ++ [b] /\
       (get_size st b = 48 \/
        (48 < get_size st b /\
         length (filter (larger_than st 48) ex) = 50%nat))) /\
    (forall b, In b ex -> get_size st b = 48 -> r = b) /\
    ((forall b, In b ex -> get_size st b < 48) -> r = NULL) /\
    ((exists b, In b ex /\ 48 <= get_size st b) ->
       In r ex /\ 48 <= get_size st r /\
       forall b, In b ex -> 48 <= get_size st b ->
                 get_size st r <= get_size st b).
Proof.
  apply (find_fit_bounded_best_fit fragmented_state fragmented_free_list 100 48).
  - vm_compute. repeat split; try reflexivity; discriminate.
  - vm_compute. lia.
Defined.

(** C4 fails as stated: on a reachable heap whose free list holds 51
    blocks of 32 bytes in front of one of 832, a request of 48 bytes
    finds nothing among the first 50 blocks, yet [find_fit] walks on
    past them and returns the 52nd. *)
Lemma find_fit_looks_past_fifty_blocks :
  fl_walk fragmented_state (freelist_start fragmented_state) fragmented_free_list /\
  forallb (fun b => get_size fragmented_state b <? 48)
          (firstn 50 fragmented_free_list) = true /\
  find_fit 100 fragmented_state 48 = Some 3288 /\
  nth_error fragmented_free_list 51 = Some 3288.
Proof.
  vm_compute. repeat split; try reflexivity; discriminate.
Qed.

(** * The representation relation: segments of blocks *)

Lemma heap_start_store st a v : heap_start (store st a v) = heap_start st.
Proof. reflexivity. Qed.
Lemma mem_brk_store st a v : mem_brk (store st a v) = mem_brk st.
Proof. reflexivity. Qed.
Lemma mem_max_addr_store st a v : mem_max_addr (store st a v) = mem_max_addr st.
Proof. reflexivity. Qed.

Lemma min_block_size_val : min_block_size = 32.
Proof. reflexivity. Qed.

Lemma last_default_irrelevant {A} (l : list A) x d d' :
  last (x :: l) d = last (x :: l) d'.
Proof.
  revert x. induction l as [|y l IH]; intros x; [reflexivity|].
  change (last (y :: l) d = last (y :: l) d'). apply IH.
Qed.

Lemma last_app_default {A} (l1 l2 : list A) d :
  last (l1 ++ l2) d = last l2 (last l1 d).
Proof.
  induction l1 as [|x l1 IH]; [reflexivity|].
  destruct l1 as [|y l1].
  - destruct l2 as [|z l2]; [reflexivity|].
    cbn [app last]. apply last_default_irrelevant.
  - change (last ((y :: l1) ++ l2) d = last l2 (last (y :: l1) d)). exact IH.
Qed.

Lemma last_alloc_app pa l1 l2 :
  last_alloc pa (l1 ++ l2) = last_alloc (last_alloc pa l1) l2.
Proof. unfold last_alloc. rewrite map_app. apply last_app_default. Qed.

Lemma last_alloc_cons pa b l : last_alloc pa (b :: l) = last_alloc (balloc b) l.
Proof. apply (last_alloc_app pa [b] l). Qed.

Lemma last_alloc_snoc pa l b : last_alloc pa (l ++ [b]) = balloc b.
Proof. now rewrite last_alloc_app. Qed.

Lemma seg_bounds st : forall bs lo pa hi, seg st lo pa bs hi -> lo <= hi.
Proof.
  induction bs as [|b bs IH]; intros lo pa hi H; cbn in H.
  - lia.
  - destruct H as (_ & (Hs & _) & H). apply IH in H.
    rewrite min_block_size_val in Hs. lia.
Qed.

Lemma seg_in st : forall bs lo pa hi b,
  seg st lo pa bs hi -> In b bs ->
  lo <= baddr b /\ baddr b + bsize b <= hi /\
  min_block_size <= bsize b /\ bsize b mod 16 = 0.
Proof.
  induction bs as [|c bs IH]; intros lo pa hi b H Hin; [destruct Hin|].
  cbn in H. destruct H as (Ha & (Hs & Hm & Hh) & H).
  pose proof (seg_bounds _ _ _ _ _ H) as Hb.
  rewrite min_block_size_val in *.
  destruct Hin as [<-|Hin].
  - repeat split; lia.
  - destruct (IH _ _ _ _ H Hin) as (? & ? & ? & ?). repeat split; lia.
Qed.

Lemma seg_app st : forall l1 l2 lo pa hi,
  seg st lo pa (l1 ++ l2) hi <->
  exists mid, seg st lo pa l1 mid /\ seg st mid (last_alloc pa l1) l2 hi.
Proof.
  induction l1 as [|b l1 IH]; intros l2 lo pa hi.
  - cbn. split.
    + intros H. exists lo. auto.
    + intros (mid & -> & H). exact H.
  - cbn [app seg]. rewrite last_alloc_cons. split.
    + intros (Ha & Hb & H). apply IH in H. destruct H as (mid & H1 & H2).
      exists mid. auto.
    + intros (mid & (Ha & Hb & H1) & H2).
      split; [exact Ha|]. split; [exact Hb|].
      apply IH. exists mid. auto.
Qed.

(** A segment only reads the header and footer words of its blocks. *)
Lemma seg_agree st st' : forall bs lo pa hi,
  (forall b, In b bs ->
     load st' (baddr b) = load st (baddr b) /\
     load st' (baddr b + bsize b - 8) = load st (baddr b + bsize b - 8)) ->
  seg st lo pa bs hi -> seg st' lo pa bs hi.
Proof.
  induction bs as [|b bs IH]; intros lo pa hi Hag H; [exact H|].
  cbn in H |- *. destruct H as (Ha & (Hs & Hm & Hh) & H).
  destruct (Hag b (or_introl eq_refl)) as (E1 & E2).
  split; [exact Ha|]. split.
  - split; [exact Hs|]. split; [exact Hm|].
    rewrite E1, E2. exact Hh.
  - apply IH; [|exact H]. intros c Hc. apply Hag. now right.
Qed.

Lemma seg_frame st st' bs lo pa hi :
  (forall y, lo <= y -> y + 8 <= hi -> load st' y = load st y) ->
  seg st lo pa bs hi -> seg st' lo pa bs hi.
Proof.
  intros Hfr H. apply (seg_agree st); [|exact H].
  intros b Hb. destruct (seg_in _ _ _ _ _ _ H Hb) as (? & ? & ? & ?).
  rewrite min_block_size_val in *. split; apply Hfr; lia.
Qed.

Lemma seg_store_outside st w v bs lo pa hi :
  w + 8 <= lo \/ hi <= w ->
  seg st lo pa bs hi -> seg (store st w v) lo pa bs hi.
Proof.
  intros Hw. apply seg_frame. intros y H1 H2. apply load_store_other. lia.
Qed.

(** Storing into the link fields of a block of the segment, or anywhere
    strictly between a header and a footer, leaves the segment intact. *)
Lemma seg_store_interior st w v bs lo pa hi :
  (w + 8 <= lo \/ hi <= w \/
   exists b, In b bs /\ baddr b + 8 <= w /\ w + 8 <= baddr b + bsize b - 8) ->
  seg st lo pa bs hi -> seg (store st w v) lo pa bs hi.
Proof.
  intros Hw H. apply (seg_agree st); [|exact H].
  intros c Hc. destruct (seg_in _ _ _ _ _ _ H Hc) as (C1 & C2 & C3 & _).
  rewrite min_block_size_val in *.
  destruct Hw as [Hw|[Hw|(b & Hb & W1 & W2)]].
  - split; apply load_store_other; lia.
  - split; apply load_store_other; lia.
  - destruct (seg_in _ _ _ _ _ _ H Hb) as (B1 & B2 & B3 & _).
    assert (Hd : c = b \/ baddr c + bsize c <= baddr b \/ baddr b + bsize b <= baddr c).
    { clear - H Hb Hc. revert lo pa H.
      induction bs as [|d bs IH]; intros lo pa H; [destruct Hb|].
      cbn in H. destruct H as (Ha & _ & H).
      destruct Hb as [<-|Hb], Hc as [<-|Hc].
      - now left.
      - destruct (seg_in _ _ _ _ _ _ H Hc) as (? & _). right. right. lia.
      - destruct (seg_in _ _ _ _ _ _ H Hb) as (? & _). right. left. lia.
      - eapply IH; eauto. }
    destruct Hd as [->|Hd]; split; apply load_store_other; lia.
Qed.

Lemma seg_disjoint st : forall bs lo pa hi b c,
  seg st lo pa bs hi -> In b bs -> In c bs ->
  b = c \/ baddr b + bsize b <= baddr c \/ baddr c + bsize c <= baddr b.
Proof.
  induction bs as [|d bs IH]; intros lo pa hi b c H Hb Hc; [destruct Hb|].
  cbn in H. destruct H as (Ha & _ & H).
  destruct Hb as [<-|Hb], Hc as [<-|Hc].
  - now left.
  - destruct (seg_in _ _ _ _ _ _ H Hc) as (? & _). right. left. lia.
  - destruct (seg_in _ _ _ _ _ _ H Hb) as (? & _). right. right. lia.
  - eapply IH; eauto.
Qed.

Lemma seg_addr_inj st bs lo pa hi b c :
  seg st lo pa bs hi -> In b bs -> In c bs -> baddr b = baddr c -> b = c.
Proof.
  intros H Hb Hc E.
  destruct (seg_disjoint _ _ _ _ _ _ _ H Hb Hc) as [?|Hd]; [assumption|].
  destruct (seg_in _ _ _ _ _ _ H Hb) as (_ & _ & ? & _).
  destruct (seg_in _ _ _ _ _ _ H Hc) as (_ & _ & ? & _).
  rewrite min_block_size_val in *. lia.
Qed.

Lemma seg_NoDup st : forall bs lo pa hi,
  seg st lo pa bs hi -> NoDup (map baddr bs).
Proof.
  induction bs as [|b bs IH]; intros lo pa hi H; [constructor|].
  cbn. pose proof H as H0. cbn in H. destruct H as (Ha & (Hs & _) & H).
  constructor; [|eapply IH; eauto].
  intros Hin. apply in_map_iff in Hin. destruct Hin as (c & E & Hc).
  destruct (seg_in _ _ _ _ _ _ H Hc) as (? & _).
  rewrite min_block_size_val in *. lia.
Qed.

(** What the code reads in the header of a block of the segment. *)
Lemma seg_header st : forall bs lo pa hi b,
  seg st lo pa bs hi -> In b bs ->
  exists pb, load st (baddr b) = hdr (bsize b) pb (balloc b) /\
             (balloc b = false ->
              pb = true /\ load st (baddr b + bsize b - 8) = hdr (bsize b) true false).
Proof.
  induction bs as [|c bs IH]; intros lo pa hi b H Hb; [destruct Hb|].
  cbn in H. destruct H as (Ha & (Hs & Hm & Hh) & H).
  destruct Hb as [<-|Hb]; [|eapply IH; eauto].
  destruct (balloc c) eqn:E.
  - exists pa. split; [exact Hh|discriminate].
  - destruct Hh as (-> & Hh & Hf). exists true. auto.
Qed.

Lemma in_free_addrs z bs :
  In z (free_addrs bs) <-> exists b, In b bs /\ baddr b = z /\ balloc b = false.
Proof.
  unfold free_addrs. rewrite in_map_iff. split.
  - intros (b & E & Hb). apply filter_In in Hb. destruct Hb as (Hb & Hf).
    exists b. unfold is_free in Hf. destruct (balloc b); [discriminate|]. auto.
  - intros (b & Hb & E & Hf). exists b. split; [exact E|].
    apply filter_In. split; [exact Hb|]. unfold is_free. now rewrite Hf.
Qed.

Lemma free_addrs_app l1 l2 : free_addrs (l1 ++ l2) = free_addrs l1 ++ free_addrs l2.
Proof. unfold free_addrs. now rewrite filter_app, map_app. Qed.

Lemma free_addrs_NoDup st bs lo pa hi :
  seg st lo pa bs hi -> NoDup (free_addrs bs).
Proof.
  intros H. apply seg_NoDup in H. unfold free_addrs.
  induction bs as [|b bs IH]; [constructor|].
  cbn in H. inversion H as [|? ? Hn Hd]; subst.
  cbn. destruct (is_free b); [|auto].
  cbn. constructor; [|auto].
  intros Hin. apply Hn. apply in_map_iff in Hin. destruct Hin as (c & E & Hc).
  apply filter_In in Hc. apply in_map_iff. exists c. tauto.
Qed.

(** * The representation relation: doubly linked runs *)

Lemma dlseg_agree st st' : forall l pv p q,
  (forall z, In z l ->
     get_prev st' z = get_prev st z /\ get_next st' z = get_next st z) ->
  dlseg st pv p l q -> dlseg st' pv p l q.
Proof.
  induction l as [|a l IH]; intros pv p q Hag H; [exact H|].
  cbn in H |- *. destruct H as (-> & Ha & Hp & H).
  destruct (Hag a (or_introl eq_refl)) as (E1 & E2).
  rewrite E1, E2. repeat split; auto.
  apply IH; [|exact H]. intros z Hz. apply Hag. now right.
Qed.

Lemma dlseg_app st : forall l1 l2 pv p q,
  dlseg st pv p (l1 ++ l2) q <->
  exists m, dlseg st pv p l1 m /\ dlseg st (last l1 pv) m l2 q.
Proof.
  induction l1 as [|a l1 IH]; intros l2 pv p q.
  - cbn. split.
    + intros H. exists p. auto.
    + intros (m & -> & H). exact H.
  - cbn [app dlseg]. split.
    + intros (-> & Ha & Hp & H). apply IH in H. destruct H as (m & H1 & H2).
      exists m. split; [auto|].
      destruct l1; [exact H2|]. erewrite last_default_irrelevant. exact H2.
    + intros (m & (-> & Ha & Hp & H1) & H2). repeat split; auto.
      apply IH. exists m. split; [exact H1|].
      destruct l1; [exact H2|]. erewrite last_default_irrelevant. exact H2.
Qed.

Lemma dlseg_nonnull st : forall l pv p q z,
  dlseg st pv p l q -> In z l -> z <> NULL.
Proof.
  induction l as [|a l IH]; intros pv p q z H Hz; [destruct Hz|].
  cbn in H. destruct H as (-> & Ha & _ & H).
  destruct Hz as [<-|Hz]; [exact Ha|eapply IH; eauto].
Qed.

Lemma dlseg_fl_walk st : forall l pv p,
  dlseg st pv p l NULL -> fl_walk st p l.
Proof.
  induction l as [|a l IH]; intros pv p H; [exact H|].
  cbn in H |- *. destruct H as (-> & Ha & _ & H). eauto.
Qed.

(** Redirecting the [next] field of the last node of a run. *)
Lemma dlseg_retarget st st' q' : forall l pv h p q,
  dlseg st pv h (l ++ [p]) q ->
  (forall z, In z (l ++ [p]) -> get_prev st' z = get_prev st z) ->
  (forall z, In z l -> get_next st' z = get_next st z) ->
  get_next st' p = q' ->
  dlseg st' pv h (l ++ [p]) q'.
Proof.
  induction l as [|a l IH]; intros pv h p q H Hp Hn Hq.
  - cbn in H |- *. destruct H as (-> & Ha & Hpv & _).
    rewrite (Hp p (or_introl eq_refl)). auto.
  - cbn [app dlseg] in H |- *. destruct H as (-> & Ha & Hpv & H).
    rewrite (Hp a (or_introl eq_refl)), (Hn a (or_introl eq_refl)).
    repeat split; auto. eapply IH; eauto.
    + intros z Hz. apply Hp. now right.
    + intros z Hz. apply Hn. now right.
Qed.

(** * Cells of memory and the free list inside a heap with a gap *)

Section Hole.

Variables (st : state) (l1 : list block) (r S : Z) (pa' : bool)
          (l2 : list block) (fl : list Z).
Hypothesis H : hole st l1 r S pa' l2 fl.

Lemma hole_block c :
  In c l1 \/ In c l2 ->
  min_block_size <= bsize c /\ bsize c mod 16 = 0 /\
  heap_start st <= baddr c /\ baddr c + bsize c <= mem_brk st - 8 /\
  (In c l1 -> baddr c + bsize c <= r) /\
  (In c l2 -> r + S <= baddr c).
Proof.
  destruct H as [Hstart Hbrk Hpro Hseg1 HS Hseg2 Hepi Hdl Hperm]. intros [Hc|Hc].
  - destruct (seg_in _ _ _ _ _ _ Hseg1 Hc) as (? & ? & ? & ?).
    pose proof (seg_bounds _ _ _ _ _ Hseg2).
    repeat split; try assumption; try lia.
    intros Hc2. destruct (seg_in _ _ _ _ _ _ Hseg2 Hc2) as (? & ? & ? & ?).
    rewrite min_block_size_val in *. lia.
  - destruct (seg_in _ _ _ _ _ _ Hseg2 Hc) as (? & ? & ? & ?).
    pose proof (seg_bounds _ _ _ _ _ Hseg1).
    repeat split; try assumption; try lia.
    intros Hc1. destruct (seg_in _ _ _ _ _ _ Hseg1 Hc1) as (? & ? & ? & ?).
    rewrite min_block_size_val in *. lia.
Qed.

Lemma hole_blocks_apart b c :
  In b l1 \/ In b l2 -> In c l1 \/ In c l2 ->
  b = c \/ baddr b + bsize b <= baddr c \/ baddr c + bsize c <= baddr b.
Proof.
  intros Hb Hc.
  destruct (hole_block b Hb) as (_ & _ & _ & _ & B1 & B2).
  destruct (hole_block c Hc) as (_ & _ & _ & _ & C1 & C2).
  destruct H as [Hstart Hbrk Hpro Hseg1 HS Hseg2 Hepi Hdl Hperm].
  destruct Hb as [Hb|Hb], Hc as [Hc|Hc].
  - exact (seg_disjoint _ _ _ _ _ _ _ Hseg1 Hb Hc).
  - specialize (B1 Hb). specialize (C2 Hc). right. left. lia.
  - specialize (B2 Hb). specialize (C1 Hc). right. right. lia.
  - exact (seg_disjoint _ _ _ _ _ _ _ Hseg2 Hb Hc).
Qed.

Lemma hole_node z :
  In z fl ->
  exists b, (In b l1 \/ In b l2) /\ baddr b = z /\ balloc b = false.
Proof.
  intros Hz. destruct H as [Hstart Hbrk Hpro Hseg1 HS Hseg2 Hepi Hdl Hperm].
  apply (Permutation_in _ Hperm) in Hz. apply in_free_addrs in Hz.
  destruct Hz as (b & Hb & E & Hf). apply in_app_or in Hb. eauto.
Qed.

Lemma hole_node_of_block b :
  In b l1 \/ In b l2 -> balloc b = false -> In (baddr b) fl.
Proof.
  intros Hb Hf. destruct H as [Hstart Hbrk Hpro Hseg1 HS Hseg2 Hepi Hdl Hperm].
  apply (Permutation_in _ (Permutation_sym Hperm)).
  apply in_free_addrs. exists b. rewrite in_app_iff. auto.
Qed.

Lemma hole_NoDup : NoDup fl.
Proof.
  destruct H as [Hstart Hbrk Hpro Hseg1 HS Hseg2 Hepi Hdl Hperm]. apply (Permutation_NoDup (Permutation_sym Hperm)).
  rewrite free_addrs_app. apply NoDup_app.
  - eapply free_addrs_NoDup; eauto.
  - eapply free_addrs_NoDup; eauto.
  - intros z Hz1 Hz2. apply in_free_addrs in Hz1, Hz2.
    destruct Hz1 as (b & Hb & Eb & _), Hz2 as (c & Hc & Ec & _).
    destruct (seg_in _ _ _ _ _ _ Hseg1 Hb) as (? & ? & ? & ?).
    destruct (seg_in _ _ _ _ _ _ Hseg2 Hc) as (? & ? & ? & ?).
    rewrite min_block_size_val in *. lia.
Qed.

Lemma hole_node_range z : In z fl -> 8 <= z /\ z + 32 <= mem_brk st - 8.
Proof.
  intros Hz. destruct (hole_node z Hz) as (b & Hb & <- & _).
  destruct (hole_block b Hb) as (? & ? & ? & ? & _).
  destruct H as [Hstart Hbrk Hpro Hseg1 HS Hseg2 Hepi Hdl Hperm]. rewrite min_block_size_val in *. lia.
Qed.

Lemma hole_nodes_sep z1 z2 :
  In z1 fl -> In z2 fl -> z1 = z2 \/ z1 + 32 <= z2 \/ z2 + 32 <= z1.
Proof.
  intros Hz1 Hz2.
  destruct (hole_node z1 Hz1) as (b & Hb & <- & _).
  destruct (hole_node z2 Hz2) as (c & Hc & <- & _).
  destruct (hole_block b Hb) as (? & _).
  destruct (hole_block c Hc) as (? & _).
  rewrite min_block_size_val in *.
  destruct (hole_blocks_apart b c Hb Hc) as [->|?]; [now left|lia].
Qed.

(** Header and footer words never overlap the link fields of a node. *)
Lemma hole_meta_clear c z :
  In c l1 \/ In c l2 -> In z fl ->
  (baddr c <= z \/ z + 24 <= baddr c) /\
  (baddr c + bsize c - 8 <= z \/ z + 24 <= baddr c + bsize c - 8).
Proof.
  intros Hc Hz.
  destruct (hole_node z Hz) as (b & Hb & <- & _).
  destruct (hole_block b Hb) as (? & _).
  destruct (hole_block c Hc) as (? & _).
  rewrite min_block_size_val in *.
  destruct (hole_blocks_apart b c Hb Hc) as [->|?]; lia.
Qed.

Lemma hole_gap_clear y z :
  In z fl -> r <= y -> y + 8 <= r + S -> y + 8 <= z \/ z + 32 <= y.
Proof.
  intros Hz Hy1 Hy2.
  destruct (hole_node z Hz) as (b & Hb & <- & _).
  destruct (hole_block b Hb) as (? & _ & _ & _ & B1 & B2).
  rewrite min_block_size_val in *.
  destruct Hb as [Hb|Hb]; [specialize (B1 Hb)|specialize (B2 Hb)]; lia.
Qed.

Lemma hole_head_range :
  freelist_start st = NULL \/ In (freelist_start st) fl.
Proof.
  destruct H as [Hstart Hbrk Hpro Hseg1 HS Hseg2 Hepi Hdl Hperm]. unfold dl in Hdl. destruct fl as [|a l].
  - left. exact Hdl.
  - right. cbn in Hdl. destruct Hdl as (-> & _). now left.
Qed.

End Hole.

(** * [fl_remove] on a well-formed list *)

Lemma list_snoc_cases {A} (l : list A) : l = [] \/ exists l' x, l = l' ++ [x].
Proof.
  destruct l as [|a l]; [now left|right].
  destruct (exists_last (l := a :: l)) as (l' & x & E); [discriminate|]. eauto.
Qed.

Lemma NoDup_app_disj {A} (l1 l2 : list A) z :
  NoDup (l1 ++ l2) -> In z l1 -> In z l2 -> False.
Proof.
  induction l1 as [|a l1 IH]; intros Hnd H1 H2; [destruct H1|].
  cbn in Hnd. inversion Hnd as [|? ? Hn Hnd']; subst.
  destruct H1 as [->|H1]; [|auto].
  apply Hn. apply in_or_app. now right.
Qed.

Lemma NoDup_snoc_notin {A} (l : list A) p r :
  NoDup ((l ++ [p]) ++ r) -> In p l -> False.
Proof.
  intros Hnd Hp. apply NoDup_app_remove_r in Hnd.
  apply (NoDup_app_disj _ _ p Hnd Hp). now left.
Qed.

Lemma NoDup_second_notin {A} (l : list A) x n r :
  NoDup (l ++ x :: n :: r) -> In n r -> False.
Proof.
  intros Hnd Hn. apply NoDup_app_remove_l in Hnd.
  inversion Hnd as [|? ? _ Hnd']. inversion Hnd'. contradiction.
Qed.

Ltac ld :=
  unfold get_prev, get_next, set_prev, set_next;
  repeat first
    [ rewrite load_set_freelist_start
    | rewrite load_store_same by (pose proof word_max_val; unfold NULL; lia)
    | rewrite load_store_other by lia ].

Lemma fl_remove_dl st fl la x lb :
  dl st fl -> fl = la ++ x :: lb -> NoDup fl ->
  (forall z1 z2, In z1 fl -> In z2 fl ->
     z1 = z2 \/ z1 + 32 <= z2 \/ z2 + 32 <= z1) ->
  get_alloc st x = false ->
  let st' := fl_remove st x in
  dl st' (la ++ lb) /\
  get_prev st' x = NULL /\ get_next st' x = NULL /\
  heap_start st' = heap_start st /\ mem_brk st' = mem_brk st /\
  mem_max_addr st' = mem_max_addr st /\
  (forall y, (forall z, In z fl -> y + 8 <= z + 8 \/ z + 24 <= y) ->
             load st' y = load st y).
Proof.
  intros Hdl -> Hnd Hsep Hal. unfold dl in Hdl.
  apply dlseg_app in Hdl. destruct Hdl as (m & Hla & Hx).
  cbn [dlseg] in Hx. destruct Hx as (-> & Hx0 & Hxp & Hlb).
  assert (Hxin : In x (la ++ x :: lb)) by (apply in_elt).
  assert (Hother : forall z, In z (la ++ lb) ->
            In z (la ++ x :: lb) /\ (z + 32 <= x \/ x + 32 <= z)).
  { intros z Hz. assert (Hz' : In z (la ++ x :: lb)).
    { apply in_app_or in Hz. apply in_or_app. cbn. tauto. }
    split; [exact Hz'|].
    destruct (Hsep z x Hz' Hxin) as [->|?]; [|assumption].
    exfalso. apply NoDup_remove_2 in Hnd. contradiction. }
  assert (Hla_other : forall z, In z la -> z + 32 <= x \/ x + 32 <= z).
  { intros z Hz. apply Hother. apply in_or_app. now left. }
  assert (Hlb_other : forall z, In z lb -> z + 32 <= x \/ x + 32 <= z).
  { intros z Hz. apply Hother. apply in_or_app. now right. }
  cbn zeta. unfold fl_remove, NULL in *.
  destruct (Z.eqb_spec x 0) as [|_]; [contradiction|]. rewrite Hal. cbn [orb].
  set (st2 := set_prev (set_next st x 0) x 0).
  assert (Hst2 : forall y, (y + 8 <= x + 8 \/ x + 24 <= y) -> load st2 y = load st y).
  { intros y Hy. unfold st2. ld. reflexivity. }
  assert (Hst2p : get_prev st2 x = 0) by (unfold st2; ld; reflexivity).
  assert (Hst2n : get_next st2 x = 0) by (unfold st2; ld; reflexivity).
  assert (Hla2 : dlseg st2 0 (freelist_start st) la x).
  { apply (dlseg_agree st); [|exact Hla]. intros z Hz.
    specialize (Hla_other z Hz). unfold get_prev, get_next.
    split; apply Hst2; lia. }
  assert (Hlb2 : dlseg st2 x (get_next st x) lb 0).
  { apply (dlseg_agree st); [|exact Hlb]. intros z Hz.
    specialize (Hlb_other z Hz). unfold get_prev, get_next.
    split; apply Hst2; lia. }
  assert (Hfr : forall y z, In z (la ++ x :: lb) ->
            (forall z, In z (la ++ x :: lb) -> y + 8 <= z + 8 \/ z + 24 <= y) ->
            y + 8 <= z + 8 \/ z + 24 <= y) by auto.
  destruct (list_snoc_cases la) as [->|(la' & p & ->)];
    destruct lb as [|n lb'].
  - (* only node *)
    cbn in Hla, Hlb, Hxp. rewrite Hlb, Hxp. cbn [Z.eqb andb].
    refine (conj _ (conj _ (conj _ (conj eq_refl (conj eq_refl (conj eq_refl _)))))).
    + reflexivity.
    + unfold st2. ld. reflexivity.
    + unfold st2. ld. reflexivity.
    + intros y Hy. rewrite load_set_freelist_start. apply Hst2.
      apply Hy. now left.
  - (* head of a longer list *)
    cbn in Hla, Hxp. cbn [dlseg] in Hlb. destruct Hlb as (Hn & Hn0 & Hnp & Hlb').
    rewrite Hn, Hxp. destruct (Z.eqb_spec n 0) as [|_]; [contradiction|].
    cbn [Z.eqb andb].
    specialize (Hlb_other n (or_introl eq_refl)).
    cbn [app]. refine (conj _ (conj _ (conj _ (conj eq_refl (conj eq_refl (conj eq_refl _)))))).
    + unfold dl. cbn [dlseg freelist_start set_freelist_start].
      split; [reflexivity|]. split; [exact Hn0|]. split.
      * unfold st2. ld. reflexivity.
      * cbn [dlseg] in Hlb2. destruct Hlb2 as (_ & _ & _ & Hlb2).
        apply (dlseg_agree st2).
        -- intros z Hz. assert (Hzn : z + 32 <= n \/ n + 32 <= z).
           { assert (Hz' : In z (x :: n :: lb')) by (cbn; tauto).
             assert (Hn' : In n (x :: n :: lb')) by (cbn; tauto).
             destruct (Hsep z n Hz' Hn') as [->|?]; [|assumption].
             exfalso. cbn [app] in Hnd. inversion Hnd as [|? ? _ Hnd'].
             inversion Hnd' as [|? ? Hni _]. contradiction. }
           ld. split; reflexivity.
        -- replace (get_next (set_freelist_start (set_prev st2 n 0) n) n)
             with (get_next st2 n); [exact Hlb2|].
           ld. reflexivity.
    + unfold st2. ld. reflexivity.
    + unfold st2. ld. reflexivity.
    + intros y Hy. pose proof (Hy x (or_introl eq_refl)).
      pose proof (Hy n (or_intror (or_introl eq_refl))).
      unfold st2. ld. reflexivity.
  - (* last node *)
    cbn in Hlb. rewrite last_last in Hxp. rewrite Hlb, Hxp.
    assert (Hp0 : p <> 0).
    { apply (dlseg_nonnull _ _ _ _ _ p Hla). apply in_or_app. right. now left. }
    destruct (Z.eqb_spec p 0) as [|_]; [contradiction|]. cbn [Z.eqb andb].
    specialize (Hla_other p ltac:(apply in_or_app; right; now left)).
    rewrite app_nil_r. refine (conj _ (conj _ (conj _ (conj eq_refl (conj eq_refl (conj eq_refl _)))))).
    + unfold dl. change (freelist_start (set_next st2 p 0)) with (freelist_start st).
      apply (dlseg_retarget st2 _ 0 _ _ _ _ x Hla2).
      * intros z Hz. ld.
        assert (Hzp : z = p \/ z + 32 <= p \/ p + 32 <= z).
        { apply Hsep; apply in_or_app; left; [exact Hz|].
          apply in_or_app. right. now left. }
        destruct Hzp as [->|?]; ld; reflexivity.
      * intros z Hz. ld.
        assert (Hzp : z = p \/ z + 32 <= p \/ p + 32 <= z).
        { apply Hsep; apply in_or_app; left; apply in_or_app;
            [left; exact Hz|right; now left]. }
        destruct Hzp as [->|?]; [|ld; reflexivity].
        exfalso. exact (NoDup_snoc_notin _ _ _ Hnd Hz).
      * ld. reflexivity.
    + unfold st2. ld. reflexivity.
    + unfold st2. ld. reflexivity.
    + intros y Hy. pose proof (Hy x Hxin).
      pose proof (Hy p ltac:(apply in_or_app; left; apply in_or_app; right; now left)).
      unfold st2. ld. reflexivity.
  - (* interior node *)
    rewrite last_last in Hxp.
    cbn [dlseg] in Hlb. destruct Hlb as (Hn & Hn0 & Hnp & Hlb').
    rewrite Hn, Hxp.
    assert (Hp0 : p <> 0).
    { apply (dlseg_nonnull _ _ _ _ _ p Hla). apply in_or_app. right. now left. }
    destruct (Z.eqb_spec n 0) as [|_]; [contradiction|].
    destruct (Z.eqb_spec p 0) as [|_]; [contradiction|]. cbn [andb].
    assert (Hpin : In p ((la' ++ [p]) ++ x :: n :: lb')).
    { apply in_or_app; left; apply in_or_app; right; now left. }
    assert (Hnin : In n ((la' ++ [p]) ++ x :: n :: lb')).
    { apply in_or_app; right; cbn; tauto. }
    pose proof (Hla_other p ltac:(apply in_or_app; right; now left)) as Hpx.
    pose proof (Hlb_other n (or_introl eq_refl)) as Hnx.
    assert (Hpn : p + 32 <= n \/ n + 32 <= p).
    { destruct (Hsep p n Hpin Hnin) as [E|?]; [|assumption]. exfalso.
      pose proof (NoDup_remove_1 _ _ _ Hnd) as Hnd1. subst n.
      rewrite <- app_assoc in Hnd1. cbn [app] in Hnd1.
      apply NoDup_remove_2 in Hnd1. apply Hnd1. apply in_or_app. right. now left. }
    pose proof (load_range st (x + 16)) as Rn. unfold get_next in Hn. rewrite Hn in Rn.
    pose proof (load_range st (x + 8)) as Rp. unfold get_prev in Hxp. rewrite Hxp in Rp.
    refine (conj _ (conj _ (conj _ (conj eq_refl (conj eq_refl (conj eq_refl _)))))).
    + unfold dl.
      change (freelist_start (set_prev (set_next st2 p n) n p)) with (freelist_start st).
      apply dlseg_app. exists n. split.
      * apply (dlseg_retarget st2 _ n _ _ _ _ x Hla2).
        -- intros z Hz.
           assert (Hzp : z = p \/ z + 32 <= p \/ p + 32 <= z).
           { apply Hsep; [|exact Hpin]. apply in_or_app. now left. }
           assert (Hzn : z = n \/ z + 32 <= n \/ n + 32 <= z).
           { apply Hsep; [|exact Hnin]. apply in_or_app. now left. }
           destruct Hzn as [->|Hzn];
             [exfalso; apply (NoDup_app_disj _ _ n Hnd Hz); cbn; tauto|].
           destruct Hzp as [->|?]; ld; reflexivity.
        -- intros z Hz.
           assert (Hzin : In z ((la' ++ [p]) ++ x :: n :: lb')).
           { apply in_or_app; left; apply in_or_app; now left. }
           assert (Hzp : z = p \/ z + 32 <= p \/ p + 32 <= z) by (apply Hsep; auto).
           assert (Hzn : z = n \/ z + 32 <= n \/ n + 32 <= z) by (apply Hsep; auto).
           destruct Hzn as [->|Hzn];
             [exfalso; apply (NoDup_app_disj _ _ n Hnd);
              [apply in_or_app; left; exact Hz|cbn; tauto]|].
           destruct Hzp as [->|?]; [|ld; reflexivity].
           exfalso. exact (NoDup_snoc_notin _ _ _ Hnd Hz).
        -- ld. reflexivity.
      * rewrite last_last. cbn [dlseg]. split; [reflexivity|].
        split; [exact Hn0|]. split; [ld; reflexivity|].
        cbn [dlseg] in Hlb2. destruct Hlb2 as (_ & _ & _ & Hlb2).
        replace (get_next (set_prev (set_next st2 p n) n p) n) with (get_next st2 n)
          by (ld; reflexivity).
        apply (dlseg_agree st2); [|exact Hlb2].
        intros z Hz.
        assert (Hzin : In z ((la' ++ [p]) ++ x :: n :: lb')).
        { apply in_or_app; right; cbn; tauto. }
        assert (Hzp : z = p \/ z + 32 <= p \/ p + 32 <= z) by (apply Hsep; auto).
        assert (Hzn : z = n \/ z + 32 <= n \/ n + 32 <= z) by (apply Hsep; auto).
        destruct Hzp as [->|Hzp];
          [exfalso; apply (NoDup_app_disj _ _ p Hnd);
           [apply in_or_app; right; now left|cbn; tauto]|].
        destruct Hzn as [->|?]; [|ld; split; reflexivity].
        exfalso. exact (NoDup_second_notin _ _ _ _ Hnd Hz).
    + unfold st2. ld. reflexivity.
    + unfold st2. ld. reflexivity.
    + intros y Hy. pose proof (Hy x Hxin). pose proof (Hy p Hpin). pose proof (Hy n Hnin).
      unfold st2. ld. reflexivity.
Qed.

(** * Which bytes the allocator writes *)

Lemma keeps_refl bs st : keeps bs st st.
Proof. intros x _. reflexivity. Qed.

Lemma keeps_trans bs st1 st2 st3 :
  keeps bs st1 st2 -> keeps bs st2 st3 -> keeps bs st1 st3.
Proof. intros H1 H2 x Hx. rewrite (H2 x Hx). exact (H1 x Hx). Qed.

Lemma in_payload_incl bs bs' x :
  alloc_incl bs bs' -> in_payload bs x -> in_payload bs' x.
Proof. intros Hi (c & Hc & Ha & Hx). exists c. auto. Qed.

Lemma keeps_incl bs bs' st st' :
  alloc_incl bs bs' -> keeps bs' st st' -> keeps bs st st'.
Proof. intros Hi H x Hx. apply H. exact (in_payload_incl _ _ _ Hi Hx). Qed.

Lemma alloc_incl_refl bs : alloc_incl bs bs.
Proof. intros c Hc _. exact Hc. Qed.

Lemma alloc_incl_trans b1 b2 b3 :
  alloc_incl b1 b2 -> alloc_incl b2 b3 -> alloc_incl b1 b3.
Proof. intros H1 H2 c Hc Ha. apply H2; [apply H1|]; assumption. Qed.

Lemma alloc_incl_drop_free l1 n l2 :
  balloc n = false -> alloc_incl (l1 ++ n :: l2) (l1 ++ l2).
Proof.
  intros Hn c Hc Ha. apply in_app_or in Hc. apply in_or_app.
  destruct Hc as [?|[<-|?]]; [now left|congruence|now right].
Qed.

Lemma alloc_incl_add l1 n l2 : alloc_incl (l1 ++ l2) (l1 ++ n :: l2).
Proof.
  intros c Hc _. apply in_app_or in Hc. apply in_or_app. cbn. tauto.
Qed.

Lemma keeps_store bs st w v :
  (forall x, in_payload bs x -> x < w \/ w + 8 <= x) ->
  keeps bs st (store st w v).
Proof.
  intros H x Hx. unfold store. cbn [mem set_mem]. apply store64_outside. auto.
Qed.

Lemma mem_store_outside st w v x :
  x < w \/ w + 8 <= x -> mem (store st w v) x = mem st x.
Proof. intros H. unfold store. cbn [mem set_mem]. apply store64_outside. exact H. Qed.

(** The bytes [fl_remove] may write: the two link fields of the block,
    the [prev] field of its successor and the [next] field of its
    predecessor. *)
Lemma fl_remove_bytes st b x :
  x < b + 8 \/ b + 24 <= x ->
  get_next st b = NULL \/ x < get_next st b + 8 \/ get_next st b + 16 <= x ->
  get_prev st b = NULL \/ x < get_prev st b + 16 \/ get_prev st b + 24 <= x ->
  mem (fl_remove st b) x = mem st x.
Proof.
  intros Hb Hn Hp. unfold fl_remove, set_next, set_prev, NULL in *.
  destruct ((b =? 0) || get_alloc st b); [reflexivity|].
  destruct (Z.eqb_spec (get_next st b) 0) as [En|En];
    destruct (Z.eqb_spec (get_prev st b) 0) as [Ep|Ep]; cbn [andb];
    cbn [mem set_freelist_start];
    rewrite ?mem_store_outside by lia; reflexivity.
Qed.

(** The bytes [fl_insert] may write: the [next] field of the block and
    the [prev] field of the old head. *)
Lemma fl_insert_bytes st b x :
  x < b + 16 \/ b + 24 <= x ->
  freelist_start st = NULL \/
    x < freelist_start st + 8 \/ freelist_start st + 16 <= x ->
  mem (fl_insert st b) x = mem st x.
Proof.
  intros Hb Hh. unfold fl_insert, set_next, set_prev, NULL in *.
  destruct (b =? 0); [reflexivity|].
  destruct (Z.eqb_spec (freelist_start st) 0) as [E|E]; [reflexivity|].
  cbn [mem set_freelist_start]. rewrite freelist_start_store.
  rewrite !mem_store_outside by lia. reflexivity.
Qed.

Lemma dlseg_links st : forall l pv p q z,
  dlseg st pv p l q -> In z l ->
  (get_next st z = q \/ In (get_next st z) l) /\
  (get_prev st z = pv \/ In (get_prev st z) l).
Proof.
  induction l as [|a l IH]; intros pv p q z H Hz; [destruct Hz|].
  cbn [dlseg] in H. destruct H as (-> & _ & Hp & H).
  destruct Hz as [<-|Hz].
  - split; [|left; exact Hp].
    destruct l as [|b l']; cbn [dlseg] in H.
    + left. exact H.
    + right. right. left. symmetry. exact (proj1 H).
  - destruct (IH _ _ _ _ H Hz) as (Hn & Hpv). split.
    + destruct Hn; [now left|right; now right].
    + right. destruct Hpv as [->|?]; [now left|now right].
Qed.

(** ** Payload bytes in a heap with a gap *)

Lemma hole_payload_block st l1 r S pa' l2 fl x :
  hole st l1 r S pa' l2 fl -> in_payload (l1 ++ l2) x ->
  exists c, (In c l1 \/ In c l2) /\ balloc c = true /\
            baddr c + 8 <= x < baddr c + bsize c.
Proof.
  intros _ (c & Hc & Ha & Hx). exists c. apply in_app_or in Hc. auto.
Qed.

Lemma hole_payload_gap st l1 r S pa' l2 fl x :
  hole st l1 r S pa' l2 fl -> in_payload (l1 ++ l2) x ->
  x < r \/ r + S <= x.
Proof.
  intros H Hx. destruct (hole_payload_block _ _ _ _ _ _ _ _ H Hx) as (c & Hc & _ & Hr).
  destruct (hole_block _ _ _ _ _ _ _ H c Hc) as (_ & _ & _ & _ & B1 & B2).
  destruct Hc as [Hc|Hc]; [specialize (B1 Hc)|specialize (B2 Hc)]; lia.
Qed.

Lemma hole_payload_range st l1 r S pa' l2 fl x :
  hole st l1 r S pa' l2 fl -> in_payload (l1 ++ l2) x ->
  heap_start st + 8 <= x < mem_brk st - 8.
Proof.
  intros H Hx. destruct (hole_payload_block _ _ _ _ _ _ _ _ H Hx) as (c & Hc & _ & Hr).
  destruct (hole_block _ _ _ _ _ _ _ H c Hc) as (_ & _ & B1 & B2 & _). lia.
Qed.

Lemma hole_payload_header st l1 r S pa' l2 fl x c :
  hole st l1 r S pa' l2 fl -> in_payload (l1 ++ l2) x ->
  In c l1 \/ In c l2 -> x < baddr c \/ baddr c + 8 <= x.
Proof.
  intros H Hx Hc.
  destruct (hole_payload_block _ _ _ _ _ _ _ _ H Hx) as (d & Hd & _ & Hr).
  destruct (hole_block _ _ _ _ _ _ _ H c Hc) as (B0 & _).
  rewrite min_block_size_val in B0.
  destruct (hole_blocks_apart _ _ _ _ _ _ _ H d c Hd Hc) as [->|?]; lia.
Qed.

Lemma hole_payload_free st l1 r S pa' l2 fl x c :
  hole st l1 r S pa' l2 fl -> in_payload (l1 ++ l2) x ->
  In c l1 \/ In c l2 -> balloc c = false ->
  x < baddr c \/ baddr c + bsize c <= x.
Proof.
  intros H Hx Hc Hf.
  destruct (hole_payload_block _ _ _ _ _ _ _ _ H Hx) as (d & Hd & Ha & Hr).
  destruct (hole_blocks_apart _ _ _ _ _ _ _ H d c Hd Hc) as [->|?]; [congruence|lia].
Qed.

Lemma hole_payload_node st l1 r S pa' l2 fl x z :
  hole st l1 r S pa' l2 fl -> in_payload (l1 ++ l2) x -> In z fl ->
  x < z \/ z + 32 <= x.
Proof.
  intros H Hx Hz.
  destruct (hole_node _ _ _ _ _ _ _ H z Hz) as (c & Hc & <- & Hf).
  destruct (hole_block _ _ _ _ _ _ _ H c Hc) as (B0 & _).
  rewrite min_block_size_val in B0.
  pose proof (hole_payload_free _ _ _ _ _ _ _ _ _ H Hx Hc Hf). lia.
Qed.

(** The word right behind the gap is the header of a block or of the
    epilogue. *)
Lemma hole_payload_head st l1 r S pa' l2 fl x :
  hole st l1 r S pa' l2 fl -> in_payload (l1 ++ l2) x ->
  x < r + S \/ r + S + 8 <= x.
Proof.
  intros H Hx. pose proof (ho_seg2 _ _ _ _ _ _ _ H) as Hs2.
  destruct l2 as [|n l2].
  - cbn in Hs2. pose proof (hole_payload_range _ _ _ _ _ _ _ _ H Hx). lia.
  - cbn in Hs2. destruct Hs2 as (Ea & _).
    pose proof (hole_payload_header _ _ _ _ _ _ _ _ n H Hx (or_intror (or_introl eq_refl))).
    lia.
Qed.

Lemma fl_remove_keeps st l1 r S pa' l2 fl z :
  hole st l1 r S pa' l2 fl -> In z fl ->
  keeps (l1 ++ l2) st (fl_remove st z).
Proof.
  intros H Hz x Hx.
  destruct (dlseg_links _ _ _ _ _ _ (ho_dl _ _ _ _ _ _ _ H) Hz) as (Hn & Hp).
  apply fl_remove_bytes.
  - pose proof (hole_payload_node _ _ _ _ _ _ _ _ _ H Hx Hz). lia.
  - destruct Hn as [?|Hn]; [now left|right].
    pose proof (hole_payload_node _ _ _ _ _ _ _ _ _ H Hx Hn). lia.
  - destruct Hp as [?|Hp]; [now left|right].
    pose proof (hole_payload_node _ _ _ _ _ _ _ _ _ H Hx Hp). lia.
Qed.

Lemma hole_store_keeps st l1 r S pa' l2 fl w v :
  hole st l1 r S pa' l2 fl -> r <= w -> w + 8 <= r + S ->
  keeps (l1 ++ l2) st (store st w v).
Proof.
  intros H W1 W2. apply keeps_store. intros x Hx.
  pose proof (hole_payload_gap _ _ _ _ _ _ _ _ H Hx). lia.
Qed.

(** * Growing a gap by unlinking a free neighbour *)

Lemma hole_node_free st l1 r S pa' l2 fl z :
  hole st l1 r S pa' l2 fl -> In z fl -> get_alloc st z = false.
Proof.
  intros H Hz. destruct (hole_node _ _ _ _ _ _ _ H z Hz) as (b & Hb & <- & Hf).
  destruct (hole_block _ _ _ _ _ _ _ H b Hb) as (_ & Hm & _).
  destruct H as [Hstart Hbrk Hpro Hseg1 HS Hseg2 Hepi Hdl Hperm].
  assert (Hh : exists pb, load st (baddr b) = hdr (bsize b) pb (balloc b)).
  { destruct Hb as [Hb|Hb].
    - destruct (seg_header _ _ _ _ _ _ Hseg1 Hb) as (pb & E & _). eauto.
    - destruct (seg_header _ _ _ _ _ _ Hseg2 Hb) as (pb & E & _). eauto. }
  destruct Hh as (pb & E). unfold get_alloc. rewrite E, extract_alloc_hdr by exact Hm.
  exact Hf.
Qed.

Lemma fl_remove_in_hole st l1 r S pa' l2 fl x :
  hole st l1 r S pa' l2 fl -> In x fl ->
  let st' := fl_remove st x in
  exists la lb, fl = la ++ x :: lb /\
    dl st' (la ++ lb) /\
    get_prev st' x = NULL /\ get_next st' x = NULL /\
    heap_start st' = heap_start st /\ mem_brk st' = mem_brk st /\
    mem_max_addr st' = mem_max_addr st /\
    seg st' (heap_start st) true l1 r /\
    seg st' (r + S) pa' l2 (mem_brk st - 8) /\
    load st' (heap_start st - 8) = load st (heap_start st - 8) /\
    load st' (mem_brk st - 8) = load st (mem_brk st - 8) /\
    (forall y, r <= y -> y + 8 <= r + S -> load st' y = load st y) /\
    (forall c, In c l1 \/ In c l2 ->
       load st' (baddr c) = load st (baddr c) /\
       load st' (baddr c + bsize c - 8) = load st (baddr c + bsize c - 8)).
Proof.
  intros H Hx. cbn zeta.
  destruct (in_split _ _ Hx) as (la & lb & E).
  pose proof (fl_remove_dl st fl la x lb (ho_dl _ _ _ _ _ _ _ H) E
                (hole_NoDup _ _ _ _ _ _ _ H)
                (hole_nodes_sep _ _ _ _ _ _ _ H)
                (hole_node_free _ _ _ _ _ _ _ _ H Hx)) as Hrm.
  cbn zeta in Hrm. destruct Hrm as (Hdl' & Hp & Hn & Hhs & Hbk & Hmx & Hfr).
  assert (Hmeta : forall c, In c l1 \/ In c l2 ->
       load (fl_remove st x) (baddr c) = load st (baddr c) /\
       load (fl_remove st x) (baddr c + bsize c - 8) = load st (baddr c + bsize c - 8)).
  { intros c Hc. split; apply Hfr; intros z Hz;
      destruct (hole_meta_clear _ _ _ _ _ _ _ H c z Hc Hz); lia. }
  exists la, lb. split; [exact E|].
  split; [exact Hdl'|]. split; [exact Hp|]. split; [exact Hn|].
  split; [exact Hhs|]. split; [exact Hbk|]. split; [exact Hmx|].
  pose proof (seg_bounds _ _ _ _ _ (ho_seg1 _ _ _ _ _ _ _ H)) as B1.
  pose proof (seg_bounds _ _ _ _ _ (ho_seg2 _ _ _ _ _ _ _ H)) as B2.
  pose proof (ho_size _ _ _ _ _ _ _ H) as B3.
  split; [|split; [|split; [|split; [|split]]]].
  - apply (seg_agree st); [|exact (ho_seg1 _ _ _ _ _ _ _ H)]. intros c Hc. auto.
  - apply (seg_agree st); [|exact (ho_seg2 _ _ _ _ _ _ _ H)]. intros c Hc. auto.
  - apply Hfr. intros z Hz.
    destruct (hole_node _ _ _ _ _ _ _ H z Hz) as (b & Hb & <- & _).
    destruct (hole_block _ _ _ _ _ _ _ H b Hb) as (_ & _ & ? & _). lia.
  - apply Hfr. intros z Hz.
    pose proof (hole_node_range _ _ _ _ _ _ _ H z Hz). lia.
  - intros y Hy1 Hy2. apply Hfr. intros z Hz.
    pose proof (hole_gap_clear _ _ _ _ _ _ _ H y z Hz Hy1 Hy2). lia.
  - exact Hmeta.
Qed.

Lemma free_addrs_cons_free n l :
  balloc n = false -> free_addrs (n :: l) = baddr n :: free_addrs l.
Proof. intros Hf. unfold free_addrs. cbn. unfold is_free. now rewrite Hf. Qed.

Lemma free_addrs_cons_alloc n l :
  balloc n = true -> free_addrs (n :: l) = free_addrs l.
Proof. intros Hf. unfold free_addrs. cbn. unfold is_free. now rewrite Hf. Qed.

(** Unlinking the free block right after the gap. *)
Lemma hole_absorb_next st l1 r S pa' n l2 fl :
  hole st l1 r S pa' (n :: l2) fl -> balloc n = false ->
  let st' := fl_remove st (baddr n) in
  exists la lb, fl = la ++ baddr n :: lb /\
    hole st' l1 r (S + bsize n) false l2 (la ++ lb) /\
    baddr n = r + S /\ pa' = true /\
    min_block_size <= bsize n /\ bsize n mod 16 = 0 /\
    get_prev st' (baddr n) = NULL /\ get_next st' (baddr n) = NULL /\
    load st' (baddr n) = hdr (bsize n) true false /\
    (forall y, r <= y -> y + 8 <= r + S -> load st' y = load st y).
Proof.
  intros H Hf. cbn zeta.
  assert (Hx : In (baddr n) fl).
  { apply (hole_node_of_block _ _ _ _ _ _ _ H n); [right; now left|exact Hf]. }
  destruct (fl_remove_in_hole _ _ _ _ _ _ _ _ H Hx)
    as (la & lb & E & Hdl & Hp & Hn & Hhs & Hbk & Hmx & Hs1 & Hs2 & Hpro & Hepi & Hgap & Hmeta).
  exists la, lb. split; [exact E|].
  cbn [seg] in Hs2. destruct Hs2 as (Ha & Hok & Hs2).
  destruct Hok as (Hsz & Hm & Hh). rewrite Hf in Hh. destruct Hh as (Hpa & Hh & _).
  rewrite Hf in Hs2.
  split; [|repeat split; auto].
  destruct H as [Hstart Hbrk Hpro0 Hseg1 HS Hseg2 Hepi0 Hdl0 Hperm].
  rewrite min_block_size_val in Hsz.
  constructor; rewrite ?Hhs, ?Hbk, ?Hmx; auto.
  - congruence.
  - lia.
  - replace (r + (S + bsize n)) with (r + S + bsize n) by lia. exact Hs2.
  - rewrite Hepi, Hepi0, last_alloc_cons, Hf. reflexivity.
  - subst fl. rewrite free_addrs_app, free_addrs_cons_free in Hperm by exact Hf.
    rewrite free_addrs_app. eapply Permutation_app_inv. exact Hperm.
Qed.

(** Unlinking the free block right before the gap. *)
Lemma hole_absorb_prev st l1 p r S pa' l2 fl :
  hole st (l1 ++ [p]) r S pa' l2 fl -> balloc p = false ->
  let st' := fl_remove st (baddr p) in
  exists la lb, fl = la ++ baddr p :: lb /\
    hole st' l1 (baddr p) (bsize p + S) pa' l2 (la ++ lb) /\
    baddr p + bsize p = r /\ last_alloc true l1 = true /\
    min_block_size <= bsize p /\ bsize p mod 16 = 0 /\
    get_prev st' (baddr p) = NULL /\ get_next st' (baddr p) = NULL /\
    load st' (baddr p) = hdr (bsize p) true false /\
    load st' (r - 8) = hdr (bsize p) true false /\
    (forall y, r <= y -> y + 8 <= r + S -> load st' y = load st y).
Proof.
  intros H Hf. cbn zeta.
  assert (Hx : In (baddr p) fl).
  { apply (hole_node_of_block _ _ _ _ _ _ _ H p); [|exact Hf].
    left. apply in_or_app. right. now left. }
  destruct (fl_remove_in_hole _ _ _ _ _ _ _ _ H Hx)
    as (la & lb & E & Hdl & Hp & Hn & Hhs & Hbk & Hmx & Hs1 & Hs2 & Hpro & Hepi & Hgap & Hmeta).
  exists la, lb. split; [exact E|].
  apply seg_app in Hs1. destruct Hs1 as (mid & Hs1 & Hsp).
  cbn [seg] in Hsp. destruct Hsp as (Ha & Hok & Hr).
  destruct Hok as (Hsz & Hm & Hh). rewrite Hf in Hh. destruct Hh as (Hpa & Hh & Hft).
  assert (Er : baddr p + bsize p = r) by lia.
  split; [|repeat split; auto].
  2:{ rewrite <- Er. replace (baddr p + bsize p - 8) with (baddr p + bsize p - 8) by lia.
      exact Hft. }
  destruct H as [Hstart Hbrk Hpro0 Hseg1 HS Hseg2 Hepi0 Hdl0 Hperm].
  rewrite min_block_size_val in Hsz.
  constructor; rewrite ?Hhs, ?Hbk, ?Hmx; auto.
  - congruence.
  - rewrite <- Ha in Hs1. exact Hs1.
  - lia.
  - replace (baddr p + (bsize p + S)) with (r + S) by lia. exact Hs2.
  - congruence.
  - subst fl. rewrite !free_addrs_app in Hperm. rewrite free_addrs_cons_free in Hperm by exact Hf.
    cbn [free_addrs filter map] in Hperm. rewrite <- app_assoc in Hperm. cbn [app] in Hperm.
    rewrite free_addrs_app. eapply Permutation_app_inv. exact Hperm.
Qed.

(** Stores inside the gap do not disturb the rest of the heap. *)
Lemma hole_store st l1 r S pa' l2 fl w v :
  hole st l1 r S pa' l2 fl -> r <= w -> w + 8 <= r + S ->
  hole (store st w v) l1 r S pa' l2 fl.
Proof.
  intros H W1 W2.
  pose proof (seg_bounds _ _ _ _ _ (ho_seg1 _ _ _ _ _ _ _ H)) as B1.
  pose proof (seg_bounds _ _ _ _ _ (ho_seg2 _ _ _ _ _ _ _ H)) as B2.
  pose proof H as H0.
  destruct H as [Hstart Hbrk Hpro Hseg1 HS Hseg2 Hepi Hdl Hperm].
  constructor; rewrite ?heap_start_store, ?mem_brk_store, ?mem_max_addr_store; auto.
  - rewrite load_store_other by lia. exact Hpro.
  - apply seg_store_outside; [lia|exact Hseg1].
  - apply seg_store_outside; [lia|exact Hseg2].
  - rewrite load_store_other by lia. exact Hepi.
  - unfold dl in *. rewrite freelist_start_store.
    apply (dlseg_agree st); [|exact Hdl]. intros z Hz.
    pose proof (hole_gap_clear _ _ _ _ _ _ _ H0 w z Hz W1 W2).
    unfold get_prev, get_next. split; apply load_store_other; lia.
Qed.

(** Stores into the link fields of a free-list node. *)
Lemma hole_store_link st l1 r S pa' l2 fl w v z :
  hole st l1 r S pa' l2 fl -> In z fl -> w = z + 8 \/ w = z + 16 ->
  let st' := store st w v in
  seg st' (heap_start st) true l1 r /\
  seg st' (r + S) pa' l2 (mem_brk st - 8) /\
  load st' (heap_start st - 8) = hdr 0 true true /\
  load st' (mem_brk st - 8) = hdr 0 (last_alloc pa' l2) true /\
  (forall y, r <= y -> y + 8 <= r + S -> load st' y = load st y).
Proof.
  intros H Hz Hw. cbn zeta.
  pose proof (seg_bounds _ _ _ _ _ (ho_seg1 _ _ _ _ _ _ _ H)) as B1.
  pose proof (seg_bounds _ _ _ _ _ (ho_seg2 _ _ _ _ _ _ _ H)) as B2.
  destruct (hole_node _ _ _ _ _ _ _ H z Hz) as (b & Hb & Eb & Hf).
  destruct (hole_block _ _ _ _ _ _ _ H b Hb) as (Hsz & _ & Hlo & Hhi & Hb1 & Hb2).
  rewrite min_block_size_val in Hsz.
  pose proof (ho_size _ _ _ _ _ _ _ H) as HS.
  split; [|split; [|split; [|split]]].
  - apply seg_store_interior; [|exact (ho_seg1 _ _ _ _ _ _ _ H)].
    destruct Hb as [Hb|Hb].
    + right. right. exists b. split; [exact Hb|]. lia.
    + specialize (Hb2 Hb). right. left. lia.
  - apply seg_store_interior; [|exact (ho_seg2 _ _ _ _ _ _ _ H)].
    destruct Hb as [Hb|Hb].
    + specialize (Hb1 Hb). left. lia.
    + right. right. exists b. split; [exact Hb|]. lia.
  - rewrite load_store_other by lia. exact (ho_prologue _ _ _ _ _ _ _ H).
  - rewrite load_store_other by lia. exact (ho_epilogue _ _ _ _ _ _ _ H).
  - intros y Hy1 Hy2. apply load_store_other.
    pose proof (hole_gap_clear _ _ _ _ _ _ _ H y z Hz Hy1 Hy2). lia.
Qed.

(** * Re-tagging the block after a gap *)

Lemma hole_head_header st l1 r S pa' l2 fl :
  hole st l1 r S pa' l2 fl -> head_alloc l2 = true ->
  load st (r + S) = hdr (head_size l2) pa' true /\
  head_size l2 mod 16 = 0 /\ 0 <= head_size l2 /\
  r + S + head_size l2 <= mem_brk st - 8.
Proof.
  intros H Ha. destruct H as [Hstart Hbrk Hpro Hseg1 HS Hseg2 Hepi Hdl Hperm].
  destruct l2 as [|n l2]; cbn in *.
  - rewrite Hseg2. split; [exact Hepi|]. split; [reflexivity|]. lia.
  - destruct Hseg2 as (E & (Hsz & Hm & Hh) & Hrest). rewrite Ha in Hh.
    rewrite <- E. split; [exact Hh|]. split; [exact Hm|].
    apply seg_bounds in Hrest. rewrite min_block_size_val in Hsz. lia.
Qed.

Lemma hole_false_head_alloc st l1 r S l2 fl :
  hole st l1 r S false l2 fl -> head_alloc l2 = true.
Proof.
  intros H. destruct l2 as [|n l2]; [reflexivity|].
  pose proof (ho_seg2 _ _ _ _ _ _ _ H) as Hs2. cbn in Hs2 |- *.
  destruct Hs2 as (_ & (_ & _ & Hal) & _).
  destruct (balloc n); [reflexivity|]. destruct Hal. discriminate.
Qed.

(** No free-list node sits at the block that follows the gap when that
    block is allocated. *)
Lemma hole_node_clear_head st l1 r S pa' l2 fl z :
  hole st l1 r S pa' l2 fl -> head_alloc l2 = true -> In z fl ->
  z + 32 <= r \/ r + S + head_size l2 <= z.
Proof.
  intros H Ha Hz.
  destruct (hole_node _ _ _ _ _ _ _ H z Hz) as (b & Hb & Eb & Hf).
  destruct (hole_block _ _ _ _ _ _ _ H b Hb) as (Hbs & _ & _ & _ & Hb1 & Hb2).
  rewrite min_block_size_val in Hbs.
  destruct Hb as [Hb|Hb]; [specialize (Hb1 Hb); lia|].
  destruct l2 as [|n l2]; [destruct Hb|].
  pose proof (ho_seg2 _ _ _ _ _ _ _ H) as Hs2.
  cbn in Ha, Hs2 |- *. destruct Hs2 as (E & _ & Hrest).
  destruct Hb as [Hb|Hb]; [congruence|].
  destruct (seg_in _ _ _ _ _ _ Hrest Hb) as (? & _). lia.
Qed.

Lemma hole_retag_head st l1 r S pa' l2 fl pb :
  hole st l1 r S pa' l2 fl -> head_alloc l2 = true ->
  hole (store st (r + S) (hdr (head_size l2) pb true)) l1 r S pb l2 fl.
Proof.
  intros H Ha.
  destruct (hole_head_header _ _ _ _ _ _ _ H Ha) as (Hh & Hm & Hs0 & Hend).
  pose proof (seg_bounds _ _ _ _ _ (ho_seg1 _ _ _ _ _ _ _ H)) as B1.
  pose proof H as H0.
  destruct H as [Hstart Hbrk Hpro Hseg1 HS Hseg2 Hepi Hdl Hperm].
  assert (Hr : 0 <= hdr (head_size l2) pb true < word_max).
  { apply hdr_range; [exact Hs0|]. lia. }
  constructor; rewrite ?heap_start_store, ?mem_brk_store, ?mem_max_addr_store; auto.
  - rewrite load_store_other by lia. exact Hpro.
  - apply seg_store_outside; [lia|exact Hseg1].
  - destruct l2 as [|n l2]; [exact Hseg2|].
    cbn in Ha, Hseg2 |- *. destruct Hseg2 as (E & (Hsz & Hm' & Hh') & Hrest).
    rewrite min_block_size_val in Hsz.
    split; [exact E|]. split.
    + split; [rewrite min_block_size_val; exact Hsz|]. split; [exact Hm'|].
      rewrite Ha. rewrite E. apply load_store_same. exact Hr.
    + apply seg_store_outside; [lia|exact Hrest].
  - destruct l2 as [|n l2].
    + cbn in Hseg2. rewrite <- Hseg2. rewrite load_store_same by exact Hr. reflexivity.
    + cbn in Hseg2, Hend. destruct Hseg2 as (E & (Hsz & _) & Hrest).
      rewrite min_block_size_val in Hsz.
      rewrite load_store_other by lia. rewrite Hepi, !last_alloc_cons. reflexivity.
  - unfold dl in *. rewrite freelist_start_store.
    apply (dlseg_agree st); [|exact Hdl]. intros z Hz.
    destruct (hole_node _ _ _ _ _ _ _ H0 z Hz) as (b & Hb & Eb & Hf).
    destruct (hole_block _ _ _ _ _ _ _ H0 b Hb) as (Hbs & _ & _ & _ & Hb1 & Hb2).
    rewrite min_block_size_val in Hbs.
    pose proof (hole_node_clear_head _ _ _ _ _ _ _ z H0 Ha Hz) as Hcl.
    unfold get_prev, get_next. split; apply load_store_other; lia.
Qed.

(** What [set_next_prev_alloc] does when the following block is
    allocated (or is the epilogue). *)
Lemma set_next_prev_alloc_head st l1 r S pa' l2 fl blk pb :
  hole st l1 r S pa' l2 fl -> head_alloc l2 = true ->
  find_next st blk = r + S ->
  set_next_prev_alloc st blk pb = store st (r + S) (hdr (head_size l2) pb true).
Proof.
  intros H Ha Hn.
  destruct (hole_head_header _ _ _ _ _ _ _ H Ha) as (Hh & Hm & Hs0 & Hend).
  pose proof (ho_brk _ _ _ _ _ _ _ H) as Hbrk.
  pose proof (ho_start _ _ _ _ _ _ _ H) as Hstart.
  pose proof (ho_size _ _ _ _ _ _ _ H) as HS.
  pose proof (seg_bounds _ _ _ _ _ (ho_seg1 _ _ _ _ _ _ _ H)) as B1.
  unfold set_next_prev_alloc. rewrite Hn. cbn zeta.
  unfold get_size, get_alloc. rewrite Hh.
  rewrite extract_size_hdr, extract_alloc_hdr by (try assumption; lia).
  rewrite pack_hdr by assumption.
  replace (true || negb pb) with true by (destruct pb; reflexivity).
  rewrite load_store_same by (apply hdr_range; lia).
  rewrite extract_alloc_hdr by assumption. reflexivity.
Qed.

(** * Closing a gap with a free block *)

Lemma dl_head st fl :
  dl st fl ->
  (freelist_start st = NULL /\ fl = []) \/
  (exists fl', fl = freelist_start st :: fl' /\ freelist_start st <> NULL).
Proof.
  unfold dl. destruct fl as [|a fl']; cbn.
  - intros ->. now left.
  - intros (-> & Ha & _). right. eauto.
Qed.

Lemma seg_set_freelist_start st f bs lo pa hi :
  seg st lo pa bs hi -> seg (set_freelist_start st f) lo pa bs hi.
Proof. apply seg_agree. intros b _. split; reflexivity. Qed.

Lemma fl_insert_fills st l1 r S l2 fl :
  hole st l1 r S false l2 fl ->
  min_block_size <= S -> S mod 16 = 0 -> last_alloc true l1 = true ->
  load st r = hdr S true false -> load st (r + S - 8) = hdr S true false ->
  get_prev st r = NULL -> get_next st r = NULL ->
  let st' := fl_insert st r in
  heap_rep st' (l1 ++ mkBlock r S false :: l2) (r :: fl) /\
  freelist_start st' = r /\
  load st' r = load st r /\ load st' (r + S) = load st (r + S).
Proof.
  intros H HS32 HSm Hpa Hh Hf Hp Hn. cbn zeta.
  rewrite min_block_size_val in HS32.
  pose proof (seg_bounds _ _ _ _ _ (ho_seg1 _ _ _ _ _ _ _ H)) as B1.
  pose proof (seg_bounds _ _ _ _ _ (ho_seg2 _ _ _ _ _ _ _ H)) as B2.
  pose proof (ho_start _ _ _ _ _ _ _ H) as Hstart.
  pose proof (ho_brk _ _ _ _ _ _ _ H) as Hbrk.
  pose proof word_max_val as Hwm.
  assert (Hperm' : Permutation (r :: fl)
                     (free_addrs (l1 ++ mkBlock r S false :: l2))).
  { rewrite free_addrs_app, free_addrs_cons_free by reflexivity. cbn [baddr].
    apply Permutation_cons_app. rewrite <- free_addrs_app.
    exact (ho_perm _ _ _ _ _ _ _ H). }
  assert (Hepi' : forall st', load st' (mem_brk st - 8) = hdr 0 (last_alloc false l2) true ->
            load st' (mem_brk st - 8) =
            hdr 0 (last_alloc true (l1 ++ mkBlock r S false :: l2)) true).
  { intros st' E. rewrite last_alloc_app, last_alloc_cons. exact E. }
  assert (Hseg' : forall st',
            seg st' (heap_start st) true l1 r ->
            seg st' (r + S) false l2 (mem_brk st - 8) ->
            load st' r = hdr S true false ->
            load st' (r + S - 8) = hdr S true false ->
            seg st' (heap_start st) true (l1 ++ mkBlock r S false :: l2) (mem_brk st - 8)).
  { intros st' S1 S2 E1 E2. apply seg_app. exists r. split; [exact S1|].
    cbn [seg baddr bsize balloc]. split; [reflexivity|]. split; [|exact S2].
    unfold blk_ok. cbn [baddr bsize balloc]. rewrite min_block_size_val. auto. }
  unfold fl_insert, NULL in *.
  destruct (Z.eqb_spec r 0) as [|_]; [lia|].
  destruct (dl_head _ _ (ho_dl _ _ _ _ _ _ _ H)) as [(E0 & ->)|(fl' & Efl & Hh0)];
    unfold NULL in *.
  - rewrite E0. cbn [Z.eqb].
    destruct H as [_ _ Hpro Hseg1 _ Hseg2 Hepi Hdl _].
    split; [|auto].
    constructor; cbn [heap_start mem_brk mem_max_addr set_freelist_start]; auto.
    + apply seg_set_freelist_start. apply Hseg'; auto.
    + unfold dl. cbn [dlseg freelist_start set_freelist_start].
      unfold NULL. repeat split; auto; lia.
  - set (h := freelist_start st) in *.
    destruct (Z.eqb_spec h 0) as [|_]; [contradiction|].
    assert (Hhin : In h fl) by (rewrite Efl; now left).
    pose proof (hole_gap_clear _ _ _ _ _ _ _ H (r + 8) h Hhin ltac:(lia) ltac:(lia)) as G8.
    pose proof (hole_gap_clear _ _ _ _ _ _ _ H (r + 16) h Hhin ltac:(lia) ltac:(lia)) as G16.
    pose proof (hole_gap_clear _ _ _ _ _ _ _ H r h Hhin ltac:(lia) ltac:(lia)) as G0.
    pose proof (hole_gap_clear _ _ _ _ _ _ _ H (r + S - 8) h Hhin ltac:(lia) ltac:(lia)) as GF.
    pose proof (hole_node_range _ _ _ _ _ _ _ H h Hhin) as Rh.
    pose proof (hole_store _ _ _ _ _ _ _ (r + 16) h H ltac:(lia) ltac:(lia)) as Ha.
    destruct (hole_store_link _ _ _ _ _ _ _ (h + 8) r h Ha Hhin (or_introl eq_refl))
      as (S1 & S2 & Pro & Epi & Gap).
    cbn zeta in S1, S2, Pro, Epi, Gap.
    rewrite ?heap_start_store, ?mem_brk_store in *.
    unfold set_next, set_prev. rewrite freelist_start_store. fold h.
    split; [|split; [reflexivity|split]].
    + constructor;
        cbn [heap_start mem_brk mem_max_addr set_freelist_start];
        rewrite ?heap_start_store, ?mem_brk_store, ?mem_max_addr_store; auto.
      * apply seg_set_freelist_start. apply Hseg'; auto.
        -- rewrite !load_store_other by lia. exact Hh.
        -- rewrite !load_store_other by lia. exact Hf.
      * unfold dl. cbn [dlseg freelist_start set_freelist_start].
        split; [reflexivity|]. split; [unfold NULL; lia|]. split.
        -- unfold get_prev. rewrite load_set_freelist_start.
           rewrite !load_store_other by lia. exact Hp.
        -- unfold get_next at 1. rewrite load_set_freelist_start.
           rewrite load_store_other by lia.
           rewrite load_store_same by lia.
           rewrite Efl. cbn [dlseg]. split; [reflexivity|]. split; [exact Hh0|].
           split.
           ++ unfold get_prev. rewrite load_set_freelist_start.
              apply load_store_same. lia.
           ++ pose proof (ho_dl _ _ _ _ _ _ _ H) as Hdl. unfold dl in Hdl.
              fold h in Hdl. rewrite Efl in Hdl. cbn [dlseg] in Hdl.
              destruct Hdl as (_ & _ & _ & Hdl).
              replace (get_next (set_freelist_start
                         (store (store st (r + 16) h) (h + 8) r) r) h)
                with (get_next st h).
              2:{ unfold get_next. rewrite load_set_freelist_start.
                  rewrite !load_store_other by lia. reflexivity. }
              apply (dlseg_agree st); [|exact Hdl]. intros z Hz.
              assert (Hzin : In z fl) by (rewrite Efl; now right).
              assert (Hzh : z + 32 <= h \/ h + 32 <= z).
              { destruct (hole_nodes_sep _ _ _ _ _ _ _ H z h Hzin Hhin) as [->|?];
                  [|assumption].
                exfalso. pose proof (hole_NoDup _ _ _ _ _ _ _ H) as Hnd.
                rewrite Efl in Hnd. inversion Hnd. contradiction. }
              pose proof (hole_gap_clear _ _ _ _ _ _ _ H (r + 16) z Hzin
                            ltac:(lia) ltac:(lia)).
              unfold get_prev, get_next. rewrite !load_set_freelist_start.
              split; rewrite !load_store_other by lia; reflexivity.
    + rewrite load_set_freelist_start. rewrite !load_store_other by lia. reflexivity.
    + rewrite load_set_freelist_start.
      pose proof (hole_node_clear_head _ _ _ _ _ _ _ h H
                    (hole_false_head_alloc _ _ _ _ _ _ H) Hhin) as Hcl.
      destruct (hole_head_header _ _ _ _ _ _ _ H (hole_false_head_alloc _ _ _ _ _ _ H))
        as (_ & _ & Hs0 & _).
      rewrite !load_store_other by lia. reflexivity.
Qed.

Lemma hole_arith st l1 r S pa' l2 fl :
  hole st l1 r S pa' l2 fl ->
  8 <= heap_start st /\ heap_start st <= r /\ 0 <= S /\
  r + S <= mem_brk st - 8 /\ mem_brk st <= mem_max_addr st /\
  mem_max_addr st < 18446744073709551616.
Proof.
  intros H.
  pose proof (seg_bounds _ _ _ _ _ (ho_seg1 _ _ _ _ _ _ _ H)).
  pose proof (seg_bounds _ _ _ _ _ (ho_seg2 _ _ _ _ _ _ _ H)).
  pose proof (ho_start _ _ _ _ _ _ _ H).
  pose proof (ho_brk _ _ _ _ _ _ _ H).
  pose proof (ho_size _ _ _ _ _ _ _ H).
  pose proof word_max_val. lia.
Qed.

(** The common tail of [coalesce]: clear the [prev_alloc] bit of the
    following block and push the merged block on the free list. *)
Lemma coalesce_finish st l1 r S pa' l2 fl :
  hole st l1 r S pa' l2 fl -> head_alloc l2 = true ->
  min_block_size <= S -> S mod 16 = 0 -> last_alloc true l1 = true ->
  load st r = hdr S true false -> load st (r + S - 8) = hdr S true false ->
  get_prev st r = NULL -> get_next st r = NULL ->
  let st' := fl_insert (set_next_prev_alloc st r false) r in
  heap_rep st' (l1 ++ mkBlock r S false :: l2) (r :: fl) /\
  freelist_start st' = r /\
  load st' r = hdr S true false /\
  find_next st' r = r + S /\
  get_prev_alloc st' (r + S) = false.
Proof.
  intros H Ha HS32 HSm Hpa Hh Hf Hp Hn. cbn zeta.
  destruct (hole_arith _ _ _ _ _ _ _ H) as (A1 & A2 & A3 & A4 & A5 & A6).
  rewrite min_block_size_val in HS32.
  destruct (hole_head_header _ _ _ _ _ _ _ H Ha) as (Hhh & Hm & Hs0 & Hend).
  assert (Hfn : find_next st r = r + S).
  { unfold find_next, get_size. rewrite Hh, extract_size_hdr; try assumption; try lia.
    rewrite word_max_val. lia. }
  rewrite (set_next_prev_alloc_head _ _ _ _ _ _ _ r false H Ha Hfn).
  pose proof (hole_retag_head _ _ _ _ _ _ _ false H Ha) as H1.
  set (st1 := store st (r + S) (hdr (head_size l2) false true)) in *.
  assert (L : forall y, y + 8 <= r + S -> load st1 y = load st y).
  { intros y Hy. unfold st1. apply load_store_other. lia. }
  assert (T1 : min_block_size <= S) by (rewrite min_block_size_val; exact HS32).
  assert (T2 : load st1 r = hdr S true false) by (rewrite L by lia; exact Hh).
  assert (T3 : load st1 (r + S - 8) = hdr S true false) by (rewrite L by lia; exact Hf).
  assert (T4 : get_prev st1 r = NULL) by (unfold get_prev; rewrite L by lia; exact Hp).
  assert (T5 : get_next st1 r = NULL) by (unfold get_next; rewrite L by lia; exact Hn).
  destruct (fl_insert_fills st1 l1 r S l2 fl H1 T1 HSm Hpa T2 T3 T4 T5)
    as (Hrep & Hfs & Hl1 & Hl2).
  cbn zeta in Hrep, Hfs, Hl1, Hl2.
  split; [exact Hrep|]. split; [exact Hfs|].
  assert (E : load (fl_insert st1 r) r = hdr S true false).
  { rewrite Hl1, L by lia. exact Hh. }
  split; [exact E|]. split.
  - unfold find_next, get_size. rewrite E, extract_size_hdr; try assumption; try lia.
    rewrite word_max_val. lia.
  - unfold get_prev_alloc. rewrite Hl2. unfold st1.
    rewrite load_store_same by (apply hdr_range; rewrite ?word_max_val; lia).
    apply extract_prev_alloc_hdr. exact Hm.
Qed.

(** * The last steps of [coalesce] leave the payloads alone *)

Lemma fl_insert_keeps st l1 r S pa' l2 fl :
  hole st l1 r S pa' l2 fl -> 24 <= S ->
  keeps (l1 ++ l2) st (fl_insert st r).
Proof.
  intros H HS x Hx. apply fl_insert_bytes.
  - pose proof (hole_payload_gap _ _ _ _ _ _ _ _ H Hx). lia.
  - destruct (hole_head_range _ _ _ _ _ _ _ H) as [?|Hh]; [now left|right].
    pose proof (hole_payload_node _ _ _ _ _ _ _ _ _ H Hx Hh). lia.
Qed.

Lemma coalesce_finish_keeps st l1 r S pa' l2 fl :
  hole st l1 r S pa' l2 fl -> head_alloc l2 = true ->
  min_block_size <= S -> S mod 16 = 0 ->
  load st r = hdr S true false ->
  keeps (l1 ++ l2) st (fl_insert (set_next_prev_alloc st r false) r).
Proof.
  intros H Ha HS32 HSm Hh.
  destruct (hole_arith _ _ _ _ _ _ _ H) as (A1 & A2 & A3 & A4 & A5 & A6).
  rewrite min_block_size_val in HS32.
  assert (Hfn : find_next st r = r + S).
  { unfold find_next, get_size. rewrite Hh, extract_size_hdr; try assumption; try lia.
    rewrite word_max_val. lia. }
  rewrite (set_next_prev_alloc_head _ _ _ _ _ _ _ r false H Ha Hfn).
  pose proof (hole_retag_head _ _ _ _ _ _ _ false H Ha) as H1.
  eapply keeps_trans.
  - apply keeps_store. intros x Hx.
    exact (hole_payload_head _ _ _ _ _ _ _ _ H Hx).
  - apply (fl_insert_keeps _ _ _ _ _ _ _ H1). lia.
Qed.

(** * [coalesce] *)

Lemma wrap_small x : 0 <= x < word_max -> wrap x = x.
Proof. intros. unfold wrap. now apply Z.mod_small. Qed.

Lemma last_alloc_false_snoc l :
  last_alloc true l = false -> exists l' p, l = l' ++ [p] /\ balloc p = false.
Proof.
  intros Hl. destruct (list_snoc_cases l) as [->|(l' & p & ->)].
  - discriminate.
  - rewrite last_alloc_snoc in Hl. eauto.
Qed.

Lemma head_alloc_false_cons l :
  head_alloc l = false -> exists n l', l = n :: l' /\ balloc n = false.
Proof. destruct l as [|n l']; [discriminate|]. cbn. eauto. Qed.

Lemma pre_coalesce_reads st l1 a s pa' l2 fl :
  pre_coalesce st l1 a s pa' l2 fl ->
  get_size st a = s /\ get_prev_alloc st a = last_alloc true l1 /\
  find_next st a = a + s /\ get_alloc st (a + s) = head_alloc l2.
Proof.
  intros [H [Hs32 Hsm] Hhd Hft Hp Hn].
  destruct (hole_arith _ _ _ _ _ _ _ H) as (A1 & A2 & A3 & A4 & A5 & A6).
  rewrite min_block_size_val in Hs32.
  assert (Hgs : get_size st a = s).
  { unfold get_size. rewrite Hhd. apply extract_size_pack; try lia.
    rewrite word_max_val. lia. }
  split; [exact Hgs|]. split; [|split].
  - unfold get_prev_alloc. rewrite Hhd. apply extract_prev_alloc_pack; lia.
  - unfold find_next. now rewrite Hgs.
  - destruct (head_alloc l2) eqn:Ha.
    + destruct (hole_head_header _ _ _ _ _ _ _ H Ha) as (Hh & Hm & _).
      unfold get_alloc. rewrite Hh. now apply extract_alloc_hdr.
    + destruct (head_alloc_false_cons _ Ha) as (n & l2' & -> & Hf).
      pose proof (ho_seg2 _ _ _ _ _ _ _ H) as Hs2. cbn in Hs2.
      destruct Hs2 as (E & (_ & Hm & Hal) & _). rewrite Hf in Hal.
      destruct Hal as (_ & Hal & _). unfold get_alloc.
      rewrite <- E, Hal. now apply extract_alloc_hdr.
Qed.

Lemma heap_rep_NoDup st bs fl : heap_rep st bs fl -> NoDup fl.
Proof.
  intros H. apply (Permutation_NoDup (Permutation_sym (rep_perm _ _ _ H))).
  eapply free_addrs_NoDup. exact (rep_seg _ _ _ H).
Qed.

Lemma pack_true_false s :
  0 <= s -> s mod 16 = 0 -> pack s true false = hdr s true false.
Proof. intros. now rewrite pack_hdr. Qed.

(** Case 1: both neighbours allocated. *)
Lemma coalesce_case1 st l1 a s pa' l2 fl :
  pre_coalesce st l1 a s pa' l2 fl ->
  last_alloc true l1 = true -> head_alloc l2 = true ->
  coalesce st a = (fl_insert (set_next_prev_alloc st a false) a, a) /\
  let st' := fl_insert (set_next_prev_alloc st a false) a in
  heap_rep st' (l1 ++ mkBlock a s false :: l2) (a :: fl) /\
  freelist_start st' = a /\ load st' a = hdr s true false /\
  find_next st' a = a + s /\ get_prev_alloc st' (a + s) = false.
Proof.
  intros PC Hpa Hna.
  destruct (pre_coalesce_reads _ _ _ _ _ _ _ PC) as (Hgs & Hgp & Hfn & Hga).
  destruct PC as [H [Hs32 Hsm] Hhd Hft Hp Hn].
  split.
  - unfold coalesce. rewrite Hfn, Hga, Hgp, Hpa, Hna. reflexivity.
  - rewrite Hpa in Hhd, Hft.
    rewrite pack_true_false in Hhd, Hft by (rewrite ?min_block_size_val in *; lia).
    apply (coalesce_finish st l1 a s pa' l2 fl); assumption.
Qed.

Lemma write_header_free st blk S :
  0 <= S -> S mod 16 = 0 ->
  write_header st blk S true false = store st blk (hdr S true false).
Proof. intros. unfold write_header. now rewrite pack_true_false. Qed.

Lemma write_footer_free st blk S0 S :
  get_size st blk = S0 -> 0 <= S -> S mod 16 = 0 ->
  write_footer st blk S true false = store st (blk + S0 - 8) (hdr S true false).
Proof.
  intros E ? ?. unfold write_footer, dsize. rewrite E, pack_true_false by assumption.
  f_equal. lia.
Qed.

Lemma get_size_hdr st blk S pb al :
  load st blk = hdr S pb al -> 0 <= S -> S mod 16 = 0 -> S + 16 <= word_max ->
  get_size st blk = S.
Proof. intros E ? ? ?. unfold get_size. rewrite E. now apply extract_size_hdr. Qed.

Lemma get_prev_alloc_hdr st blk S pb al :
  load st blk = hdr S pb al -> S mod 16 = 0 -> get_prev_alloc st blk = pb.
Proof. intros E ?. unfold get_prev_alloc. rewrite E. now apply extract_prev_alloc_hdr. Qed.

Lemma get_alloc_hdr st blk S pb al :
  load st blk = hdr S pb al -> S mod 16 = 0 -> get_alloc st blk = al.
Proof. intros E ?. unfold get_alloc. rewrite E. now apply extract_alloc_hdr. Qed.

Lemma coalesce_eq2 st a :
  get_prev_alloc st a = true -> get_alloc st (find_next st a) = false ->
  coalesce st a =
    let next_block := find_next st a in
    let st1 := fl_remove st next_block in
    let size := wrap (get_size st a + get_size st1 next_block) in
    let st2 := write_header st1 a size true false in
    let st3 := write_footer st2 a size true false in
    (fl_insert (set_next_prev_alloc st3 a false) a, a).
Proof. intros E1 E2. unfold coalesce. rewrite E1, E2. reflexivity. Qed.

(** Case 2: predecessor allocated, successor free. *)
Lemma coalesce_case2 st l1 a s pa' n l2 fl :
  pre_coalesce st l1 a s pa' (n :: l2) fl ->
  last_alloc true l1 = true -> balloc n = false ->
  exists la lb st',
    fl = la ++ baddr n :: lb /\ coalesce st a = (st', a) /\
    keeps (l1 ++ n :: l2) st st' /\
    heap_rep st' (l1 ++ mkBlock a (s + bsize n) false :: l2) (a :: la ++ lb) /\
    freelist_start st' = a /\ load st' a = hdr (s + bsize n) true false /\
    find_next st' a = a + (s + bsize n) /\
    get_prev_alloc st' (a + (s + bsize n)) = false.
Proof.
  intros PC Hpa Hnf.
  destruct (pre_coalesce_reads _ _ _ _ _ _ _ PC) as (Hgs & Hgp & Hfn & Hga).
  destruct PC as [H [Hs32 Hsm] Hhd Hft Hp Hn].
  cbn [head_alloc] in Hga. rewrite Hnf in Hga. rewrite Hpa in Hgp.
  destruct (hole_absorb_next _ _ _ _ _ _ _ _ H Hnf)
    as (la & lb & E & H1 & Ea & -> & Hn32 & Hnm & Hnp & Hnn & Hhn & Hgap).
  cbn zeta in *.
  destruct (hole_arith _ _ _ _ _ _ _ H1) as (A1 & A2 & A3 & A4 & A5 & A6).
  rewrite min_block_size_val in *.
  pose proof word_max_val as Hwm.
  set (st1 := fl_remove st (baddr n)) in *.
  set (S' := s + bsize n) in *.
  assert (HSm : S' mod 16 = 0).
  { unfold S'. rewrite Z.add_mod, Hsm, Hnm by lia. reflexivity. }
  set (st2 := store st1 a (hdr S' true false)).
  set (st3 := store st2 (a + S' - 8) (hdr S' true false)).
  assert (Hr : 0 <= hdr S' true false < word_max) by (apply hdr_range; lia).
  assert (Eco : coalesce st a = (fl_insert (set_next_prev_alloc st3 a false) a, a)).
  { rewrite coalesce_eq2 by (rewrite ?Hfn; assumption). cbn zeta.
    rewrite Hfn, <- Ea. fold st1.
    rewrite Hgs, (get_size_hdr st1 (baddr n) (bsize n) true false) by (auto; lia).
    fold S'. rewrite wrap_small by lia.
    rewrite write_header_free by lia. fold st2.
    rewrite (write_footer_free st2 a S') by
      (try lia; apply (get_size_hdr _ _ _ true false); try lia;
       unfold st2; apply load_store_same; exact Hr).
    reflexivity. }
  assert (H3 : hole st3 l1 a S' false l2 (la ++ lb)).
  { unfold st3, st2. apply hole_store; [apply hole_store| |]; try assumption; lia. }
  assert (L3 : forall y, a + 8 <= y -> y + 8 <= a + S' - 8 -> load st3 y = load st1 y).
  { intros y Y1 Y2. unfold st3, st2. rewrite !load_store_other by lia. reflexivity. }
  exists la, lb, (fl_insert (set_next_prev_alloc st3 a false) a).
  split; [exact E|]. split; [exact Eco|].
  split.
  { assert (Hx : In (baddr n) fl) by (rewrite E; apply in_elt).
    apply (keeps_trans _ _ st1); [exact (fl_remove_keeps _ _ _ _ _ _ _ _ H Hx)|].
    apply (keeps_trans _ _ st2).
    { apply keeps_store. intros x Hi.
      pose proof (hole_payload_gap _ _ _ _ _ _ _ _ H Hi). lia. }
    apply (keeps_trans _ _ st3).
    { apply keeps_store. intros x Hi.
      pose proof (hole_payload_gap _ _ _ _ _ _ _ _ H Hi).
      pose proof (hole_payload_free _ _ _ _ _ _ _ _ n H Hi
                    (or_intror (or_introl eq_refl)) Hnf).
      unfold S'. lia. }
    apply (keeps_incl _ (l1 ++ l2)); [apply alloc_incl_drop_free; exact Hnf|].
    apply (coalesce_finish_keeps st3 l1 a S' false l2 (la ++ lb) H3).
    - exact (hole_false_head_alloc _ _ _ _ _ _ H3).
    - rewrite min_block_size_val. lia.
    - exact HSm.
    - unfold st3, st2. rewrite load_store_other by lia. apply load_store_same. exact Hr. }
  apply (coalesce_finish st3 l1 a S' false l2 (la ++ lb)); try assumption.
  - exact (hole_false_head_alloc _ _ _ _ _ _ H3).
  - rewrite min_block_size_val. lia.
  - unfold st3, st2. rewrite load_store_other by lia. apply load_store_same. exact Hr.
  - unfold st3. apply load_store_same. exact Hr.
  - unfold get_prev. rewrite L3, Hgap by lia. exact Hp.
  - unfold get_next. rewrite L3, Hgap by lia. exact Hn.
Qed.

Lemma coalesce_eq3 st a :
  get_prev_alloc st a = false -> get_alloc st (find_next st a) = true ->
  coalesce st a =
    let st1 := fl_remove st (find_prev st a) in
    let size := wrap (get_size st a + get_size st1 (find_prev st1 a)) in
    let st2 := write_footer st1 a size (get_prev_alloc st1 (find_prev st1 a)) false in
    let st3 := write_header st2 (find_prev st2 a) size
                 (get_prev_alloc st2 (find_prev st2 a)) false in
    let blk := find_prev st3 a in
    (fl_insert (set_next_prev_alloc st3 blk false) blk, blk).
Proof. intros E1 E2. unfold coalesce. rewrite E1, E2. reflexivity. Qed.

Lemma find_prev_footer_hdr st a S pb al :
  load st (a - 8) = hdr S pb al -> 0 <= S -> S mod 16 = 0 -> S + 16 <= word_max ->
  find_prev st a = a - S.
Proof.
  intros E ? ? ?. unfold find_prev, find_prev_footer. rewrite E.
  now rewrite extract_size_hdr.
Qed.

(** Case 3: predecessor free, successor allocated. *)
Lemma coalesce_case3 st l1 p a s pa' l2 fl :
  pre_coalesce st (l1 ++ [p]) a s pa' l2 fl ->
  balloc p = false -> head_alloc l2 = true ->
  exists la lb st',
    fl = la ++ baddr p :: lb /\ coalesce st a = (st', baddr p) /\
    keeps ((l1 ++ [p]) ++ l2) st st' /\
    heap_rep st' (l1 ++ mkBlock (baddr p) (bsize p + s) false :: l2)
             (baddr p :: la ++ lb) /\
    freelist_start st' = baddr p /\
    load st' (baddr p) = hdr (bsize p + s) true false /\
    load st (baddr p) = hdr (bsize p) true false /\
    find_next st' (baddr p) = baddr p + (bsize p + s) /\
    get_prev_alloc st' (baddr p + (bsize p + s)) = false.
Proof.
  intros PC Hpf Hna.
  destruct (pre_coalesce_reads _ _ _ _ _ _ _ PC) as (Hgs & Hgp & Hfn & Hga).
  destruct PC as [H [Hs32 Hsm] Hhd Hft Hp Hn].
  rewrite last_alloc_snoc, Hpf in Hgp. rewrite Hna in Hga.
  assert (Hmeta : load st (a - 8) = hdr (bsize p) true false /\
                  load st (baddr p) = hdr (bsize p) true false).
  { pose proof (ho_seg1 _ _ _ _ _ _ _ H) as Hs1. apply seg_app in Hs1.
    destruct Hs1 as (mid & _ & Hsp). cbn in Hsp.
    destruct Hsp as (Ea & (_ & _ & Hal) & Er). rewrite Hpf in Hal.
    destruct Hal as (_ & Hh & Hf). split; [|exact Hh].
    replace (a - 8) with (baddr p + bsize p - 8) by lia. exact Hf. }
  destruct Hmeta as (Hfp0 & Hhp0).
  destruct (hole_absorb_prev _ _ _ _ _ _ _ _ H Hpf)
    as (la & lb & E & H1 & Er & Hpa1 & Hp32 & Hpm & Hpp & Hpn & Hhp & Hfp & Hgap).
  cbn zeta in *.
  destruct (hole_arith _ _ _ _ _ _ _ H1) as (A1 & A2 & A3 & A4 & A5 & A6).
  rewrite min_block_size_val in *.
  pose proof word_max_val as Hwm.
  set (st1 := fl_remove st (baddr p)) in *.
  set (S' := bsize p + s) in *.
  assert (HSm : S' mod 16 = 0).
  { unfold S'. rewrite Z.add_mod, Hsm, Hpm by lia. reflexivity. }
  set (st2 := store st1 (a + s - 8) (hdr S' true false)).
  set (st3 := store st2 (baddr p) (hdr S' true false)).
  assert (Hr : 0 <= hdr S' true false < word_max) by (apply hdr_range; lia).
  assert (Fp0 : find_prev st a = baddr p).
  { rewrite (find_prev_footer_hdr _ _ _ _ _ Hfp0); lia. }
  assert (Fp1 : find_prev st1 a = baddr p).
  { rewrite (find_prev_footer_hdr _ _ _ _ _ Hfp); lia. }
  assert (Fp2 : find_prev st2 a = baddr p).
  { rewrite (find_prev_footer_hdr st2 a (bsize p) true false); try lia.
    unfold st2. rewrite load_store_other by lia. exact Hfp. }
  assert (Fp3 : find_prev st3 a = baddr p).
  { rewrite (find_prev_footer_hdr st3 a (bsize p) true false); try lia.
    unfold st3, st2. rewrite !load_store_other by lia. exact Hfp. }
  assert (Eco : coalesce st a =
                (fl_insert (set_next_prev_alloc st3 (baddr p) false) (baddr p), baddr p)).
  { rewrite coalesce_eq3 by (rewrite ?Hfn; assumption). cbn zeta.
    rewrite Fp0. fold st1. rewrite Fp1.
    rewrite Hgs, (get_size_hdr st1 (baddr p) (bsize p) true false) by (auto; lia).
    replace (wrap (s + bsize p)) with S' by (unfold S'; rewrite wrap_small; lia).
    rewrite (get_prev_alloc_hdr st1 (baddr p) (bsize p) true false) by auto.
    rewrite (write_footer_free st1 a s) by
      (try lia; unfold get_size; rewrite Hgap by lia; exact Hgs).
    fold st2. rewrite Fp2.
    rewrite (get_prev_alloc_hdr st2 (baddr p) (bsize p) true false)
      by (auto; unfold st2; rewrite load_store_other by lia; exact Hhp).
    rewrite write_header_free by lia. fold st3. rewrite Fp3. reflexivity. }
  assert (H3 : hole st3 l1 (baddr p) S' pa' l2 (la ++ lb)).
  { unfold st3, st2. apply hole_store; [apply hole_store| |]; try assumption; lia. }
  exists la, lb, (fl_insert (set_next_prev_alloc st3 (baddr p) false) (baddr p)).
  split; [exact E|]. split; [exact Eco|].
  assert (Hpin : In p (l1 ++ [p])) by (apply in_or_app; right; now left).
  split.
  { assert (Hx : In (baddr p) fl) by (rewrite E; apply in_elt).
    apply (keeps_trans _ _ st1); [exact (fl_remove_keeps _ _ _ _ _ _ _ _ H Hx)|].
    apply (keeps_trans _ _ st2).
    { apply keeps_store. intros x Hi.
      pose proof (hole_payload_gap _ _ _ _ _ _ _ _ H Hi). lia. }
    apply (keeps_trans _ _ st3).
    { apply keeps_store. intros x Hi.
      exact (hole_payload_header _ _ _ _ _ _ _ _ p H Hi (or_introl Hpin)). }
    apply (keeps_incl _ (l1 ++ l2)).
    { rewrite <- app_assoc. apply alloc_incl_drop_free. exact Hpf. }
    apply (coalesce_finish_keeps st3 l1 (baddr p) S' pa' l2 (la ++ lb) H3);
      try assumption.
    - rewrite min_block_size_val. lia.
    - unfold st3. apply load_store_same. exact Hr. }
  destruct (coalesce_finish st3 l1 (baddr p) S' pa' l2 (la ++ lb)) as (R1 & R2 & R3 & R4 & R5);
    try assumption.
  - rewrite min_block_size_val. lia.
  - unfold st3. apply load_store_same. exact Hr.
  - unfold st3, st2. rewrite load_store_other by lia.
    replace (baddr p + S' - 8) with (a + s - 8) by lia.
    apply load_store_same. exact Hr.
  - unfold get_prev, st3, st2. rewrite !load_store_other by lia. exact Hpp.
  - unfold get_next, st3, st2. rewrite !load_store_other by lia. exact Hpn.
  - cbn zeta in *. auto 10.
Qed.

Lemma coalesce_eq4 st a :
  get_prev_alloc st a = false -> get_alloc st (find_next st a) = false ->
  coalesce st a =
    let next_block := find_next st a in
    let st1 := fl_remove st next_block in
    let st2 := fl_remove st1 (find_prev st1 a) in
    let size := wrap (get_size st a
                      + wrap (get_size st2 (find_prev st2 a) + get_size st2 next_block)) in
    let st3 := write_header st2 (find_prev st2 a) size
                 (get_prev_alloc st2 (find_prev st2 a)) false in
    let st4 := write_footer st3 next_block size
                 (get_prev_alloc st3 (find_prev st3 a)) false in
    let blk := find_prev st4 a in
    (fl_insert (set_next_prev_alloc st4 blk false) blk, blk).
Proof. intros E1 E2. unfold coalesce. rewrite E1, E2. reflexivity. Qed.

(** Case 4: both neighbours free. *)
Lemma coalesce_case4 st l1 p a s pa' n l2 fl :
  pre_coalesce st (l1 ++ [p]) a s pa' (n :: l2) fl ->
  balloc p = false -> balloc n = false ->
  exists la lb la2 lb2 st',
    fl = la ++ baddr n :: lb /\ la ++ lb = la2 ++ baddr p :: lb2 /\
    coalesce st a = (st', baddr p) /\
    keeps ((l1 ++ [p]) ++ n :: l2) st st' /\
    heap_rep st' (l1 ++ mkBlock (baddr p) (bsize p + s + bsize n) false :: l2)
             (baddr p :: la2 ++ lb2) /\
    freelist_start st' = baddr p /\
    load st' (baddr p) = hdr (bsize p + s + bsize n) true false /\
    load st (baddr p) = hdr (bsize p) true false /\
    find_next st' (baddr p) = baddr p + (bsize p + s + bsize n) /\
    get_prev_alloc st' (baddr p + (bsize p + s + bsize n)) = false.
Proof.
  intros PC Hpf Hnf.
  destruct (pre_coalesce_reads _ _ _ _ _ _ _ PC) as (Hgs & Hgp & Hfn & Hga).
  destruct PC as [H [Hs32 Hsm] Hhd Hft Hp Hn].
  rewrite last_alloc_snoc, Hpf in Hgp. cbn [head_alloc] in Hga. rewrite Hnf in Hga.
  assert (Hhp0 : load st (baddr p) = hdr (bsize p) true false).
  { pose proof (ho_seg1 _ _ _ _ _ _ _ H) as Hs1. apply seg_app in Hs1.
    destruct Hs1 as (mid & _ & Hsp). cbn in Hsp.
    destruct Hsp as (_ & (_ & _ & Hal) & _). rewrite Hpf in Hal. tauto. }
  destruct (hole_absorb_next _ _ _ _ _ _ _ _ H Hnf)
    as (la & lb & E & H1 & Ea & -> & Hn32 & Hnm & Hnp & Hnn & Hhn & Hgap1).
  cbn zeta in *.
  set (st1 := fl_remove st (baddr n)) in *.
  assert (Hfp1 : load st1 (a - 8) = hdr (bsize p) true false).
  { pose proof (ho_seg1 _ _ _ _ _ _ _ H1) as Hs1. apply seg_app in Hs1.
    destruct Hs1 as (mid & _ & Hsp). cbn in Hsp.
    destruct Hsp as (Ea' & (_ & _ & Hal) & Er). rewrite Hpf in Hal.
    destruct Hal as (_ & _ & Hf).
    replace (a - 8) with (baddr p + bsize p - 8) by lia. exact Hf. }
  destruct (hole_absorb_prev _ _ _ _ _ _ _ _ H1 Hpf)
    as (la2 & lb2 & E2 & H2 & Er & Hpa1 & Hp32 & Hpm & Hpp & Hpn & Hhp & Hfp & Hgap2).
  cbn zeta in *.
  destruct (hole_arith _ _ _ _ _ _ _ H2) as (A1 & A2 & A3 & A4 & A5 & A6).
  rewrite min_block_size_val in *.
  pose proof word_max_val as Hwm.
  set (st2 := fl_remove st1 (baddr p)) in *.
  set (S' := bsize p + s + bsize n).
  replace (bsize p + (s + bsize n)) with S' in * by (unfold S'; lia).
  assert (ES : S' = bsize p + s + bsize n) by reflexivity.
  assert (HSm : S' mod 16 = 0).
  { unfold S'. rewrite Z.add_mod, (Z.add_mod (bsize p)), Hsm, Hpm, Hnm by lia.
    reflexivity. }
  set (st3 := store st2 (baddr p) (hdr S' true false)).
  set (st4 := store st3 (baddr p + S' - 8) (hdr S' true false)).
  assert (Hr : 0 <= hdr S' true false < word_max) by (apply hdr_range; lia).
  assert (Hhn2 : load st2 (baddr n) = hdr (bsize n) true false).
  { rewrite Hgap2 by lia. exact Hhn. }
  assert (Fp1 : find_prev st1 a = baddr p).
  { rewrite (find_prev_footer_hdr _ _ _ _ _ Hfp1); lia. }
  assert (Fp2 : find_prev st2 a = baddr p).
  { rewrite (find_prev_footer_hdr _ _ _ _ _ Hfp); lia. }
  assert (Fp3 : find_prev st3 a = baddr p).
  { rewrite (find_prev_footer_hdr st3 a (bsize p) true false); try lia.
    unfold st3. rewrite load_store_other by lia. exact Hfp. }
  assert (Fp4 : find_prev st4 a = baddr p).
  { rewrite (find_prev_footer_hdr st4 a (bsize p) true false); try lia.
    unfold st4, st3. rewrite !load_store_other by lia. exact Hfp. }
  assert (Eco : coalesce st a =
                (fl_insert (set_next_prev_alloc st4 (baddr p) false) (baddr p), baddr p)).
  { rewrite coalesce_eq4 by (rewrite ?Hfn; assumption). cbn zeta.
    rewrite Hfn, <- Ea. fold st1. rewrite Fp1. fold st2. rewrite Fp2.
    rewrite Hgs, (get_size_hdr st2 (baddr p) (bsize p) true false) by (auto; lia).
    rewrite (get_size_hdr st2 (baddr n) (bsize n) true false) by (auto; lia).
    replace (wrap (s + wrap (bsize p + bsize n))) with S'
      by (rewrite (wrap_small (bsize p + bsize n)), wrap_small by lia; lia).
    rewrite (get_prev_alloc_hdr st2 (baddr p) (bsize p) true false) by auto.
    rewrite write_header_free by lia. fold st3. rewrite Fp3.
    rewrite (get_prev_alloc_hdr st3 (baddr p) S' true false)
      by (auto; unfold st3; apply load_store_same; exact Hr).
    rewrite (write_footer_free st3 (baddr n) (bsize n)) by
      (try lia; apply (get_size_hdr _ _ _ true false); try lia;
       unfold st3; rewrite load_store_other by lia; exact Hhn2).
    replace (baddr n + bsize n - 8) with (baddr p + S' - 8) by (unfold S'; lia).
    fold st4. rewrite Fp4. reflexivity. }
  assert (H4 : hole st4 l1 (baddr p) S' false l2 (la2 ++ lb2)).
  { unfold st4, st3. apply hole_store; [apply hole_store| |]; try assumption; lia. }
  exists la, lb, la2, lb2,
    (fl_insert (set_next_prev_alloc st4 (baddr p) false) (baddr p)).
  split; [exact E|]. split; [exact E2|]. split; [exact Eco|].
  assert (Hpin : In p (l1 ++ [p])) by (apply in_or_app; right; now left).
  split.
  { assert (Hx : In (baddr n) fl) by (rewrite E; apply in_elt).
    assert (Hx2 : In (baddr p) (la ++ lb)) by (rewrite E2; apply in_elt).
    apply (keeps_trans _ _ st1); [exact (fl_remove_keeps _ _ _ _ _ _ _ _ H Hx)|].
    apply (keeps_trans _ _ st2).
    { apply (keeps_incl _ ((l1 ++ [p]) ++ l2));
        [apply alloc_incl_drop_free; exact Hnf|].
      exact (fl_remove_keeps _ _ _ _ _ _ _ _ H1 Hx2). }
    apply (keeps_trans _ _ st3).
    { apply keeps_store. intros x Hi.
      exact (hole_payload_header _ _ _ _ _ _ _ _ p H Hi (or_introl Hpin)). }
    apply (keeps_trans _ _ st4).
    { apply keeps_store. intros x Hi.
      pose proof (hole_payload_free _ _ _ _ _ _ _ _ n H Hi
                    (or_intror (or_introl eq_refl)) Hnf).
      lia. }
    apply (keeps_incl _ (l1 ++ l2)).
    { eapply alloc_incl_trans; [apply alloc_incl_drop_free; exact Hnf|].
      rewrite <- app_assoc. apply alloc_incl_drop_free. exact Hpf. }
    apply (coalesce_finish_keeps st4 l1 (baddr p) S' false l2 (la2 ++ lb2) H4).
    - exact (hole_false_head_alloc _ _ _ _ _ _ H4).
    - rewrite min_block_size_val. lia.
    - exact HSm.
    - unfold st4, st3. rewrite load_store_other by lia. apply load_store_same. exact Hr. }
  destruct (coalesce_finish st4 l1 (baddr p) S' false l2 (la2 ++ lb2))
    as (R1 & R2 & R3 & R4 & R5); try assumption.
  - exact (hole_false_head_alloc _ _ _ _ _ _ H4).
  - rewrite min_block_size_val. lia.
  - unfold st4, st3. rewrite load_store_other by lia. apply load_store_same. exact Hr.
  - unfold st4. apply load_store_same. exact Hr.
  - unfold get_prev, st4, st3. rewrite !load_store_other by lia. exact Hpp.
  - unfold get_next, st4, st3. rewrite !load_store_other by lia. exact Hpn.
  - cbn zeta in *. auto 10.
Qed.

(** The four cases together. *)
Lemma coalesce_correct st l1 a s pa' l2 fl :
  pre_coalesce st l1 a s pa' l2 fl ->
  exists l1' m l2' fl',
    merge_case l1 a s l2 fl l1' m l2' fl' /\
    heap_rep (fst (coalesce st a)) (l1' ++ m :: l2') (baddr m :: fl') /\
    snd (coalesce st a) = baddr m /\ balloc m = false /\
    freelist_start (fst (coalesce st a)) = baddr m /\
    load (fst (coalesce st a)) (baddr m) = hdr (bsize m) true false /\
    get_prev_alloc st (baddr m) = true /\
    find_next (fst (coalesce st a)) (baddr m) = baddr m + bsize m /\
    get_prev_alloc (fst (coalesce st a)) (baddr m + bsize m) = false.
Proof.
  intros PC.
  destruct (pre_coalesce_reads _ _ _ _ _ _ _ PC) as (Hgs & Hgp & Hfn & Hga).
  pose proof (pc_size _ _ _ _ _ _ _ PC) as (Hs32 & Hsm).
  destruct (last_alloc true l1) eqn:Hpa; destruct (head_alloc l2) eqn:Hna.
  - destruct (coalesce_case1 _ _ _ _ _ _ _ PC Hpa Hna) as (Eco & R1 & R2 & R3 & R4 & R5).
    cbn zeta in *.
    exists l1, (mkBlock a s false), l2, fl. cbn [baddr bsize balloc].
    rewrite Eco. cbn [fst snd].
    split; [unfold merge_case; rewrite Hpa, Hna; auto|].
    repeat (split; [assumption || reflexivity|]). auto.
  - destruct (head_alloc_false_cons _ Hna) as (n & l2' & -> & Hnf).
    destruct (coalesce_case2 _ _ _ _ _ _ _ _ PC Hpa Hnf)
      as (la & lb & st' & E & Eco & _ & R1 & R2 & R3 & R4 & R5).
    exists l1, (mkBlock a (s + bsize n) false), l2', (la ++ lb). cbn [baddr bsize balloc].
    rewrite Eco. cbn [fst snd].
    split; [unfold merge_case; rewrite Hpa, Hna; exists n, la, lb; auto 10|].
    repeat (split; [assumption || reflexivity|]). auto.
  - destruct (last_alloc_false_snoc _ Hpa) as (l1' & p & -> & Hpf).
    destruct (coalesce_case3 _ _ _ _ _ _ _ _ PC Hpf Hna)
      as (la & lb & st' & E & Eco & _ & R1 & R2 & R3 & R3' & R4 & R5).
    exists l1', (mkBlock (baddr p) (bsize p + s) false), l2, (la ++ lb).
    cbn [baddr bsize balloc]. rewrite Eco. cbn [fst snd].
    split; [unfold merge_case; rewrite Hpa, Hna; exists p, la, lb; auto 10|].
    repeat (split; [assumption || reflexivity|]).
    split; [|auto].
    pose proof (pc_hole _ _ _ _ _ _ _ PC) as H.
    destruct (hole_block _ _ _ _ _ _ _ H p) as (_ & Hm & _).
    { left. apply in_or_app. right. now left. }
    now apply (get_prev_alloc_hdr _ _ _ _ _ R3').
  - destruct (last_alloc_false_snoc _ Hpa) as (l1' & p & -> & Hpf).
    destruct (head_alloc_false_cons _ Hna) as (n & l2' & -> & Hnf).
    destruct (coalesce_case4 _ _ _ _ _ _ _ _ _ PC Hpf Hnf)
      as (la & lb & la2 & lb2 & st' & E & E2 & Eco & _ & R1 & R2 & R3 & R3' & R4 & R5).
    exists l1', (mkBlock (baddr p) (bsize p + s + bsize n) false), l2', (la2 ++ lb2).
    cbn [baddr bsize balloc]. rewrite Eco. cbn [fst snd].
    split; [unfold merge_case; rewrite Hpa, Hna;
            exists p, n, la, lb, la2, lb2; auto 10|].
    repeat (split; [assumption || reflexivity|]).
    split; [|auto].
    pose proof (pc_hole _ _ _ _ _ _ _ PC) as H.
    destruct (hole_block _ _ _ _ _ _ _ H p) as (_ & Hm & _).
    { left. apply in_or_app. right. now left. }
    now apply (get_prev_alloc_hdr _ _ _ _ _ R3').
Qed.

(** [coalesce] writes no payload byte of an allocated block. *)
Lemma coalesce_keeps st l1 a s pa' l2 fl :
  pre_coalesce st l1 a s pa' l2 fl ->
  keeps (l1 ++ l2) st (fst (coalesce st a)).
Proof.
  intros PC.
  pose proof (pc_size _ _ _ _ _ _ _ PC) as (Hs32 & Hsm).
  destruct (last_alloc true l1) eqn:Hpa; destruct (head_alloc l2) eqn:Hna.
  - destruct (coalesce_case1 _ _ _ _ _ _ _ PC Hpa Hna) as (Eco & _).
    rewrite Eco. cbn [fst].
    pose proof (pc_header _ _ _ _ _ _ _ PC) as Hhd.
    rewrite Hpa, pack_true_false in Hhd by (rewrite ?min_block_size_val in *; lia).
    exact (coalesce_finish_keeps _ _ _ _ _ _ _ (pc_hole _ _ _ _ _ _ _ PC) Hna Hs32 Hsm Hhd).
  - destruct (head_alloc_false_cons _ Hna) as (n & l2' & -> & Hnf).
    destruct (coalesce_case2 _ _ _ _ _ _ _ _ PC Hpa Hnf)
      as (la & lb & st' & _ & Eco & K & _).
    rewrite Eco. exact K.
  - destruct (last_alloc_false_snoc _ Hpa) as (l1' & p & -> & Hpf).
    destruct (coalesce_case3 _ _ _ _ _ _ _ _ PC Hpf Hna)
      as (la & lb & st' & _ & Eco & K & _).
    rewrite Eco. exact K.
  - destruct (last_alloc_false_snoc _ Hpa) as (l1' & p & -> & Hpf).
    destruct (head_alloc_false_cons _ Hna) as (n & l2' & -> & Hnf).
    destruct (coalesce_case4 _ _ _ _ _ _ _ _ _ PC Hpf Hnf)
      as (la & lb & la2 & lb2 & st' & _ & _ & Eco & K & _).
    rewrite Eco. exact K.
Qed.

(** * Between a heap and a heap with a gap *)

Lemma heap_rep_gap0 st l1 l2 fl :
  heap_rep st (l1 ++ l2) fl ->
  exists r, hole st l1 r 0 (last_alloc true l1) l2 fl.
Proof.
  intros [Hstart Hbrk Hpro Hseg Hepi Hdl Hperm].
  apply seg_app in Hseg. destruct Hseg as (r & S1 & S2).
  exists r. constructor; auto; try lia.
  - now rewrite Z.add_0_r.
  - now rewrite <- last_alloc_app.
Qed.

Lemma hole_close st l1 r l2 fl :
  hole st l1 r 0 (last_alloc true l1) l2 fl -> heap_rep st (l1 ++ l2) fl.
Proof.
  intros [Hstart Hbrk Hpro Hseg1 HS Hseg2 Hepi Hdl Hperm].
  constructor; auto.
  - apply seg_app. exists r. rewrite Z.add_0_r in Hseg2. auto.
  - now rewrite last_alloc_app.
Qed.

Lemma heap_rep_split st l1 b l2 fl :
  heap_rep st (l1 ++ b :: l2) fl -> balloc b = true ->
  hole st l1 (baddr b) (bsize b) true l2 fl /\
  load st (baddr b) = hdr (bsize b) (last_alloc true l1) true /\
  min_block_size <= bsize b /\ bsize b mod 16 = 0.
Proof.
  intros [Hstart Hbrk Hpro Hseg Hepi Hdl Hperm] Hb.
  apply seg_app in Hseg. destruct Hseg as (r & S1 & S2).
  cbn in S2. destruct S2 as (E & (Hs & Hm & Hh) & S2).
  rewrite Hb in Hh, S2. subst r. rewrite min_block_size_val in *.
  split; [|auto].
  constructor; auto; try lia.
  - rewrite Hepi, last_alloc_app, last_alloc_cons, Hb. reflexivity.
  - rewrite free_addrs_app, free_addrs_cons_alloc in Hperm by exact Hb.
    now rewrite free_addrs_app.
Qed.

(** An allocated block written at the start of a gap joins the blocks
    in front of it. *)
Lemma hole_fill_alloc st l1 r S pa' l2 fl sA :
  hole st l1 r S pa' l2 fl ->
  load st r = hdr sA (last_alloc true l1) true ->
  min_block_size <= sA -> sA <= S -> sA mod 16 = 0 ->
  hole st (l1 ++ [mkBlock r sA true]) (r + sA) (S - sA) pa' l2 fl.
Proof.
  intros [Hstart Hbrk Hpro Hseg1 HS Hseg2 Hepi Hdl Hperm] Hh H32 Hle Hm.
  constructor; auto; try lia.
  - apply seg_app. exists r. split; [exact Hseg1|].
    cbn. split; [reflexivity|]. split; [|reflexivity].
    unfold blk_ok. cbn. auto.
  - replace (r + sA + (S - sA)) with (r + S) by lia. exact Hseg2.
  - rewrite <- app_assoc. cbn [app].
    rewrite free_addrs_app, free_addrs_cons_alloc by reflexivity.
    now rewrite <- free_addrs_app.
Qed.

Lemma live_ptrs_app l1 l2 : live_ptrs (l1 ++ l2) = live_ptrs l1 ++ live_ptrs l2.
Proof. unfold live_ptrs. now rewrite filter_app, map_app. Qed.

Lemma live_ptrs_cons_free b l : balloc b = false -> live_ptrs (b :: l) = live_ptrs l.
Proof. intros H. unfold live_ptrs. cbn. now rewrite H. Qed.

Lemma live_ptrs_cons_alloc b l :
  balloc b = true -> live_ptrs (b :: l) = (baddr b + 8) :: live_ptrs l.
Proof. intros H. unfold live_ptrs. cbn. now rewrite H. Qed.

(** Merging never touches the allocated blocks. *)
Lemma merge_case_live l1 a s l2 fl l1' m l2' fl' :
  merge_case l1 a s l2 fl l1' m l2' fl' -> balloc m = false ->
  live_ptrs (l1' ++ m :: l2') = live_ptrs (l1 ++ l2).
Proof.
  unfold merge_case. intros Hmc Hm.
  rewrite !live_ptrs_app, (live_ptrs_cons_free m) by exact Hm.
  destruct (last_alloc true l1), (head_alloc l2).
  - destruct Hmc as (-> & -> & -> & _). reflexivity.
  - destruct Hmc as (n & la & lb & -> & Hn & -> & -> & _).
    now rewrite (live_ptrs_cons_free n) by exact Hn.
  - destruct Hmc as (p & la & lb & -> & Hp & -> & -> & _).
    rewrite live_ptrs_app, (live_ptrs_cons_free p) by exact Hp.
    cbn. now rewrite app_nil_r.
  - destruct Hmc as (p & n & la & lb & la2 & lb2 & -> & Hp & -> & Hn & -> & _).
    rewrite live_ptrs_app, (live_ptrs_cons_free p), (live_ptrs_cons_free n) by assumption.
    cbn. now rewrite app_nil_r.
Qed.

(** The merged block is at least as large as the block handed in and
    starts at or before it. *)
Lemma merge_case_size st l1 a s pa' l2 fl l1' m l2' fl' :
  pre_coalesce st l1 a s pa' l2 fl ->
  merge_case l1 a s l2 fl l1' m l2' fl' ->
  s <= bsize m /\ baddr m <= a /\ a + s <= baddr m + bsize m.
Proof.
  intros PC. unfold merge_case. intros Hmc.
  pose proof (pc_hole _ _ _ _ _ _ _ PC) as H.
  destruct (last_alloc true l1), (head_alloc l2).
  - destruct Hmc as (-> & -> & -> & _). cbn. lia.
  - destruct Hmc as (n & la & lb & -> & Hn & -> & -> & _).
    destruct (hole_block _ _ _ _ _ _ _ H n) as (Hs & _); [right; now left|].
    rewrite min_block_size_val in Hs. cbn. lia.
  - destruct Hmc as (p & la & lb & -> & Hp & -> & -> & _).
    destruct (hole_block _ _ _ _ _ _ _ H p) as (Hs & _ & _ & _ & Hb1 & _).
    { left. apply in_or_app. right. now left. }
    pose proof (ho_seg1 _ _ _ _ _ _ _ H) as Hs1. apply seg_app in Hs1.
    destruct Hs1 as (mid & _ & Hsp). cbn in Hsp.
    rewrite min_block_size_val in Hs. cbn. lia.
  - destruct Hmc as (p & n & la & lb & la2 & lb2 & -> & Hp & -> & Hn & -> & _).
    destruct (hole_block _ _ _ _ _ _ _ H p) as (Hs & _).
    { left. apply in_or_app. right. now left. }
    destruct (hole_block _ _ _ _ _ _ _ H n) as (Hs' & _); [right; now left|].
    pose proof (ho_seg1 _ _ _ _ _ _ _ H) as Hs1. apply seg_app in Hs1.
    destruct Hs1 as (mid & _ & Hsp). cbn in Hsp.
    rewrite min_block_size_val in *. cbn. lia.
Qed.

(** * [free] *)

Lemma get_size_pack st blk S pa al :
  load st blk = pack S pa al -> 0 <= S -> S mod 16 = 0 -> S + 16 <= word_max ->
  get_size st blk = S.
Proof. intros E ? ? ?. unfold get_size. rewrite E. now apply extract_size_pack. Qed.

Lemma get_prev_alloc_pack st blk S pa al :
  load st blk = pack S pa al -> 0 <= S -> S mod 16 = 0 ->
  get_prev_alloc st blk = pa.
Proof. intros E ? ?. unfold get_prev_alloc. rewrite E. now apply extract_prev_alloc_pack. Qed.

Lemma free_mark_pre st l1 a s l2 fl :
  hole st l1 a s true l2 fl ->
  load st a = hdr s (last_alloc true l1) true ->
  min_block_size <= s -> s mod 16 = 0 ->
  pre_coalesce (free_mark st a) l1 a s true l2 fl.
Proof.
  intros H Hh Hs32 Hsm.
  destruct (hole_arith _ _ _ _ _ _ _ H) as (A1 & A2 & A3 & A4 & A5 & A6).
  rewrite min_block_size_val in Hs32. pose proof word_max_val as Hwm.
  set (pa := last_alloc true l1) in *.
  assert (Hr : 0 <= pack s pa false < word_max) by (apply pack_range; lia).
  unfold free_mark.
  rewrite (get_size_hdr _ _ _ _ _ Hh), (get_prev_alloc_hdr _ _ _ _ _ Hh) by lia.
  unfold write_header. set (st1 := store st a (pack s pa false)).
  assert (E1 : load st1 a = pack s pa false) by (apply load_store_same; exact Hr).
  unfold write_footer, dsize.
  rewrite (get_size_pack _ _ _ _ _ E1), (get_prev_alloc_pack _ _ _ _ _ E1) by lia.
  replace (a + 8 + s - 2 * 8) with (a + s - 8) by lia.
  set (st2 := store st1 (a + s - 8) (pack s pa false)).
  unfold set_prev, set_next, NULL.
  constructor.
  - apply hole_store; [apply hole_store; [apply hole_store; [apply hole_store|..]|..]|..];
      try assumption; lia.
  - rewrite min_block_size_val. auto.
  - fold pa. rewrite !load_store_other by lia. unfold st2.
    rewrite load_store_other by lia. exact E1.
  - fold pa. rewrite !load_store_other by lia. unfold st2.
    apply load_store_same. exact Hr.
  - unfold get_prev, NULL. rewrite load_store_other by lia.
    apply load_store_same. lia.
  - unfold get_next, NULL. apply load_store_same. lia.
Qed.

Lemma free_correct st l1 b l2 fl :
  heap_rep st (l1 ++ b :: l2) fl -> balloc b = true ->
  exists l1' m l2' fl',
    merge_case l1 (baddr b) (bsize b) l2 fl l1' m l2' fl' /\
    heap_rep (free st (header_to_payload (baddr b))) (l1' ++ m :: l2') (baddr m :: fl') /\
    balloc m = false.
Proof.
  intros Hrep Hb.
  destruct (heap_rep_split _ _ _ _ _ Hrep Hb) as (H & Hh & Hs32 & Hsm).
  destruct (hole_arith _ _ _ _ _ _ _ H) as (A1 & A2 & A3 & A4 & A5 & A6).
  pose proof (free_mark_pre _ _ _ _ _ _ H Hh Hs32 Hsm) as PC.
  destruct (coalesce_correct _ _ _ _ _ _ _ PC)
    as (l1' & m & l2' & fl' & Hmc & Hrep' & _ & Hm & _).
  exists l1', m, l2', fl'. split; [exact Hmc|]. split; [|exact Hm].
  unfold free, header_to_payload, payload_to_header, NULL.
  destruct (Z.eqb_spec (baddr b + 8) 0) as [|_]; [lia|].
  replace (baddr b + 8 - 8) with (baddr b) by lia. exact Hrep'.
Qed.

(** * [extend_heap] *)

Lemma round_up_aligned size :
  0 <= size -> size mod 16 = 0 -> size + 16 <= word_max ->
  round_up size dsize = size.
Proof.
  intros H0 Hm Hb. unfold round_up, dsize. rewrite word_max_val in Hb.
  change (2 * 8) with 16. change (16 - 1) with 15.
  rewrite (wrap_small (size + 15)) by (rewrite word_max_val; lia).
  assert (E : 16 * ((size + 15) / 16) = size) by (Z.div_mod_to_equations; lia).
  rewrite E. apply wrap_small. rewrite word_max_val. lia.
Qed.

Lemma load_set_brk st b a : load (set_brk st b) a = load st a.
Proof. reflexivity. Qed.

Lemma heap_rep_node_range st bs fl z :
  heap_rep st bs fl -> In z fl -> 8 <= z /\ z + 32 <= mem_brk st - 8.
Proof.
  intros Hrep Hz. rewrite <- (app_nil_r bs) in Hrep.
  destruct (heap_rep_gap0 _ _ _ _ Hrep) as (r & H).
  exact (hole_node_range _ _ _ _ _ _ _ H z Hz).
Qed.

Lemma extend_heap_correct_keeps st bs fl size :
  heap_rep st bs fl ->
  min_block_size <= size -> size mod 16 = 0 -> size + 16 <= word_max ->
  (mem_max_addr st < mem_brk st + size /\ extend_heap st size = (st, NULL)) \/
  (mem_brk st + size <= mem_max_addr st /\
   exists l1' m fl',
     heap_rep (fst (extend_heap st size)) (l1' ++ [m]) (baddr m :: fl') /\
     snd (extend_heap st size) = baddr m /\ balloc m = false /\
     size <= bsize m /\ live_ptrs (l1' ++ [m]) = live_ptrs bs /\
     keeps bs st (fst (extend_heap st size)) /\ alloc_incl bs l1').
Proof.
  intros Hrep Hs32 Hsm Hsb.
  rewrite min_block_size_val in Hs32. pose proof word_max_val as Hwm.
  unfold extend_heap. rewrite round_up_aligned by lia.
  unfold mem_sbrk.
  destruct (Z.leb_spec (mem_brk st + size) (mem_max_addr st)) as [Hfit|Hfit];
    [right|left; split; [lia|reflexivity]].
  split; [exact Hfit|].
  pose proof Hrep as [Hstart Hbrk Hpro Hseg Hepi Hdl Hperm].
  pose proof (seg_bounds _ _ _ _ _ Hseg) as B.
  unfold payload_to_header.
  set (e := mem_brk st - 8) in *.
  set (pa := last_alloc true bs) in *.
  set (st0 := set_brk st (mem_brk st + size)).
  assert (Hr : 0 <= pack size pa false < word_max) by (apply pack_range; lia).
  assert (Hr0 : 0 <= pack 0 false true < word_max) by (rewrite Hwm; vm_compute; split; [discriminate|reflexivity]).
  assert (E0 : load st0 e = hdr 0 pa true) by exact Hepi.
  rewrite (get_prev_alloc_hdr _ _ _ _ _ E0) by reflexivity.
  unfold write_header. set (st1 := store st0 e (pack size pa false)).
  assert (E1 : load st1 e = pack size pa false) by (apply load_store_same; exact Hr).
  unfold write_footer, dsize.
  rewrite (get_size_pack _ _ _ _ _ E1), (get_prev_alloc_pack _ _ _ _ _ E1) by lia.
  replace (e + 8 + size - 2 * 8) with (e + size - 8) by lia.
  set (st2 := store st1 (e + size - 8) (pack size pa false)).
  unfold set_next, set_prev, NULL.
  set (st4 := store (store st2 (e + 16) 0) (e + 8) 0).
  assert (E4 : load st4 e = pack size pa false).
  { unfold st4, st2. rewrite !load_store_other by lia. exact E1. }
  unfold find_next. rewrite (get_size_pack _ _ _ _ _ E4) by lia.
  set (st5 := store st4 (e + size) (pack 0 false true)).
  assert (Hlow : forall y, y + 8 <= e -> load st5 y = load st y).
  { intros y Hy. unfold st5, st4, st2, st1. rewrite !load_store_other by lia.
    reflexivity. }
  assert (PC : pre_coalesce st5 bs e size false [] fl).
  { constructor.
    - constructor; auto.
      + change (mem_brk st5) with (mem_brk st + size).
        change (mem_max_addr st5) with (mem_max_addr st). lia.
      + change (heap_start st5) with (heap_start st). rewrite Hlow by lia. exact Hpro.
      + change (heap_start st5) with (heap_start st).
        apply (seg_frame st); [|exact Hseg]. intros y Y1 Y2. apply Hlow. exact Y2.
      + lia.
      + change (mem_brk st5) with (mem_brk st + size). cbn. unfold e. lia.
      + change (mem_brk st5) with (mem_brk st + size).
        replace (mem_brk st + size - 8) with (e + size) by (unfold e; lia).
        unfold st5. rewrite load_store_same by exact Hr0.
        reflexivity.
      + unfold dl in *. change (freelist_start st5) with (freelist_start st).
        apply (dlseg_agree st); [|exact Hdl]. intros z Hz.
        pose proof (heap_rep_node_range _ _ _ z Hrep Hz). fold e in H.
        unfold get_prev, get_next. split; apply Hlow; lia.
      + now rewrite app_nil_r.
    - rewrite min_block_size_val. auto.
    - fold pa. unfold st5. rewrite load_store_other by lia. exact E4.
    - fold pa. unfold st5, st4. rewrite !load_store_other by lia.
      unfold st2. apply load_store_same. exact Hr.
    - unfold get_prev, NULL, st5, st4. rewrite load_store_other by lia.
      apply load_store_same. lia.
    - unfold get_next, NULL, st5, st4. rewrite !load_store_other by lia.
      apply load_store_same. lia. }
  destruct (coalesce_correct _ _ _ _ _ _ _ PC)
    as (l1' & m & l2' & fl' & Hmc & Hrep' & Hsnd & Hm & _).
  pose proof (merge_case_live _ _ _ _ _ _ _ _ _ Hmc Hm) as Hlive.
  pose proof (merge_case_size _ _ _ _ _ _ _ _ _ _ _ PC Hmc) as (Hsz & _).
  assert (El2 : l2' = []).
  { unfold merge_case in Hmc. cbn [head_alloc] in Hmc.
    destruct (last_alloc true bs).
    - destruct Hmc as (_ & _ & -> & _). reflexivity.
    - destruct Hmc as (p & la & lb & _ & _ & -> & _). reflexivity. }
  subst l2'. rewrite app_nil_r in Hlive.
  exists l1', m, fl'.
  split; [exact Hrep'|]. split; [exact Hsnd|]. split; [exact Hm|].
  split; [exact Hsz|]. split; [exact Hlive|]. split.
  - apply (keeps_trans _ _ st5).
    + intros x (c & Hc & _ & Hx).
      destruct (seg_in _ _ _ _ _ _ Hseg Hc) as (_ & Hhi & _).
      unfold st5, st4, st2, st1. rewrite !mem_store_outside by lia. reflexivity.
    + rewrite <- (app_nil_r bs) at 1. exact (coalesce_keeps _ _ _ _ _ _ _ PC).
  - unfold merge_case in Hmc. cbn [head_alloc] in Hmc.
    destruct (last_alloc true bs).
    + destruct Hmc as (-> & _). apply alloc_incl_refl.
    + destruct Hmc as (p & la & lb & -> & Hpf & _).
      rewrite <- (app_nil_r l1') at 2. apply alloc_incl_drop_free. exact Hpf.
Qed.

Lemma extend_heap_correct st bs fl size :
  heap_rep st bs fl ->
  min_block_size <= size -> size mod 16 = 0 -> size + 16 <= word_max ->
  (mem_max_addr st < mem_brk st + size /\ extend_heap st size = (st, NULL)) \/
  (mem_brk st + size <= mem_max_addr st /\
   exists l1' m fl',
     heap_rep (fst (extend_heap st size)) (l1' ++ [m]) (baddr m :: fl') /\
     snd (extend_heap st size) = baddr m /\ balloc m = false /\
     size <= bsize m /\ live_ptrs (l1' ++ [m]) = live_ptrs bs).
Proof.
  intros Hrep H1 H2 H3.
  destruct (extend_heap_correct_keeps st bs fl size Hrep H1 H2 H3)
    as [?|(Hr & l1' & m & fl' & A & B & C & D & E & _)]; [now left|right].
  split; [exact Hr|]. exists l1', m, fl'. auto.
Qed.

(** * [place] *)

Lemma write_header_alloc st blk S :
  0 <= S -> S mod 16 = 0 ->
  write_header st blk S true true = store st blk (hdr S true true).
Proof. intros. unfold write_header. now rewrite pack_hdr. Qed.

Lemma place_correct_keeps st l1 f l2 fl asize :
  heap_rep st (l1 ++ f :: l2) fl -> balloc f = false ->
  min_block_size <= asize -> asize mod 16 = 0 -> asize <= bsize f ->
  exists sA rest fl',
    heap_rep (place st (baddr f) asize)
             (l1 ++ mkBlock (baddr f) sA true :: rest) fl' /\
    asize <= sA <= bsize f /\ sA mod 16 = 0 /\
    live_ptrs rest = live_ptrs l2 /\
    keeps (l1 ++ l2) st (place st (baddr f) asize) /\
    alloc_incl l2 rest /\
    ((sA = asize /\ min_block_size <= bsize f - asize) \/
     (sA = bsize f /\ bsize f - asize < min_block_size)).
Proof.
  intros Hrep Hf Ha32 Ham Hle.
  destruct (heap_rep_gap0 _ _ _ _ Hrep) as (r & H).
  assert (Hh0 : load st (baddr f) = hdr (bsize f) true false).
  { pose proof (ho_seg2 _ _ _ _ _ _ _ H) as Hs2. cbn in Hs2.
    destruct Hs2 as (_ & (_ & _ & Hal) & _). rewrite Hf in Hal. tauto. }
  destruct (hole_absorb_next _ _ _ _ _ _ _ _ H Hf)
    as (la & lb & E & H1 & Ea & Hpa & Hf32 & Hfm & Hnp & Hnn & Hhn & _).
  cbn zeta in *.
  assert (Er : r = baddr f) by lia. subst r.
  replace (0 + bsize f) with (bsize f) in H1 by lia.
  destruct (hole_arith _ _ _ _ _ _ _ H1) as (A1 & A2 & A3 & A4 & A5 & A6).
  rewrite min_block_size_val in *. pose proof word_max_val as Hwm.
  set (blk := baddr f) in *. set (cs := bsize f) in *.
  set (st1 := fl_remove st blk) in *.
  unfold place. fold blk.
  rewrite (get_size_hdr _ _ _ _ _ Hh0) by lia. fold cs. fold st1.
  rewrite (wrap_small (cs - asize)) by lia.
  rewrite (get_prev_alloc_hdr _ _ _ _ _ Hhn) by assumption.
  destruct (Z.geb_spec (cs - asize) min_block_size) as [Hsplit|Hsplit];
    rewrite min_block_size_val in Hsplit.
  - (* split *)
    set (rs := cs - asize) in *.
    assert (Hrm : rs mod 16 = 0).
    { unfold rs. fold cs in Hfm. Z.div_mod_to_equations. lia. }
    rewrite write_header_alloc by lia.
    set (st2 := store st1 blk (hdr asize true true)).
    assert (E2 : load st2 blk = hdr asize true true).
    { apply load_store_same. apply hdr_range; lia. }
    unfold find_next. rewrite (get_size_hdr _ _ _ _ _ E2) by lia.
    set (bn := blk + asize).
    rewrite write_header_free by lia.
    set (st3 := store st2 bn (hdr rs true false)).
    assert (Hr : 0 <= hdr rs true false < word_max) by (apply hdr_range; lia).
    assert (E3 : load st3 bn = hdr rs true false) by (apply load_store_same; exact Hr).
    rewrite (write_footer_free st3 bn rs) by
      (try lia; apply (get_size_hdr _ _ _ _ _ E3); lia).
    set (st4 := store st3 (bn + rs - 8) (hdr rs true false)).
    unfold set_prev, set_next.
    set (st6 := store (store st4 (bn + 8) 0) (bn + 16) 0).
    assert (H2 : hole st2 (l1 ++ [mkBlock blk asize true]) bn rs false l2 (la ++ lb)).
    { apply hole_fill_alloc; try lia.
      - apply hole_store; try assumption; lia.
      - rewrite Hpa. exact E2.
      - rewrite min_block_size_val. lia. }
    assert (PC : pre_coalesce st6 (l1 ++ [mkBlock blk asize true]) bn rs false l2 (la ++ lb)).
    { constructor.
      - unfold st6, st4, st3.
        apply hole_store; [apply hole_store; [apply hole_store; [apply hole_store|..]|..]|..];
          try assumption; lia.
      - rewrite min_block_size_val. split; [lia|exact Hrm].
      - rewrite last_alloc_snoc. cbn [balloc]. rewrite pack_true_false by lia.
        unfold st6, st4. rewrite !load_store_other by lia. exact E3.
      - rewrite last_alloc_snoc. cbn [balloc]. rewrite pack_true_false by lia.
        unfold st6. rewrite !load_store_other by lia.
        unfold st4. apply load_store_same. exact Hr.
      - unfold get_prev, NULL, st6. rewrite load_store_other by lia.
        apply load_store_same. lia.
      - unfold get_next, NULL, st6. apply load_store_same. lia. }
    destruct (coalesce_correct _ _ _ _ _ _ _ PC)
      as (l1' & m & l2' & fl' & Hmc & Hrep' & _ & Hm & _).
    pose proof (merge_case_live _ _ _ _ _ _ _ _ _ Hmc Hm) as Hlive.
    assert (El1 : l1' = l1 ++ [mkBlock blk asize true]).
    { unfold merge_case in Hmc. rewrite last_alloc_snoc in Hmc. cbn [balloc] in Hmc.
      destruct (head_alloc l2).
      - destruct Hmc as (-> & _). reflexivity.
      - destruct Hmc as (n & la' & lb' & _ & _ & -> & _). reflexivity. }
    subst l1'. rewrite <- app_assoc in Hrep'. cbn [app] in Hrep'.
    exists asize, (m :: l2'), (baddr m :: fl').
    split; [exact Hrep'|]. split; [lia|]. split; [exact Ham|].
    split; [rewrite !live_ptrs_app in Hlive; apply app_inv_head in Hlive; exact Hlive|].
    split; [|split; [|left; split; [reflexivity|fold cs; lia]]].
    + apply (keeps_trans _ _ st1).
      { apply (keeps_incl _ (l1 ++ f :: l2)); [apply alloc_incl_add|].
        apply (fl_remove_keeps _ _ _ _ _ _ _ _ H). rewrite E. apply in_elt. }
      apply (keeps_trans _ _ st6).
      { intros x Hx. pose proof (hole_payload_gap _ _ _ _ _ _ _ _ H1 Hx).
        unfold st6, st4, st3, st2, bn. rewrite !mem_store_outside by lia. reflexivity. }
      apply (keeps_incl _ ((l1 ++ [mkBlock blk asize true]) ++ l2)).
      { rewrite <- app_assoc. cbn [app]. apply alloc_incl_add. }
      exact (coalesce_keeps _ _ _ _ _ _ _ PC).
    + unfold merge_case in Hmc. rewrite last_alloc_snoc in Hmc. cbn [balloc] in Hmc.
      destruct (head_alloc l2).
      * destruct Hmc as (_ & _ & -> & _). intros c Hc _. now right.
      * destruct Hmc as (n & la' & lb' & -> & Hnf & _).
        intros c [<-|Hc] Hal; [congruence|now right].
  - (* no split *)
    rewrite write_header_alloc by lia.
    set (st2 := store st1 blk (hdr cs true true)).
    assert (E2 : load st2 blk = hdr cs true true).
    { apply load_store_same. apply hdr_range; lia. }
    assert (H2 : hole st2 l1 blk cs false l2 (la ++ lb)).
    { apply hole_store; try assumption; lia. }
    pose proof (hole_false_head_alloc _ _ _ _ _ _ H2) as Hha.
    assert (Hfn : find_next st2 blk = blk + cs).
    { unfold find_next. rewrite (get_size_hdr _ _ _ _ _ E2); lia. }
    rewrite (set_next_prev_alloc_head _ _ _ _ _ _ _ blk true H2 Hha Hfn).
    pose proof (hole_retag_head _ _ _ _ _ _ _ true H2 Hha) as H3.
    set (st3 := store st2 (blk + cs) (hdr (head_size l2) true true)) in *.
    assert (E3 : load st3 blk = hdr cs true true).
    { unfold st3. rewrite load_store_other by lia. exact E2. }
    exists cs, l2, (la ++ lb).
    assert (K : keeps (l1 ++ l2) st st3).
    { apply (keeps_trans _ _ st1).
      { apply (keeps_incl _ (l1 ++ f :: l2)); [apply alloc_incl_add|].
        apply (fl_remove_keeps _ _ _ _ _ _ _ _ H). rewrite E. apply in_elt. }
      apply (keeps_trans _ _ st2).
      { intros x Hx. pose proof (hole_payload_gap _ _ _ _ _ _ _ _ H1 Hx).
        unfold st2. rewrite mem_store_outside by lia. reflexivity. }
      apply keeps_store. intros x Hx.
      exact (hole_payload_head _ _ _ _ _ _ _ _ H2 Hx). }
    split; [|split; [lia|split; [exact Hfm|split; [reflexivity|
            split; [exact K|split; [apply alloc_incl_refl|
              right; split; [reflexivity|lia]]]]]]].
    replace (l1 ++ mkBlock blk cs true :: l2)
      with ((l1 ++ [mkBlock blk cs true]) ++ l2) by (now rewrite <- app_assoc).
    apply (hole_close _ _ (blk + cs)).
    rewrite last_alloc_snoc. cbn [balloc].
    replace 0 with (cs - cs) by lia.
    apply hole_fill_alloc; try lia; try assumption.
    rewrite Hpa. exact E3.
Qed.

Lemma place_correct st l1 f l2 fl asize :
  heap_rep st (l1 ++ f :: l2) fl -> balloc f = false ->
  min_block_size <= asize -> asize mod 16 = 0 -> asize <= bsize f ->
  exists sA rest fl',
    heap_rep (place st (baddr f) asize)
             (l1 ++ mkBlock (baddr f) sA true :: rest) fl' /\
    asize <= sA <= bsize f /\ sA mod 16 = 0 /\
    live_ptrs rest = live_ptrs l2.
Proof.
  intros Hrep Hf H1 H2 H3.
  destruct (place_correct_keeps st l1 f l2 fl asize Hrep Hf H1 H2 H3)
    as (sA & rest & fl' & A & B & C & D & _).
  exists sA, rest, fl'. auto.
Qed.

(** * [malloc] *)

Lemma adjust_size_ok size :
  0 <= size < word_max ->
  min_block_size <= adjust_size size /\ adjust_size size mod 16 = 0 /\
  adjust_size size + 16 <= word_max.
Proof.
  intros Hs. unfold adjust_size, round_up, wsize, dsize, min_block_size, wrap.
  rewrite word_max_val in *.
  change (2 * 8) with 16. change (16 - 1) with 15. change (4 * 8) with 32.
  set (x := (size + 8) mod 18446744073709551616).
  set (y := (x + 15) mod 18446744073709551616).
  assert (Hy : 0 <= y < 18446744073709551616) by (apply Z.mod_pos_bound; lia).
  assert (E : (16 * (y / 16)) mod 18446744073709551616 = 16 * (y / 16)).
  { apply Z.mod_small. Z.div_mod_to_equations. lia. }
  rewrite E.
  destruct (Z.ltb_spec (16 * (y / 16)) 32).
  - split; [lia|]. split; [reflexivity|lia].
  - split; [lia|]. split.
    + rewrite Z.mul_comm. apply Z.mod_mul. lia.
    + Z.div_mod_to_equations. lia.
Qed.

(** Away from the top of the address space the adjusted size leaves
    room for the request behind the header word. *)
Lemma adjust_size_fits size :
  0 <= size -> size + 24 <= word_max -> size + wsize <= adjust_size size.
Proof.
  intros H0 Hb. unfold adjust_size, round_up, wsize, dsize, min_block_size, wrap.
  rewrite word_max_val in *.
  change (2 * 8) with 16. change (16 - 1) with 15. change (4 * 8) with 32.
  rewrite (Z.mod_small (size + 8)) by lia.
  rewrite (Z.mod_small (size + 8 + 15)) by lia.
  rewrite Z.mod_small by (Z.div_mod_to_equations; lia).
  destruct (Z.ltb_spec (16 * ((size + 8 + 15) / 16)) 32);
    Z.div_mod_to_equations; lia.
Qed.

Lemma find_fit_loop_mono st asize : forall fuel fuel' p best i r,
  find_fit_loop fuel st asize p best i = Some r -> (fuel <= fuel')%nat ->
  find_fit_loop fuel' st asize p best i = Some r.
Proof.
  induction fuel as [|fuel IH]; intros fuel' p best i r Hr Hle; [discriminate|].
  destruct fuel' as [|fuel']; [lia|].
  cbn [find_fit_loop] in Hr |- *.
  destruct (negb (p =? 0) && (i <? 50)); [|exact Hr].
  destruct (asize =? get_size st p); [exact Hr|].
  destruct (asize <? get_size st p); apply IH; auto; lia.
Qed.

Lemma candidates_dec st asize (l : list Z) :
  (forall b, In b l -> get_size st b < asize) \/
  (exists b, In b l /\ asize <= get_size st b).
Proof.
  induction l as [|a l IH].
  - left. intros b [].
  - destruct (Z.lt_ge_cases (get_size st a) asize) as [Hlt|Hge].
    + destruct IH as [IH|(b & Hb & Hs)].
      * left. intros b [<-|Hb]; auto.
      * right. exists b. split; [now right|exact Hs].
    + right. exists a. split; [now left|exact Hge].
Qed.

Lemma find_fit_result st fl fuel asize r :
  fl_walk st (freelist_start st) fl ->
  find_fit fuel st asize = Some r ->
  r = NULL \/ (In r fl /\ asize <= get_size st r).
Proof.
  intros Hw Hr. unfold find_fit in Hr.
  apply (find_fit_loop_mono _ _ _ (Nat.max fuel (S (length fl)))) in Hr; [|lia].
  rewrite (find_fit_loop_scan st asize fl) in Hr by (auto; lia).
  injection Hr as <-.
  destruct (scan_result_spec st asize fl NULL 0 ltac:(lia) ltac:(intros; lia))
    as (_ & H2 & H3).
  cbn in H2, H3.
  destruct (candidates_dec st asize (scanned st asize fl 50)) as [Hn|Hy].
  - left. apply H2. exact Hn.
  - right. destruct (H3 Hy) as (Hin & Hsz & _). split; [|exact Hsz].
    destruct (scanned_prefix st asize fl 50) as (rest & E).
    assert (Hin' : In (scan_result st asize fl NULL 0)
                      (scanned st asize fl 50 ++ rest)).
    { apply in_or_app. left. exact Hin. }
    rewrite <- E in Hin'. exact Hin'.
Qed.

Lemma find_fit_total st fl fuel asize :
  fl_walk st (freelist_start st) fl -> (length fl < fuel)%nat ->
  exists r, find_fit fuel st asize = Some r.
Proof.
  intros Hw Hf. exists (scan_result st asize fl NULL 0).
  unfold find_fit. apply find_fit_loop_scan; assumption.
Qed.

Lemma max_ok asize :
  min_block_size <= asize -> asize mod 16 = 0 ->
  min_block_size <= max asize chunksize /\ max asize chunksize mod 16 = 0 /\
  asize <= max asize chunksize /\ (max asize chunksize = asize \/ max asize chunksize = chunksize).
Proof.
  intros H1 H2. unfold max. change chunksize with 4096.
  rewrite min_block_size_val in *.
  destruct (Z.gtb_spec asize 4096); repeat split; auto; lia.
Qed.

Lemma heap_rep_free_block st bs fl r :
  heap_rep st bs fl -> In r fl ->
  exists l1 f l2, bs = l1 ++ f :: l2 /\ baddr f = r /\ balloc f = false /\
                  get_size st r = bsize f.
Proof.
  intros Hrep Hr.
  pose proof (Permutation_in _ (rep_perm _ _ _ Hrep) Hr) as Hin.
  apply in_free_addrs in Hin. destruct Hin as (f & Hf & E & Hfa).
  destruct (in_split _ _ Hf) as (l1 & l2 & ->).
  exists l1, f, l2. repeat split; auto.
  destruct (seg_header _ _ _ _ _ _ (rep_seg _ _ _ Hrep) Hf) as (pb & Hh & _).
  destruct (seg_in _ _ _ _ _ _ (rep_seg _ _ _ Hrep) Hf) as (B1 & B2 & B3 & B4).
  pose proof (rep_brk _ _ _ Hrep). pose proof (rep_start _ _ _ Hrep).
  rewrite min_block_size_val in *. pose proof word_max_val.
  rewrite <- E. apply (get_size_hdr _ _ _ _ _ Hh); lia.
Qed.

(** What a call of [malloc] does to a well-formed heap. *)
Lemma malloc_correct fuel st bs fl size :
  heap_rep st bs fl -> 0 <= size < word_max ->
  match malloc fuel st size with
  | None => (fuel <= length fl)%nat
  | Some (st', p) =>
      (p = NULL /\ st' = st) \/
      (p <> NULL /\ size <> 0 /\
       exists l1 sA rest fl',
         heap_rep st' (l1 ++ mkBlock (payload_to_header p) sA true :: rest) fl' /\
         adjust_size size <= sA /\ sA mod 16 = 0 /\
         Permutation (live_ptrs (l1 ++ mkBlock (payload_to_header p) sA true :: rest))
                     (p :: live_ptrs bs))
  end.
Proof.
  intros Hrep Hs.
  pose proof (rep_start _ _ _ Hrep) as Hstart.
  destruct (adjust_size_ok size Hs) as (Ha32 & Ham & Hab).
  unfold malloc, NULL.
  destruct (Z.eqb_spec (heap_start st) 0) as [|_]; [lia|].
  destruct (Z.eqb_spec size 0) as [|Hnz]; [left; auto|].
  pose proof (dlseg_fl_walk _ _ _ _ (rep_dl _ _ _ Hrep)) as Hw.
  destruct (find_fit fuel st (adjust_size size)) as [r|] eqn:Eff.
  2:{ destruct (Nat.le_gt_cases fuel (length fl)) as [?|Hgt]; [assumption|].
      destruct (find_fit_total st fl fuel (adjust_size size) Hw Hgt) as (r & Er).
      congruence. }
  destruct (find_fit_result _ _ _ _ _ Hw Eff) as [->|(Hin & Hsz)].
  - (* no fit: grow the heap *)
    cbn [Z.eqb].
    destruct (max_ok _ Ha32 Ham) as (M1 & M2 & M3 & M4).
    assert (M5 : max (adjust_size size) chunksize + 16 <= word_max).
    { destruct M4 as [->| ->]; [exact Hab|]. rewrite word_max_val. cbn. lia. }
    destruct (extend_heap_correct st bs fl _ Hrep M1 M2 M5)
      as [(_ & ->)|(_ & l1' & m & fl' & Hrep' & Hsnd & Hm & Hsz & Hlive)].
    + cbn [Z.eqb]. left. auto.
    + destruct (extend_heap st (max (adjust_size size) chunksize)) as [st1 blk].
      cbn [fst snd] in *. subst blk.
      pose proof (rep_start _ _ _ Hrep') as Hstart'.
      assert (Hmin : In m (l1' ++ [m])) by (apply in_or_app; right; now left).
      destruct (seg_in _ _ _ _ _ _ (rep_seg _ _ _ Hrep') Hmin) as (B1 & _).
      destruct (Z.eqb_spec (baddr m) 0) as [|_]; [lia|].
      right. unfold header_to_payload, payload_to_header.
      split; [lia|]. split; [exact Hnz|].
      replace (baddr m + 8 - 8) with (baddr m) by lia.
      destruct (place_correct st1 l1' m [] (baddr m :: fl') (adjust_size size) Hrep' Hm Ha32 Ham)
        as (sA & rest & fl'' & Hrep'' & Hsa & Hsam & Hrest); [lia|].
      exists l1', sA, rest, fl''. split; [exact Hrep''|]. split; [lia|].
      split; [exact Hsam|].
      rewrite live_ptrs_app, live_ptrs_cons_alloc by reflexivity.
      cbn [baddr]. rewrite Hrest. rewrite <- Hlive.
      rewrite live_ptrs_app, (live_ptrs_cons_free m) by exact Hm.
      cbn. rewrite app_nil_r. apply Permutation_sym, Permutation_cons_append.
  - (* a fit on the free list *)
    destruct (heap_rep_free_block _ _ _ _ Hrep Hin) as (l1 & f & l2 & -> & Ef & Hf & Egs).
    pose proof (heap_rep_node_range _ _ _ _ Hrep Hin) as Rr.
    destruct (Z.eqb_spec r 0) as [|_]; [lia|].
    right. unfold header_to_payload, payload_to_header.
    split; [lia|]. split; [exact Hnz|].
    replace (r + 8 - 8) with r by lia. subst r.
    destruct (place_correct st l1 f l2 fl (adjust_size size) Hrep Hf Ha32 Ham)
      as (sA & rest & fl'' & Hrep'' & Hsa & Hsam & Hrest); [lia|].
    exists l1, sA, rest, fl''. split; [exact Hrep''|]. split; [lia|].
    split; [exact Hsam|].
    rewrite !live_ptrs_app, live_ptrs_cons_alloc by reflexivity.
    rewrite (live_ptrs_cons_free f) by exact Hf.
    cbn [baddr]. rewrite Hrest. apply Permutation_sym, Permutation_middle.
Qed.

(** * [mm_init] *)

Lemma mm_init_correct st0 :
  0 <= mem_brk st0 -> mem_max_addr st0 < word_max ->
  fst (mm_init st0) = true ->
  exists bs fl, heap_rep (snd (mm_init st0)) bs fl /\ live_ptrs bs = [].
Proof.
  intros Hb Hm Hinit. unfold mm_init in *. unfold mem_sbrk in *.
  destruct (Z.leb_spec (mem_brk st0 + 2 * wsize) (mem_max_addr st0)) as [Hfit|];
    [|discriminate].
  unfold wsize in Hfit.
  set (start := mem_brk st0) in *.
  set (st4 := set_freelist_start
                (set_heap_start
                   (store (store (set_brk st0 (start + 2 * wsize)) start (pack 0 true true))
                          (start + 8) (pack 0 true true))
                   (start + 8)) NULL) in *.
  pose proof word_max_val as Hwm.
  assert (Hp : pack 0 true true = hdr 0 true true) by reflexivity.
  assert (Hr : 0 <= hdr 0 true true < word_max) by (rewrite Hwm; cbn; lia).
  assert (Hrep : heap_rep st4 [] []).
  { constructor.
    - cbn. lia.
    - cbn. unfold wsize. lia.
    - change (heap_start st4) with (start + 8).
      replace (start + 8 - 8) with start by lia.
      unfold st4. rewrite load_set_freelist_start.
      change (load (set_heap_start ?s ?h) ?a) with (load s a).
      rewrite load_store_other by lia. rewrite Hp. apply load_store_same. exact Hr.
    - cbn. unfold wsize. lia.
    - change (mem_brk st4) with (start + 2 * wsize). unfold wsize.
      replace (start + 2 * 8 - 8) with (start + 8) by lia.
      unfold st4. rewrite load_set_freelist_start.
      change (load (set_heap_start ?s ?h) ?a) with (load s a).
      rewrite Hp. apply load_store_same. exact Hr.
    - reflexivity.
    - constructor. }
  assert (C1 : min_block_size <= chunksize) by (cbn; lia).
  assert (C2 : chunksize mod 16 = 0) by reflexivity.
  assert (C3 : chunksize + 16 <= word_max) by (rewrite Hwm; cbn; lia).
  destruct (extend_heap_correct st4 [] [] chunksize Hrep C1 C2 C3)
    as [(_ & E)|(_ & l1' & m & fl' & Hrep' & Hsnd & Hmf & Hsz & Hlive)].
  - rewrite E in Hinit. cbn in Hinit. discriminate.
  - destruct (extend_heap st4 chunksize) as [st5 b]. cbn [fst snd] in *.
    exists (l1' ++ [m]), (baddr m :: fl').
    split; [|exact Hlive].
    destruct (b =? NULL); exact Hrep'.
Qed.

(** * From the representation to the invariants read off the bytes *)

Lemma blk_ok_reads st pa b :
  blk_ok st pa b -> bsize b + 16 <= word_max ->
  get_size st (baddr b) = bsize b /\ get_alloc st (baddr b) = balloc b /\
  get_prev_alloc st (baddr b) = pa /\ (balloc b = false -> pa = true).
Proof.
  intros (Hs & Hm & Hh) Hb. rewrite min_block_size_val in Hs.
  destruct (balloc b) eqn:E.
  - rewrite (get_size_hdr _ _ _ _ _ Hh), (get_alloc_hdr _ _ _ _ _ Hh),
      (get_prev_alloc_hdr _ _ _ _ _ Hh) by (auto; lia).
    repeat split; auto. discriminate.
  - destruct Hh as (-> & Hh & _).
    rewrite (get_size_hdr _ _ _ _ _ Hh), (get_alloc_hdr _ _ _ _ _ Hh),
      (get_prev_alloc_hdr _ _ _ _ _ Hh) by (auto; lia).
    repeat split; auto.
Qed.

Lemma seg_heap_walk st : forall bs lo pa hi,
  seg st lo pa bs hi -> 8 <= lo -> hi + 8 <= word_max ->
  get_size st hi = 0 ->
  heap_walk st lo (map baddr bs) hi.
Proof.
  induction bs as [|b bs IH]; intros lo pa hi H Hlo Hhi He.
  - cbn in *. subst. auto.
  - cbn in H |- *. destruct H as (Ea & Hok & H).
    pose proof (seg_bounds _ _ _ _ _ H) as B.
    pose proof Hok as (Hs & _). rewrite min_block_size_val in Hs.
    destruct (blk_ok_reads _ _ _ Hok ltac:(lia)) as (Egs & _).
    split; [now symmetry|]. rewrite Egs. split; [lia|].
    unfold find_next. rewrite Egs, Ea. apply (IH _ (balloc b)); auto; lia.
Qed.

Lemma seg_adjacent_ok st bs lo pa hi b c :
  seg st lo pa bs hi -> adjacent b c bs -> blk_ok st (balloc b) c.
Proof.
  intros H (l1 & l2 & ->). apply seg_app in H. destruct H as (mid & _ & H).
  cbn in H. tauto.
Qed.

Lemma adjacent_in {A} (x y : A) l : adjacent x y l -> In x l /\ In y l.
Proof.
  intros (l1 & l2 & ->). split; apply in_or_app; right; cbn; auto.
Qed.

Lemma adjacent_map_inv {A B} (f : A -> B) l x y :
  adjacent x y (map f l) ->
  exists a b, adjacent a b l /\ f a = x /\ f b = y.
Proof.
  intros (l1 & l2 & E). apply map_eq_app in E.
  destruct E as (l1' & r & -> & _ & E).
  apply map_eq_cons in E. destruct E as (a & r' & -> & Ea & E).
  apply map_eq_cons in E. destruct E as (b & r'' & -> & Eb & _).
  exists a, b. split; [|auto]. exists l1', r''. reflexivity.
Qed.

Lemma adjacent_snoc_inv {A} (x y e : A) l :
  adjacent x y (l ++ [e]) ->
  adjacent x y l \/ (y = e /\ exists l', l = l' ++ [x]).
Proof.
  intros (l1 & l2 & E).
  destruct (list_snoc_cases l2) as [->|(l2' & z & ->)].
  - right. change (l1 ++ [x; y]) with (l1 ++ [x] ++ [y]) in E.
    rewrite app_assoc in E. apply app_inj_tail in E. destruct E as (-> & ->).
    split; [reflexivity|]. eauto.
  - left. change (l1 ++ x :: y :: l2' ++ [z]) with (l1 ++ (x :: y :: l2') ++ [z]) in E.
    rewrite app_assoc in E. apply app_inj_tail in E. destruct E as (-> & _).
    exists l1, l2'. reflexivity.
Qed.

Lemma heap_rep_block_reads st bs fl b :
  heap_rep st bs fl -> In b bs ->
  get_size st (baddr b) = bsize b /\ get_alloc st (baddr b) = balloc b /\
  min_block_size <= bsize b /\ bsize b mod 16 = 0.
Proof.
  intros Hrep Hb.
  pose proof (rep_seg _ _ _ Hrep) as Hseg.
  destruct (seg_in _ _ _ _ _ _ Hseg Hb) as (B1 & B2 & B3 & B4).
  destruct (seg_header _ _ _ _ _ _ Hseg Hb) as (pb & Hh & _).
  pose proof (rep_brk _ _ _ Hrep). pose proof (rep_start _ _ _ Hrep).
  pose proof word_max_val. rewrite min_block_size_val in *.
  rewrite (get_size_hdr _ _ _ _ _ Hh), (get_alloc_hdr _ _ _ _ _ Hh) by (auto; lia).
  auto.
Qed.

Lemma heap_rep_invariants st bs fl : heap_rep st bs fl -> heap_invariants st.
Proof.
  intros Hrep. pose proof Hrep as [Hstart Hbrk Hpro Hseg Hepi Hdl Hperm].
  pose proof word_max_val as Hwm.
  pose proof (seg_bounds _ _ _ _ _ Hseg) as B.
  assert (Hblk : forall b, In b bs -> bsize b + 16 <= word_max).
  { intros b Hb. destruct (seg_in _ _ _ _ _ _ Hseg Hb) as (? & ? & _). lia. }
  assert (Hadj : forall b c, adjacent b c bs ->
            get_prev_alloc st (baddr c) = get_alloc st (baddr b) /\
            ~ (get_alloc st (baddr b) = false /\ get_alloc st (baddr c) = false)).
  { intros b c Hbc. destruct (adjacent_in _ _ _ Hbc) as (Hb & Hc).
    pose proof (seg_adjacent_ok _ _ _ _ _ _ _ Hseg Hbc) as Hok.
    destruct (blk_ok_reads _ _ _ Hok (Hblk c Hc)) as (_ & Hac & Hpc & Himp).
    destruct (heap_rep_block_reads _ _ _ _ Hrep Hb) as (_ & Hab & _).
    rewrite Hpc, Hab, Hac. split; [reflexivity|].
    intros (E1 & E2). specialize (Himp E2). congruence. }
  exists (map baddr bs), (mem_brk st - 8), fl.
  split; [|split; [|split; [|split; [|split; [|split; [|split; [|split]]]]]]].
  - assert (He : get_size st (mem_brk st - 8) = 0).
    { unfold get_size. rewrite Hepi. apply extract_size_hdr; [lia|reflexivity|lia]. }
    apply (seg_heap_walk _ _ _ true _ Hseg); [lia|lia|exact He].
  - exact (dlseg_fl_walk _ _ _ _ Hdl).
  - intros x y Hxy. apply adjacent_map_inv in Hxy.
    destruct Hxy as (b & c & Hbc & <- & <-). apply (Hadj b c Hbc).
  - intros x y Hxy. apply adjacent_snoc_inv in Hxy.
    destruct Hxy as [Hxy|(-> & l' & E)].
    + apply adjacent_map_inv in Hxy.
      destruct Hxy as (b & c & Hbc & <- & <-). apply (Hadj b c Hbc).
    + apply map_eq_app in E. destruct E as (bs' & r & E & _ & Er).
      apply map_eq_cons in Er. destruct Er as (b & r' & -> & Eb & Er').
      apply map_eq_nil in Er'. subst r' x.
      rewrite E in Hepi. rewrite last_alloc_snoc in Hepi.
      rewrite (get_prev_alloc_hdr _ _ _ _ _ Hepi) by reflexivity.
      destruct (heap_rep_block_reads _ _ _ b Hrep) as (_ & Hab & _).
      { rewrite E. apply in_or_app. right. now left. }
      now rewrite Hab.
  - unfold find_prev_footer. rewrite Hpro.
    rewrite extract_alloc_hdr by reflexivity.
    destruct bs as [|b bs'].
    + cbn in Hseg. rewrite Hseg.
      apply (get_prev_alloc_hdr _ _ _ _ _ Hepi). reflexivity.
    + cbn in Hseg. destruct Hseg as (Ea & Hok & _).
      destruct (blk_ok_reads _ _ _ Hok (Hblk b (or_introl eq_refl))) as (_ & _ & Hp & _).
      now rewrite <- Ea.
  - intros x Hx. apply in_map_iff in Hx. destruct Hx as (b & <- & Hb).
    destruct (heap_rep_block_reads _ _ _ _ Hrep Hb) as (-> & _ & ? & ?). auto.
  - exact (heap_rep_NoDup _ _ _ Hrep).
  - intros x. split.
    + intros Hx. apply (Permutation_in _ Hperm) in Hx. apply in_free_addrs in Hx.
      destruct Hx as (b & Hb & <- & Hf).
      destruct (heap_rep_block_reads _ _ _ _ Hrep Hb) as (_ & -> & _).
      split; [now apply in_map|exact Hf].
    + intros (Hx & Hf). apply in_map_iff in Hx. destruct Hx as (b & <- & Hb).
      destruct (heap_rep_block_reads _ _ _ _ Hrep Hb) as (_ & Hab & _).
      apply (Permutation_in _ (Permutation_sym Hperm)).
      apply in_free_addrs. exists b. repeat split; auto. congruence.
  - rewrite (Permutation_length Hperm). unfold free_addrs.
    rewrite filter_map_swap, !length_map. f_equal.
    apply filter_ext_in. intros b Hb.
    destruct (heap_rep_block_reads _ _ _ _ Hrep Hb) as (_ & -> & _). reflexivity.
Qed.

(** * Sequences of operations *)

Lemma perm_remove x l l' :
  Permutation l l' -> Permutation (remove Z.eq_dec x l) (remove Z.eq_dec x l').
Proof.
  induction 1 as [|a l l' _ IH|a b l|l l' l'' _ IH1 _ IH2]; cbn.
  - constructor.
  - destruct (Z.eq_dec x a); [exact IH|now constructor].
  - destruct (Z.eq_dec x a), (Z.eq_dec x b); try reflexivity. apply perm_swap.
  - now transitivity (remove Z.eq_dec x l').
Qed.

Lemma live_ptrs_NoDup st bs lo pa hi : seg st lo pa bs hi -> NoDup (live_ptrs bs).
Proof.
  intros H. apply seg_NoDup in H. unfold live_ptrs.
  induction bs as [|b bs IH]; [constructor|].
  cbn in H. inversion H as [|? ? Hn Hd]; subst.
  cbn. destruct (balloc b); [|auto].
  cbn. constructor; [|auto].
  intros Hin. apply Hn. apply in_map_iff in Hin. destruct Hin as (c & E & Hc).
  apply filter_In in Hc. apply in_map_iff. exists c.
  unfold header_to_payload in E. split; [lia|tauto].
Qed.

Lemma in_live_ptrs p bs :
  In p (live_ptrs bs) <->
  exists b, In b bs /\ balloc b = true /\ p = header_to_payload (baddr b).
Proof.
  unfold live_ptrs. rewrite in_map_iff. split.
  - intros (b & E & Hb). apply filter_In in Hb. exists b. intuition.
  - intros (b & Hb & Ha & E). exists b. split; [auto|]. apply filter_In. auto.
Qed.

Lemma free_preserves st live p :
  run_inv st live -> In p live ->
  run_inv (free st p) (remove Z.eq_dec p live).
Proof.
  intros (bs & fl & Hrep & Hperm) Hp.
  apply (Permutation_in _ Hperm) in Hp. apply in_live_ptrs in Hp.
  destruct Hp as (b & Hb & Ha & ->).
  destruct (in_split _ _ Hb) as (l1 & l2 & ->).
  destruct (free_correct _ _ _ _ _ Hrep Ha) as (l1' & m & l2' & fl' & Hmc & Hrep' & Hm).
  exists (l1' ++ m :: l2'), (baddr m :: fl'). split; [exact Hrep'|].
  rewrite (merge_case_live _ _ _ _ _ _ _ _ _ Hmc Hm).
  pose proof (live_ptrs_NoDup _ _ _ _ _ (rep_seg _ _ _ Hrep)) as Hnd.
  apply (perm_remove (header_to_payload (baddr b))) in Hperm.
  rewrite Hperm.
  rewrite !live_ptrs_app, live_ptrs_cons_alloc in * by exact Ha.
  unfold header_to_payload.
  rewrite remove_app, remove_cons.
  rewrite !notin_remove; [reflexivity| |].
  - apply NoDup_remove_2 in Hnd. intros Hin. apply Hnd. apply in_or_app. now right.
  - apply NoDup_remove_2 in Hnd. intros Hin. apply Hnd. apply in_or_app. now left.
Qed.

Lemma malloc_preserves fuel st live size st' p :
  run_inv st live -> 0 <= size < word_max ->
  malloc fuel st size = Some (st', p) ->
  run_inv st' (if p =? NULL then live else p :: live).
Proof.
  intros (bs & fl & Hrep & Hperm) Hs Hm.
  pose proof (malloc_correct fuel st bs fl size Hrep Hs) as Hc.
  rewrite Hm in Hc.
  destruct Hc as [(-> & ->)|(Hp & _ & l1 & sA & rest & fl' & Hrep' & _ & _ & Hperm')].
  - cbn. exists bs, fl. auto.
  - unfold NULL in *. destruct (Z.eqb_spec p 0) as [|_]; [contradiction|].
    eexists _, fl'. split; [exact Hrep'|].
    rewrite Hperm'. now constructor.
Qed.

Lemma seg_length st : forall bs lo pa hi,
  seg st lo pa bs hi -> lo + 32 * Z.of_nat (length bs) <= hi.
Proof.
  induction bs as [|b bs IH]; intros lo pa hi H.
  - cbn in *. lia.
  - cbn [seg] in H. destruct H as (_ & (Hs & _) & H). apply IH in H.
    rewrite min_block_size_val in Hs. cbn [length]. lia.
Qed.

Lemma heap_rep_list_length st bs fl :
  heap_rep st bs fl -> (length fl <= Z.to_nat (mem_max_addr st / 32))%nat.
Proof.
  intros Hrep.
  pose proof (seg_length _ _ _ _ _ (rep_seg _ _ _ Hrep)) as Hl.
  pose proof (rep_start _ _ _ Hrep). pose proof (rep_brk _ _ _ Hrep).
  rewrite (Permutation_length (rep_perm _ _ _ Hrep)).
  unfold free_addrs. rewrite length_map.
  pose proof (filter_length_le is_free bs) as Hf.
  assert (Z.of_nat (length bs) <= mem_max_addr st / 32).
  { apply Z.div_le_lower_bound; lia. }
  lia.
Qed.

(** * The heap limit is never changed *)

Lemma mem_max_addr_fl_remove st x : mem_max_addr (fl_remove st x) = mem_max_addr st.
Proof.
  unfold fl_remove.
  repeat match goal with |- context [if ?c then _ else _] => destruct c end;
    reflexivity.
Qed.

Lemma mem_max_addr_fl_insert st x : mem_max_addr (fl_insert st x) = mem_max_addr st.
Proof.
  unfold fl_insert.
  repeat match goal with |- context [if ?c then _ else _] => destruct c end;
    reflexivity.
Qed.

Lemma mem_max_addr_set_next_prev_alloc st x pa :
  mem_max_addr (set_next_prev_alloc st x pa) = mem_max_addr st.
Proof.
  unfold set_next_prev_alloc.
  repeat match goal with |- context [if ?c then _ else _] => destruct c end;
    reflexivity.
Qed.

Ltac mx :=
  repeat first
    [ rewrite mem_max_addr_fl_insert
    | rewrite mem_max_addr_set_next_prev_alloc
    | rewrite mem_max_addr_fl_remove
    | progress (unfold write_footer, write_header, set_prev, set_next, store,
                set_mem, set_freelist_start, set_brk, set_heap_start;
                cbn [mem_max_addr fst snd]) ];
  try reflexivity.

Lemma mem_max_addr_coalesce st a :
  mem_max_addr (fst (coalesce st a)) = mem_max_addr st.
Proof.
  unfold coalesce.
  repeat match goal with |- context [if ?c then _ else _] => destruct c end; mx.
Qed.

Lemma mem_max_addr_extend_heap st size :
  mem_max_addr (fst (extend_heap st size)) = mem_max_addr st.
Proof.
  unfold extend_heap, mem_sbrk.
  destruct (_ <=? _); [|reflexivity].
  rewrite mem_max_addr_coalesce. mx.
Qed.

Lemma mem_max_addr_place st b asize :
  mem_max_addr (place st b asize) = mem_max_addr st.
Proof.
  unfold place. destruct (_ >=? _).
  - rewrite mem_max_addr_coalesce. mx.
  - mx.
Qed.

Lemma mem_max_addr_free st p : mem_max_addr (free st p) = mem_max_addr st.
Proof.
  unfold free. destruct (_ =? _); [reflexivity|].
  rewrite mem_max_addr_coalesce. unfold free_mark. mx.
Qed.

Lemma mem_max_addr_mm_init st : mem_max_addr (snd (mm_init st)) = mem_max_addr st.
Proof.
  unfold mm_init, mem_sbrk. destruct (_ <=? _); [|reflexivity].
  match goal with |- context [extend_heap ?s ?c] =>
    pose proof (mem_max_addr_extend_heap s c) as E;
    destruct (extend_heap s c) as [st5 b] end.
  cbn [fst] in E. destruct (b =? NULL); cbn [snd]; rewrite E; mx.
Qed.

Lemma mem_max_addr_malloc fuel st size st' p :
  malloc fuel st size = Some (st', p) -> mem_max_addr st' = mem_max_addr st.
Proof.
  unfold malloc. intros Hm.
  set (st1 := if heap_start st =? NULL then snd (mm_init st) else st) in *.
  assert (E1 : mem_max_addr st1 = mem_max_addr st).
  { unfold st1. destruct (_ =? _); [apply mem_max_addr_mm_init|reflexivity]. }
  rewrite <- E1. clearbody st1.
  destruct (size =? 0); [injection Hm as <- <-; reflexivity|].
  destruct (find_fit fuel st1 _) as [r|]; [|discriminate].
  destruct (r =? NULL).
  - match type of Hm with context [extend_heap ?s ?c] =>
      pose proof (mem_max_addr_extend_heap s c) as E;
      destruct (extend_heap s c) as [st2 b] end.
    cbn [fst] in E. destruct (b =? NULL); injection Hm as <- <-.
    + exact E.
    + now rewrite mem_max_addr_place.
  - injection Hm as <- <-. apply mem_max_addr_place.
Qed.

(** * The heap invariants along every sequence of operations *)

Lemma run_correct fuel M : forall ops st live,
  run_inv st live -> mem_max_addr st = M ->
  match run fuel st live ops with
  | Finished st' live' => run_inv st' live' /\ mem_max_addr st' = M
  | TimedOut => (fuel <= Z.to_nat (M / 32))%nat
  | Misused => True
  end.
Proof.
  induction ops as [|o ops IH]; intros st live Hinv HM; cbn [run].
  - auto.
  - destruct o as [size|bp].
    + destruct (Z.leb_spec 0 size); [|exact I].
      destruct (Z.ltb_spec size word_max); [|exact I]. cbn [andb].
      destruct (malloc fuel st size) as [[st' p]|] eqn:Em.
      * apply IH.
        -- eapply malloc_preserves; eauto.
        -- rewrite (mem_max_addr_malloc _ _ _ _ _ Em). exact HM.
      * destruct Hinv as (bs & fl & Hrep & _).
        pose proof (malloc_correct fuel st bs fl size Hrep ltac:(lia)) as Hc.
        rewrite Em in Hc.
        pose proof (heap_rep_list_length _ _ _ Hrep). subst M. lia.
    + destruct (Z.eqb_spec bp NULL) as [->|Hnz].
      * apply IH; [exact Hinv|exact HM].
      * destruct (existsb (Z.eqb bp) live) eqn:Eex; [|exact I].
        apply existsb_exists in Eex. destruct Eex as (x & Hx & Ex).
        apply Z.eqb_eq in Ex. subst x.
        apply IH.
        -- now apply free_preserves.
        -- now rewrite mem_max_addr_free.
Qed.

(** * The claims about the allocator as a whole *)

(** C3: entered with a block that carries the header and footer of a
    free block and cleared links, [coalesce] selects its case from the
    block's [prev_alloc] bit and its successor's alloc bit, merges the
    free neighbours as [merge_case] describes, leaves a well-formed
    heap in which the merged block is the head of the free list and
    occurs there once, clears the [prev_alloc] bit of the block that
    follows the merged block, and keeps in the merged header the
    [prev_alloc] bit the lowest participant held. *)
Theorem coalesce_merges_neighbours st l1 a s pa' l2 fl :
  pre_coalesce st l1 a s pa' l2 fl ->
  let st' := fst (coalesce st a) in
  let blk := snd (coalesce st a) in
  get_prev_alloc st a = last_alloc true l1 /\
  get_alloc st (find_next st a) = head_alloc l2 /\
  exists l1' m l2' fl',
    merge_case l1 a s l2 fl l1' m l2' fl' /\
    blk = baddr m /\
    heap_rep st' (l1' ++ m :: l2') (blk :: fl') /\
    freelist_start st' = blk /\ ~ In blk fl' /\
    get_prev_alloc st' (find_next st' blk) = false /\
    get_prev_alloc st' blk = get_prev_alloc st blk.
Proof.
  intros PC. cbn zeta.
  destruct (pre_coalesce_reads _ _ _ _ _ _ _ PC) as (_ & Hgp & Hfn & Hga).
  split; [exact Hgp|]. split; [rewrite Hfn; exact Hga|].
  destruct (coalesce_correct _ _ _ _ _ _ _ PC)
    as (l1' & m & l2' & fl' & Hmc & Hrep & Hsnd & Hm & Hfs & Hh & Hpb & Hfn' & Hpa).
  exists l1', m, l2', fl'. rewrite Hsnd.
  split; [exact Hmc|]. split; [reflexivity|]. split; [exact Hrep|].
  split; [exact Hfs|]. split.
  - pose proof (heap_rep_NoDup _ _ _ Hrep) as Hnd. now inversion Hnd.
  - split; [rewrite Hfn'; exact Hpa|].
    rewrite Hpb. apply (get_prev_alloc_hdr _ _ _ _ _ Hh).
    assert (Hin : In m (l1' ++ m :: l2')) by (apply in_or_app; right; now left).
    destruct (seg_in _ _ _ _ _ _ (rep_seg _ _ _ Hrep) Hin) as (_ & _ & _ & Hmod).
    exact Hmod.
Qed.

Lemma coalesce_merges_neighbours_witness :
  let st := both_free_state in
  let l1 := [mkBlock 24 112 false] in
  let l2 := [mkBlock 248 3872 false] in
  let fl := [248; 24] in
  let st' := fst (coalesce st 136) in
  let blk := snd (coalesce st 136) in
  get_prev_alloc st 136 = last_alloc true l1 /\
  get_alloc st (find_next st 136) = head_alloc l2 /\
  exists l1' m l2' fl',
    merge_case l1 136 112 l2 fl l1' m l2' fl' /\
    blk = baddr m /\
    heap_rep st' (l1' ++ m :: l2') (blk :: fl') /\
    freelist_start st' = blk /\ ~ In blk fl' /\
    get_prev_alloc st' (find_next st' blk) = false /\
    get_prev_alloc st' blk = get_prev_alloc st blk.
Proof.
  apply (coalesce_merges_neighbours both_free_state
           [mkBlock 24 112 false] 136 112 true [mkBlock 248 3872 false] [248; 24]).
  constructor; [constructor|..].
  - vm_compute. discriminate.
  - vm_compute. split; [discriminate|reflexivity].
  - vm_compute. reflexivity.
  - vm_compute. repeat split; try reflexivity; discriminate.
  - lia.
  - vm_compute. repeat split; try reflexivity; discriminate.
  - vm_compute. reflexivity.
  - vm_compute. repeat split; try reflexivity; discriminate.
  - apply perm_swap.
  - vm_compute. split; [discriminate|reflexivity].
  - vm_compute. reflexivity.
  - vm_compute. reflexivity.
  - vm_compute. reflexivity.
  - vm_compute. reflexivity.
Defined.

(** * [realloc] *)

Lemma memcpy_inside m dst src n x :
  dst <= x < dst + n -> memcpy m dst src n x = m (src + (x - dst)).
Proof.
  intros Hx. unfold memcpy.
  destruct (Z.leb_spec dst x), (Z.ltb_spec x (dst + n)); try lia. reflexivity.
Qed.

Lemma memcpy_outside m dst src n x :
  ~ (dst <= x < dst + n) -> memcpy m dst src n x = m x.
Proof.
  intros Hx. unfold memcpy.
  destruct (Z.leb_spec dst x), (Z.ltb_spec x (dst + n)); try lia; reflexivity.
Qed.

(** * [malloc]: the region handed out *)

Lemma seg_aligned st : forall bs lo pa hi b,
  seg st lo pa bs hi -> In b bs -> (baddr b - lo) mod 16 = 0.
Proof.
  induction bs as [|c bs IH]; intros lo pa hi b H Hb; [destruct Hb|].
  cbn in H. destruct H as (Ea & (_ & Hm & _) & H).
  destruct Hb as [<-|Hb].
  - rewrite Ea, Z.sub_diag. reflexivity.
  - specialize (IH _ _ _ _ H Hb).
    replace (baddr b - lo) with ((baddr b - (lo + bsize c)) + bsize c) by lia.
    rewrite Z.add_mod, IH, Hm by lia. reflexivity.
Qed.

(** Away from the top of the address space [malloc] keeps its promise:
    the block it returns is allocated, its payload holds the request,
    it is aligned as the heap is, and it overlaps no other block. *)
Lemma malloc_region_ok fuel st bs fl size st' p :
  heap_rep st bs fl -> 0 < size -> size + 24 <= word_max ->
  malloc fuel st size = Some (st', p) -> p <> NULL ->
  exists bs' fl' b,
    heap_rep st' bs' fl' /\ In b bs' /\ balloc b = true /\
    p = header_to_payload (baddr b) /\
    size <= get_payload_size st' (baddr b) /\
    ((heap_start st' + 8) mod 16 = 0 -> p mod 16 = 0) /\
    (forall c, In c bs' -> c <> b ->
       baddr c + bsize c <= baddr b \/ baddr b + bsize b <= baddr c).
Proof.
  intros Hrep Hs0 Hsb Hm Hp.
  pose proof word_max_val as Hwm.
  pose proof (malloc_correct fuel st bs fl size Hrep ltac:(lia)) as Hc.
  rewrite Hm in Hc.
  destruct Hc as [(E & _)|(_ & _ & l1 & sA & rest & fl' & Hrep' & Hsa & Hsam & _)];
    [contradiction|].
  set (b := mkBlock (payload_to_header p) sA true) in *.
  assert (Hb : In b (l1 ++ b :: rest)) by (apply in_or_app; right; now left).
  exists (l1 ++ b :: rest), fl', b.
  split; [exact Hrep'|]. split; [exact Hb|]. split; [reflexivity|].
  pose proof (adjust_size_fits size ltac:(lia) Hsb) as Hfit. unfold wsize in Hfit.
  destruct (heap_rep_block_reads _ _ _ _ Hrep' Hb) as (Egs & Eal & _).
  destruct (seg_in _ _ _ _ _ _ (rep_seg _ _ _ Hrep') Hb) as (B1 & B2 & _).
  pose proof (rep_start _ _ _ Hrep'). pose proof (rep_brk _ _ _ Hrep').
  pose proof (seg_aligned _ _ _ _ _ _ (rep_seg _ _ _ Hrep') Hb) as Hmod.
  assert (Hdis : forall c, In c (l1 ++ b :: rest) -> c <> b ->
            baddr c + bsize c <= baddr b \/ baddr b + bsize b <= baddr c).
  { intros c Hc Hne.
    destruct (seg_disjoint _ _ _ _ _ _ _ (rep_seg _ _ _ Hrep') Hc Hb) as [?|?];
      [contradiction|assumption]. }
  subst b. cbn [baddr bsize balloc] in *.
  split; [unfold header_to_payload, payload_to_header; lia|].
  split; [|split].
  - unfold get_payload_size. rewrite Egs, Eal. unfold wsize.
    rewrite wrap_small by lia. lia.
  - intros Hal. unfold payload_to_header in Hmod.
    replace p with ((p - 8 - heap_start st') + (heap_start st' + 8)) by lia.
    rewrite Z.add_mod, Hmod, Hal by lia. reflexivity.
  - exact Hdis.
Qed.

(** C2: a successful [malloc(n)] should hand out at least [n] bytes.
    The code does not when [n] is within 23 bytes of [SIZE_MAX]: the sum
    [size + wsize] wraps around, the adjusted size falls back to the
    32-byte minimum, and the call succeeds with a block whose payload is
    24 bytes.  Evaluated here at [malloc(SIZE_MAX)] on a freshly
    initialised heap. *)
Theorem malloc_size_max_returns_short_block :
  adjust_size SIZE_MAX = 32 /\
  match malloc 100 init_state SIZE_MAX with
  | Some (st', p) =>
      p <> NULL /\ get_alloc st' (payload_to_header p) = true /\
      get_payload_size st' (payload_to_header p) = 24
  | None => False
  end.
Proof.
  split; [reflexivity|].
  vm_compute. split; [discriminate|]. split; reflexivity.
Qed.

(** * The heap validator *)

Lemma get_size_nonneg st b : 0 <= get_size st b.
Proof.
  unfold get_size. rewrite extract_size_spec by apply load_range.
  pose proof (load_range st b). pose proof word_max_val.
  assert (0 <= load st b / 16) by (apply Z.div_pos; lia). lia.
Qed.

Lemma get_size_gtb st b : (get_size st b >? 0) = negb (get_size st b =? 0).
Proof.
  pose proof (get_size_nonneg st b).
  destruct (Z.eqb_spec (get_size st b) 0) as [E|E]; cbn.
  - rewrite E. reflexivity.
  - apply Z.gtb_lt. lia.
Qed.

Lemma adjacent_nil {A} (x y : A) : ~ adjacent x y [].
Proof. intros (l1 & l2 & E). destruct l1; discriminate. Qed.

Lemma adjacent_single {A} (x y a : A) : ~ adjacent x y [a].
Proof.
  intros (l1 & l2 & E). destruct l1 as [|? [|? ?]]; discriminate.
Qed.



Lemma check_freeblock_coalesce_loop_spec st : forall l fuel b e,
  heap_walk st b l e -> (length l < fuel)%nat ->
  exists r, check_freeblock_coalesce_loop fuel st b = Some r /\
    (r = true <->
     forall x y, adjacent x y l ->
       ~ (get_alloc st x = false /\ get_alloc st y = false)).
Proof.
  induction l as [|a l IH]; intros fuel b e Hw Hf;
    (destruct fuel as [|fuel]; [cbn in Hf; lia|]);
    cbn [check_freeblock_coalesce_loop]; rewrite !get_size_gtb.
  - destruct Hw as (-> & E). rewrite E. cbn. exists true.
    split; [reflexivity|]. split; [|reflexivity].
    intros _ x y Ha. destruct (adjacent_nil _ _ Ha).
  - destruct Hw as (-> & Ea & Hw).
    destruct (Z.eqb_spec (get_size st a) 0) as [?|_]; [contradiction|]. cbn [negb andb].
    destruct l as [|a' l'].
    + destruct Hw as (-> & E). rewrite E. cbn. exists true.
      split; [reflexivity|]. split; [|reflexivity].
      intros _ x y Ha. destruct (adjacent_single _ _ _ Ha).
    + pose proof Hw as Hw'. destruct Hw' as (En & Ea' & _). rewrite En in *.
      destruct (Z.eqb_spec (get_size st a') 0) as [?|_]; [contradiction|]. cbn [negb].
      destruct (get_alloc st a) eqn:Ga; cbn [negb andb];
        [|destruct (get_alloc st a') eqn:Ga'; cbn [negb]].
      3:{ exists false. split; [reflexivity|]. split; [discriminate|].
          intros H. exfalso. apply (H a a'); [exists [], l'; reflexivity|auto]. }
      all: destruct (IH fuel a' e Hw ltac:(cbn in Hf |- *; lia)) as (r & Er & Hr);
        exists r; (split; [exact Er|]); rewrite Hr; split.
      all: try (intros H x y Ha; apply H;
                apply adjacent_cons_iff; right; exact Ha).
      all: intros H x y Ha; apply adjacent_cons_iff in Ha;
        destruct Ha as [(l'' & El & ->)|Ha]; [|exact (H _ _ Ha)];
        injection El as <- _; intros (F1 & F2); congruence.
Qed.

Lemma check_prev_alloc_loop_spec st : forall l fuel b e,
  heap_walk st b l e -> (length l < fuel)%nat ->
  exists r, check_prev_alloc_loop fuel st b = Some r /\
    (r = true <->
     forall x y, adjacent x y l -> get_prev_alloc st y = get_alloc st x).
Proof.
  induction l as [|a l IH]; intros fuel b e Hw Hf;
    (destruct fuel as [|fuel]; [cbn in Hf; lia|]);
    cbn [check_prev_alloc_loop].
  - destruct Hw as (-> & E). rewrite E. cbn. exists true.
    split; [reflexivity|]. split; [|reflexivity].
    intros _ x y Ha. destruct (adjacent_nil _ _ Ha).
  - destruct Hw as (-> & Ea & Hw).
    destruct (Z.eqb_spec (get_size st a) 0) as [?|_]; [contradiction|]. cbn [negb].
    destruct l as [|a' l'].
    + destruct Hw as (-> & E). rewrite E. cbn. exists true.
      split; [reflexivity|]. split; [|reflexivity].
      intros _ x y Ha. destruct (adjacent_single _ _ _ Ha).
    + pose proof Hw as Hw'. destruct Hw' as (En & Ea' & _). rewrite En in *.
      destruct (Z.eqb_spec (get_size st a') 0) as [?|_]; [contradiction|].
      destruct (Bool.eqb (get_alloc st a) (get_prev_alloc st a')) eqn:Eb; cbn [negb].
      * apply Bool.eqb_prop in Eb.
        destruct (IH fuel a' e Hw ltac:(cbn in Hf |- *; lia)) as (r & Er & Hr).
        exists r. split; [exact Er|]. rewrite Hr. split.
        -- intros H x y Ha. apply adjacent_cons_iff in Ha.
           destruct Ha as [(l'' & El & ->)|Ha]; [|exact (H _ _ Ha)].
           injection El as <- _. congruence.
        -- intros H x y Ha. apply H. apply adjacent_cons_iff. right. exact Ha.
      * exists false. split; [reflexivity|]. split; [discriminate|].
        intros H. exfalso.
        rewrite (H a a') in Eb by (exists [], l'; reflexivity).
        rewrite Bool.eqb_reflx in Eb. discriminate.
Qed.

Lemma check_minsize_loop_spec st : forall l fuel b e,
  heap_walk st b l e -> (length l < fuel)%nat ->
  exists r, check_minsize_loop fuel st b = Some r /\
    (r = true <-> forall x, In x l -> min_block_size <= get_size st x).
Proof.
  induction l as [|a l IH]; intros fuel b e Hw Hf;
    (destruct fuel as [|fuel]; [cbn in Hf; lia|]);
    cbn [check_minsize_loop]; rewrite get_size_gtb.
  - destruct Hw as (-> & E). rewrite E. cbn. exists true.
    split; [reflexivity|]. split; [|reflexivity]. intros _ x [].
  - destruct Hw as (-> & Ea & Hw).
    destruct (Z.eqb_spec (get_size st a) 0) as [?|_]; [contradiction|]. cbn [negb].
    destruct (Z.ltb_spec (get_size st a) min_block_size) as [Hlt|Hge].
    + exists false. split; [reflexivity|]. split; [discriminate|].
      intros H. specialize (H a (or_introl eq_refl)). lia.
    + destruct (IH fuel _ e Hw ltac:(cbn in Hf |- *; lia)) as (r & Er & Hr).
      exists r. split; [exact Er|]. rewrite Hr. split.
      * intros H x [<-|Hx]; [exact Hge|exact (H _ Hx)].
      * intros H x Hx. apply H. right. exact Hx.
Qed.

Lemma check_overlap_loop_never_false st : forall fuel b,
  check_overlap_loop fuel st b <> Some false.
Proof.
  induction fuel as [|fuel IH]; intros b; cbn [check_overlap_loop]; [discriminate|].
  destruct (negb (get_size st b =? 0) && negb (find_next st b =? 0)); [|discriminate].
  cbn zeta. unfold find_next at 1. rewrite Z.eqb_refl. cbn [negb]. apply IH.
Qed.

Lemma check_overlap_loop_total st : forall l fuel b e,
  heap_walk st b l e -> (length l < fuel)%nat ->
  check_overlap_loop fuel st b = Some true.
Proof.
  induction l as [|a l IH]; intros fuel b e Hw Hf;
    (destruct fuel as [|fuel]; [cbn in Hf; lia|]);
    cbn [check_overlap_loop].
  - destruct Hw as (-> & E). rewrite E. reflexivity.
  - destruct Hw as (-> & Ea & Hw).
    destruct (negb (get_size st a =? 0) && negb (find_next st a =? 0)); [|reflexivity].
    cbn zeta. unfold find_next at 1. rewrite Z.eqb_refl. cbn [negb].
    apply (IH fuel _ e Hw). cbn in Hf. lia.
Qed.

Lemma load_nonzero_of_size st b : get_size st b <> 0 -> load st b <> 0.
Proof. intros H E. apply H. unfold get_size. rewrite E. reflexivity. Qed.

Lemma check_pointer_loop_spec st : forall l fuel b e,
  heap_walk st b l e -> (length l < fuel)%nat ->
  exists r, check_pointer_loop fuel st b = Some r /\
    (r = true <-> forall x, In x l -> header_to_payload x <> NULL).
Proof.
  induction l as [|a l IH]; intros fuel b e Hw Hf;
    (destruct fuel as [|fuel]; [cbn in Hf; lia|]);
    cbn [check_pointer_loop]; rewrite get_size_gtb.
  - destruct Hw as (-> & E). rewrite E. cbn. exists true.
    split; [reflexivity|]. split; [|reflexivity]. intros _ x [].
  - destruct Hw as (-> & Ea & Hw).
    destruct (Z.eqb_spec (get_size st a) 0) as [?|_]; [contradiction|]. cbn [negb].
    destruct (Z.eqb_spec (load st a) NULL) as [E0|_];
      [destruct (load_nonzero_of_size _ _ Ea E0)|].
    destruct (Z.eqb_spec (header_to_payload a) NULL) as [E1|N1].
    + exists false. split; [reflexivity|]. split; [discriminate|].
      intros H. destruct (H a (or_introl eq_refl) E1).
    + destruct (IH fuel _ e Hw ltac:(cbn in Hf |- *; lia)) as (r & Er & Hr).
      exists r. split; [exact Er|]. rewrite Hr. split.
      * intros H x [<-|Hx]; [exact N1|exact (H _ Hx)].
      * intros H x Hx. apply H. right. exact Hx.
Qed.

Lemma count_free_blocks_spec st : forall l fuel b e i,
  heap_walk st b l e -> ~ In 0 l -> (length l < fuel)%nat ->
  0 <= i -> i + Z.of_nat (free_count st l) <= INT_MAX ->
  count_free_blocks fuel st b i = Done (i + Z.of_nat (free_count st l)).
Proof.
  unfold free_count.
  induction l as [|a l IH]; intros fuel b e i Hw H0 Hf Hi Hb;
    (destruct fuel as [|fuel]; [cbn in Hf; lia|]);
    cbn [count_free_blocks].
  - destruct Hw as (-> & E). rewrite E. cbn. f_equal. lia.
  - destruct Hw as (-> & Ea & Hw).
    destruct (Z.eqb_spec (get_size st a) 0) as [?|_]; [contradiction|].
    destruct (Z.eqb_spec a 0) as [->|_]; [destruct H0; now left|].
    cbn [negb andb]. cbn [filter] in *.
    assert (H0' : ~ In 0 l) by (intros F; apply H0; now right).
    assert (Hf' : (length l < fuel)%nat) by (cbn in Hf; lia).
    destruct (get_alloc st a); cbn [negb] in *.
    + apply (IH fuel _ e i Hw H0' Hf' Hi Hb).
    + cbn [length] in *.
      destruct (Z.eqb_spec i INT_MAX) as [->|_]; [lia|].
      rewrite (IH fuel _ e (i + 1) Hw H0' Hf') by lia. f_equal. lia.
Qed.

Lemma count_freelist_spec st : forall l fuel p j,
  fl_walk st p l -> (forall z, In z l -> get_size st z <> 0) ->
  (length l < fuel)%nat ->
  0 <= j -> j + Z.of_nat (length l) <= INT_MAX ->
  count_freelist fuel st p j = Done (j + Z.of_nat (length l)).
Proof.
  induction l as [|a l IH]; intros fuel p j Hw Hs Hf Hj Hb;
    (destruct fuel as [|fuel]; [cbn in Hf; lia|]);
    cbn [count_freelist].
  - cbn in Hw. rewrite Hw. cbn. f_equal. lia.
  - destruct Hw as (-> & Na & Hw).
    destruct (Z.eqb_spec a 0) as [?|_]; [contradiction|].
    destruct (Z.eqb_spec (get_size st a) 0) as [E|_];
      [destruct (Hs a (or_introl eq_refl) E)|].
    cbn [negb andb]. cbn [length] in *.
    destruct (Z.eqb_spec j INT_MAX) as [->|_]; [lia|].
    assert (Hs' : forall z, In z l -> get_size st z <> 0)
      by (intros z Hz; apply Hs; now right).
    rewrite (IH fuel _ (j + 1) Hw Hs') by lia. f_equal. lia.
Qed.

Lemma check_all_freeblocks_spec st hb e fl fuel :
  heap_walk st (heap_start st) hb e -> fl_walk st (freelist_start st) fl ->
  ~ In 0 hb -> (forall z, In z fl -> get_size st z <> 0) ->
  (length hb < fuel)%nat -> (length fl < fuel)%nat ->
  Z.of_nat (free_count st hb) <= INT_MAX -> Z.of_nat (length fl) <= INT_MAX ->
  check_all_freeblocks_in_freelist fuel st =
    Done (Nat.eqb (free_count st hb) (length fl)).
Proof.
  intros Hw Hfl H0 Hs Hf1 Hf2 Hb1 Hb2. unfold check_all_freeblocks_in_freelist.
  rewrite (count_free_blocks_spec st hb fuel _ e 0 Hw H0 Hf1) by lia.
  rewrite (count_freelist_spec st fl fuel _ 0 Hfl Hs Hf2) by lia.
  cbn [Z.add].
  destruct (Nat.eqb_spec (free_count st hb) (length fl)) as [E|N].
  - rewrite E, Z.eqb_refl. reflexivity.
  - destruct (Z.eqb_spec (Z.of_nat (free_count st hb)) (Z.of_nat (length fl)));
      [lia|reflexivity].
Qed.


Lemma heap_rep_walk st bs fl :
  heap_rep st bs fl ->
  heap_walk st (heap_start st) (map baddr bs) (mem_brk st - 8).
Proof.
  intros H. pose proof word_max_val as Hwm.
  apply (seg_heap_walk _ _ _ _ _ (rep_seg _ _ _ H)).
  - exact (rep_start _ _ _ H).
  - pose proof (rep_brk _ _ _ H). lia.
  - apply (get_size_hdr _ _ 0 _ _ (rep_epilogue _ _ _ H)); [lia|reflexivity|lia].
Qed.





Ltac walk_facts :=
  cbn [heap_walk fl_walk]; repeat split;
  vm_compute; try reflexivity; try discriminate.

(** Every block of a heap walk that starts at a non-negative address
    and ends with its zero-size header below 2^64 lies in between: no
    pointer addition of the walk leaves the 64-bit address space, and
    [find_next] is the wrapping addition of the C code. *)
Lemma heap_walk_in_range st : forall l b e,
  heap_walk st b l e -> 0 <= b -> e + 8 <= word_max ->
  forall x, In x l ->
    b <= x /\ find_next st x <= e /\ find_next st x = wrap (x + get_size st x).
Proof.
  induction l as [|a l IH]; intros b e Hw Hb He x Hx; [destruct Hx|].
  cbn [heap_walk] in Hw. destruct Hw as (-> & Hs & Hw).
  pose proof (get_size_nonneg st a) as Hn.
  assert (Hle : find_next st a <= e).
  { destruct l as [|c l].
    - cbn [heap_walk] in Hw. destruct Hw as (-> & _). lia.
    - assert (Hc : In c (c :: l)) by (left; reflexivity).
      destruct (IH _ _ Hw ltac:(unfold find_next; lia) He c Hc) as (_ & H2 & _).
      cbn [heap_walk] in Hw. destruct Hw as (E & _).
      pose proof (get_size_nonneg st c). unfold find_next in *. lia. }
  destruct Hx as [<-|Hx].
  - split; [lia|]. split; [exact Hle|].
    unfold find_next in *. unfold wrap. rewrite Z.mod_small; lia.
  - destruct (IH _ _ Hw ltac:(unfold find_next; lia) He x Hx) as (H1 & H2 & H3).
    unfold find_next in *. split; [lia|]. split; assumption.
Qed.

(** X1: on a heap walk that starts at a non-negative address and ends
    in a zero-size header below 2^64 (so that no pointer addition of
    the walk wraps around), [check_freeblock_coalesce] returns true
    exactly when no block and its physical successor are both free. *)
Theorem check_freeblock_coalesce_spec st hb e fuel :
  heap_walk st (heap_start st) hb e ->
  0 <= heap_start st -> e + 8 <= word_max ->
  (length hb < fuel)%nat ->
  exists r, check_freeblock_coalesce fuel st = Some r /\
    (r = true <->
     forall x y, adjacent x y hb ->
       ~ (get_alloc st x = false /\ get_alloc st y = false)).
Proof. intros Hw _ _ Hf. exact (check_freeblock_coalesce_loop_spec st hb fuel _ e Hw Hf). Qed.

Lemma check_freeblock_coalesce_spec_witness :
  exists r, check_freeblock_coalesce 4 neighbours_state = Some r /\
    (r = true <->
     forall x y, adjacent x y [24; 136; 248] ->
       ~ (get_alloc neighbours_state x = false /\
          get_alloc neighbours_state y = false)).
Proof.
  refine (check_freeblock_coalesce_spec neighbours_state [24; 136; 248] 4120 4 _ _ _ _).
  - walk_facts.
  - vm_compute. discriminate.
  - vm_compute. discriminate.
  - cbn. lia.
Defined.

(** X2: on a heap walk that stays inside the 64-bit address space,
    [check_prev_alloc] returns true exactly when every block that
    follows another block carries, in its [prev_alloc] bit, the alloc
    state of that block.  The bit of the first block and the bit of the
    final zero-size header are not looked at. *)
Theorem check_prev_alloc_spec st hb e fuel :
  heap_walk st (heap_start st) hb e ->
  0 <= heap_start st -> e + 8 <= word_max ->
  (length hb < fuel)%nat ->
  exists r, check_prev_alloc fuel st = Some r /\
    (r = true <->
     forall x y, adjacent x y hb -> get_prev_alloc st y = get_alloc st x).
Proof. intros Hw _ _ Hf. exact (check_prev_alloc_loop_spec st hb fuel _ e Hw Hf). Qed.

Lemma check_prev_alloc_spec_witness :
  exists r, check_prev_alloc 4 neighbours_state = Some r /\
    (r = true <->
     forall x y, adjacent x y [24; 136; 248] ->
       get_prev_alloc neighbours_state y = get_alloc neighbours_state x).
Proof.
  refine (check_prev_alloc_spec neighbours_state [24; 136; 248] 4120 4 _ _ _ _).
  - walk_facts.
  - vm_compute. discriminate.
  - vm_compute. discriminate.
  - cbn. lia.
Defined.

(** X3: [check_all_freeblocks_in_freelist] only compares two counts: it
    returns true exactly when the number of free blocks met on the heap
    walk equals the number of nodes on the free list.  (The heap walk
    and the list nodes stay inside the 64-bit address space; no block
    at address 0, no zero-size node, fewer than 2^31 blocks.) *)
Theorem check_all_freeblocks_in_freelist_spec st hb e fl fuel :
  heap_walk st (heap_start st) hb e -> fl_walk st (freelist_start st) fl ->
  0 <= heap_start st -> e + 8 <= word_max ->
  (forall z, In z fl -> 0 <= z /\ z + 24 <= word_max) ->
  ~ In 0 hb -> (forall z, In z fl -> get_size st z <> 0) ->
  (length hb < fuel)%nat -> (length fl < fuel)%nat ->
  Z.of_nat (length hb) <= INT_MAX -> Z.of_nat (length fl) <= INT_MAX ->
  check_all_freeblocks_in_freelist fuel st =
    Done (Nat.eqb (free_count st hb) (length fl)).
Proof.
  intros Hw Hfl _ _ _ H0 Hs Hf1 Hf2 Hb1 Hb2.
  apply (check_all_freeblocks_spec st hb e fl fuel); try assumption.
  unfold free_count.
  pose proof (filter_length_le (fun x => negb (get_alloc st x)) hb). lia.
Qed.

Lemma check_all_freeblocks_in_freelist_spec_witness :
  check_all_freeblocks_in_freelist 4 neighbours_state =
    Done (Nat.eqb (free_count neighbours_state [24; 136; 248]) (length [248; 24])).
Proof.
  refine (check_all_freeblocks_in_freelist_spec
            neighbours_state [24; 136; 248] 4120 [248; 24] 4 _ _ _ _ _ _ _ _ _ _ _).
  - walk_facts.
  - walk_facts.
  - vm_compute. discriminate.
  - vm_compute. discriminate.
  - intros z [<-|[<-|[]]]; vm_compute; split; discriminate.
  - cbn. intros [F|[F|[F|[]]]]; discriminate.
  - intros z [<-|[<-|[]]]; vm_compute; discriminate.
  - cbn. lia.
  - cbn. lia.
  - vm_compute. discriminate.
  - vm_compute. discriminate.
Defined.

(** X4: on a heap walk that stays inside the 64-bit address space,
    [check_if_size_smaller_than_minsize] returns true exactly when
    every block of the walk has a size of at least [min_block_size]. *)
Theorem check_if_size_smaller_than_minsize_spec st hb e fuel :
  heap_walk st (heap_start st) hb e ->
  0 <= heap_start st -> e + 8 <= word_max ->
  (length hb < fuel)%nat ->
  exists r, check_if_size_smaller_than_minsize fuel st = Some r /\
    (r = true <-> forall x, In x hb -> min_block_size <= get_size st x).
Proof. intros Hw _ _ Hf. exact (check_minsize_loop_spec st hb fuel _ e Hw Hf). Qed.

Lemma check_if_size_smaller_than_minsize_spec_witness :
  exists r, check_if_size_smaller_than_minsize 4 neighbours_state = Some r /\
    (r = true <->
     forall x, In x [24; 136; 248] -> min_block_size <= get_size neighbours_state x).
Proof.
  refine (check_if_size_smaller_than_minsize_spec
            neighbours_state [24; 136; 248] 4120 4 _ _ _ _).
  - walk_facts.
  - vm_compute. discriminate.
  - vm_compute. discriminate.
  - cbn. lia.
Defined.

(** X5: [check_alloc_block_overlap] compares [block + get_size(block)]
    with [find_next(block)], which is the same expression: whatever
    the bytes of the heap, it never returns false.  On a heap walk that
    stays inside the 64-bit address space it returns true as soon as
    the fuel exceeds the number of blocks up to the zero-size header. *)
Theorem check_alloc_block_overlap_never_fails fuel st :
  match check_alloc_block_overlap fuel st with
  | Some r => r = true
  | None =>
      forall hb e, heap_walk st (heap_start st) hb e ->
        0 <= heap_start st -> e + 8 <= word_max -> (fuel <= length hb)%nat
  end.
Proof.
  destruct (check_alloc_block_overlap fuel st) as [[|]|] eqn:E.
  - reflexivity.
  - destruct (check_overlap_loop_never_false _ _ _ E).
  - intros hb e Hw _ _.
    destruct (Nat.le_gt_cases fuel (length hb)) as [?|Hlt]; [assumption|].
    unfold check_alloc_block_overlap in E.
    rewrite (check_overlap_loop_total st hb fuel _ e Hw Hlt) in E. discriminate.
Qed.

(** X6: on a heap walk that starts at a non-negative address and ends
    in a zero-size header below 2^64, neither test of
    [check_pointer_valid] can fire: a block inside the loop has a
    non-zero size, hence a non-zero header, and its payload lies 8
    bytes above a non-negative address.  The check returns true. *)
Theorem check_pointer_valid_spec st hb e fuel :
  heap_walk st (heap_start st) hb e ->
  0 <= heap_start st -> e + 8 <= word_max ->
  (length hb < fuel)%nat ->
  check_pointer_valid fuel st = Some true.
Proof.
  intros Hw H0 He Hf.
  destruct (check_pointer_loop_spec st hb fuel _ e Hw Hf) as (r & Er & Hr).
  unfold check_pointer_valid. rewrite Er. f_equal. apply Hr.
  intros x Hx.
  destruct (heap_walk_in_range st hb _ e Hw H0 He x Hx) as (Hlo & _).
  unfold header_to_payload, NULL. lia.
Qed.

Lemma check_pointer_valid_spec_witness :
  check_pointer_valid 4 neighbours_state = Some true.
Proof.
  refine (check_pointer_valid_spec neighbours_state [24; 136; 248] 4120 4 _ _ _ _).
  - walk_facts.
  - vm_compute. discriminate.
  - vm_compute. discriminate.
  - cbn. lia.
Defined.

(** * Writing into a payload: [realloc] and [calloc] *)

Lemma load_ext st st' a :
  (forall x, a <= x < a + 8 -> mem st' x = mem st x) -> load st' a = load st a.
Proof. intros H. unfold load. apply load64_ext. exact H. Qed.

Lemma seg_agree_meta st st' : forall bs lo pa hi,
  (forall b, In b bs ->
     load st' (baddr b) = load st (baddr b) /\
     (balloc b = false ->
      load st' (baddr b + bsize b - 8) = load st (baddr b + bsize b - 8))) ->
  seg st lo pa bs hi -> seg st' lo pa bs hi.
Proof.
  induction bs as [|b bs IH]; intros lo pa hi Hag H; [exact H|].
  cbn in H |- *. destruct H as (Ha & (Hs & Hm & Hh) & H).
  destruct (Hag b (or_introl eq_refl)) as (E1 & E2).
  split; [exact Ha|]. split.
  - split; [exact Hs|]. split; [exact Hm|].
    destruct (balloc b); [rewrite E1; exact Hh|].
    rewrite E1, E2 by reflexivity. exact Hh.
  - apply IH; [|exact H]. intros c Hc. apply Hag. now right.
Qed.

(** Bytes written inside the payload of an allocated block leave the
    heap well formed. *)
Lemma heap_rep_payload_write st st' bs fl b :
  heap_rep st bs fl -> In b bs -> balloc b = true ->
  (forall x, x < baddr b + 8 \/ baddr b + bsize b <= x -> mem st' x = mem st x) ->
  mem_brk st' = mem_brk st -> mem_max_addr st' = mem_max_addr st ->
  heap_start st' = heap_start st -> freelist_start st' = freelist_start st ->
  heap_rep st' bs fl.
Proof.
  intros H Hb Hal Hout Ebrk Emax Ehs Efl.
  pose proof (rep_seg _ _ _ H) as Hseg.
  destruct (seg_in _ _ _ _ _ _ Hseg Hb) as (B1 & B2 & B3 & _).
  rewrite min_block_size_val in B3.
  assert (Hld : forall y, y + 8 <= baddr b + 8 \/ baddr b + bsize b <= y ->
                          load st' y = load st y).
  { intros y Hy. apply load_ext. intros x Hx. apply Hout. lia. }
  destruct H as [Hstart Hbrk Hpro _ Hepi Hdl Hperm].
  constructor; rewrite ?Ebrk, ?Emax, ?Ehs; auto.
  - rewrite Hld by lia. exact Hpro.
  - apply (seg_agree_meta st); [|exact Hseg].
    intros c Hc.
    destruct (seg_in _ _ _ _ _ _ Hseg Hc) as (C1 & C2 & C3 & _).
    rewrite min_block_size_val in C3.
    destruct (seg_disjoint _ _ _ _ _ _ _ Hseg Hc Hb) as [->|D].
    + split; [apply Hld; lia|]. intros F. congruence.
    + split; [apply Hld; lia|]. intros _. apply Hld. lia.
  - rewrite Hld by lia. exact Hepi.
  - unfold dl in *. rewrite Efl.
    apply (dlseg_agree st); [|exact Hdl].
    intros z Hz. apply (Permutation_in _ Hperm) in Hz. apply in_free_addrs in Hz.
    destruct Hz as (c & Hc & <- & Hcf).
    destruct (seg_in _ _ _ _ _ _ Hseg Hc) as (C1 & C2 & C3 & _).
    rewrite min_block_size_val in C3.
    destruct (seg_disjoint _ _ _ _ _ _ _ Hseg Hc Hb) as [->|D]; [congruence|].
    unfold get_prev, get_next. split; apply Hld; lia.
Qed.

Lemma run_inv_fresh_pointer st l1 blk rest fl live p :
  heap_rep st (l1 ++ blk :: rest) fl ->
  Permutation (live_ptrs (l1 ++ blk :: rest)) (p :: live) ->
  ~ In p live.
Proof.
  intros H Hp.
  pose proof (live_ptrs_NoDup _ _ _ _ _ (rep_seg _ _ _ H)) as Hnd.
  apply (Permutation_NoDup Hp) in Hnd. now inversion Hnd.
Qed.

Lemma get_payload_size_nonneg st b : 0 <= get_payload_size st b.
Proof.
  unfold get_payload_size, wrap. pose proof word_max_val.
  destruct (get_alloc st b); apply Z.mod_pos_bound; lia.
Qed.

Lemma realloc_run_inv fuel st live ptr size st' p' :
  run_inv st live -> In ptr live ->
  0 < size -> size + 24 <= word_max ->
  realloc fuel st ptr size = Some (st', p') ->
  run_inv st' (if p' =? NULL then live else p' :: remove Z.eq_dec ptr live).
Proof.
  intros Hinv Hptr Hs0 Hsb Hr. pose proof word_max_val as Hwm.
  pose proof Hinv as (bs & fl & Hrep & Hperm).
  assert (Hpn : ptr <> NULL).
  { apply (Permutation_in _ Hperm) in Hptr. apply in_live_ptrs in Hptr.
    destruct Hptr as (b & Hb & _ & ->).
    pose proof (seg_in _ _ _ _ _ _ (rep_seg _ _ _ Hrep) Hb).
    pose proof (rep_start _ _ _ Hrep). unfold header_to_payload, NULL. lia. }
  unfold realloc in Hr.
  destruct (Z.eqb_spec size 0); [lia|].
  destruct (Z.eqb_spec ptr NULL); [contradiction|].
  destruct (malloc fuel st size) as [[st1 newptr]|] eqn:Em; [|discriminate].
  pose proof (malloc_correct fuel st bs fl size Hrep ltac:(lia)) as Hc.
  rewrite Em in Hc.
  destruct Hc as [(-> & ->)|(Hnp & _ & l1 & sA & rest & fl' & Hrep1 & Hsa & _ & Hperm1)].
  - cbn in Hr. injection Hr as <- <-. cbn. exact Hinv.
  - destruct (Z.eqb_spec newptr NULL); [contradiction|].
    injection Hr as <- <-.
    destruct (Z.eqb_spec newptr NULL); [contradiction|].
    set (blk := mkBlock (payload_to_header newptr) sA true) in *.
    assert (Hblk : In blk (l1 ++ blk :: rest)) by (apply in_or_app; right; now left).
    set (cp := if size <? get_payload_size st1 (payload_to_header ptr)
              then size else get_payload_size st1 (payload_to_header ptr)).
    assert (Hn : cp <= size).
    { unfold cp. destruct (Z.ltb_spec size (get_payload_size st1 (payload_to_header ptr)));
        lia. }
    pose proof (adjust_size_fits size ltac:(lia) Hsb) as Hfit. unfold wsize in Hfit.
    set (st2 := set_mem st1 (memcpy (mem st1) newptr ptr cp)).
    assert (Hrep2 : heap_rep st2 (l1 ++ blk :: rest) fl').
    { apply (heap_rep_payload_write st1 st2 _ _ blk Hrep1 Hblk); try reflexivity.
      intros x Hx. unfold st2. cbn [mem set_mem]. apply memcpy_outside.
      cbn [blk baddr bsize] in Hx. unfold payload_to_header in Hx. lia. }
    assert (Hnew : ~ In newptr live).
    { apply (run_inv_fresh_pointer _ _ _ _ _ _ _ Hrep1).
      rewrite Hperm1. apply perm_skip. symmetry. exact Hperm. }
    assert (Hinv2 : run_inv st2 (newptr :: live)).
    { exists (l1 ++ blk :: rest), fl'. split; [exact Hrep2|].
      rewrite Hperm1. apply perm_skip. exact Hperm. }
    pose proof (free_preserves st2 (newptr :: live) ptr Hinv2 (or_intror Hptr)) as Hf.
    cbn [remove] in Hf.
    destruct (Z.eq_dec ptr newptr) as [->|_]; [contradiction|]. exact Hf.
Qed.

Lemma memset_inside m dst c n x :
  dst <= x < dst + n -> memset m dst c n x = c mod 256.
Proof.
  intros Hx. unfold memset.
  destruct (Z.leb_spec dst x), (Z.ltb_spec x (dst + n)); try lia. reflexivity.
Qed.

Lemma memset_outside m dst c n x :
  ~ (dst <= x < dst + n) -> memset m dst c n x = m x.
Proof.
  intros Hx. unfold memset.
  destruct (Z.leb_spec dst x), (Z.ltb_spec x (dst + n)); try lia; reflexivity.
Qed.

Lemma calloc_product_exact elements size :
  1 <= elements -> 0 <= size ->
  wrap (elements * size) / elements = size -> wrap (elements * size) = elements * size.
Proof.
  intros He Hs Hd. pose proof word_max_val as Hwm.
  destruct (Z_lt_le_dec (elements * size) word_max) as [Hlt|Hge].
  - apply wrap_small. nia.
  - destruct (back_division_detects_overflow elements size He Hge Hd).
Qed.

Lemma calloc_run_inv fuel st live elements size st' p :
  run_inv st live ->
  0 <= elements < word_max -> 0 <= size < word_max ->
  elements * size + 24 <= word_max ->
  calloc fuel st elements size = Ok (st', p) ->
  run_inv st' (if p =? NULL then live else p :: live) /\
  (p <> NULL ->
   0 < elements * size /\
   forall i, 0 <= i < elements * size -> mem st' (p + i) = 0).
Proof.
  intros Hinv He Hs Hb Hc. pose proof word_max_val as Hwm.
  pose proof Hinv as (bs & fl & Hrep & Hperm).
  unfold calloc in Hc.
  destruct (Z.eqb_spec elements 0); [discriminate|].
  destruct (Z.eqb_spec (wrap (elements * size) / elements) size) as [Ed|_];
    cbn [negb] in Hc.
  2:{ injection Hc as <- <-. cbn. split; [exact Hinv|]. intros F. now destruct F. }
  rewrite (calloc_product_exact elements size ltac:(lia) ltac:(lia) Ed) in Hc.
  set (tot := elements * size) in *.
  assert (Hn0 : 0 <= tot) by (unfold tot; nia).
  destruct (malloc fuel st tot) as [[st1 bp]|] eqn:Em; [|discriminate].
  pose proof (malloc_correct fuel st bs fl tot Hrep ltac:(lia)) as Hmc.
  rewrite Em in Hmc.
  destruct Hmc as [(-> & ->)|(Hnp & Hnz & l1 & sA & rest & fl' & Hrep1 & Hsa & _ & Hperm1)].
  - cbn in Hc. injection Hc as <- <-. cbn. split; [exact Hinv|]. intros F. now destruct F.
  - destruct (Z.eqb_spec bp NULL); [contradiction|].
    injection Hc as <- <-.
    destruct (Z.eqb_spec bp NULL); [contradiction|].
    set (blk := mkBlock (payload_to_header bp) sA true) in *.
    assert (Hblk : In blk (l1 ++ blk :: rest)) by (apply in_or_app; right; now left).
    pose proof (adjust_size_fits tot Hn0 Hb) as Hfit. unfold wsize in Hfit.
    split.
    + exists (l1 ++ blk :: rest), fl'. split.
      * apply (heap_rep_payload_write st1 _ _ _ blk Hrep1 Hblk); try reflexivity.
        intros x Hx. cbn [mem set_mem]. apply memset_outside.
        cbn [blk baddr bsize] in Hx. unfold payload_to_header in Hx. lia.
      * rewrite Hperm1. apply perm_skip. exact Hperm.
    + intros _. split; [lia|]. intros i Hi. cbn [mem set_mem].
      rewrite memset_inside by lia. reflexivity.
Qed.

(** ** Two concrete heaps *)

Ltac rep_facts :=
  constructor;
  [ vm_compute; discriminate
  | vm_compute; split; [discriminate|reflexivity]
  | vm_compute; reflexivity
  | vm_compute; repeat split; try reflexivity; discriminate
  | vm_compute; reflexivity
  | vm_compute; repeat split; try reflexivity; discriminate
  | ].

Lemma one_block_rep :
  heap_rep one_block_state [mkBlock 24 112 true; mkBlock 136 3984 false] [136].
Proof. rep_facts. apply Permutation_refl. Qed.

Lemma one_block_inv : run_inv one_block_state [32].
Proof.
  exists [mkBlock 24 112 true; mkBlock 136 3984 false], [136].
  split; [exact one_block_rep|apply Permutation_refl].
Qed.

Lemma neighbours_rep :
  heap_rep neighbours_state
    [mkBlock 24 112 false; mkBlock 136 112 true; mkBlock 248 3872 false] [248; 24].
Proof. rep_facts. apply perm_swap. Qed.

Lemma neighbours_inv : run_inv neighbours_state [144].
Proof.
  exists [mkBlock 24 112 false; mkBlock 136 112 true; mkBlock 248 3872 false], [248; 24].
  split; [exact neighbours_rep|apply Permutation_refl].
Qed.

(** X8: on a well-formed heap, [realloc] of a live pointer to a size
    [0 < size <= 2^64 - 24] leaves a well-formed heap that satisfies the
    heap invariants: on success the new pointer is live instead of the
    old one, on failure the live pointers are unchanged.  The call can
    only fail to complete when the fuel of the fit search is below the
    number of blocks the heap can hold. *)
Theorem realloc_keeps_heap_invariants fuel st live ptr size :
  run_inv st live -> In ptr live ->
  0 < size -> size + 24 <= word_max ->
  match realloc fuel st ptr size with
  | Some (st', p') =>
      heap_invariants st' /\
      run_inv st' (if p' =? NULL then live else p' :: remove Z.eq_dec ptr live)
  | None => (fuel <= Z.to_nat (mem_max_addr st / 32))%nat
  end.
Proof.
  intros Hinv Hptr Hs0 Hsb. pose proof word_max_val as Hwm.
  destruct (realloc fuel st ptr size) as [[st' p']|] eqn:Er.
  - pose proof (realloc_run_inv _ _ _ _ _ _ _ Hinv Hptr Hs0 Hsb Er) as Hinv'.
    split; [|exact Hinv'].
    destruct Hinv' as (bs' & fl' & Hrep' & _).
    exact (heap_rep_invariants _ _ _ Hrep').
  - destruct Hinv as (bs & fl & Hrep & Hperm).
    unfold realloc in Er.
    destruct (size =? 0); [discriminate|].
    pose proof (malloc_correct fuel st bs fl size Hrep ltac:(lia)) as Hc.
    pose proof (heap_rep_list_length _ _ _ Hrep) as Hl.
    destruct (ptr =? NULL).
    + rewrite Er in Hc. lia.
    + destruct (malloc fuel st size) as [[st1 newptr]|]; [|lia].
      destruct (newptr =? NULL); discriminate.
Qed.

Lemma realloc_keeps_heap_invariants_witness :
  match realloc 100 one_block_state 32 200 with
  | Some (st', p') =>
      heap_invariants st' /\
      run_inv st' (if p' =? NULL then [32] else p' :: remove Z.eq_dec 32 [32])
  | None => (100 <= Z.to_nat (mem_max_addr one_block_state / 32))%nat
  end.
Proof.
  refine (realloc_keeps_heap_invariants 100 one_block_state [32] 32 200 _ _ _ _).
  - exact one_block_inv.
  - now left.
  - lia.
  - vm_compute. discriminate.
Defined.

(** X9: on a well-formed heap, a [calloc] whose product
    [elements * size] is at most [2^64 - 24] leaves a well-formed heap
    satisfying the heap invariants, and when it returns a non-null
    pointer every one of the [elements * size] bytes there is zero. *)
Theorem calloc_returns_zeroed_block fuel st live elements size :
  run_inv st live ->
  0 < elements < word_max -> 0 <= size < word_max ->
  elements * size + 24 <= word_max ->
  match calloc fuel st elements size with
  | Ok (st', p) =>
      heap_invariants st' /\
      run_inv st' (if p =? NULL then live else p :: live) /\
      (p <> NULL ->
       0 < elements * size /\
       forall i, 0 <= i < elements * size -> mem st' (p + i) = 0)
  | OutOfFuel => (fuel <= Z.to_nat (mem_max_addr st / 32))%nat
  | DivisionByZero => False
  end.
Proof.
  intros Hinv He Hs Hb. pose proof word_max_val as Hwm.
  destruct (calloc fuel st elements size) as [[st' p]| |] eqn:Ec.
  - destruct (calloc_run_inv fuel st live elements size st' p Hinv ltac:(lia) Hs Hb Ec) as (Hinv' & Hz).
    split; [|split; [exact Hinv'|exact Hz]].
    destruct Hinv' as (bs' & fl' & Hrep' & _).
    exact (heap_rep_invariants _ _ _ Hrep').
  - destruct Hinv as (bs & fl & Hrep & Hperm).
    unfold calloc in Ec.
    destruct (elements =? 0); [discriminate|].
    destruct (negb (wrap (elements * size) / elements =? size)); [discriminate|].
    assert (0 <= elements * size) by nia.
    pose proof (malloc_correct fuel st bs fl (wrap (elements * size)) Hrep
                  ltac:(apply Z.mod_pos_bound; lia)) as Hc.
    pose proof (heap_rep_list_length _ _ _ Hrep) as Hl.
    destruct (malloc fuel st (wrap (elements * size))) as [[st1 bp]|]; [|lia].
    destruct (bp =? NULL); discriminate.
  - unfold calloc in Ec.
    destruct (Z.eqb_spec elements 0); [lia|].
    destruct (negb (wrap (elements * size) / elements =? size)); [discriminate|].
    destruct (malloc fuel st (wrap (elements * size))) as [[st1 bp]|]; [|discriminate].
    destruct (bp =? NULL); discriminate.
Qed.

Lemma calloc_returns_zeroed_block_witness :
  match calloc 100 one_block_state 10 20 with
  | Ok (st', p) =>
      heap_invariants st' /\
      run_inv st' (if p =? NULL then [32] else p :: [32]) /\
      (p <> NULL ->
       0 < 10 * 20 /\ forall i, 0 <= i < 10 * 20 -> mem st' (p + i) = 0)
  | OutOfFuel => (100 <= Z.to_nat (mem_max_addr one_block_state / 32))%nat
  | DivisionByZero => False
  end.
Proof.
  refine (calloc_returns_zeroed_block 100 one_block_state [32] 10 20 _ _ _ _).
  - exact one_block_inv.
  - vm_compute. split; reflexivity.
  - vm_compute. split; [discriminate|reflexivity].
  - vm_compute. discriminate.
Defined.

(** * The break and the heap start *)

Ltac fields :=
  repeat match goal with |- context [if ?c then _ else _] => destruct c end;
  reflexivity.

Lemma mem_brk_fl_remove st x : mem_brk (fl_remove st x) = mem_brk st.
Proof. unfold fl_remove. fields. Qed.

Lemma mem_brk_fl_insert st x : mem_brk (fl_insert st x) = mem_brk st.
Proof. unfold fl_insert. fields. Qed.

Lemma mem_brk_set_next_prev_alloc st x pa :
  mem_brk (set_next_prev_alloc st x pa) = mem_brk st.
Proof. unfold set_next_prev_alloc. fields. Qed.

Ltac bk :=
  repeat first
    [ rewrite mem_brk_fl_insert
    | rewrite mem_brk_set_next_prev_alloc
    | rewrite mem_brk_fl_remove
    | progress (unfold write_footer, write_header, set_prev, set_next, store,
                set_mem, set_freelist_start, set_heap_start;
                cbn [mem_brk fst snd]) ];
  try reflexivity.

Lemma mem_brk_coalesce st a : mem_brk (fst (coalesce st a)) = mem_brk st.
Proof.
  unfold coalesce.
  repeat match goal with |- context [if ?c then _ else _] => destruct c end; bk.
Qed.

Lemma mem_brk_place st b asize : mem_brk (place st b asize) = mem_brk st.
Proof.
  unfold place. destruct (_ >=? _).
  - rewrite mem_brk_coalesce. bk.
  - bk.
Qed.

Lemma mem_brk_free st p : mem_brk (free st p) = mem_brk st.
Proof.
  unfold free. destruct (_ =? _); [reflexivity|].
  rewrite mem_brk_coalesce. unfold free_mark. bk.
Qed.

Lemma mem_brk_extend_heap st size :
  mem_brk st + round_up size dsize <= mem_max_addr st ->
  mem_brk (fst (extend_heap st size)) = mem_brk st + round_up size dsize.
Proof.
  intros H. unfold extend_heap, mem_sbrk.
  destruct (Z.leb_spec (mem_brk st + round_up size dsize) (mem_max_addr st)); [|lia].
  rewrite mem_brk_coalesce. bk.
Qed.

Lemma heap_start_fl_remove st x : heap_start (fl_remove st x) = heap_start st.
Proof. unfold fl_remove. fields. Qed.

Lemma heap_start_fl_insert st x : heap_start (fl_insert st x) = heap_start st.
Proof. unfold fl_insert. fields. Qed.

Lemma heap_start_set_next_prev_alloc st x pa :
  heap_start (set_next_prev_alloc st x pa) = heap_start st.
Proof. unfold set_next_prev_alloc. fields. Qed.

Ltac hs :=
  repeat first
    [ rewrite heap_start_fl_insert
    | rewrite heap_start_set_next_prev_alloc
    | rewrite heap_start_fl_remove
    | progress (unfold write_footer, write_header, set_prev, set_next, store,
                set_mem, set_freelist_start, set_brk;
                cbn [heap_start fst snd]) ];
  try reflexivity.

Lemma heap_start_coalesce st a : heap_start (fst (coalesce st a)) = heap_start st.
Proof.
  unfold coalesce.
  repeat match goal with |- context [if ?c then _ else _] => destruct c end; hs.
Qed.

Lemma heap_start_extend_heap st size :
  heap_start (fst (extend_heap st size)) = heap_start st.
Proof.
  unfold extend_heap, mem_sbrk.
  destruct (_ <=? _); [|reflexivity].
  rewrite heap_start_coalesce. hs.
Qed.

(** * [round_up] *)

Lemma round_up_bounds size n :
  0 < n -> 0 <= size -> size + n <= word_max ->
  round_up size n mod n = 0 /\
  size <= round_up size n < size + n /\
  (size mod n = 0 -> round_up size n = size).
Proof.
  intros Hn Hs Hb. pose proof word_max_val as Hwm.
  unfold round_up.
  rewrite (wrap_small (size + (n - 1))) by lia.
  assert (Hq : 0 <= n * ((size + (n - 1)) / n) <= size + (n - 1)).
  { split; [apply Z.mul_nonneg_nonneg; [lia|apply Z.div_pos; lia]|].
    apply Z.mul_div_le. lia. }
  rewrite wrap_small by lia.
  pose proof (Z.mod_pos_bound (size + (n - 1)) n Hn) as Hm.
  pose proof (Z.div_mod (size + (n - 1)) n ltac:(lia)) as Hdm.
  split; [|split].
  - rewrite Z.mul_comm. apply Z.mod_mul. lia.
  - lia.
  - intros Hsm.
    assert (E : size = n * (size / n)).
    { pose proof (Z.div_mod size n ltac:(lia)). lia. }
    assert (Ed : (size + (n - 1)) / n = size / n).
    { rewrite E at 1. rewrite Z.mul_comm, Z.div_add_l by lia.
      rewrite (Z.div_small (n - 1) n) by lia. lia. }
    rewrite Ed. lia.
Qed.

(** X10: when [size + n] does not exceed [2^64], [round_up size n] is
    the least multiple of [n] that is at least [size]; in particular a
    multiple of [n] is left alone. *)
Theorem round_up_spec size n :
  0 < n -> 0 <= size -> size + n <= word_max ->
  round_up size n mod n = 0 /\
  size <= round_up size n < size + n /\
  (size mod n = 0 -> round_up size n = size).
Proof. exact (round_up_bounds size n). Qed.

Lemma round_up_spec_witness :
  round_up 100 16 mod 16 = 0 /\
  100 <= round_up 100 16 < 100 + 16 /\
  (100 mod 16 = 0 -> round_up 100 16 = 100).
Proof.
  refine (round_up_spec 100 16 _ _ _).
  - lia.
  - lia.
  - vm_compute. discriminate.
Defined.

(** * Walking the heap in both directions *)

Lemma seg_adjacent_addr st bs lo pa hi b c :
  seg st lo pa bs hi -> adjacent b c bs -> baddr c = baddr b + bsize b.
Proof.
  intros H (la & lb & ->). apply seg_app in H. destruct H as (mid & _ & H).
  cbn in H. destruct H as (Eb & _ & Ec & _). lia.
Qed.

(** X11: on a well-formed heap [find_next] leads from a block to its
    physical successor, and [find_prev] leads back whenever the block
    left behind is free (an allocated block has no footer to read). *)
Theorem find_prev_inverts_find_next st bs fl b c :
  heap_rep st bs fl -> adjacent b c bs ->
  find_next st (baddr b) = baddr c /\
  (balloc b = false -> find_prev st (baddr c) = baddr b).
Proof.
  intros H Ha. pose proof word_max_val as Hwm.
  pose proof (rep_seg _ _ _ H) as Hseg.
  pose proof (seg_adjacent_addr _ _ _ _ _ _ _ Hseg Ha) as Ec.
  destruct (adjacent_in _ _ _ Ha) as (Hb & Hc).
  destruct (heap_rep_block_reads _ _ _ _ H Hb) as (Egs & _ & Hs32 & Hsm).
  destruct (seg_in _ _ _ _ _ _ Hseg Hb) as (B1 & B2 & _).
  pose proof (rep_brk _ _ _ H). pose proof (rep_start _ _ _ H).
  rewrite min_block_size_val in Hs32.
  split.
  - unfold find_next. rewrite Egs. lia.
  - intros Hf. destruct (seg_header _ _ _ _ _ _ Hseg Hb) as (pb & _ & Hft).
    destruct (Hft Hf) as (_ & Hfoot).
    rewrite (find_prev_footer_hdr st (baddr c) (bsize b) true false); try lia.
    rewrite Ec. replace (baddr b + bsize b - 8) with (baddr b + bsize b - 8) by lia.
    exact Hfoot.
Qed.

Lemma find_prev_inverts_find_next_witness :
  find_next neighbours_state 24 = 136 /\
  (false = false -> find_prev neighbours_state 136 = 24).
Proof.
  refine (find_prev_inverts_find_next neighbours_state _ _
            (mkBlock 24 112 false) (mkBlock 136 112 true) neighbours_rep _).
  exists [], [mkBlock 248 3872 false]. reflexivity.
Defined.

(** * When [malloc] fails *)

Lemma heap_rep_initialised st bs fl : heap_rep st bs fl -> (heap_start st =? NULL) = false.
Proof.
  intros H. pose proof (rep_start _ _ _ H). apply Z.eqb_neq. unfold NULL. lia.
Qed.

(** X12: on a well-formed heap a [malloc] of a non-zero size returns
    NULL exactly when the fit search found nothing and the heap cannot
    grow by [max(asize, chunksize)] bytes; the state is then the one it
    was called in. *)
Theorem malloc_fails_only_when_out_of_memory fuel st bs fl size st' p :
  heap_rep st bs fl -> 0 < size < word_max ->
  malloc fuel st size = Some (st', p) ->
  (p = NULL <->
   find_fit fuel st (adjust_size size) = Some NULL /\
   mem_max_addr st < mem_brk st + max (adjust_size size) chunksize) /\
  (p = NULL -> st' = st).
Proof.
  intros Hrep Hs Hm. pose proof word_max_val as Hwm.
  pose proof (malloc_correct fuel st bs fl size Hrep ltac:(lia)) as Hc.
  rewrite Hm in Hc.
  split; [|intros ->; destruct Hc as [(_ & E)|(F & _)]; [exact E|now destruct F]].
  clear Hc. unfold malloc in Hm. rewrite (heap_rep_initialised _ _ _ Hrep) in Hm.
  destruct (Z.eqb_spec size 0); [lia|].
  destruct (adjust_size_ok size ltac:(lia)) as (A1 & A2 & A3).
  destruct (max_ok _ A1 A2) as (M1 & M2 & M3 & M4).
  assert (M5 : max (adjust_size size) chunksize + 16 <= word_max).
  { destruct M4 as [->| ->]; [exact A3|]. rewrite Hwm. cbn. lia. }
  destruct (find_fit fuel st (adjust_size size)) as [r|] eqn:Ef; [|discriminate].
  destruct (Z.eqb_spec r NULL) as [->|Hr].
  - destruct (extend_heap_correct st bs fl _ Hrep M1 M2 M5)
      as [(Hfull & E)|(Hroom & l1' & m & fl' & Hrep' & Hsnd & _)].
    + rewrite E in Hm. cbn in Hm. injection Hm as <- <-.
      split; [auto|reflexivity].
    + destruct (extend_heap st _) as [st1 blk]. cbn [fst snd] in *.
      assert (Hin : In m (l1' ++ [m])) by (apply in_or_app; right; now left).
      pose proof (seg_in _ _ _ _ _ _ (rep_seg _ _ _ Hrep') Hin) as (B1 & _).
      pose proof (rep_start _ _ _ Hrep').
      destruct (Z.eqb_spec blk NULL) as [E0|_]; [unfold NULL in E0; lia|].
      injection Hm as <- <-. unfold header_to_payload, NULL.
      split; [lia|]. intros (_ & F). lia.
  - injection Hm as <- <-.
    pose proof (dlseg_fl_walk _ _ _ _ (rep_dl _ _ _ Hrep)) as Hw.
    destruct (find_fit_result _ _ _ _ _ Hw Ef) as [?|(Hin & _)]; [contradiction|].
    pose proof (heap_rep_node_range _ _ _ _ Hrep Hin).
    unfold header_to_payload, NULL.
    split; [lia|]. intros (F & _). unfold NULL in *. congruence.
Qed.

Lemma malloc_fails_only_when_out_of_memory_witness :
  (NULL = NULL <->
   find_fit 100 full_state (adjust_size 5000) = Some NULL /\
   mem_max_addr full_state < mem_brk full_state + max (adjust_size 5000) chunksize) /\
  (NULL = NULL -> full_state = full_state).
Proof.
  refine (malloc_fails_only_when_out_of_memory 100 full_state
            [mkBlock 24 4096 true] [] 5000 full_state NULL _ _ _).
  - rep_facts. apply Permutation_refl.
  - vm_compute. split; reflexivity.
  - vm_compute. reflexivity.
Defined.

(** * Memory released by [free] is used again *)

Lemma find_fit_loop_nonnull st asize : forall fuel block best i r,
  best <> NULL -> find_fit_loop fuel st asize block best i = Some r -> r <> NULL.
Proof.
  induction fuel as [|fuel IH]; intros block best i r Hb Hr; [discriminate|].
  cbn [find_fit_loop] in Hr.
  destruct (Z.eqb_spec block 0) as [|Hn]; cbn [negb andb] in Hr;
    [injection Hr as <-; exact Hb|].
  destruct (i <? 50); [|injection Hr as <-; exact Hb].
  destruct (asize =? get_size st block); [injection Hr as <-; exact Hn|].
  destruct (asize <? get_size st block); [|exact (IH _ _ _ _ Hb Hr)].
  refine (IH _ _ _ _ _ Hr).
  destruct (i =? 0); [exact Hn|].
  destruct (get_size st block <? get_size st best); assumption.
Qed.

Lemma find_fit_head_fits st fuel asize r :
  freelist_start st <> NULL -> asize <= get_size st (freelist_start st) ->
  find_fit fuel st asize = Some r -> r <> NULL.
Proof.
  intros Hh Hs Hr. unfold find_fit in Hr.
  destruct fuel as [|fuel]; [discriminate|]. cbn [find_fit_loop] in Hr.
  destruct (Z.eqb_spec (freelist_start st) 0) as [|_]; [contradiction|].
  cbn [negb andb Z.ltb Z.compare] in Hr.
  destruct (Z.eqb_spec asize (get_size st (freelist_start st)));
    [injection Hr as <-; exact Hh|].
  destruct (Z.ltb_spec asize (get_size st (freelist_start st))); [|lia].
  cbn [Z.eqb] in Hr. exact (find_fit_loop_nonnull _ _ _ _ _ _ _ Hh Hr).
Qed.

Lemma adjust_size_within size S :
  0 < size -> size + 8 <= S -> min_block_size <= S -> S mod 16 = 0 ->
  S + 16 <= word_max -> adjust_size size <= S.
Proof.
  intros H0 Hs H32 Hm Hb. pose proof word_max_val as Hwm.
  rewrite min_block_size_val in H32.
  unfold adjust_size, wsize, dsize. rewrite min_block_size_val.
  rewrite (wrap_small (size + 8)) by lia.
  destruct (round_up_bounds (size + 8) (2 * 8) ltac:(lia) ltac:(lia) ltac:(lia))
    as (R1 & R2 & _).
  destruct (Z.ltb_spec (round_up (size + 8) (2 * 8)) 32); [lia|].
  change (2 * 8) with 16 in *.
  revert R1 R2 Hm. generalize (round_up (size + 8) 16). intros r R1 R2 Hm.
  Z.div_mod_to_equations. lia.
Qed.

(** X13: after [free] of a live pointer, a [malloc] of any size up to
    the payload size of the released block succeeds without moving the
    break: the released block sits at the head of the free list and the
    fit search cannot miss it. *)
Theorem malloc_after_free_reuses_memory fuel st live p size :
  run_inv st live -> In p live ->
  0 < size <= get_payload_size st (payload_to_header p) ->
  match malloc fuel (free st p) size with
  | Some (st', q) => q <> NULL /\ mem_brk st' = mem_brk st
  | None => (fuel <= Z.to_nat (mem_max_addr st / 32))%nat
  end.
Proof.
  intros (bs & fl & Hrep & Hperm) Hp Hs. pose proof word_max_val as Hwm.
  apply (Permutation_in _ Hperm) in Hp. apply in_live_ptrs in Hp.
  destruct Hp as (b & Hb & Ha & ->).
  destruct (heap_rep_block_reads _ _ _ _ Hrep Hb) as (Egs & Eal & _).
  destruct (in_split _ _ Hb) as (l1 & l2 & ->).
  destruct (heap_rep_split _ _ _ _ _ Hrep Ha) as (H & Hh & Hs32 & Hsm).
  destruct (hole_arith _ _ _ _ _ _ _ H) as (A1 & A2 & A3 & A4 & A5 & A6).
  pose proof (free_mark_pre _ _ _ _ _ _ H Hh Hs32 Hsm) as PC.
  destruct (coalesce_correct _ _ _ _ _ _ _ PC)
    as (l1' & m & l2' & fl' & Hmc & Hrep' & _ & Hm & Hfs & Hhm & _).
  destruct (merge_case_size _ _ _ _ _ _ _ _ _ _ _ PC Hmc) as (Hsz & _).
  assert (Ef : free st (header_to_payload (baddr b)) =
               fst (coalesce (free_mark st (baddr b)) (baddr b))).
  { unfold free, header_to_payload, payload_to_header, NULL.
    destruct (Z.eqb_spec (baddr b + 8) 0) as [|_]; [lia|].
    replace (baddr b + 8 - 8) with (baddr b) by lia. reflexivity. }
  rewrite <- Ef in *. set (st1 := free st (header_to_payload (baddr b))) in *.
  assert (Hmin : In m (l1' ++ m :: l2')) by (apply in_or_app; right; now left).
  destruct (heap_rep_block_reads _ _ _ _ Hrep' Hmin) as (Egm & _ & Hm32 & Hmm).
  destruct (seg_in _ _ _ _ _ _ (rep_seg _ _ _ Hrep') Hmin) as (M1 & M2 & _).
  pose proof (rep_start _ _ _ Hrep') as R1. pose proof (rep_brk _ _ _ Hrep') as R2.
  unfold get_payload_size, header_to_payload, payload_to_header in Hs.
  replace (baddr b + 8 - 8) with (baddr b) in Hs by lia.
  rewrite Egs, Eal, Ha in Hs. unfold wsize in Hs.
  rewrite min_block_size_val in *.
  rewrite wrap_small in Hs by lia.
  assert (Hfit : adjust_size size <= bsize m).
  { apply (Z.le_trans _ (bsize b)); [|exact Hsz].
    apply adjust_size_within; rewrite ?min_block_size_val; lia. }
  pose proof (malloc_correct fuel st1 _ _ size Hrep' ltac:(lia)) as Hc.
  pose proof (heap_rep_list_length _ _ _ Hrep') as Hl.
  assert (Emax : mem_max_addr st1 = mem_max_addr st) by apply mem_max_addr_free.
  assert (Ebrk : mem_brk st1 = mem_brk st) by apply mem_brk_free.
  rewrite Emax in Hl.
  destruct (malloc fuel st1 size) as [[st' q]|] eqn:Em; [|lia].
  clear Hc. unfold malloc in Em. rewrite (heap_rep_initialised _ _ _ Hrep') in Em.
  destruct (Z.eqb_spec size 0); [lia|].
  destruct (find_fit fuel st1 (adjust_size size)) as [r|] eqn:Er; [|discriminate].
  assert (Hr : r <> NULL).
  { apply (find_fit_head_fits st1 fuel (adjust_size size) r); [| |exact Er].
    - rewrite Hfs. unfold NULL. lia.
    - rewrite Hfs, Egm. exact Hfit. }
  destruct (Z.eqb_spec r NULL); [contradiction|].
  injection Em as <- <-.
  pose proof (dlseg_fl_walk _ _ _ _ (rep_dl _ _ _ Hrep')) as Hw.
  destruct (find_fit_result _ _ _ _ _ Hw Er) as [?|(Hin & _)]; [contradiction|].
  pose proof (heap_rep_node_range _ _ _ _ Hrep' Hin).
  split; [unfold header_to_payload, NULL; lia|].
  rewrite mem_brk_place. exact Ebrk.
Qed.

Lemma malloc_after_free_reuses_memory_witness :
  match malloc 100 (free one_block_state 32) 50 with
  | Some (st', q) => q <> NULL /\ mem_brk st' = mem_brk one_block_state
  | None => (100 <= Z.to_nat (mem_max_addr one_block_state / 32))%nat
  end.
Proof.
  refine (malloc_after_free_reuses_memory 100 one_block_state [32] 32 50
            one_block_inv _ _).
  - now left.
  - vm_compute. split; [reflexivity|discriminate].
Defined.

(** * [mm_init] *)

Lemma mm_init_empty_heap st0 :
  0 <= mem_brk st0 -> mem_max_addr st0 < word_max ->
  mem_brk st0 + 16 <= mem_max_addr st0 ->
  heap_rep
    (set_freelist_start
       (set_heap_start
          (store (store (set_brk st0 (mem_brk st0 + 2 * wsize))
                        (mem_brk st0) (pack 0 true true))
                 (mem_brk st0 + 8) (pack 0 true true))
          (mem_brk st0 + 8)) NULL) [] [].
Proof.
  intros Hb Hm Hfit. set (start := mem_brk st0) in *.
  pose proof word_max_val as Hwm.
  assert (Hp : pack 0 true true = hdr 0 true true) by reflexivity.
  assert (Hr : 0 <= hdr 0 true true < word_max) by (rewrite Hwm; cbn; lia).
  constructor.
  - cbn. lia.
  - cbn. unfold wsize. lia.
  - cbn [heap_start set_freelist_start set_heap_start].
    replace (start + 8 - 8) with start by lia.
    rewrite load_set_freelist_start.
    change (load (set_heap_start ?s ?h) ?a) with (load s a).
    rewrite load_store_other by lia. rewrite Hp. apply load_store_same. exact Hr.
  - cbn. unfold wsize. lia.
  - cbn [mem_brk set_freelist_start set_heap_start store set_mem set_brk].
    unfold wsize. replace (start + 2 * 8 - 8) with (start + 8) by lia.
    rewrite load_set_freelist_start.
    change (load (set_heap_start ?s ?h) ?a) with (load s a).
    rewrite Hp. apply load_store_same. exact Hr.
  - reflexivity.
  - constructor.
Qed.

Lemma seg_all_free_short st : forall bs lo pa hi,
  seg st lo pa bs hi -> (forall b, In b bs -> balloc b = false) ->
  (length bs <= 1)%nat.
Proof.
  intros [|b [|c rest]] lo pa hi H Hf; cbn; try lia.
  cbn in H. destruct H as (_ & _ & _ & (_ & _ & Hc) & _).
  rewrite (Hf c) in Hc by (cbn; tauto).
  rewrite (Hf b) in Hc by (cbn; tauto). destruct Hc as (F & _). discriminate.
Qed.

Lemma live_ptrs_nil_all_free bs :
  live_ptrs bs = [] -> forall b, In b bs -> balloc b = false.
Proof.
  unfold live_ptrs. intros E b Hb.
  destruct (balloc b) eqn:Ha; [|reflexivity].
  assert (Hin : In b (filter balloc bs)) by (apply filter_In; auto).
  apply map_eq_nil in E. rewrite E in Hin. destruct Hin.
Qed.

(** X14: [mm_init] succeeds exactly when the break can advance by 16
    bytes plus one chunk; the heap it leaves starts 8 bytes behind the
    old break and consists of one free block of [chunksize] bytes,
    which is the only node of the free list. *)
Theorem mm_init_spec st0 :
  0 <= mem_brk st0 -> mem_max_addr st0 < word_max ->
  (fst (mm_init st0) = true <->
   mem_brk st0 + 16 + chunksize <= mem_max_addr st0) /\
  (fst (mm_init st0) = true ->
   let st := snd (mm_init st0) in
   heap_start st = mem_brk st0 + 8 /\
   mem_brk st = mem_brk st0 + 16 + chunksize /\
   heap_rep st [mkBlock (mem_brk st0 + 8) chunksize false] [mem_brk st0 + 8]).
Proof.
  intros Hb Hm. pose proof word_max_val as Hwm.
  assert (C0 : chunksize = 4096) by reflexivity.
  unfold mm_init, mem_sbrk.
  destruct (Z.leb_spec (mem_brk st0 + 2 * wsize) (mem_max_addr st0)) as [Hfit|Hno];
    unfold wsize in *.
  2:{ cbn. split; [split; [discriminate|lia]|discriminate]. }
  pose proof (mm_init_empty_heap st0 Hb Hm ltac:(lia)) as Hrep.
  unfold wsize in Hrep.
  set (st4 := set_freelist_start _ NULL) in *.
  assert (E4b : mem_brk st4 = mem_brk st0 + 16) by (cbn; lia).
  assert (E4m : mem_max_addr st4 = mem_max_addr st0) by reflexivity.
  assert (E4h : heap_start st4 = mem_brk st0 + 8) by reflexivity.
  assert (C1 : min_block_size <= chunksize) by (cbn; lia).
  assert (C2 : chunksize mod 16 = 0) by reflexivity.
  assert (C3 : chunksize + 16 <= word_max) by (rewrite Hwm; cbn; lia).
  pose proof (heap_start_extend_heap st4 chunksize) as Ehs.
  pose proof (mem_brk_extend_heap st4 chunksize) as Ebk.
  assert (C4 : 0 <= chunksize) by (rewrite C0; lia).
  rewrite (round_up_aligned chunksize C4 C2 C3) in Ebk.
  destruct (extend_heap_correct st4 [] [] chunksize Hrep C1 C2 C3)
    as [(Hfull & E)|(Hroom & l1' & m & fl' & Hrep' & Hsnd & Hmf & Hsz & Hlive)].
  - rewrite E. cbn. split; [split; [discriminate|lia]|discriminate].
  - destruct (extend_heap st4 chunksize) as [st5 blk]. cbn [fst snd] in *.
    assert (Hin : In m (l1' ++ [m])) by (apply in_or_app; right; now left).
    pose proof (rep_seg _ _ _ Hrep') as Hseg.
    pose proof (seg_in _ _ _ _ _ _ Hseg Hin) as (B1 & _).
    pose proof (rep_start _ _ _ Hrep').
    destruct (Z.eqb_spec blk NULL) as [E0|_]; [unfold NULL in E0; lia|]. cbn [fst snd].
    split; [split; [lia|reflexivity]|]. intros _.
    specialize (Ebk ltac:(lia)).
    pose proof (seg_all_free_short _ _ _ _ _ Hseg (live_ptrs_nil_all_free _ Hlive)) as Hlen.
    destruct l1' as [|x l1']; [|rewrite length_app in Hlen; cbn in Hlen; lia].
    cbn [app] in *. cbn [seg] in Hseg. destruct Hseg as (Ea & _ & Ee).
    pose proof (Permutation_length (rep_perm _ _ _ Hrep')) as Hpl.
    rewrite (free_addrs_cons_free m [] Hmf) in Hpl. cbn in Hpl.
    destruct fl' as [|? ?]; [|cbn in Hpl; lia].
    assert (Em : m = mkBlock (mem_brk st0 + 8) chunksize false).
    { destruct m as [ma ms mal]. cbn [baddr bsize balloc] in *.
      f_equal; try lia; assumption. }
    split; [lia|]. split; [lia|].
    rewrite <- Em. replace (mem_brk st0 + 8) with (baddr m) by (rewrite Em; reflexivity).
    exact Hrep'.
Qed.

Lemma mm_init_spec_witness :
  (fst (mm_init fresh_state) = true <->
   mem_brk fresh_state + 16 + chunksize <= mem_max_addr fresh_state) /\
  (fst (mm_init fresh_state) = true ->
   let st := snd (mm_init fresh_state) in
   heap_start st = mem_brk fresh_state + 8 /\
   mem_brk st = mem_brk fresh_state + 16 + chunksize /\
   heap_rep st [mkBlock (mem_brk fresh_state + 8) chunksize false]
            [mem_brk fresh_state + 8]).
Proof.
  refine (mm_init_spec fresh_state _ _).
  - vm_compute. discriminate.
  - vm_compute. reflexivity.
Defined.

(** * [set_next_prev_alloc] and [extend_heap] *)

(** X15: [set_next_prev_alloc] rewrites the header of the physical
    successor with the same size and the given [prev_alloc] bit, and
    the footer too when the successor is free.  The alloc bit is kept
    except in one case: with [prev_alloc = false] on a free successor
    the header comes out marked allocated (and no footer is written).
    No other byte of memory changes: outside the header word nothing
    does, except the footer word in the one case where it is written
    (a free successor and [prev_alloc = true]). *)
Theorem set_next_prev_alloc_spec st block S pb al pa :
  load st (find_next st block) = hdr S pb al ->
  0 <= S -> S mod 16 = 0 -> S + 16 <= word_max -> (al = false -> 16 <= S) ->
  let nb := find_next st block in
  let st' := set_next_prev_alloc st block pa in
  load st' nb = hdr S pa (al || negb pa) /\
  (al = false -> pa = true -> load st' (nb + S - 8) = hdr S true false) /\
  (forall x, x < nb \/ nb + 8 <= x ->
             (al = false -> pa = true -> x < nb + S - 8 \/ nb + S <= x) ->
             mem st' x = mem st x) /\
  mem_brk st' = mem_brk st /\ mem_max_addr st' = mem_max_addr st /\
  heap_start st' = heap_start st /\ freelist_start st' = freelist_start st.
Proof.
  intros Hh H0 Hm Hb Hfoot. cbn zeta. pose proof word_max_val as Hwm.
  unfold set_next_prev_alloc. set (nb := find_next st block) in *.
  rewrite (get_size_hdr _ _ _ _ _ Hh), (get_alloc_hdr _ _ _ _ _ Hh) by assumption.
  rewrite pack_hdr by assumption.
  set (st1 := store st nb (hdr S pa (al || negb pa))).
  assert (Hr : forall a b, 0 <= hdr S a b < word_max) by (intros; apply hdr_range; lia).
  assert (E1 : load st1 nb = hdr S pa (al || negb pa)) by (apply load_store_same; apply Hr).
  rewrite (get_alloc_hdr _ _ _ _ _ E1), (get_size_hdr _ _ _ _ _ E1) by assumption.
  destruct (al || negb pa) eqn:Eb; cbn [negb].
  - split; [exact E1|]. split; [|split].
    + intros -> ->. discriminate.
    + intros x Hx _. unfold st1. apply mem_store_outside. exact Hx.
    + repeat split.
  - destruct al; [discriminate|]. destruct pa; [|discriminate].
    specialize (Hfoot eq_refl).
    unfold write_footer. rewrite (get_size_hdr _ _ _ _ _ E1) by assumption.
    rewrite pack_hdr by assumption. cbn [orb negb]. unfold dsize.
    replace (nb + 8 + S - 2 * 8) with (nb + S - 8) by lia.
    split; [|split; [|split]].
    + rewrite load_store_other by lia. exact E1.
    + intros _ _. apply load_store_same. apply Hr.
    + intros x Hx1 Hx2. specialize (Hx2 eq_refl eq_refl).
      rewrite mem_store_outside by lia. unfold st1.
      apply mem_store_outside. exact Hx1.
    + repeat split.
Qed.

Lemma set_next_prev_alloc_spec_witness :
  let nb := find_next neighbours_state 24 in
  let st' := set_next_prev_alloc neighbours_state 24 true in
  load st' nb = hdr 112 true (true || negb true) /\
  (true = false -> true = true -> load st' (nb + 112 - 8) = hdr 112 true false) /\
  (forall x, x < nb \/ nb + 8 <= x ->
             (true = false -> true = true -> x < nb + 112 - 8 \/ nb + 112 <= x) ->
             mem st' x = mem neighbours_state x) /\
  mem_brk st' = mem_brk neighbours_state /\
  mem_max_addr st' = mem_max_addr neighbours_state /\
  heap_start st' = heap_start neighbours_state /\
  freelist_start st' = freelist_start neighbours_state.
Proof.
  refine (set_next_prev_alloc_spec neighbours_state 24 112 false true true _ _ _ _ _).
  - vm_compute. reflexivity.
  - lia.
  - reflexivity.
  - vm_compute. discriminate.
  - discriminate.
Defined.

(** X16: on a well-formed heap, [extend_heap] of an aligned size either
    fails, returning NULL and leaving the state alone, when the break
    cannot advance by [size]; or it advances the break by exactly
    [size] and returns a free block that ends at the new epilogue,
    begins no later than the old one (a free last block is merged in)
    and holds at least [size] bytes, in a heap that is well formed
    again with the same allocated blocks. *)
Theorem extend_heap_spec st bs fl size :
  heap_rep st bs fl ->
  min_block_size <= size -> size mod 16 = 0 -> size + 16 <= word_max ->
  if mem_brk st + size <=? mem_max_addr st then
    let st' := fst (extend_heap st size) in
    let blk := snd (extend_heap st size) in
    mem_brk st' = mem_brk st + size /\
    get_alloc st' blk = false /\ size <= get_size st' blk /\
    blk <= mem_brk st - 8 /\ find_next st' blk = mem_brk st' - 8 /\
    heap_invariants st' /\
    exists bs' fl', heap_rep st' bs' fl' /\ live_ptrs bs' = live_ptrs bs
  else extend_heap st size = (st, NULL).
Proof.
  intros Hrep H32 Hm Hb. pose proof word_max_val as Hwm.
  rewrite min_block_size_val in H32.
  pose proof (mem_brk_extend_heap st size) as Ebk.
  rewrite (round_up_aligned size) in Ebk by (assumption || lia).
  destruct (extend_heap_correct st bs fl size Hrep ltac:(rewrite min_block_size_val; lia)
              Hm Hb)
    as [(Hfull & E)|(Hroom & l1' & m & fl' & Hrep' & Hsnd & Hmf & Hsz & Hlive)].
  - destruct (Z.leb_spec (mem_brk st + size) (mem_max_addr st)); [lia|exact E].
  - destruct (Z.leb_spec (mem_brk st + size) (mem_max_addr st)); [|lia].
    cbn zeta. specialize (Ebk Hroom). rewrite Hsnd.
    assert (Hin : In m (l1' ++ [m])) by (apply in_or_app; right; now left).
    destruct (heap_rep_block_reads _ _ _ _ Hrep' Hin) as (Egs & Eal & _).
    pose proof (rep_seg _ _ _ Hrep') as Hseg. apply seg_app in Hseg.
    destruct Hseg as (mid & _ & Hseg). cbn in Hseg. destruct Hseg as (Ea & _ & Ee).
    unfold find_next. rewrite Egs, Eal.
    split; [exact Ebk|]. split; [exact Hmf|]. split; [exact Hsz|].
    split; [lia|]. split; [lia|].
    split; [exact (heap_rep_invariants _ _ _ Hrep')|].
    exists (l1' ++ [m]), (baddr m :: fl'). split; [exact Hrep'|exact Hlive].
Qed.

Lemma extend_heap_spec_witness :
  if mem_brk one_block_state + 4096 <=? mem_max_addr one_block_state then
    let st' := fst (extend_heap one_block_state 4096) in
    let blk := snd (extend_heap one_block_state 4096) in
    mem_brk st' = mem_brk one_block_state + 4096 /\
    get_alloc st' blk = false /\ 4096 <= get_size st' blk /\
    blk <= mem_brk one_block_state - 8 /\ find_next st' blk = mem_brk st' - 8 /\
    heap_invariants st' /\
    exists bs' fl', heap_rep st' bs' fl' /\
      live_ptrs bs' = live_ptrs [mkBlock 24 112 true; mkBlock 136 3984 false]
  else extend_heap one_block_state 4096 = (one_block_state, NULL).
Proof.
  refine (extend_heap_spec one_block_state _ [136] 4096 one_block_rep _ _ _).
  - vm_compute. discriminate.
  - reflexivity.
  - vm_compute. discriminate.
Defined.

(** * The contents of live blocks *)

Lemma free_mark_keeps st l1 a s l2 fl :
  hole st l1 a s true l2 fl ->
  load st a = hdr s (last_alloc true l1) true ->
  min_block_size <= s -> s mod 16 = 0 ->
  keeps (l1 ++ l2) st (free_mark st a).
Proof.
  intros H Hh Hs32 Hsm.
  destruct (hole_arith _ _ _ _ _ _ _ H) as (A1 & A2 & A3 & A4 & A5 & A6).
  rewrite min_block_size_val in Hs32. pose proof word_max_val as Hwm.
  set (pa := last_alloc true l1) in *.
  assert (Hr : 0 <= pack s pa false < word_max) by (apply pack_range; lia).
  unfold free_mark.
  rewrite (get_size_hdr _ _ _ _ _ Hh), (get_prev_alloc_hdr _ _ _ _ _ Hh) by lia.
  unfold write_header. set (st1 := store st a (pack s pa false)).
  assert (E1 : load st1 a = pack s pa false) by (apply load_store_same; exact Hr).
  unfold write_footer, dsize.
  rewrite (get_size_pack _ _ _ _ _ E1), (get_prev_alloc_pack _ _ _ _ _ E1) by lia.
  replace (a + 8 + s - 2 * 8) with (a + s - 8) by lia.
  unfold set_prev, set_next, NULL.
  intros x Hx. pose proof (hole_payload_gap _ _ _ _ _ _ _ _ H Hx).
  unfold st1. rewrite !mem_store_outside by lia. reflexivity.
Qed.

Lemma free_keeps st l1 b l2 fl :
  heap_rep st (l1 ++ b :: l2) fl -> balloc b = true ->
  keeps (l1 ++ l2) st (free st (header_to_payload (baddr b))).
Proof.
  intros Hrep Hb.
  destruct (heap_rep_split _ _ _ _ _ Hrep Hb) as (H & Hh & Hs32 & Hsm).
  destruct (hole_arith _ _ _ _ _ _ _ H) as (A1 & A2 & A3 & A4 & A5 & A6).
  pose proof (free_mark_pre _ _ _ _ _ _ H Hh Hs32 Hsm) as PC.
  unfold free, header_to_payload, payload_to_header, NULL.
  destruct (Z.eqb_spec (baddr b + 8) 0) as [|_]; [lia|].
  replace (baddr b + 8 - 8) with (baddr b) by lia.
  apply (keeps_trans _ _ (free_mark st (baddr b))).
  - exact (free_mark_keeps _ _ _ _ _ _ H Hh Hs32 Hsm).
  - exact (coalesce_keeps _ _ _ _ _ _ _ PC).
Qed.

(** What a successful [malloc] leaves: the payloads of the blocks that
    were allocated before are untouched, these blocks are still there,
    and the new block is less than [min_block_size] bytes larger than
    the adjusted request. *)
Lemma malloc_keeps fuel st bs fl size st' p :
  heap_rep st bs fl -> 0 <= size < word_max ->
  malloc fuel st size = Some (st', p) ->
  keeps bs st st' /\
  (p <> NULL ->
   exists l1 sA rest fl',
     heap_rep st' (l1 ++ mkBlock (payload_to_header p) sA true :: rest) fl' /\
     alloc_incl bs (l1 ++ rest) /\
     adjust_size size <= sA < adjust_size size + min_block_size /\
     sA mod 16 = 0 /\
     Permutation (live_ptrs (l1 ++ mkBlock (payload_to_header p) sA true :: rest))
                 (p :: live_ptrs bs)).
Proof.
  intros Hrep Hs Hm.
  pose proof (rep_start _ _ _ Hrep) as Hstart.
  destruct (adjust_size_ok size Hs) as (Ha32 & Ham & Hab).
  assert (H32 : 0 < min_block_size) by (rewrite min_block_size_val; lia).
  unfold malloc, NULL in *.
  destruct (Z.eqb_spec (heap_start st) 0) as [|_]; [lia|].
  destruct (Z.eqb_spec size 0) as [|Hnz].
  { injection Hm as <- <-. split; [apply keeps_refl|]. intros F. now destruct F. }
  pose proof (dlseg_fl_walk _ _ _ _ (rep_dl _ _ _ Hrep)) as Hw.
  destruct (find_fit fuel st (adjust_size size)) as [r|] eqn:Eff; [|discriminate].
  destruct (find_fit_result _ _ _ _ _ Hw Eff) as [->|(Hin & Hsz)].
  - (* no fit: grow the heap *)
    cbn [Z.eqb] in Hm.
    destruct (max_ok _ Ha32 Ham) as (M1 & M2 & M3 & M4).
    assert (M5 : max (adjust_size size) chunksize + 16 <= word_max).
    { destruct M4 as [->| ->]; [exact Hab|]. rewrite word_max_val. cbn. lia. }
    destruct (extend_heap_correct_keeps st bs fl _ Hrep M1 M2 M5)
      as [(_ & E)|(_ & l1' & m & fl' & Hrep' & Hsnd & Hmf & Hsz & Hlive & K1 & I1)].
    + rewrite E in Hm. cbn [Z.eqb] in Hm. injection Hm as <- <-.
      split; [apply keeps_refl|]. intros F. now destruct F.
    + destruct (extend_heap st (max (adjust_size size) chunksize)) as [st1 blk].
      cbn [fst snd] in *. subst blk.
      pose proof (rep_start _ _ _ Hrep') as Hstart'.
      assert (Hmin : In m (l1' ++ [m])) by (apply in_or_app; right; now left).
      destruct (seg_in _ _ _ _ _ _ (rep_seg _ _ _ Hrep') Hmin) as (B1 & _).
      destruct (Z.eqb_spec (baddr m) 0) as [|_]; [lia|].
      injection Hm as <- <-.
      unfold header_to_payload, payload_to_header.
      replace (baddr m + 8 - 8) with (baddr m) by lia.
      destruct (place_correct_keeps st1 l1' m [] (baddr m :: fl') (adjust_size size)
                  Hrep' Hmf Ha32 Ham)
        as (sA & rest & fl'' & Hrep'' & Hsa & Hsam & Hrest & K2 & I2 & Hx); [lia|].
      rewrite app_nil_r in K2.
      split.
      * apply (keeps_trans _ _ st1); [exact K1|].
        exact (keeps_incl _ _ _ _ I1 K2).
      * intros _. exists l1', sA, rest, fl''. split; [exact Hrep''|].
        split; [intros c Hc Hal; apply in_or_app; left; exact (I1 c Hc Hal)|].
        split; [lia|]. split; [exact Hsam|].
        rewrite live_ptrs_app, live_ptrs_cons_alloc by reflexivity.
        cbn [baddr]. rewrite Hrest. rewrite <- Hlive.
        rewrite live_ptrs_app, (live_ptrs_cons_free m) by exact Hmf.
        cbn. rewrite app_nil_r. apply Permutation_sym, Permutation_cons_append.
  - (* a fit on the free list *)
    destruct (heap_rep_free_block _ _ _ _ Hrep Hin) as (l1 & f & l2 & -> & Ef & Hf & Egs).
    pose proof (heap_rep_node_range _ _ _ _ Hrep Hin) as Rr.
    destruct (Z.eqb_spec r 0) as [|_]; [lia|].
    injection Hm as <- <-.
    unfold header_to_payload, payload_to_header.
    replace (r + 8 - 8) with r by lia. subst r.
    destruct (place_correct_keeps st l1 f l2 fl (adjust_size size) Hrep Hf Ha32 Ham)
      as (sA & rest & fl'' & Hrep'' & Hsa & Hsam & Hrest & K2 & I2 & Hx); [lia|].
    split.
    + apply (keeps_incl _ (l1 ++ l2)); [apply alloc_incl_drop_free; exact Hf|exact K2].
    + intros _. exists l1, sA, rest, fl''. split; [exact Hrep''|].
      split.
      { intros c Hc Hal. apply in_app_or in Hc. apply in_or_app.
        destruct Hc as [?|[<-|Hc]]; [now left|congruence|right; exact (I2 c Hc Hal)]. }
      split; [lia|]. split; [exact Hsam|].
      rewrite !live_ptrs_app, live_ptrs_cons_alloc by reflexivity.
      rewrite (live_ptrs_cons_free f) by exact Hf.
      cbn [baddr]. rewrite Hrest. apply Permutation_sym, Permutation_middle.
Qed.

Lemma live_payload st bs fl q :
  heap_rep st bs fl -> In q (live_ptrs bs) ->
  exists c, In c bs /\ balloc c = true /\ q = baddr c + 8 /\
            get_payload_size st (payload_to_header q) = bsize c - 8.
Proof.
  intros H Hq. pose proof word_max_val as Hwm.
  apply in_live_ptrs in Hq. destruct Hq as (c & Hc & Ha & ->).
  exists c. split; [exact Hc|]. split; [exact Ha|]. split; [reflexivity|].
  destruct (heap_rep_block_reads _ _ _ _ H Hc) as (Egs & Eal & H32 & _).
  destruct (seg_in _ _ _ _ _ _ (rep_seg _ _ _ H) Hc) as (B1 & B2 & _).
  pose proof (rep_start _ _ _ H). pose proof (rep_brk _ _ _ H).
  rewrite min_block_size_val in H32.
  unfold get_payload_size, header_to_payload, payload_to_header, wsize.
  replace (baddr c + 8 - 8) with (baddr c) by lia.
  rewrite Egs, Eal, Ha. apply wrap_small. lia.
Qed.

Lemma block_payload_size st bs fl c :
  heap_rep st bs fl -> In c bs -> balloc c = true ->
  get_payload_size st (payload_to_header (baddr c + 8)) = bsize c - 8.
Proof.
  intros H Hc Ha.
  assert (Hq : In (baddr c + 8) (live_ptrs bs)).
  { apply in_live_ptrs. exists c. auto. }
  destruct (live_payload _ _ _ _ H Hq) as (d & Hd & _ & Eq & Ep).
  assert (E : baddr d = baddr c) by lia.
  rewrite (seg_addr_inj _ _ _ _ _ _ _ (rep_seg _ _ _ H) Hd Hc E) in Ep. exact Ep.
Qed.

Lemma merge_case_alloc_incl l1 a s l2 fl l1' m l2' fl' :
  merge_case l1 a s l2 fl l1' m l2' fl' -> alloc_incl (l1 ++ l2) (l1' ++ l2').
Proof.
  unfold merge_case. intros Hmc.
  destruct (last_alloc true l1), (head_alloc l2).
  - destruct Hmc as (-> & _ & -> & _). apply alloc_incl_refl.
  - destruct Hmc as (n & la & lb & -> & Hn & -> & _).
    apply alloc_incl_drop_free. exact Hn.
  - destruct Hmc as (p & la & lb & -> & Hp & -> & _).
    rewrite <- app_assoc. apply alloc_incl_drop_free. exact Hp.
  - destruct Hmc as (p & n & la & lb & la2 & lb2 & -> & Hp & -> & Hn & _).
    eapply alloc_incl_trans; [apply alloc_incl_drop_free; exact Hn|].
    rewrite <- app_assoc. apply alloc_incl_drop_free. exact Hp.
Qed.

Lemma two_block_rep :
  heap_rep two_block_state
    [mkBlock 24 112 true; mkBlock 136 112 true; mkBlock 248 3872 false] [248].
Proof. rep_facts. apply Permutation_refl. Qed.

Lemma two_block_inv : run_inv two_block_state [144; 32].
Proof.
  exists [mkBlock 24 112 true; mkBlock 136 112 true; mkBlock 248 3872 false], [248].
  split; [exact two_block_rep|apply perm_swap].
Qed.

Lemma malloc_live_data fuel st live size st' p q i :
  run_inv st live -> 0 <= size < word_max ->
  malloc fuel st size = Some (st', p) ->
  In q live -> 0 <= i < get_payload_size st (payload_to_header q) ->
  mem st' (q + i) = mem st (q + i) /\
  get_payload_size st' (payload_to_header q) =
    get_payload_size st (payload_to_header q).
Proof.
  intros (bs & fl & Hrep & Hperm) Hs Em Hq Hi.
  pose proof (malloc_correct fuel st bs fl size Hrep Hs) as Hc.
  rewrite Em in Hc.
  apply (Permutation_in _ Hperm) in Hq.
  destruct (live_payload _ _ _ _ Hrep Hq) as (c & Hcin & Ha & -> & Ep).
  destruct (malloc_keeps _ _ _ _ _ _ _ Hrep Hs Em) as (K & Hnew).
  split.
  - apply K. exists c. split; [exact Hcin|]. split; [exact Ha|]. lia.
  - destruct Hc as [(_ & ->)|(Hp & _)]; [reflexivity|].
    destruct (Hnew Hp) as (l1 & sA & rest & fl' & Hrep' & Hincl & _).
    rewrite Ep. apply (block_payload_size _ _ _ _ Hrep'); [|exact Ha].
    apply (alloc_incl_add l1 _ rest); [exact (Hincl c Hcin Ha)|exact Ha].
Qed.

(** X17: [malloc] never writes into the payload of a block that is
    already allocated: on a well-formed heap every byte of every live
    block reads the same after the call, and the block keeps its
    payload size. *)
Theorem malloc_preserves_live_data fuel st live size :
  run_inv st live -> 0 <= size < word_max ->
  match malloc fuel st size with
  | Some (st', p) =>
      forall q i, In q live ->
        0 <= i < get_payload_size st (payload_to_header q) ->
        mem st' (q + i) = mem st (q + i) /\
        get_payload_size st' (payload_to_header q) =
          get_payload_size st (payload_to_header q)
  | None => (fuel <= Z.to_nat (mem_max_addr st / 32))%nat
  end.
Proof.
  intros Hinv Hs.
  destruct (malloc fuel st size) as [[st' p]|] eqn:Em.
  - intros q i Hq Hi. exact (malloc_live_data _ _ _ _ _ _ _ _ Hinv Hs Em Hq Hi).
  - destruct Hinv as (bs & fl & Hrep & _).
    pose proof (malloc_correct fuel st bs fl size Hrep Hs) as Hc. rewrite Em in Hc.
    pose proof (heap_rep_list_length _ _ _ Hrep). lia.
Qed.

Lemma malloc_preserves_live_data_witness :
  match malloc 100 two_block_state 500 with
  | Some (st', p) =>
      forall q i, In q [144; 32] ->
        0 <= i < get_payload_size two_block_state (payload_to_header q) ->
        mem st' (q + i) = mem two_block_state (q + i) /\
        get_payload_size st' (payload_to_header q) =
          get_payload_size two_block_state (payload_to_header q)
  | None => (100 <= Z.to_nat (mem_max_addr two_block_state / 32))%nat
  end.
Proof.
  refine (malloc_preserves_live_data 100 two_block_state [144; 32] 500
            two_block_inv _).
  vm_compute. split; [discriminate|reflexivity].
Defined.

Lemma free_live_data st live p q i :
  run_inv st live -> In p live -> In q live -> q <> p ->
  0 <= i < get_payload_size st (payload_to_header q) ->
  mem (free st p) (q + i) = mem st (q + i) /\
  get_payload_size (free st p) (payload_to_header q) =
    get_payload_size st (payload_to_header q).
Proof.
  intros (bs & fl & Hrep & Hperm) Hp Hq Hne Hi.
  apply (Permutation_in _ Hperm) in Hp, Hq.
  destruct (live_payload _ _ _ _ Hrep Hq) as (c & Hcin & Ha & -> & Ep).
  apply in_live_ptrs in Hp. destruct Hp as (b & Hb & Hba & ->).
  destruct (in_split _ _ Hb) as (l1 & l2 & ->).
  assert (Hcin' : In c (l1 ++ l2)).
  { apply in_app_or in Hcin. apply in_or_app.
    destruct Hcin as [?|[E|?]]; [now left| |now right].
    subst c. destruct Hne. reflexivity. }
  split.
  - apply (free_keeps _ _ _ _ _ Hrep Hba).
    exists c. split; [exact Hcin'|]. split; [exact Ha|]. lia.
  - destruct (free_correct _ _ _ _ _ Hrep Hba) as (l1' & m & l2' & fl' & Hmc & Hrep' & _).
    rewrite Ep. apply (block_payload_size _ _ _ _ Hrep'); [|exact Ha].
    apply (alloc_incl_add l1' _ l2'); [|exact Ha].
    exact (merge_case_alloc_incl _ _ _ _ _ _ _ _ _ Hmc c Hcin' Ha).
Qed.

(** X18: [free] never writes into the payload of another live block:
    on a well-formed heap every byte of every other live block reads
    the same after the call, and the block keeps its payload size. *)
Theorem free_preserves_live_data st live p q i :
  run_inv st live -> In p live -> In q live -> q <> p ->
  0 <= i < get_payload_size st (payload_to_header q) ->
  mem (free st p) (q + i) = mem st (q + i) /\
  get_payload_size (free st p) (payload_to_header q) =
    get_payload_size st (payload_to_header q).
Proof. exact (free_live_data st live p q i). Qed.

Lemma free_preserves_live_data_witness :
  mem (free two_block_state 32) (144 + 5) = mem two_block_state (144 + 5) /\
  get_payload_size (free two_block_state 32) (payload_to_header 144) =
    get_payload_size two_block_state (payload_to_header 144).
Proof.
  refine (free_preserves_live_data two_block_state [144; 32] 32 144 5
            two_block_inv _ _ _ _).
  - right. now left.
  - now left.
  - discriminate.
  - vm_compute. split; [discriminate|reflexivity].
Defined.

(** X19: on a well-formed heap, a successful [realloc] of a live
    pointer to a size [0 < size <= 2^64 - 24] hands back a block whose
    first [min(old payload size, size)] bytes are the bytes the old
    block held, and leaves the contents of every other live block as
    they were. *)
Theorem realloc_moves_data fuel st live ptr size :
  run_inv st live -> In ptr live -> 0 < size -> size + 24 <= word_max ->
  match realloc fuel st ptr size with
  | Some (st', p') =>
      p' <> NULL ->
      (forall i,
         0 <= i < Z.min (get_payload_size st (payload_to_header ptr)) size ->
         mem st' (p' + i) = mem st (ptr + i)) /\
      (forall q i, In q live -> q <> ptr ->
         0 <= i < get_payload_size st (payload_to_header q) ->
         mem st' (q + i) = mem st (q + i))
  | None => (fuel <= Z.to_nat (mem_max_addr st / 32))%nat
  end.
Proof.
  intros Hinv Hptr Hs0 Hsb. pose proof word_max_val as Hwm.
  pose proof Hinv as (bs & fl & Hrep & Hperm).
  pose proof (Permutation_in _ Hperm Hptr) as Hptr'.
  destruct (live_payload _ _ _ _ Hrep Hptr') as (b & Hb & Hba & Eptr & Epb).
  destruct (seg_in _ _ _ _ _ _ (rep_seg _ _ _ Hrep) Hb) as (B1 & B2 & B3 & _).
  pose proof (rep_start _ _ _ Hrep) as Hst. rewrite min_block_size_val in B3.
  pose proof (malloc_correct fuel st bs fl size Hrep ltac:(lia)) as Hc.
  pose proof (heap_rep_list_length _ _ _ Hrep) as Hl.
  unfold realloc.
  destruct (Z.eqb_spec size 0); [lia|].
  destruct (Z.eqb_spec ptr NULL) as [E0|_]; [unfold NULL in E0; lia|].
  destruct (malloc fuel st size) as [[st1 np]|] eqn:Em; [|lia]. clear Hc.
  destruct (Z.eqb_spec np NULL) as [->|Hnp]; [intros F; now destruct F|].
  intros _.
  destruct (malloc_keeps fuel st bs fl size st1 np Hrep ltac:(lia) Em) as (K1 & Hnew).
  destruct (Hnew Hnp) as (l1 & sA & rest & fl' & Hrep1 & Hincl & Hsa & _ & Hperm1).
  set (blk := mkBlock (payload_to_header np) sA true) in *.
  assert (Hblk : In blk (l1 ++ blk :: rest)) by (apply in_or_app; right; now left).
  assert (Hold : alloc_incl bs (l1 ++ blk :: rest)).
  { intros c Hc Ha. apply (alloc_incl_add l1 blk rest); [exact (Hincl c Hc Ha)|exact Ha]. }
  assert (Hnew' : ~ In np live).
  { apply (run_inv_fresh_pointer _ _ _ _ _ _ _ Hrep1).
    rewrite Hperm1. apply perm_skip. symmetry. exact Hperm. }
  pose proof (adjust_size_fits size ltac:(lia) Hsb) as Hfit. unfold wsize in Hfit.
  assert (Eps : get_payload_size st1 (payload_to_header ptr) = bsize b - 8).
  { rewrite Eptr. exact (block_payload_size _ _ _ _ Hrep1 (Hold b Hb Hba) Hba). }
  rewrite Eps, Epb.
  set (cp := if size <? bsize b - 8 then size else bsize b - 8).
  assert (Ecp : cp = Z.min (bsize b - 8) size).
  { unfold cp. destruct (Z.ltb_spec size (bsize b - 8)); lia. }
  set (st2 := set_mem st1 (memcpy (mem st1) np ptr cp)).
  assert (Hrep2 : heap_rep st2 (l1 ++ blk :: rest) fl').
  { apply (heap_rep_payload_write st1 st2 _ _ blk Hrep1 Hblk); try reflexivity.
    intros x Hx. unfold st2. cbn [mem set_mem]. apply memcpy_outside.
    cbn [blk baddr bsize] in Hx. unfold payload_to_header in Hx. lia. }
  destruct (in_split _ _ (Hold b Hb Hba)) as (la & lb & Esplit).
  rewrite Esplit in Hrep2, Hrep1, Hblk.
  pose proof (free_keeps _ _ _ _ _ Hrep2 Hba) as K3.
  unfold header_to_payload in K3. rewrite <- Eptr in K3.
  assert (Hrest : forall c, In c (la ++ b :: lb) -> baddr c <> baddr b -> In c (la ++ lb)).
  { intros c Hc Hne. apply in_app_or in Hc. apply in_or_app.
    destruct Hc as [?|[E|?]]; [now left| |now right]. subst c. now destruct Hne. }
  assert (Hblk' : In blk (la ++ lb)).
  { apply Hrest; [exact Hblk|]. cbn [blk baddr]. unfold payload_to_header.
    intros E. apply Hnew'. replace np with ptr by lia. exact Hptr. }
  split.
  - intros i Hi.
    rewrite (K3 (np + i)).
    2:{ exists blk. split; [exact Hblk'|]. split; [reflexivity|].
        cbn [blk baddr bsize]. unfold payload_to_header. lia. }
    unfold st2. cbn [mem set_mem]. rewrite memcpy_inside by lia.
    replace (ptr + (np + i - np)) with (ptr + i) by lia.
    apply K1. exists b. split; [exact Hb|]. split; [exact Hba|]. lia.
  - intros q i Hq Hne Hi.
    pose proof (Permutation_in _ Hperm Hq) as Hq'.
    destruct (live_payload _ _ _ _ Hrep Hq') as (c & Hc & Hca & Eq & Epc).
    rewrite Epc in Hi.
    assert (Hc1 : In c (la ++ b :: lb)) by (rewrite <- Esplit; exact (Hold c Hc Hca)).
    assert (Hc2 : In c (la ++ lb)) by (apply Hrest; [exact Hc1|lia]).
    rewrite (K3 (q + i)) by (exists c; split; [exact Hc2|split; [exact Hca|lia]]).
    unfold st2. cbn [mem set_mem]. rewrite memcpy_outside.
    + apply K1. exists c. split; [exact Hc|]. split; [exact Hca|]. lia.
    + assert (Hcb : c <> blk).
      { intros ->. cbn [blk baddr] in Eq. unfold payload_to_header in Eq.
        apply Hnew'. replace np with q by lia. exact Hq. }
      destruct (seg_disjoint _ _ _ _ _ _ _ (rep_seg _ _ _ Hrep1) Hc1 Hblk) as [?|D];
        [contradiction|].
      cbn [blk baddr bsize] in D. unfold payload_to_header in D. lia.
Qed.

Lemma realloc_moves_data_witness :
  match realloc 100 two_block_state 32 200 with
  | Some (st', p') =>
      p' <> NULL ->
      (forall i,
         0 <= i < Z.min (get_payload_size two_block_state (payload_to_header 32)) 200 ->
         mem st' (p' + i) = mem two_block_state (32 + i)) /\
      (forall q i, In q [144; 32] -> q <> 32 ->
         0 <= i < get_payload_size two_block_state (payload_to_header q) ->
         mem st' (q + i) = mem two_block_state (q + i))
  | None => (100 <= Z.to_nat (mem_max_addr two_block_state / 32))%nat
  end.
Proof.
  refine (realloc_moves_data 100 two_block_state [144; 32] 32 200 two_block_inv _ _ _).
  - right. now left.
  - lia.
  - vm_compute. discriminate.
Defined.

Lemma heap_start_place st b asize : heap_start (place st b asize) = heap_start st.
Proof.
  unfold place. destruct (_ >=? _).
  - rewrite heap_start_coalesce. hs.
  - hs.
Qed.

Lemma heap_start_malloc fuel st size st' p :
  heap_start st <> NULL -> malloc fuel st size = Some (st', p) ->
  heap_start st' = heap_start st.
Proof.
  intros Hn Hm. unfold malloc in Hm.
  destruct (Z.eqb_spec (heap_start st) NULL); [contradiction|].
  destruct (size =? 0); [injection Hm as <- <-; reflexivity|].
  destruct (find_fit fuel st _) as [r|]; [|discriminate].
  destruct (r =? NULL).
  - match type of Hm with context [extend_heap ?s ?c] =>
      pose proof (heap_start_extend_heap s c) as E;
      destruct (extend_heap s c) as [st2 b] end.
    cbn [fst] in E. destruct (b =? NULL); injection Hm as <- <-.
    + exact E.
    + now rewrite heap_start_place.
  - injection Hm as <- <-. apply heap_start_place.
Qed.

(** X20: on a well-formed heap, the block behind a pointer returned by
    [malloc] is marked allocated, lies inside the heap, is at least the
    adjusted request and less than [min_block_size] bytes larger (a
    larger free block is split), and its payload is 16-byte aligned
    when the heap start is 8 modulo 16. *)
Theorem malloc_block_tight_and_aligned fuel st bs fl size :
  heap_rep st bs fl -> 0 < size < word_max ->
  match malloc fuel st size with
  | Some (st', p) =>
      p <> NULL ->
      get_alloc st' (payload_to_header p) = true /\
      adjust_size size <= get_size st' (payload_to_header p)
        < adjust_size size + min_block_size /\
      ((heap_start st + 8) mod 16 = 0 -> p mod 16 = 0) /\
      heap_start st + 8 <= p /\
      p + get_payload_size st' (payload_to_header p) <= mem_brk st' - 8
  | None => (fuel <= Z.to_nat (mem_max_addr st / 32))%nat
  end.
Proof.
  intros Hrep Hs. pose proof word_max_val as Hwm.
  pose proof (malloc_correct fuel st bs fl size Hrep ltac:(lia)) as Hc.
  pose proof (heap_rep_list_length _ _ _ Hrep) as Hl.
  destruct (malloc fuel st size) as [[st' p]|] eqn:Em; [|lia]. clear Hc.
  intros Hp.
  destruct (malloc_keeps fuel st bs fl size st' p Hrep ltac:(lia) Em) as (_ & Hnew).
  destruct (Hnew Hp) as (l1 & sA & rest & fl' & Hrep' & _ & Hsa & _ & _).
  set (blk := mkBlock (payload_to_header p) sA true) in *.
  assert (Hblk : In blk (l1 ++ blk :: rest)) by (apply in_or_app; right; now left).
  destruct (heap_rep_block_reads _ _ _ _ Hrep' Hblk) as (Egs & Eal & H32 & _).
  destruct (seg_in _ _ _ _ _ _ (rep_seg _ _ _ Hrep') Hblk) as (B1 & B2 & _).
  pose proof (seg_aligned _ _ _ _ _ _ (rep_seg _ _ _ Hrep') Hblk) as Hmod.
  pose proof (rep_start _ _ _ Hrep) as Hst. pose proof (rep_brk _ _ _ Hrep') as Hbk.
  assert (Ehs : heap_start st' = heap_start st).
  { apply (heap_start_malloc fuel st size st' p); [unfold NULL; lia|exact Em]. }
  rewrite Ehs in *. rewrite min_block_size_val in *.
  cbn [blk baddr bsize balloc] in *.
  unfold get_payload_size. rewrite Egs, Eal. unfold wsize.
  rewrite wrap_small by (unfold payload_to_header in *; lia).
  unfold payload_to_header in *.
  split; [reflexivity|]. split; [lia|]. split; [|lia].
  intros Hal.
  replace p with ((p - 8 - heap_start st) + (heap_start st + 8)) by lia.
  rewrite Z.add_mod, Hmod, Hal by lia. reflexivity.
Qed.

Lemma malloc_block_tight_and_aligned_witness :
  match malloc 100 one_block_state 50 with
  | Some (st', p) =>
      p <> NULL ->
      get_alloc st' (payload_to_header p) = true /\
      adjust_size 50 <= get_size st' (payload_to_header p)
        < adjust_size 50 + min_block_size /\
      ((heap_start one_block_state + 8) mod 16 = 0 -> p mod 16 = 0) /\
      heap_start one_block_state + 8 <= p /\
      p + get_payload_size st' (payload_to_header p) <= mem_brk st' - 8
  | None => (100 <= Z.to_nat (mem_max_addr one_block_state / 32))%nat
  end.
Proof.
  refine (malloc_block_tight_and_aligned 100 one_block_state _ [136] 50
            one_block_rep _).
  vm_compute. split; reflexivity.
Defined.

(** * [calloc], [free] and [place] once more *)

(** X21: [calloc] never writes into the payload of a block that is
    already allocated (for a product [elements * size] of at most
    [2^64 - 24]): every byte of every live block reads the same after
    the call. *)
Theorem calloc_preserves_live_data fuel st live elements size :
  run_inv st live ->
  0 < elements < word_max -> 0 <= size < word_max ->
  elements * size + 24 <= word_max ->
  match calloc fuel st elements size with
  | Ok (st', p) =>
      forall q i, In q live ->
        0 <= i < get_payload_size st (payload_to_header q) ->
        mem st' (q + i) = mem st (q + i)
  | OutOfFuel => (fuel <= Z.to_nat (mem_max_addr st / 32))%nat
  | DivisionByZero => False
  end.
Proof.
  intros (bs & fl & Hrep & Hperm) He Hs Hb. pose proof word_max_val as Hwm.
  unfold calloc.
  destruct (Z.eqb_spec elements 0); [lia|].
  destruct (Z.eqb_spec (wrap (elements * size) / elements) size) as [Ed|_];
    cbn [negb]; [|reflexivity].
  rewrite (calloc_product_exact elements size ltac:(lia) ltac:(lia) Ed).
  set (tot := elements * size) in *.
  assert (Hn0 : 0 <= tot) by (unfold tot; nia).
  pose proof (malloc_correct fuel st bs fl tot Hrep ltac:(lia)) as Hmc.
  pose proof (heap_rep_list_length _ _ _ Hrep) as Hl.
  destruct (malloc fuel st tot) as [[st1 bp]|] eqn:Em; [|lia]. clear Hmc.
  destruct (malloc_keeps fuel st bs fl tot st1 bp Hrep ltac:(lia) Em) as (K & Hnew).
  assert (Hq : forall q i, In q live ->
            0 <= i < get_payload_size st (payload_to_header q) ->
            in_payload bs (q + i)).
  { intros q i Hq Hi. apply (Permutation_in _ Hperm) in Hq.
    destruct (live_payload _ _ _ _ Hrep Hq) as (c & Hc & Ha & -> & Ep).
    exists c. split; [exact Hc|]. split; [exact Ha|]. lia. }
  destruct (Z.eqb_spec bp NULL) as [|Hnp].
  - intros q i Hin Hi. exact (K _ (Hq q i Hin Hi)).
  - intros q i Hin Hi. cbn [mem set_mem]. rewrite memset_outside.
    + exact (K _ (Hq q i Hin Hi)).
    + destruct (Hnew Hnp) as (l1 & sA & rest & fl' & Hrep1 & Hincl & Hsa & _).
      destruct (Hq q i Hin Hi) as (c & Hc & Ha & Hr).
      set (blk := mkBlock (payload_to_header bp) sA true) in *.
      assert (Hblk : In blk (l1 ++ blk :: rest)) by (apply in_or_app; right; now left).
      assert (Hc1 : In c (l1 ++ blk :: rest)).
      { apply (alloc_incl_add l1 blk rest); [exact (Hincl c Hc Ha)|exact Ha]. }
      pose proof (adjust_size_fits tot Hn0 Hb) as Hfit. unfold wsize in Hfit.
      destruct (seg_disjoint _ _ _ _ _ _ _ (rep_seg _ _ _ Hrep1) Hc1 Hblk) as [E|D].
      * exfalso. apply (Permutation_in _ Hperm) in Hin.
        apply in_live_ptrs in Hin. destruct Hin as (d & Hd & Hda & Eq).
        pose proof (NoDup_map_inv _ _ (seg_NoDup _ _ _ _ _ (rep_seg _ _ _ Hrep1))) as Hnd.
        apply NoDup_remove_2 in Hnd. apply Hnd. rewrite <- E.
        exact (Hincl c Hc Ha).
      * cbn [blk baddr bsize] in D. unfold payload_to_header in D. lia.
Qed.

Lemma calloc_preserves_live_data_witness :
  match calloc 100 two_block_state 10 20 with
  | Ok (st', p) =>
      forall q i, In q [144; 32] ->
        0 <= i < get_payload_size two_block_state (payload_to_header q) ->
        mem st' (q + i) = mem two_block_state (q + i)
  | OutOfFuel => (100 <= Z.to_nat (mem_max_addr two_block_state / 32))%nat
  | DivisionByZero => False
  end.
Proof.
  refine (calloc_preserves_live_data 100 two_block_state [144; 32] 10 20
            two_block_inv _ _ _).
  - vm_compute. split; reflexivity.
  - vm_compute. split; [discriminate|reflexivity].
  - vm_compute. discriminate.
Defined.

(** X22: after [free] of a live pointer the heap is well formed with
    that pointer no longer live, and the bytes of the released block
    lie inside a free block that is the head of the free list. *)
Theorem free_releases_block st live p :
  run_inv st live -> In p live ->
  let st' := free st p in
  let m := freelist_start st' in
  run_inv st' (remove Z.eq_dec p live) /\
  get_alloc st' m = false /\
  m <= payload_to_header p /\
  payload_to_header p + get_size st (payload_to_header p) <= m + get_size st' m.
Proof.
  intros Hinv Hp. cbn zeta. split; [exact (free_preserves _ _ _ Hinv Hp)|].
  destruct Hinv as (bs & fl & Hrep & Hperm).
  apply (Permutation_in _ Hperm) in Hp. apply in_live_ptrs in Hp.
  destruct Hp as (b & Hb & Ha & ->).
  destruct (heap_rep_block_reads _ _ _ _ Hrep Hb) as (Egs & _).
  destruct (in_split _ _ Hb) as (l1 & l2 & ->).
  destruct (heap_rep_split _ _ _ _ _ Hrep Ha) as (H & Hh & Hs32 & Hsm).
  destruct (hole_arith _ _ _ _ _ _ _ H) as (A1 & A2 & A3 & A4 & A5 & A6).
  pose proof (free_mark_pre _ _ _ _ _ _ H Hh Hs32 Hsm) as PC.
  destruct (coalesce_correct _ _ _ _ _ _ _ PC)
    as (l1' & m & l2' & fl' & Hmc & Hrep' & _ & Hm & Hfs & _).
  destruct (merge_case_size _ _ _ _ _ _ _ _ _ _ _ PC Hmc) as (_ & Hlo & Hhi).
  assert (Ef : free st (header_to_payload (baddr b)) =
               fst (coalesce (free_mark st (baddr b)) (baddr b))).
  { unfold free, header_to_payload, payload_to_header, NULL.
    destruct (Z.eqb_spec (baddr b + 8) 0) as [|_]; [lia|].
    replace (baddr b + 8 - 8) with (baddr b) by lia. reflexivity. }
  rewrite <- Ef in *.
  assert (Hmin : In m (l1' ++ m :: l2')) by (apply in_or_app; right; now left).
  destruct (heap_rep_block_reads _ _ _ _ Hrep' Hmin) as (Egm & Eam & _).
  rewrite Hfs, Egm, Eam.
  unfold header_to_payload, payload_to_header.
  replace (baddr b + 8 - 8) with (baddr b) by lia.
  rewrite Egs. split; [exact Hm|]. lia.
Qed.

Lemma free_releases_block_witness :
  let st' := free two_block_state 144 in
  let m := freelist_start st' in
  run_inv st' (remove Z.eq_dec 144 [144; 32]) /\
  get_alloc st' m = false /\
  m <= payload_to_header 144 /\
  payload_to_header 144 + get_size two_block_state (payload_to_header 144)
    <= m + get_size st' m.
Proof.
  refine (free_releases_block two_block_state [144; 32] 144 two_block_inv _).
  now left.
Defined.

(** X23: [place] on a free block of a well-formed heap marks the block
    allocated; it keeps the whole block when the remainder would be
    smaller than [min_block_size] and cuts it down to [asize]
    otherwise.  The heap invariants hold afterwards and no payload byte
    of another allocated block is written. *)
Theorem place_spec st l1 f l2 fl asize :
  heap_rep st (l1 ++ f :: l2) fl -> balloc f = false ->
  min_block_size <= asize -> asize mod 16 = 0 -> asize <= bsize f ->
  let st' := place st (baddr f) asize in
  get_alloc st' (baddr f) = true /\
  get_size st' (baddr f) =
    (if bsize f - asize >=? min_block_size then asize else bsize f) /\
  heap_invariants st' /\
  keeps (l1 ++ l2) st st'.
Proof.
  intros Hrep Hf H32 Hm Hle. cbn zeta.
  destruct (place_correct_keeps st l1 f l2 fl asize Hrep Hf H32 Hm Hle)
    as (sA & rest & fl' & Hrep' & _ & _ & _ & K & _ & Hx).
  set (blk := mkBlock (baddr f) sA true) in *.
  assert (Hblk : In blk (l1 ++ blk :: rest)) by (apply in_or_app; right; now left).
  destruct (heap_rep_block_reads _ _ _ _ Hrep' Hblk) as (Egs & Eal & _).
  cbn [blk baddr bsize balloc] in *.
  split; [exact Eal|]. split; [|split; [exact (heap_rep_invariants _ _ _ Hrep')|exact K]].
  rewrite Egs.
  destruct (Z.geb_spec (bsize f - asize) min_block_size); lia.
Qed.

Lemma place_spec_witness :
  let st' := place one_block_state 136 48 in
  get_alloc st' 136 = true /\
  get_size st' 136 = (if 3984 - 48 >=? min_block_size then 48 else 3984) /\
  heap_invariants st' /\
  keeps ([mkBlock 24 112 true] ++ []) one_block_state st'.
Proof.
  refine (place_spec one_block_state [mkBlock 24 112 true] (mkBlock 136 3984 false)
            [] [136] 48 one_block_rep _ _ _ _).
  - reflexivity.
  - vm_compute. discriminate.
  - reflexivity.
  - vm_compute. discriminate.
Defined.

(** * The break *)

(** X24: the allocator never gives memory back: [free] leaves the break
    where it is, and a [malloc] on a well-formed heap either leaves it
    too or, when the fit search found nothing, advances it by exactly
    [max(asize, chunksize)] bytes. *)
Theorem break_only_grows fuel st bs fl size st' p :
  heap_rep st bs fl -> 0 <= size < word_max ->
  malloc fuel st size = Some (st', p) ->
  (mem_brk st' = mem_brk st \/
   find_fit fuel st (adjust_size size) = Some NULL /\
   mem_brk st' = mem_brk st + max (adjust_size size) chunksize) /\
  (forall q, mem_brk (free st' q) = mem_brk st').
Proof.
  intros Hrep Hs Hm. pose proof word_max_val as Hwm.
  split; [|intros q; apply mem_brk_free].
  unfold malloc in Hm. rewrite (heap_rep_initialised _ _ _ Hrep) in Hm.
  destruct (size =? 0); [injection Hm as <- <-; now left|].
  destruct (adjust_size_ok size Hs) as (A1 & A2 & A3).
  destruct (max_ok _ A1 A2) as (M1 & M2 & M3 & M4).
  assert (M5 : max (adjust_size size) chunksize + 16 <= word_max).
  { destruct M4 as [->| ->]; [exact A3|]. rewrite Hwm. cbn. lia. }
  rewrite min_block_size_val in M1.
  destruct (find_fit fuel st (adjust_size size)) as [r|] eqn:Ef; [|discriminate].
  destruct (Z.eqb_spec r NULL) as [->|Hr].
  - pose proof (mem_brk_extend_heap st (max (adjust_size size) chunksize)) as Eb.
    rewrite round_up_aligned in Eb by lia.
    unfold extend_heap, mem_sbrk in Hm. rewrite round_up_aligned in Hm by lia.
    destruct (Z.leb_spec (mem_brk st + max (adjust_size size) chunksize) (mem_max_addr st))
      as [Hroom|Hfull].
    + specialize (Eb Hroom). unfold extend_heap, mem_sbrk in Eb.
      rewrite round_up_aligned in Eb by lia.
      destruct (Z.leb_spec (mem_brk st + max (adjust_size size) chunksize) (mem_max_addr st));
        [|lia].
      destruct (coalesce _ _) as [st1 blk]. cbn [fst] in Eb.
      destruct (blk =? NULL); injection Hm as <- <-; right; split; try reflexivity.
      * exact Eb.
      * rewrite mem_brk_place. exact Eb.
    + cbn in Hm. injection Hm as <- <-. now left.
  - injection Hm as <- <-. left. apply mem_brk_place.
Qed.

Lemma break_only_grows_witness :
  (mem_brk regrown_state = mem_brk one_block_state \/
   find_fit 100 one_block_state (adjust_size 200) = Some NULL /\
   mem_brk regrown_state = mem_brk one_block_state + max (adjust_size 200) chunksize) /\
  (forall q, mem_brk (free regrown_state q) = mem_brk regrown_state).
Proof.
  refine (break_only_grows 100 one_block_state _ [136] 200 regrown_state 144
            one_block_rep _ _).
  - vm_compute. split; [discriminate|reflexivity].
  - vm_compute. reflexivity.
Defined.

(** * The free list as a list *)

(** X25: [fl_remove] of a free node of a well-formed doubly linked free
    list leaves the list without that node, in the same order, with
    the head moved on when the node was the head; the two links of the
    node are cleared and only link words of list nodes are written. *)
Theorem fl_remove_unlinks_node st fl la x lb :
  dl st fl -> fl = la ++ x :: lb -> NoDup fl ->
  (forall z1 z2, In z1 fl -> In z2 fl ->
     z1 = z2 \/ z1 + 32 <= z2 \/ z2 + 32 <= z1) ->
  get_alloc st x = false ->
  let st' := fl_remove st x in
  dl st' (la ++ lb) /\
  get_prev st' x = NULL /\ get_next st' x = NULL /\
  (forall y, (forall z, In z fl -> y + 8 <= z + 8 \/ z + 24 <= y) ->
             load st' y = load st y).
Proof.
  intros Hdl E Hnd Hsep Hal. cbn zeta.
  destruct (fl_remove_dl st fl la x lb Hdl E Hnd Hsep Hal)
    as (A & B & C & _ & _ & _ & D).
  auto.
Qed.

Lemma NoDup_two (a b : Z) : a <> b -> NoDup [a; b].
Proof.
  intros H. constructor; [cbn; intros [F|[]]; congruence|].
  constructor; [cbn; tauto|constructor].
Qed.

Ltac two_nodes :=
  intros z1 z2 [<-|[<-|[]]] [<-|[<-|[]]]; lia.

Lemma neighbours_dl : dl neighbours_state [248; 24].
Proof. exact (rep_dl _ _ _ neighbours_rep). Qed.

Lemma fl_remove_unlinks_node_witness :
  let st' := fl_remove neighbours_state 24 in
  dl st' ([248] ++ []) /\
  get_prev st' 24 = NULL /\ get_next st' 24 = NULL /\
  (forall y, (forall z, In z [248; 24] -> y + 8 <= z + 8 \/ z + 24 <= y) ->
             load st' y = load neighbours_state y).
Proof.
  refine (fl_remove_unlinks_node neighbours_state [248; 24] [248] 24 []
            neighbours_dl _ _ _ _).
  - reflexivity.
  - apply NoDup_two. discriminate.
  - two_nodes.
  - vm_compute. reflexivity.
Defined.

Lemma fl_insert_dl st fl x :
  dl st fl -> NoDup fl ->
  (forall z1 z2, In z1 fl -> In z2 fl ->
     z1 = z2 \/ z1 + 32 <= z2 \/ z2 + 32 <= z1) ->
  0 < x < word_max -> 0 <= freelist_start st < word_max ->
  (forall z, In z fl -> z + 32 <= x \/ x + 32 <= z) ->
  get_prev st x = NULL -> get_next st x = NULL ->
  dl (fl_insert st x) (x :: fl) /\
  load (fl_insert st x) x = load st x.
Proof.
  intros Hdl Hnd Hsep Hx Hfs Hfar Hp Hn. unfold fl_insert, NULL in *.
  destruct (Z.eqb_spec x 0); [lia|].
  destruct fl as [|h t]; unfold dl in *; cbn [dlseg] in Hdl.
  - unfold NULL in *. rewrite Hdl. cbn [Z.eqb]. split; [|apply load_set_freelist_start].
    cbn [dlseg freelist_start set_freelist_start]. unfold get_prev, get_next in *.
    rewrite !load_set_freelist_start. unfold NULL. repeat split; auto; lia.
  - destruct Hdl as (Eh & Hh0 & Hhp & Ht). unfold NULL in *.
    destruct (Z.eqb_spec (freelist_start st) 0); [lia|].
    unfold set_next, set_prev. rewrite freelist_start_store, Eh in *.
    pose proof (Hfar h (or_introl eq_refl)) as Fh.
    split.
    + cbn [dlseg freelist_start set_freelist_start]. unfold get_prev, get_next in *.
      rewrite !load_set_freelist_start.
      split; [reflexivity|]. split; [unfold NULL; lia|].
      split; [rewrite !load_store_other by lia; exact Hp|].
      split; [rewrite load_store_other by lia; apply load_store_same; lia|].
      split; [exact Hh0|].
      split; [apply load_store_same; lia|].
      rewrite !load_store_other by lia.
      apply (dlseg_agree st); [|exact Ht].
      intros z Hz. unfold get_prev, get_next. rewrite !load_set_freelist_start.
      pose proof (Hfar z (or_intror Hz)) as Fz.
      assert (Hzh : z + 32 <= h \/ h + 32 <= z).
      { destruct (Hsep z h (or_intror Hz) (or_introl eq_refl)) as [->|?]; [|assumption].
        inversion Hnd; contradiction. }
      rewrite !load_store_other by lia. split; reflexivity.
    + rewrite load_set_freelist_start, !load_store_other by lia. reflexivity.
Qed.

(** X26: [fl_insert] of a block with cleared links, away from the nodes
    of a well-formed doubly linked free list, gives the well-formed
    list with the block in front; a following [fl_remove] of the same
    block gives back the list it started from. *)
Theorem fl_insert_then_fl_remove st fl x :
  dl st fl -> NoDup fl ->
  (forall z1 z2, In z1 fl -> In z2 fl ->
     z1 = z2 \/ z1 + 32 <= z2 \/ z2 + 32 <= z1) ->
  0 < x < word_max -> 0 <= freelist_start st < word_max ->
  (forall z, In z fl -> z + 32 <= x \/ x + 32 <= z) ->
  get_prev st x = NULL -> get_next st x = NULL -> get_alloc st x = false ->
  dl (fl_insert st x) (x :: fl) /\
  dl (fl_remove (fl_insert st x) x) fl.
Proof.
  intros Hdl Hnd Hsep Hx Hfs Hfar Hp Hn Hal.
  destruct (fl_insert_dl st fl x Hdl Hnd Hsep Hx Hfs Hfar Hp Hn) as (Hdl' & Eh).
  split; [exact Hdl'|].
  assert (Hnd' : NoDup (x :: fl)).
  { constructor; [|exact Hnd]. intros Hin. specialize (Hfar x Hin). lia. }
  assert (Hsep' : forall z1 z2, In z1 (x :: fl) -> In z2 (x :: fl) ->
            z1 = z2 \/ z1 + 32 <= z2 \/ z2 + 32 <= z1).
  { intros z1 z2 [<-|H1] [<-|H2].
    - now left.
    - specialize (Hfar z2 H2). lia.
    - specialize (Hfar z1 H1). lia.
    - exact (Hsep z1 z2 H1 H2). }
  assert (Hal' : get_alloc (fl_insert st x) x = false).
  { unfold get_alloc in *. rewrite Eh. exact Hal. }
  exact (proj1 (fl_remove_dl (fl_insert st x) (x :: fl) [] x fl Hdl' eq_refl
                  Hnd' Hsep' Hal')).
Qed.

Lemma fl_insert_then_fl_remove_witness :
  dl (fl_insert neighbours_state 1000) (1000 :: [248; 24]) /\
  dl (fl_remove (fl_insert neighbours_state 1000) 1000) [248; 24].
Proof.
  refine (fl_insert_then_fl_remove neighbours_state [248; 24] 1000
            neighbours_dl _ _ _ _ _ _ _ _).
  - apply NoDup_two. discriminate.
  - two_nodes.
  - vm_compute. split; reflexivity.
  - vm_compute. split; [discriminate|reflexivity].
  - intros z [<-|[<-|[]]]; lia.
  - vm_compute. reflexivity.
  - vm_compute. reflexivity.
  - vm_compute. reflexivity.
Defined.

(** * Along a sequence of operations *)

Lemma free_null st : free st NULL = st.
Proof. reflexivity. Qed.

Lemma run_live_data fuel M q i : forall ops st live,
  run_inv st live -> mem_max_addr st = M ->
  In q live -> ~ In (Free q) ops ->
  0 <= i < get_payload_size st (payload_to_header q) ->
  match run fuel st live ops with
  | Finished st' live' =>
      In q live' /\ mem st' (q + i) = mem st (q + i) /\
      get_payload_size st' (payload_to_header q) =
        get_payload_size st (payload_to_header q)
  | TimedOut => (fuel <= Z.to_nat (M / 32))%nat
  | Misused => True
  end.
Proof.
  induction ops as [|o ops IH]; intros st live Hinv HM Hq Hnf Hi; cbn [run].
  - auto.
  - assert (Hnf' : ~ In (Free q) ops) by (intros F; apply Hnf; now right).
    destruct o as [size|bp].
    + destruct ((0 <=? size) && (size <? word_max)) eqn:Er; [|exact I].
      apply andb_prop in Er. destruct Er as (R1 & R2).
      apply Z.leb_le in R1. apply Z.ltb_lt in R2.
      destruct (malloc fuel st size) as [[st1 p]|] eqn:Em.
      * destruct (malloc_live_data _ _ _ _ _ _ q i Hinv (conj R1 R2) Em Hq Hi)
          as (E1 & E2).
        pose proof (malloc_preserves _ _ _ _ _ _ Hinv (conj R1 R2) Em) as Hinv1.
        pose proof (mem_max_addr_malloc _ _ _ _ _ Em) as HM1.
        assert (Hq1 : In q (if p =? NULL then live else p :: live)).
        { destruct (p =? NULL); [exact Hq|now right]. }
        specialize (IH st1 _ Hinv1 ltac:(congruence) Hq1 Hnf' ltac:(rewrite E2; exact Hi)).
        destruct (run fuel st1 _ ops) as [st' live'| |]; auto.
        destruct IH as (I1 & I2 & I3). rewrite I2, I3. auto.
      * destruct Hinv as (bs & fl & Hrep & _).
        pose proof (malloc_correct fuel st bs fl size Hrep (conj R1 R2)) as Hc.
        rewrite Em in Hc. pose proof (heap_rep_list_length _ _ _ Hrep).
        rewrite <- HM. lia.
    + destruct (Z.eqb_spec bp NULL) as [->|Hbp].
      * rewrite free_null. exact (IH st live Hinv HM Hq Hnf' Hi).
      * destruct (existsb (Z.eqb bp) live) eqn:Ex; [|exact I].
        apply existsb_exists in Ex. destruct Ex as (y & Hy & Ey).
        apply Z.eqb_eq in Ey. subst y.
        assert (Hne : q <> bp) by (intros ->; apply Hnf; now left).
        destruct (free_live_data st live bp q i Hinv Hy Hq Hne Hi) as (E1 & E2).
        pose proof (free_preserves _ _ _ Hinv Hy) as Hinv1.
        assert (Hq1 : In q (remove Z.eq_dec bp live)) by (apply in_in_remove; assumption).
        specialize (IH (free st bp) _ Hinv1
                      ltac:(rewrite mem_max_addr_free; exact HM) Hq1 Hnf'
                      ltac:(rewrite E2; exact Hi)).
        destruct (run fuel (free st bp) _ ops) as [st' live'| |]; auto.
        destruct IH as (I1 & I2 & I3). rewrite I2, I3. auto.
Qed.

(** X27: along every sequence of [malloc]/[free] calls on a well-formed
    heap, a live pointer that the sequence does not free stays live,
    its block keeps its payload size, and every byte of its payload
    reads at the end what it read at the start. *)
Theorem run_preserves_live_data fuel ops st live q i :
  run_inv st live -> In q live -> ~ In (Free q) ops ->
  0 <= i < get_payload_size st (payload_to_header q) ->
  match run fuel st live ops with
  | Finished st' live' =>
      In q live' /\ mem st' (q + i) = mem st (q + i) /\
      get_payload_size st' (payload_to_header q) =
        get_payload_size st (payload_to_header q)
  | TimedOut => (fuel <= Z.to_nat (mem_max_addr st / 32))%nat
  | Misused => True
  end.
Proof.
  intros Hinv Hq Hnf Hi.
  exact (run_live_data fuel (mem_max_addr st) q i ops st live Hinv eq_refl Hq Hnf Hi).
Qed.

Lemma run_preserves_live_data_witness :
  match run 100 two_block_state [144; 32] [Malloc 500; Free 32; Malloc 40] with
  | Finished st' live' =>
      In 144 live' /\ mem st' (144 + 5) = mem two_block_state (144 + 5) /\
      get_payload_size st' (payload_to_header 144) =
        get_payload_size two_block_state (payload_to_header 144)
  | TimedOut => (100 <= Z.to_nat (mem_max_addr two_block_state / 32))%nat
  | Misused => True
  end.
Proof.
  refine (run_preserves_live_data 100 [Malloc 500; Free 32; Malloc 40]
            two_block_state [144; 32] 144 5 two_block_inv _ _ _).
  - now left.
  - intros [F|[F|[F|[]]]]; discriminate.
  - vm_compute. split; [discriminate|reflexivity].
Defined.

(** * No block is lost *)

Lemma seg_total st : forall bs lo pa hi,
  seg st lo pa bs hi -> lo + fold_right Z.add 0 (map bsize bs) = hi.
Proof.
  induction bs as [|b bs IH]; intros lo pa hi H; cbn in *; [lia|].
  destruct H as (_ & _ & H). specialize (IH _ _ _ H). lia.
Qed.

Lemma heap_rep_accounting st bs fl live :
  heap_rep st bs fl -> Permutation live (live_ptrs bs) ->
  let hb := map baddr bs in
  heap_walk st (heap_start st) hb (mem_brk st - 8) /\
  heap_start st + walk_bytes st hb = mem_brk st - 8 /\
  NoDup live /\
  (forall p, In p live <->
             exists x, In x hb /\ get_alloc st x = true /\ p = header_to_payload x) /\
  (forall x, In x hb -> get_alloc st x = false -> In x fl).
Proof.
  intros H Hperm. cbn zeta.
  split; [exact (heap_rep_walk _ _ _ H)|]. split; [|split; [|split]].
  - unfold walk_bytes. rewrite map_map.
    rewrite (map_ext_in _ bsize).
    + exact (seg_total _ _ _ _ _ (rep_seg _ _ _ H)).
    + intros b Hb. exact (proj1 (heap_rep_block_reads _ _ _ _ H Hb)).
  - apply (Permutation_NoDup (Permutation_sym Hperm)).
    exact (live_ptrs_NoDup _ _ _ _ _ (rep_seg _ _ _ H)).
  - intros p. split.
    + intros Hp. apply (Permutation_in _ Hperm) in Hp. apply in_live_ptrs in Hp.
      destruct Hp as (b & Hb & Ha & ->). exists (baddr b).
      split; [apply in_map; exact Hb|]. split; [|reflexivity].
      destruct (heap_rep_block_reads _ _ _ _ H Hb) as (_ & -> & _). exact Ha.
    + intros (x & Hx & Ha & ->). apply in_map_iff in Hx. destruct Hx as (b & <- & Hb).
      apply (Permutation_in _ (Permutation_sym Hperm)). apply in_live_ptrs.
      exists b. split; [exact Hb|]. split; [|reflexivity].
      destruct (heap_rep_block_reads _ _ _ _ H Hb) as (_ & <- & _). exact Ha.
  - intros x Hx Ha. apply in_map_iff in Hx. destruct Hx as (b & <- & Hb).
    apply (Permutation_in _ (Permutation_sym (rep_perm _ _ _ H))).
    apply in_free_addrs. exists b. split; [exact Hb|]. split; [reflexivity|].
    destruct (heap_rep_block_reads _ _ _ _ H Hb) as (_ & <- & _). exact Ha.
Qed.

(** * Clients that write into their blocks *)

(** A byte stored inside the payload of a live block leaves the heap
    well formed: the headers, footers and list links all lie outside
    the payloads of allocated blocks. *)
Lemma client_write_preserves st live bp off v :
  run_inv st live -> In bp live ->
  0 <= off < get_payload_size st (payload_to_header bp) ->
  run_inv (set_mem st (store8 (mem st) (bp + off) v)) live.
Proof.
  intros (bs & fl & Hrep & Hperm) Hbp Hoff.
  pose proof (Permutation_in _ Hperm Hbp) as Hq.
  destruct (live_payload _ _ _ _ Hrep Hq) as (c & Hc & Ha & Eq & Ep).
  exists bs, fl. split; [|exact Hperm].
  apply (heap_rep_payload_write st _ bs fl c Hrep Hc Ha); try reflexivity.
  intros x Hx. cbn [mem set_mem]. unfold store8.
  destruct (Z.eqb_spec x (bp + off)); [lia|reflexivity].
Qed.

Lemma client_run_correct fuel M : forall ops st live,
  run_inv st live -> mem_max_addr st = M ->
  match client_run fuel st live ops with
  | Finished st' live' => run_inv st' live' /\ mem_max_addr st' = M
  | TimedOut => (fuel <= Z.to_nat (M / 32))%nat
  | Misused => True
  end.
Proof.
  induction ops as [|o ops IH]; intros st live Hinv HM; cbn [client_run].
  - auto.
  - destruct o as [size|bp|bp off v].
    + destruct (Z.leb_spec 0 size); [|exact I].
      destruct (Z.ltb_spec size word_max); [|exact I]. cbn [andb].
      destruct (malloc fuel st size) as [[st' p]|] eqn:Em.
      * apply IH.
        -- eapply malloc_preserves; eauto.
        -- rewrite (mem_max_addr_malloc _ _ _ _ _ Em). exact HM.
      * destruct Hinv as (bs & fl & Hrep & _).
        pose proof (malloc_correct fuel st bs fl size Hrep ltac:(lia)) as Hc.
        rewrite Em in Hc.
        pose proof (heap_rep_list_length _ _ _ Hrep). subst M. lia.
    + destruct (Z.eqb_spec bp NULL) as [->|Hnz].
      * apply IH; [exact Hinv|exact HM].
      * destruct (existsb (Z.eqb bp) live) eqn:Eex; [|exact I].
        apply existsb_exists in Eex. destruct Eex as (x & Hx & Ex).
        apply Z.eqb_eq in Ex. subst x.
        apply IH.
        -- now apply free_preserves.
        -- now rewrite mem_max_addr_free.
    + destruct (existsb (Z.eqb bp) live) eqn:Eex; [|exact I].
      destruct (Z.leb_spec 0 off); [|exact I].
      destruct (Z.ltb_spec off (get_payload_size st (payload_to_header bp)));
        [|exact I].
      cbn [andb].
      apply existsb_exists in Eex. destruct Eex as (x & Hx & Ex).
      apply Z.eqb_eq in Ex. subst x.
      apply IH.
      * apply client_write_preserves; [exact Hinv|exact Hx|lia].
      * exact HM.
Qed.

Lemma mm_init_run_inv st0 :
  0 <= mem_brk st0 -> mem_max_addr st0 < word_max ->
  fst (mm_init st0) = true -> run_inv (snd (mm_init st0)) [].
Proof.
  intros Hb Hm Hinit.
  destruct (mm_init_correct st0 Hb Hm Hinit) as (bs & fl & Hrep & Hlive).
  exists bs, fl. split; [exact Hrep|]. rewrite Hlive. constructor.
Qed.

(** C1: starting from a successfully initialised heap, after every
    operation of every sequence of [malloc] and [free] calls,
    interleaved with any writes of the client into the payloads of the
    blocks it holds, the heap invariants hold: no two adjacent free
    blocks, every [prev_alloc] bit equal to the alloc state of the
    physical predecessor, every size at least 32 and a multiple of 16,
    and the free list holding exactly the free blocks of the heap, each
    once.  An operation can only fail to complete when the fuel given
    to the fit search is below the number of blocks the heap can hold. *)
Theorem heap_invariants_after_every_operation fuel st0 ops :
  0 <= mem_brk st0 -> mem_max_addr st0 < word_max ->
  fst (mm_init st0) = true ->
  forall k,
    match client_run fuel (snd (mm_init st0)) [] (firstn k ops) with
    | Finished st' _ => heap_invariants st'
    | TimedOut => (fuel <= Z.to_nat (mem_max_addr st0 / 32))%nat
    | Misused => True
    end.
Proof.
  intros Hb Hm Hinit k.
  pose proof (client_run_correct fuel (mem_max_addr st0) (firstn k ops) _ _
                (mm_init_run_inv st0 Hb Hm Hinit)
                (mem_max_addr_mm_init st0)) as Hrun.
  destruct (client_run fuel (snd (mm_init st0)) [] (firstn k ops))
    as [st' live'| |].
  - destruct Hrun as ((bs' & fl' & Hrep' & _) & _).
    exact (heap_rep_invariants _ _ _ Hrep').
  - exact Hrun.
  - exact I.
Qed.

Lemma heap_invariants_after_every_operation_witness :
  match
    client_run 100 (snd (mm_init fresh_state)) []
        (firstn (length scribble_ops) scribble_ops)
  with
  | Finished st' _ => heap_invariants st'
  | TimedOut => (100 <= Z.to_nat (mem_max_addr fresh_state / 32))%nat
  | Misused => True
  end.
Proof.
  refine (heap_invariants_after_every_operation 100 fresh_state scribble_ops
            _ _ _ (length scribble_ops)).
  - vm_compute. discriminate.
  - vm_compute. reflexivity.
  - vm_compute. reflexivity.
Defined.



(** X28: starting from a successfully initialised heap, after every
    operation of every sequence of [malloc] and [free] calls,
    interleaved with any writes of the client into the payloads of the
    blocks it holds, the blocks tile the heap from [heap_start] to the
    epilogue header at [mem_brk - 8]; the pointers handed out and not
    yet freed are distinct and are exactly the payloads of the blocks
    marked allocated, and every other block is on the free list: no
    block is lost. *)
Theorem no_block_is_lost fuel st0 ops :
  0 <= mem_brk st0 -> mem_max_addr st0 < word_max ->
  fst (mm_init st0) = true ->
  forall k,
    match client_run fuel (snd (mm_init st0)) [] (firstn k ops) with
    | Finished st' live' =>
        exists hb fl,
          heap_walk st' (heap_start st') hb (mem_brk st' - 8) /\
          fl_walk st' (freelist_start st') fl /\
          heap_start st' + walk_bytes st' hb = mem_brk st' - 8 /\
          NoDup live' /\
          (forall p, In p live' <->
             exists x, In x hb /\ get_alloc st' x = true /\ p = header_to_payload x) /\
          (forall x, In x hb -> get_alloc st' x = false -> In x fl)
    | TimedOut => (fuel <= Z.to_nat (mem_max_addr st0 / 32))%nat
    | Misused => True
    end.
Proof.
  intros Hb Hm Hinit k.
  pose proof (client_run_correct fuel (mem_max_addr st0) (firstn k ops) _ _
                (mm_init_run_inv st0 Hb Hm Hinit)
                (mem_max_addr_mm_init st0)) as Hr.
  destruct (client_run fuel (snd (mm_init st0)) [] (firstn k ops))
    as [st' live'| |]; [|exact Hr|exact I].
  destruct Hr as ((bs' & fl' & Hrep' & Hperm') & _).
  destruct (heap_rep_accounting _ _ _ _ Hrep' Hperm') as (A & B & C & D & E).
  exists (map baddr bs'), fl'.
  split; [exact A|]. split; [exact (dlseg_fl_walk _ _ _ _ (rep_dl _ _ _ Hrep'))|].
  auto.
Qed.

Lemma no_block_is_lost_witness :
  match
    client_run 100 (snd (mm_init fresh_state)) []
        (firstn (length scribble_ops) scribble_ops)
  with
  | Finished st' live' =>
      exists hb fl,
        heap_walk st' (heap_start st') hb (mem_brk st' - 8) /\
        fl_walk st' (freelist_start st') fl /\
        heap_start st' + walk_bytes st' hb = mem_brk st' - 8 /\
        NoDup live' /\
        (forall p, In p live' <->
           exists x, In x hb /\ get_alloc st' x = true /\ p = header_to_payload x) /\
        (forall x, In x hb -> get_alloc st' x = false -> In x fl)
  | TimedOut => (100 <= Z.to_nat (mem_max_addr fresh_state / 32))%nat
  | Misused => True
  end.
Proof.
  refine (no_block_is_lost 100 fresh_state scribble_ops _ _ _
            (length scribble_ops)).
  - vm_compute. discriminate.
  - vm_compute. reflexivity.
  - vm_compute. reflexivity.
Defined.

(** * [realloc] as a whole *)

Lemma filled_inv : run_inv filled_state [32].
Proof.
  destruct one_block_inv as (bs & fl & Hrep & Hperm).
  assert (Hq : In 32 (live_ptrs bs)).
  { apply (Permutation_in _ Hperm). now left. }
  destruct (live_payload _ _ _ _ Hrep Hq) as (c & Hc & Ha & Eq & Ep).
  assert (E : get_payload_size one_block_state (payload_to_header 32) = 104)
    by (vm_compute; reflexivity).
  exists bs, fl. split; [|exact Hperm].
  unfold filled_state.
  generalize dependent one_block_state. intros st Hrep Ep E.
  apply (heap_rep_payload_write st _ bs fl c Hrep Hc Ha);
    [|reflexivity|reflexivity|reflexivity|reflexivity].
  intros x Hx. cbn [mem set_mem]. unfold memset.
  destruct (Z.leb_spec 32 x), (Z.ltb_spec x (32 + 104)); try reflexivity.
  exfalso. rewrite E in Ep. lia.
Qed.

(** C5: when the new size is within 23 bytes of [SIZE_MAX], [realloc]
    does not allocate a fresh block of the new size.  Evaluated at
    [realloc(32, SIZE_MAX)] on a well-formed heap whose one live block,
    104 bytes of payload at 32, the client has filled with 0xFF: the
    [malloc] inside succeeds with a block whose payload is 24 bytes, at
    144, in front of the free block at 168; the 104 bytes of the old
    payload are copied into it, over the header of that free block,
    which then reads 2^64 - 1; and the heap [realloc] returns no longer
    satisfies the heap invariants. *)
Theorem realloc_size_max_overruns_new_block :
  heap_invariants filled_state /\
  get_payload_size filled_state (payload_to_header 32) = 104 /\
  malloc 100 filled_state SIZE_MAX = Some (short_state, 144) /\
  get_payload_size short_state (payload_to_header 144) = 24 /\
  find_next short_state (payload_to_header 144) = 168 /\
  load short_state 168 = hdr 3952 true false /\
  option_map snd (realloc 100 filled_state 32 SIZE_MAX) = Some 144 /\
  load overrun_state 168 = word_max - 1 /\
  ~ heap_invariants overrun_state.
Proof.
  split.
  { destruct filled_inv as (bs & fl & Hrep & _).
    exact (heap_rep_invariants _ _ _ Hrep). }
  split; [vm_compute; reflexivity|].
  split; [vm_compute; reflexivity|].
  split; [vm_compute; reflexivity|].
  split; [vm_compute; reflexivity|].
  split; [vm_compute; reflexivity|].
  split; [vm_compute; reflexivity|].
  split; [vm_compute; reflexivity|].
  intros (hb & e & fl & _ & Hfl & _ & _ & _ & _ & _ & Hiff & _).
  assert (E1 : freelist_start overrun_state = 24) by (vm_compute; reflexivity).
  assert (E2 : get_next overrun_state 24 = 168) by (vm_compute; reflexivity).
  assert (E3 : get_alloc overrun_state 168 = true) by (vm_compute; reflexivity).
  rewrite E1 in Hfl.
  destruct fl as [|a fl]; [cbn [fl_walk] in Hfl; discriminate Hfl|].
  cbn [fl_walk] in Hfl. destruct Hfl as (<- & _ & Hfl). rewrite E2 in Hfl.
  destruct fl as [|a fl]; [cbn [fl_walk] in Hfl; discriminate Hfl|].
  cbn [fl_walk] in Hfl. destruct Hfl as (<- & _ & _).
  assert (Hin' : In 168 (24 :: 168 :: fl)) by (right; now left).
  destruct (proj1 (Hiff 168) Hin') as (_ & F). rewrite E3 in F. discriminate F.
Qed.

(** X29: on a well-formed heap, for a live pointer and a size of at
    most 2^64 - 24, [realloc] returns as soon as the fuel of the fit
    search exceeds the number of blocks the heap can hold.  With size 0
    it releases the pointer and returns NULL.  Otherwise either the
    fresh allocation fails, and it returns NULL with the state exactly
    as it was, nothing copied and nothing released; or it returns a
    pointer that was not live, to a block whose payload has at least
    [size] bytes and starts with the first [min(old payload size,
    size)] bytes of the old block, and the old pointer is released.
    With a null pointer and a non-zero size it is [malloc]. *)
Theorem realloc_contract fuel st live ptr size :
  run_inv st live -> In ptr live ->
  0 <= size -> size + 24 <= word_max ->
  (Z.to_nat (mem_max_addr st / 32) < fuel)%nat ->
  (size <> 0 -> realloc fuel st NULL size = malloc fuel st size) /\
  exists st' p',
    realloc fuel st ptr size = Some (st', p') /\
    if size =? 0 then
      p' = NULL /\ run_inv st' (remove Z.eq_dec ptr live)
    else if p' =? NULL then st' = st
    else
      ~ In p' live /\
      run_inv st' (p' :: remove Z.eq_dec ptr live) /\
      size <= get_payload_size st' (payload_to_header p') /\
      (forall i,
         0 <= i < Z.min (get_payload_size st (payload_to_header ptr)) size ->
         mem st' (p' + i) = mem st (ptr + i)).
Proof.
  intros Hinv Hptr Hs0 Hsb Hfuel. pose proof word_max_val as Hwm.
  split.
  { intros Hnz. unfold realloc.
    destruct (Z.eqb_spec size 0); [contradiction|]. reflexivity. }
  destruct (Z.eqb_spec size 0) as [->|Hnz].
  { exists (free st ptr), NULL. split; [reflexivity|]. split; [reflexivity|].
    exact (free_preserves _ _ _ Hinv Hptr). }
  pose proof Hinv as (bs & fl & Hrep & Hperm).
  pose proof (Permutation_in _ Hperm Hptr) as Hptr'.
  destruct (live_payload _ _ _ _ Hrep Hptr') as (b & Hb & Hba & Eptr & Epb).
  destruct (seg_in _ _ _ _ _ _ (rep_seg _ _ _ Hrep) Hb) as (B1 & B2 & B3 & _).
  pose proof (rep_start _ _ _ Hrep) as Hst. rewrite min_block_size_val in B3.
  pose proof (malloc_correct fuel st bs fl size Hrep ltac:(lia)) as Hc.
  pose proof (heap_rep_list_length _ _ _ Hrep) as Hl.
  destruct (realloc fuel st ptr size) as [[st' p']|] eqn:Er.
  2:{ exfalso. unfold realloc in Er.
      destruct (Z.eqb_spec size 0); [contradiction|].
      destruct (Z.eqb_spec ptr NULL) as [E0|_]; [unfold NULL in E0; lia|].
      destruct (malloc fuel st size) as [[st1 np]|]; [|lia].
      destruct (np =? NULL); discriminate. }
  exists st', p'. split; [reflexivity|].
  assert (Hpos : 0 < size) by lia.
  pose proof (realloc_run_inv _ _ _ _ _ _ _ Hinv Hptr Hpos Hsb Er) as Hinv'.
  unfold realloc in Er.
  destruct (Z.eqb_spec size 0); [contradiction|].
  destruct (Z.eqb_spec ptr NULL) as [E0|_]; [unfold NULL in E0; lia|].
  destruct (malloc fuel st size) as [[st1 np]|] eqn:Em; [|discriminate].
  destruct (Z.eqb_spec np NULL) as [->|Hnp].
  { injection Er as <- <-. cbn [Z.eqb NULL].
    destruct Hc as [(_ & E)|(F & _)]; [exact E|now destruct F]. }
  clear Hc.
  destruct (malloc_keeps fuel st bs fl size st1 np Hrep ltac:(lia) Em) as (K1 & Hnew).
  destruct (Hnew Hnp) as (l1 & sA & rest & fl' & Hrep1 & Hincl & Hsa & _ & Hperm1).
  set (blk := mkBlock (payload_to_header np) sA true) in *.
  assert (Hblk : In blk (l1 ++ blk :: rest)) by (apply in_or_app; right; now left).
  assert (Hold : alloc_incl bs (l1 ++ blk :: rest)).
  { intros c Hc Ha. apply (alloc_incl_add l1 blk rest); [exact (Hincl c Hc Ha)|exact Ha]. }
  assert (Hnew' : ~ In np live).
  { apply (run_inv_fresh_pointer _ _ _ _ _ _ _ Hrep1).
    rewrite Hperm1. apply perm_skip. symmetry. exact Hperm. }
  pose proof (adjust_size_fits size ltac:(lia) Hsb) as Hfit. unfold wsize in Hfit.
  assert (Eps : get_payload_size st1 (payload_to_header ptr) = bsize b - 8).
  { rewrite Eptr. exact (block_payload_size _ _ _ _ Hrep1 (Hold b Hb Hba) Hba). }
  rewrite Eps in Er. rewrite Epb.
  set (cp := if size <? bsize b - 8 then size else bsize b - 8) in Er.
  assert (Ecp : cp = Z.min (bsize b - 8) size).
  { unfold cp. destruct (Z.ltb_spec size (bsize b - 8)); lia. }
  set (st2 := set_mem st1 (memcpy (mem st1) np ptr cp)) in Er.
  injection Er as <- <-.
  destruct (Z.eqb_spec np NULL) as [|_]; [contradiction|].
  assert (Hrep2 : heap_rep st2 (l1 ++ blk :: rest) fl').
  { apply (heap_rep_payload_write st1 st2 _ _ blk Hrep1 Hblk); try reflexivity.
    intros x Hx. unfold st2. cbn [mem set_mem]. apply memcpy_outside.
    cbn [blk baddr bsize] in Hx. unfold payload_to_header in Hx. lia. }
  destruct (in_split _ _ (Hold b Hb Hba)) as (la & lb & Esplit).
  rewrite Esplit in Hrep2, Hrep1, Hblk.
  pose proof (free_keeps _ _ _ _ _ Hrep2 Hba) as K3.
  destruct (free_correct _ _ _ _ _ Hrep2 Hba)
    as (l1' & m & l2' & fl2 & Hmc & Hrep3 & Hm).
  unfold header_to_payload in K3, Hrep3. rewrite <- Eptr in K3, Hrep3.
  assert (Hblk' : In blk (la ++ lb)).
  { apply in_app_or in Hblk. apply in_or_app.
    destruct Hblk as [?|[E|?]]; [now left| |now right].
    exfalso. apply Hnew'. replace np with ptr; [exact Hptr|].
    rewrite E in Eptr. cbn [blk baddr] in Eptr.
    unfold payload_to_header in Eptr. lia. }
  split; [exact Hnew'|]. split; [exact Hinv'|]. split.
  - assert (Hin3 : In blk (l1' ++ m :: l2')).
    { pose proof (merge_case_alloc_incl _ _ _ _ _ _ _ _ _ Hmc blk Hblk' eq_refl) as Hi.
      apply in_app_or in Hi. apply in_or_app.
      destruct Hi; [now left|right; now right]. }
    pose proof (block_payload_size _ _ _ _ Hrep3 Hin3 eq_refl) as Ep3.
    cbn [blk baddr bsize] in Ep3. unfold payload_to_header in Ep3 at 2.
    replace (np - 8 + 8) with np in Ep3 by lia.
    rewrite Ep3. lia.
  - intros i Hi.
    rewrite (K3 (np + i)).
    2:{ exists blk. split; [exact Hblk'|]. split; [reflexivity|].
        cbn [blk baddr bsize]. unfold payload_to_header. lia. }
    unfold st2. cbn [mem set_mem]. rewrite memcpy_inside by lia.
    replace (ptr + (np + i - np)) with (ptr + i) by lia.
    apply K1. exists b. split; [exact Hb|]. split; [exact Hba|]. lia.
Qed.

Lemma realloc_contract_witness :
  (200 <> 0 ->
   realloc (Z.to_nat 40000) filled_state NULL 200 =
     malloc (Z.to_nat 40000) filled_state 200) /\
  exists st' p',
    realloc (Z.to_nat 40000) filled_state 32 200 = Some (st', p') /\
    if 200 =? 0 then
      p' = NULL /\ run_inv st' (remove Z.eq_dec 32 [32])
    else if p' =? NULL then st' = filled_state
    else
      ~ In p' [32] /\
      run_inv st' (p' :: remove Z.eq_dec 32 [32]) /\
      200 <= get_payload_size st' (payload_to_header p') /\
      (forall i,
         0 <= i < Z.min (get_payload_size filled_state (payload_to_header 32)) 200 ->
         mem st' (p' + i) = mem filled_state (32 + i)).
Proof.
  refine (realloc_contract (Z.to_nat 40000) filled_state [32] 32 200
            filled_inv _ _ _ _).
  - now left.
  - lia.
  - vm_compute. discriminate.
  - apply Nat.ltb_lt. vm_compute. reflexivity.
Defined.
